(** * Allocator and collector of alloc.c: a shallow embedding

    The development follows src/alloc.c.  Each module embeds one part of
    the file: Lisp objects and the sizes of the platform ([Lisp]), the
    red-black tree of allocated regions ([MemTree]), running out of memory
    ([MemoryFull]), and so on.  C pointers are integers ([Z]), the null
    pointer is [0], and a dereference of an address that holds no object
    yields [None].  The definitions come first; the proofs follow them. *)

From Stdlib Require Import ZArith Lia List Bool String SpecFloat.
From stdpp Require Import gmap list.

(** ** Lisp objects and the platform *)

Module Lisp.
Local Open Scope Z_scope.

(** A [Lisp_Object] is a tagged word.  The tag is the constructor; a symbol
    is named, an integer is its value (a fixnum or a bignum), a float
    carries its [double], and the other objects are the addresses of their
    structures. *)
Inductive Lisp_Object :=
| Lisp_Symbol (name : string)
| Lisp_Int (n : Z)
| Lisp_String (s : Z)
| Lisp_Vectorlike (v : Z)
| Lisp_Cons (c : Z)
| Lisp_Float (d : spec_float).

Definition Qnil : Lisp_Object := Lisp_Symbol "nil".
Definition Qt : Lisp_Object := Lisp_Symbol "t".

Definition NILP (o : Lisp_Object) : bool :=
  match o with
  | Lisp_Symbol name => String.eqb name "nil"
  | _ => false
  end.

Definition FLOATP (o : Lisp_Object) : bool :=
  match o with Lisp_Float _ => true | _ => false end.

Definition INTEGERP (o : Lisp_Object) : bool :=
  match o with Lisp_Int _ => true | _ => false end.

(** The sizes that lisp.h fixes for a platform; alloc.c computes its
    constants from them. *)
Record platform := {
  word_size : Z;                (* sizeof (Lisp_Object) *)
  header_size : Z;              (* offsetof (struct Lisp_Vector, contents) *)
  sizeof_bits_word : Z;
  BITS_PER_BITS_WORD : Z;
  sizeof_uintptr_t : Z;
  SIZE_WIDTH : Z;               (* the bits of a size_t *)
  sizeof_Lisp_Cons : Z;
  sizeof_Lisp_Symbol : Z;
  sizeof_Lisp_Float : Z;
  sizeof_Lisp_String : Z;
  sizeof_interval : Z;
  sizeof_buffer : Z;
  PSEUDOVECTOR_SIZE_BITS : Z;
  MOST_POSITIVE_FIXNUM : Z;
  PTRDIFF_MAX : Z;
  large_vector_contents_offset : Z;
  dead_object : Lisp_Object     (* the car of a cons that is free *)
}.

(** A 64-bit platform (LP64) with 62-bit fixnums. *)
Definition lp64 : platform :=
  {| word_size := 8; header_size := 8; sizeof_bits_word := 8;
     BITS_PER_BITS_WORD := 64; sizeof_uintptr_t := 8; SIZE_WIDTH := 64;
     sizeof_Lisp_Cons := 16; sizeof_Lisp_Symbol := 48;
     sizeof_Lisp_Float := 8; sizeof_Lisp_String := 32;
     sizeof_interval := 56; sizeof_buffer := 1064;
     PSEUDOVECTOR_SIZE_BITS := 12;
     MOST_POSITIVE_FIXNUM := 2 ^ 61 - 1;
     PTRDIFF_MAX := 2 ^ 63 - 1;
     large_vector_contents_offset := 8;
     dead_object := Lisp_String 0 |}.

(** [intmax_t] and [EMACS_INT] have 64 bits. *)
Definition INTMAX_MIN : Z := - 2 ^ 63.
Definition INTMAX_MAX : Z := 2 ^ 63 - 1.

End Lisp.

(** ** The tree of allocated regions ([mem_node], [mem_find], [mem_insert],
    [mem_delete]) *)

Module MemTree.
Local Open Scope Z_scope.

Inductive mem_type :=
| MEM_TYPE_NON_LISP
| MEM_TYPE_CONS
| MEM_TYPE_STRING
| MEM_TYPE_SYMBOL
| MEM_TYPE_FLOAT
| MEM_TYPE_VECTORLIKE
| MEM_TYPE_VBLOCK.

Inductive mem_color := MEM_BLACK | MEM_RED.

Definition color_eqb (a b : mem_color) : bool :=
  match a, b with
  | MEM_BLACK, MEM_BLACK | MEM_RED, MEM_RED => true
  | _, _ => false
  end.

(** [struct mem_node]. *)
Record mem_node := {
  n_left : Z;
  n_right : Z;
  n_parent : Z;
  n_start : Z;
  n_end : Z;
  n_color : mem_color;
  n_type : mem_type
}.

Definition NULL : Z := 0.

(** [MEM_NIL] is [&mem_z], the address of the static sentinel node. *)
Definition MEM_NIL : Z := 1.

(** The globals of the tree: the nodes in memory (the sentinel [mem_z]
    included, at [MEM_NIL]), [mem_root], and the two heap bounds. *)
Record mem_state := {
  nodes : gmap Z mem_node;
  mem_root : Z;
  min_heap_address : Z;
  max_heap_address : Z
}.

Definition with_nodes (m : gmap Z mem_node) (st : mem_state) : mem_state :=
  {| nodes := m; mem_root := mem_root st;
     min_heap_address := min_heap_address st;
     max_heap_address := max_heap_address st |}.

Definition with_root (r : Z) (st : mem_state) : mem_state :=
  {| nodes := nodes st; mem_root := r;
     min_heap_address := min_heap_address st;
     max_heap_address := max_heap_address st |}.

Definition upd_left (v : Z) (n : mem_node) : mem_node :=
  {| n_left := v; n_right := n_right n; n_parent := n_parent n;
     n_start := n_start n; n_end := n_end n; n_color := n_color n;
     n_type := n_type n |}.

Definition upd_right (v : Z) (n : mem_node) : mem_node :=
  {| n_left := n_left n; n_right := v; n_parent := n_parent n;
     n_start := n_start n; n_end := n_end n; n_color := n_color n;
     n_type := n_type n |}.

Definition upd_parent (v : Z) (n : mem_node) : mem_node :=
  {| n_left := n_left n; n_right := n_right n; n_parent := v;
     n_start := n_start n; n_end := n_end n; n_color := n_color n;
     n_type := n_type n |}.

Definition upd_color (c : mem_color) (n : mem_node) : mem_node :=
  {| n_left := n_left n; n_right := n_right n; n_parent := n_parent n;
     n_start := n_start n; n_end := n_end n; n_color := c;
     n_type := n_type n |}.

Definition upd_range (s e : Z) (ty : mem_type) (n : mem_node) : mem_node :=
  {| n_left := n_left n; n_right := n_right n; n_parent := n_parent n;
     n_start := s; n_end := e; n_color := n_color n;
     n_type := ty |}.

(** Reads [p->field] and writes [p->field = v]; [None] when [p] holds no
    node. *)
Definition rd {A} (f : mem_node -> A) (p : Z) (st : mem_state) : option A :=
  n ← nodes st !! p; Some (f n).

Definition wr (f : mem_node -> mem_node) (p : Z) (st : mem_state)
  : option mem_state :=
  n ← nodes st !! p; Some (with_nodes (<[p := f n]> (nodes st)) st).

(** The static initial contents, and [mem_init]. *)
Definition mem_z_zero : mem_node :=
  {| n_left := NULL; n_right := NULL; n_parent := NULL;
     n_start := NULL; n_end := NULL; n_color := MEM_BLACK;
     n_type := MEM_TYPE_NON_LISP |}.

Definition static_state : mem_state :=
  {| nodes := {[ MEM_NIL := mem_z_zero ]}; mem_root := NULL;
     min_heap_address := NULL; max_heap_address := NULL |}.

Definition mem_init (st : mem_state) : option mem_state :=
  st ← wr (upd_left MEM_NIL) MEM_NIL st;
  st ← wr (upd_right MEM_NIL) MEM_NIL st;
  st ← wr (upd_parent NULL) MEM_NIL st;
  st ← wr (upd_color MEM_BLACK) MEM_NIL st;
  st ← wr (fun n => upd_range NULL NULL (n_type n) n) MEM_NIL st;
  Some (with_root MEM_NIL st).

(** [mem_find]: the loop [while (start < p->start || start >= p->end)]. *)
Fixpoint mem_find_loop (fuel : nat) (start p : Z) (st : mem_state)
  : option Z :=
  match fuel with
  | O => None
  | S fuel =>
      n ← nodes st !! p;
      if (start <? n_start n) || (start >=? n_end n)
      then mem_find_loop fuel start
             (if start <? n_start n then n_left n else n_right n) st
      else Some p
  end.

Definition mem_find (start : Z) (st : mem_state) : option (Z * mem_state) :=
  if (start <? min_heap_address st) || (start >? max_heap_address st)
  then Some (MEM_NIL, st)
  else
    st ← wr (fun n => upd_range start (start + 1) (n_type n) n) MEM_NIL st;
    p ← mem_find_loop (size (nodes st)) start (mem_root st) st;
    Some (p, st).

(** [mem_rotate_left] and [mem_rotate_right]. *)
Definition mem_rotate_left (x : Z) (st : mem_state) : option mem_state :=
  y ← rd n_right x st;
  yl ← rd n_left y st;
  st ← wr (upd_right yl) x st;
  yl ← rd n_left y st;
  st ← (if negb (yl =? MEM_NIL) then wr (upd_parent x) yl st else Some st);
  xp ← rd n_parent x st;
  st ← (if negb (y =? MEM_NIL) then wr (upd_parent xp) y st else Some st);
  xp ← rd n_parent x st;
  st ← (if negb (xp =? NULL)
        then
          xpl ← rd n_left xp st;
          if x =? xpl then wr (upd_left y) xp st else wr (upd_right y) xp st
        else Some (with_root y st));
  st ← wr (upd_left x) y st;
  if negb (x =? MEM_NIL) then wr (upd_parent y) x st else Some st.

Definition mem_rotate_right (x : Z) (st : mem_state) : option mem_state :=
  y ← rd n_left x st;
  yr ← rd n_right y st;
  st ← wr (upd_left yr) x st;
  yr ← rd n_right y st;
  st ← (if negb (yr =? MEM_NIL) then wr (upd_parent x) yr st else Some st);
  xp ← rd n_parent x st;
  st ← (if negb (y =? MEM_NIL) then wr (upd_parent xp) y st else Some st);
  xp ← rd n_parent x st;
  st ← (if negb (xp =? NULL)
        then
          xpr ← rd n_right xp st;
          if x =? xpr then wr (upd_right y) xp st else wr (upd_left y) xp st
        else Some (with_root y st));
  st ← wr (upd_right x) y st;
  if negb (x =? MEM_NIL) then wr (upd_parent y) x st else Some st.

(** One turn of the loop of [mem_insert_fixup], entered with [x] not the
    root and [x->parent] red; the result is the next [x]. *)
Definition mem_insert_fixup_body (x : Z) (st : mem_state)
  : option (Z * mem_state) :=
  xp ← rd n_parent x st;
  xpp ← rd n_parent xp st;
  xppl ← rd n_left xpp st;
  if xp =? xppl then
    y ← rd n_right xpp st;
    yc ← rd n_color y st;
    if color_eqb yc MEM_RED then
      st ← wr (upd_color MEM_BLACK) xp st;
      st ← wr (upd_color MEM_BLACK) y st;
      xp ← rd n_parent x st;
      xpp ← rd n_parent xp st;
      st ← wr (upd_color MEM_RED) xpp st;
      xp ← rd n_parent x st;
      xpp ← rd n_parent xp st;
      Some (xpp, st)
    else
      xpr ← rd n_right xp st;
      '(x, st) ← (if x =? xpr
                  then st ← mem_rotate_left xp st; Some (xp, st)
                  else Some (x, st));
      xp ← rd n_parent x st;
      st ← wr (upd_color MEM_BLACK) xp st;
      xp ← rd n_parent x st;
      xpp ← rd n_parent xp st;
      st ← wr (upd_color MEM_RED) xpp st;
      xp ← rd n_parent x st;
      xpp ← rd n_parent xp st;
      st ← mem_rotate_right xpp st;
      Some (x, st)
  else
    y ← rd n_left xpp st;
    yc ← rd n_color y st;
    if color_eqb yc MEM_RED then
      st ← wr (upd_color MEM_BLACK) xp st;
      st ← wr (upd_color MEM_BLACK) y st;
      xp ← rd n_parent x st;
      xpp ← rd n_parent xp st;
      st ← wr (upd_color MEM_RED) xpp st;
      xp ← rd n_parent x st;
      xpp ← rd n_parent xp st;
      Some (xpp, st)
    else
      xpl ← rd n_left xp st;
      '(x, st) ← (if x =? xpl
                  then st ← mem_rotate_right xp st; Some (xp, st)
                  else Some (x, st));
      xp ← rd n_parent x st;
      st ← wr (upd_color MEM_BLACK) xp st;
      xp ← rd n_parent x st;
      xpp ← rd n_parent xp st;
      st ← wr (upd_color MEM_RED) xpp st;
      xp ← rd n_parent x st;
      xpp ← rd n_parent xp st;
      st ← mem_rotate_left xpp st;
      Some (x, st).

Fixpoint mem_insert_fixup_loop (fuel : nat) (x : Z) (st : mem_state)
  : option mem_state :=
  match fuel with
  | O => None
  | S fuel =>
      if x =? mem_root st then Some st
      else
        xp ← rd n_parent x st;
        c ← rd n_color xp st;
        if color_eqb c MEM_RED then
          '(x, st) ← mem_insert_fixup_body x st;
          mem_insert_fixup_loop fuel x st
        else Some st
  end.

Definition mem_insert_fixup (x : Z) (st : mem_state) : option mem_state :=
  st ← mem_insert_fixup_loop (size (nodes st)) x st;
  wr (upd_color MEM_BLACK) (mem_root st) st.

(** The descent of [mem_insert]: [while (c != MEM_NIL)]; the result is
    [parent]. *)
Fixpoint mem_insert_descend (fuel : nat) (start c parent : Z)
  (st : mem_state) : option Z :=
  match fuel with
  | O => None
  | S fuel =>
      if negb (c =? MEM_NIL) then
        n ← nodes st !! c;
        mem_insert_descend fuel start
          (if start <? n_start n then n_left n else n_right n) c st
      else Some parent
  end.

(** [mem_insert (start, end, type)]; [x] is the address that [xmalloc]
    returns for the new node. *)
Definition mem_insert (start end_ : Z) (type : mem_type) (x : Z)
  (st : mem_state) : option (Z * mem_state) :=
  let st :=
    if (min_heap_address st =? NULL) || (start <? min_heap_address st)
    then {| nodes := nodes st; mem_root := mem_root st;
            min_heap_address := start;
            max_heap_address := max_heap_address st |}
    else st in
  let st :=
    if (max_heap_address st =? NULL) || (end_ >? max_heap_address st)
    then {| nodes := nodes st; mem_root := mem_root st;
            min_heap_address := min_heap_address st;
            max_heap_address := end_ |}
    else st in
  parent ← mem_insert_descend (size (nodes st)) start (mem_root st) NULL st;
  let st :=
    with_nodes
      (<[x := {| n_left := MEM_NIL; n_right := MEM_NIL; n_parent := parent;
                 n_start := start; n_end := end_; n_color := MEM_RED;
                 n_type := type |}]> (nodes st)) st in
  st ← (if negb (parent =? NULL)
        then
          ps ← rd n_start parent st;
          if start <? ps then wr (upd_left x) parent st
          else wr (upd_right x) parent st
        else Some (with_root x st));
  st ← mem_insert_fixup x st;
  Some (x, st).

(** One turn of the loop of [mem_delete_fixup], entered with [x] not the
    root and [x] black; the result is the next [x]. *)
Definition mem_delete_fixup_body (x : Z) (st : mem_state)
  : option (Z * mem_state) :=
  xp ← rd n_parent x st;
  xpl ← rd n_left xp st;
  if x =? xpl then
    w ← rd n_right xp st;
    wc ← rd n_color w st;
    '(w, st) ← (if color_eqb wc MEM_RED
                then
                  st ← wr (upd_color MEM_BLACK) w st;
                  xp ← rd n_parent x st;
                  st ← wr (upd_color MEM_RED) xp st;
                  xp ← rd n_parent x st;
                  st ← mem_rotate_left xp st;
                  xp ← rd n_parent x st;
                  w ← rd n_right xp st;
                  Some (w, st)
                else Some (w, st));
    wl ← rd n_left w st;
    wlc ← rd n_color wl st;
    wr_ ← rd n_right w st;
    wrc ← rd n_color wr_ st;
    if color_eqb wlc MEM_BLACK && color_eqb wrc MEM_BLACK then
      st ← wr (upd_color MEM_RED) w st;
      xp ← rd n_parent x st;
      Some (xp, st)
    else
      wr_ ← rd n_right w st;
      wrc ← rd n_color wr_ st;
      '(w, st) ← (if color_eqb wrc MEM_BLACK
                  then
                    wl ← rd n_left w st;
                    st ← wr (upd_color MEM_BLACK) wl st;
                    st ← wr (upd_color MEM_RED) w st;
                    st ← mem_rotate_right w st;
                    xp ← rd n_parent x st;
                    w ← rd n_right xp st;
                    Some (w, st)
                  else Some (w, st));
      xp ← rd n_parent x st;
      xpc ← rd n_color xp st;
      st ← wr (upd_color xpc) w st;
      xp ← rd n_parent x st;
      st ← wr (upd_color MEM_BLACK) xp st;
      wr_ ← rd n_right w st;
      st ← wr (upd_color MEM_BLACK) wr_ st;
      xp ← rd n_parent x st;
      st ← mem_rotate_left xp st;
      Some (mem_root st, st)
  else
    w ← rd n_left xp st;
    wc ← rd n_color w st;
    '(w, st) ← (if color_eqb wc MEM_RED
                then
                  st ← wr (upd_color MEM_BLACK) w st;
                  xp ← rd n_parent x st;
                  st ← wr (upd_color MEM_RED) xp st;
                  xp ← rd n_parent x st;
                  st ← mem_rotate_right xp st;
                  xp ← rd n_parent x st;
                  w ← rd n_left xp st;
                  Some (w, st)
                else Some (w, st));
    wr_ ← rd n_right w st;
    wrc ← rd n_color wr_ st;
    wl ← rd n_left w st;
    wlc ← rd n_color wl st;
    if color_eqb wrc MEM_BLACK && color_eqb wlc MEM_BLACK then
      st ← wr (upd_color MEM_RED) w st;
      xp ← rd n_parent x st;
      Some (xp, st)
    else
      wl ← rd n_left w st;
      wlc ← rd n_color wl st;
      '(w, st) ← (if color_eqb wlc MEM_BLACK
                  then
                    wr_ ← rd n_right w st;
                    st ← wr (upd_color MEM_BLACK) wr_ st;
                    st ← wr (upd_color MEM_RED) w st;
                    st ← mem_rotate_left w st;
                    xp ← rd n_parent x st;
                    w ← rd n_left xp st;
                    Some (w, st)
                  else Some (w, st));
      xp ← rd n_parent x st;
      xpc ← rd n_color xp st;
      st ← wr (upd_color xpc) w st;
      xp ← rd n_parent x st;
      st ← wr (upd_color MEM_BLACK) xp st;
      wl ← rd n_left w st;
      st ← wr (upd_color MEM_BLACK) wl st;
      xp ← rd n_parent x st;
      st ← mem_rotate_right xp st;
      Some (mem_root st, st).

Fixpoint mem_delete_fixup_loop (fuel : nat) (x : Z) (st : mem_state)
  : option (Z * mem_state) :=
  match fuel with
  | O => None
  | S fuel =>
      if x =? mem_root st then Some (x, st)
      else
        c ← rd n_color x st;
        if color_eqb c MEM_BLACK then
          '(x, st) ← mem_delete_fixup_body x st;
          mem_delete_fixup_loop fuel x st
        else Some (x, st)
  end.

Definition mem_delete_fixup (x : Z) (st : mem_state) : option mem_state :=
  '(x, st) ← mem_delete_fixup_loop (size (nodes st)) x st;
  wr (upd_color MEM_BLACK) x st.

(** The loop [while (y->left != MEM_NIL) y = y->left] of [mem_delete]. *)
Fixpoint mem_delete_min (fuel : nat) (y : Z) (st : mem_state) : option Z :=
  match fuel with
  | O => None
  | S fuel =>
      yl ← rd n_left y st;
      if negb (yl =? MEM_NIL) then mem_delete_min fuel yl st else Some y
  end.

(** [mem_delete (z)], from [if (y->left != MEM_NIL) x = y->left] to the
    end, [y] being the node to unlink; [xfree (y)] removes the node from
    memory. *)
Definition mem_delete_unlink (z y : Z) (st : mem_state) : option mem_state :=
  yl ← rd n_left y st;
  yr ← rd n_right y st;
  let x := if negb (yl =? MEM_NIL) then yl else yr in
  yp ← rd n_parent y st;
  st ← wr (upd_parent yp) x st;
  yp ← rd n_parent y st;
  st ← (if negb (yp =? NULL)
        then
          ypl ← rd n_left yp st;
          if y =? ypl then wr (upd_left x) yp st
          else wr (upd_right x) yp st
        else Some (with_root x st));
  st ← (if negb (y =? z)
        then
          ys ← rd n_start y st;
          ye ← rd n_end y st;
          yt ← rd n_type y st;
          wr (upd_range ys ye yt) z st
        else Some st);
  yc ← rd n_color y st;
  st ← (if color_eqb yc MEM_BLACK then mem_delete_fixup x st else Some st);
  Some (with_nodes (delete y (nodes st)) st).

(** [mem_delete (z)], up to the choice of [y]. *)
Definition mem_delete (z : Z) (st : mem_state) : option mem_state :=
  if (z =? NULL) || (z =? MEM_NIL) then Some st
  else
    zl ← rd n_left z st;
    zr ← rd n_right z st;
    y ← (if (zl =? MEM_NIL) || (zr =? MEM_NIL) then Some z
         else mem_delete_min (size (nodes st)) zr st);
    mem_delete_unlink z y st.

(** [post o P]: the computation [o] returns a result, and the result
    satisfies [P]. *)
Definition post {A} (o : option A) (P : A -> Prop) : Prop :=
  exists r, o = Some r /\ P r.

(** *** The tree that a memory represents

    A node of the abstract tree carries the address of its [mem_node] and the
    region that the node records.  [rep m par t] says that the memory [m]
    holds [t], its root's [parent] field being [par]. *)

Record item := { i_start : Z; i_end : Z; i_type : mem_type }.

Inductive tree :=
| E
| T (c : mem_color) (l : tree) (a : Z) (d : item) (r : tree).

Definition rootp (t : tree) : Z :=
  match t with E => MEM_NIL | T _ _ a _ _ => a end.

Definition colorof (t : tree) : mem_color :=
  match t with E => MEM_BLACK | T c _ _ _ _ => c end.

Fixpoint addrs (t : tree) : list Z :=
  match t with E => [] | T _ l a _ r => addrs l ++ a :: addrs r end.

(** The regions in increasing order of their position in the tree. *)
Fixpoint items (t : tree) : list item :=
  match t with E => [] | T _ l _ d r => items l ++ d :: items r end.

(** The regions with the address of the node that records each. *)
Fixpoint entries (t : tree) : list (Z * item) :=
  match t with E => [] | T _ l a d r => entries l ++ (a, d) :: entries r end.

Fixpoint height (t : tree) : nat :=
  match t with E => O | T _ l _ _ r => S (Nat.max (height l) (height r)) end.

Definition mk (c : mem_color) (l r par : Z) (d : item) : mem_node :=
  {| n_left := l; n_right := r; n_parent := par;
     n_start := i_start d; n_end := i_end d; n_color := c;
     n_type := i_type d |}.

Fixpoint rep (m : gmap Z mem_node) (par : Z) (t : tree) : Prop :=
  match t with
  | E => True
  | T c l a d r =>
      m !! a = Some (mk c (rootp l) (rootp r) par d)
      /\ rep m a l /\ rep m a r
  end.

(** Contexts: the path from a subtree up to the root. *)
Inductive frame :=
| Fl (c : mem_color) (a : Z) (d : item) (r : tree)
| Fr (c : mem_color) (l : tree) (a : Z) (d : item).

Fixpoint plug (t : tree) (k : list frame) : tree :=
  match k with
  | [] => t
  | Fl c a d r :: k => plug (T c t a d r) k
  | Fr c l a d :: k => plug (T c l a d t) k
  end.

Definition kparent (k : list frame) : Z :=
  match k with
  | [] => NULL
  | Fl _ a _ _ :: _ | Fr _ _ a _ :: _ => a
  end.

Definition faddrs (f : frame) : list Z :=
  match f with
  | Fl _ a _ r => a :: addrs r
  | Fr _ l a _ => a :: addrs l
  end.

Fixpoint kaddrs (k : list frame) : list Z :=
  match k with [] => [] | f :: k => faddrs f ++ kaddrs k end.

Fixpoint repk (m : gmap Z mem_node) (k : list frame) (h : Z) : Prop :=
  match k with
  | [] => True
  | Fl c a d r :: k =>
      m !! a = Some (mk c h (rootp r) (kparent k) d)
      /\ rep m a r /\ repk m k a
  | Fr c l a d :: k =>
      m !! a = Some (mk c (rootp l) h (kparent k) d)
      /\ rep m a l /\ repk m k a
  end.

Definition faddr (f : frame) : Z :=
  match f with Fl _ a _ _ | Fr _ _ a _ => a end.

(** The root pointer of [plug t k], from the root pointer [h] of [t]. *)
Fixpoint kroot (h : Z) (k : list frame) : Z :=
  match k with [] => h | f :: k => kroot (faddr f) k end.

(** The entries to the left and to the right of the hole of a context. *)
Fixpoint kleft (k : list frame) : list (Z * item) :=
  match k with
  | [] => []
  | Fl _ _ _ _ :: k => kleft k
  | Fr _ l a d :: k => kleft k ++ entries l ++ [(a, d)]
  end.

Fixpoint kright (k : list frame) : list (Z * item) :=
  match k with
  | [] => []
  | Fl _ a d r :: k => (a, d) :: entries r ++ kright k
  | Fr _ _ _ _ :: k => kright k
  end.

Definition good_addr (a : Z) : Prop := a <> NULL /\ a <> MEM_NIL.

(** The context of the leaf that the descent of [mem_insert] reaches. *)
Fixpoint ins_ctx (s : Z) (t : tree) (k : list frame) : list frame :=
  match t with
  | E => k
  | T c l a d r =>
      if s <? i_start d then ins_ctx s l (Fl c a d r :: k)
      else ins_ctx s r (Fr c l a d :: k)
  end.

(** The leftmost node of a tree, as a subtree, and its context: what the
    loop [while (y->left != MEM_NIL)] of [mem_delete] reaches. *)
Fixpoint min_node (t : tree) : tree :=
  match t with
  | E => E
  | T _ l _ _ _ => match l with E => t | _ => min_node l end
  end.

Fixpoint min_ctx (t : tree) (k : list frame) : list frame :=
  match t with
  | E => k
  | T c l a d r =>
      match l with E => k | _ => min_ctx l (Fl c a d r :: k) end
  end.

(** What [x->parent = y->parent] makes of the sentinel when [x] is the
    sentinel. *)
Definition spliced_z (c : tree) (par : Z) (z : mem_node) : mem_node :=
  match c with E => upd_parent par z | _ => z end.

Definition dir_ok (s : Z) (k : list frame) : Prop :=
  match k with
  | [] => True
  | Fl _ _ d _ :: _ => s < i_start d
  | Fr _ _ _ d :: _ => i_start d <= s
  end.

(** The bounds after [mem_insert (start, end_, ...)]. *)
Definition bounds_after_insert (start end_ : Z) (st st' : mem_state) : Prop :=
  min_heap_address st' =
    (if (min_heap_address st =? NULL) || (start <? min_heap_address st)
     then start else min_heap_address st)
  /\ max_heap_address st' =
    (if (max_heap_address st =? NULL) || (end_ >? max_heap_address st)
     then end_ else max_heap_address st).

(** [Rep st t z]: the state holds the tree [t] below [mem_root], and the
    sentinel's contents are [z]. *)
Record Rep (st : mem_state) (t : tree) (z : mem_node) : Prop := {
  rep_tree : rep (nodes st) NULL t;
  rep_root : mem_root st = rootp t;
  rep_nodup : NoDup (addrs t);
  rep_good : Forall good_addr (addrs t);
  rep_z : nodes st !! MEM_NIL = Some z
}.

Definition same_bounds (st st' : mem_state) : Prop :=
  min_heap_address st' = min_heap_address st
  /\ max_heap_address st' = max_heap_address st.

(** *** Red-black trees *)

Fixpoint rbt (n : nat) (t : tree) : Prop :=
  match t with
  | E => n = O
  | T MEM_RED l _ _ r =>
      colorof l = MEM_BLACK /\ colorof r = MEM_BLACK /\ rbt n l /\ rbt n r
  | T MEM_BLACK l _ _ r =>
      match n with O => False | S n' => rbt n' l /\ rbt n' r end
  end.

Definition kblack (k : list frame) : Prop :=
  match k with
  | Fl MEM_BLACK _ _ _ :: _ | Fr MEM_BLACK _ _ _ :: _ => True
  | _ => False
  end.

(** [rbk n k]: the context [k] makes a red-black tree of any red-black
    tree of black height [n] whose root colour suits the first frame. *)
Fixpoint rbk (n : nat) (k : list frame) : Prop :=
  match k with
  | [] => True
  | Fl MEM_BLACK _ _ r :: k' => rbt n r /\ rbk (S n) k'
  | Fr MEM_BLACK l _ _ :: k' => rbt n l /\ rbk (S n) k'
  | Fl MEM_RED _ _ r :: k' =>
      rbt n r /\ colorof r = MEM_BLACK /\ kblack k' /\ rbk n k'
  | Fr MEM_RED l _ _ :: k' =>
      rbt n l /\ colorof l = MEM_BLACK /\ kblack k' /\ rbk n k'
  end.

Definition blacken (t : tree) : tree :=
  match t with E => E | T _ l a d r => T MEM_BLACK l a d r end.

(** The subtree at [x] in [mem_delete_fixup]: of black height [n], where
    [S n] is expected; a red root will be painted black. *)
Definition dinv (n : nat) (t : tree) : Prop :=
  (colorof t = MEM_BLACK /\ rbt n t)
  \/ (colorof t = MEM_RED /\ rbt (S n) (blacken t)).

Definition dneed (t : tree) (k : list frame) : nat :=
  match colorof t with
  | MEM_RED => 1%nat
  | MEM_BLACK => S (length k)
  end.

(** The three properties, as they are worded: the root is black; no red
    node has a red child; all paths from the root to a leaf count the same
    number of black nodes. *)
Definition root_black (t : tree) : Prop := colorof t = MEM_BLACK.

Fixpoint no_red_red (t : tree) : Prop :=
  match t with
  | E => True
  | T c l _ _ r =>
      (c = MEM_RED -> colorof l = MEM_BLACK /\ colorof r = MEM_BLACK)
      /\ no_red_red l /\ no_red_red r
  end.

Definition black_weight (c : mem_color) : nat :=
  match c with MEM_BLACK => 1%nat | MEM_RED => 0%nat end.

(** The black counts of all the paths from the root to a leaf. *)
Fixpoint path_blacks (t : tree) : list nat :=
  match t with
  | E => [O]
  | T c l _ _ r =>
      map (Nat.add (black_weight c)) (path_blacks l ++ path_blacks r)
  end.

Definition equal_black_height (t : tree) : Prop :=
  forall x y, In x (path_blacks t) -> In y (path_blacks t) -> x = y.

Definition red_black (t : tree) : Prop :=
  root_black t /\ no_red_red t /\ equal_black_height t.

(** The regions do not overlap and the tree is a search tree: along the
    tree every region is non-empty and ends before the next one starts. *)
Fixpoint ordered (lo : Z) (l : list item) : Prop :=
  match l with
  | [] => True
  | d :: l => lo <= i_start d /\ i_start d < i_end d /\ ordered (i_end d) l
  end.

Definition disjoint_items (d1 d2 : item) : Prop :=
  i_end d1 <= i_start d2 \/ i_end d2 <= i_start d1.

Definition no_overlap (l : list item) : Prop :=
  forall i j d1 d2,
    i <> j -> l !! i = Some d1 -> l !! j = Some d2 -> disjoint_items d1 d2.

Definition in_range (a : Z) (d : item) : bool :=
  (i_start d <=? a) && (a <? i_end d).

(** The node that the loop of [mem_find] reaches in a tree. *)
Fixpoint tfind (a : Z) (t : tree) : Z :=
  match t with
  | E => MEM_NIL
  | T _ l p d r =>
      if (a <? i_start d) || (a >=? i_end d)
      then (if a <? i_start d then tfind a l else tfind a r)
      else p
  end.

(** The heap bounds cover every region of the tree. *)
Definition bounds_ok (st : mem_state) (t : tree) : Prop :=
  forall d, d ∈ items t ->
    min_heap_address st <> NULL /\ min_heap_address st <= i_start d
    /\ max_heap_address st <> NULL /\ i_end d <= max_heap_address st.

(** *** The tree in use

    The callers of the tree: [lisp_malloc] inserts the region of a new
    block, [x] being the address of the new node; [lisp_free] and
    [sweep_vectors] call [mem_delete (mem_find (block))]; the marking code
    calls [mem_find]. *)
Inductive op :=
| Insert (start end_ : Z) (ty : mem_type) (x : Z)
| Free (block : Z)
| Find (addr : Z).

Definition exec (o : op) (st : mem_state) : option mem_state :=
  match o with
  | Insert s e ty x => r ← mem_insert s e ty x st; Some r.2
  | Free a => r ← mem_find a st; mem_delete r.1 r.2
  | Find a => r ← mem_find a st; Some r.2
  end.

Fixpoint run (ops : list op) (st : mem_state) : option mem_state :=
  match ops with
  | [] => Some st
  | o :: ops => st' ← exec o st; run ops st'
  end.

(** What a caller owes: a new region is not empty, does not start at the
    null address and overlaps no region of the tree; the new node is at an
    address that holds no node. *)
Definition valid_op (st : mem_state) (o : op) : bool :=
  match o with
  | Insert s e ty x =>
      (0 <? s) && (s <? e)
      && match nodes st !! x with None => true | Some _ => false end
      && negb (x =? NULL) && negb (x =? MEM_NIL)
      && forallb (fun pn : Z * mem_node =>
                    (pn.1 =? MEM_NIL) || (n_end pn.2 <=? s)
                    || (e <=? n_start pn.2))
           (map_to_list (nodes st))
  | Free _ | Find _ => true
  end.

Fixpoint valid_run (ops : list op) (st : mem_state) : bool :=
  match ops with
  | [] => true
  | o :: ops =>
      valid_op st o
      && match exec o st with
         | Some st' => valid_run ops st'
         | None => true
         end
  end.

(** The regions in use after a run, from the regions [acc] in use before
    it. *)
Fixpoint live (ops : list op) (acc : list item) : list item :=
  match ops with
  | [] => acc
  | Insert s e ty _ :: ops =>
      live ops ({| i_start := s; i_end := e; i_type := ty |} :: acc)
  | Free a :: ops =>
      live ops (List.filter (fun d => negb (in_range a d)) acc)
  | Find _ :: ops => live ops acc
  end.

(** The state after [mem_init]. *)
Definition initial_state : mem_state :=
  {| nodes :=
       {[ MEM_NIL :=
            {| n_left := MEM_NIL; n_right := MEM_NIL; n_parent := NULL;
               n_start := NULL; n_end := NULL; n_color := MEM_BLACK;
               n_type := MEM_TYPE_NON_LISP |} ]};
     mem_root := MEM_NIL;
     min_heap_address := NULL; max_heap_address := NULL |}.

(** The invariant of the tree: the state holds a red-black search tree of
    the regions in use, within the heap bounds. *)
Record Inv (st : mem_state) (t : tree) (R : list item) : Prop := {
  inv_rep : exists z, Rep st t z /\ n_color z = MEM_BLACK;
  inv_rbt : exists n, rbt n t;
  inv_black : colorof t = MEM_BLACK;
  inv_ordered : ordered 1 (items t);
  inv_bounds : bounds_ok st t;
  inv_live : items t ≡ₚ R
}.

End MemTree.

(** ** Running out of memory ([memory_full]) *)

Module MemoryFull.
Import Lisp.
Local Open Scope Z_scope.

(** The variables that [memory_full] reads and writes, and the blocks that
    malloc has handed out and that are not freed: address and size, the
    latest first. *)
Record state := {
  initialized : bool;
  Vmemory_full : Lisp_Object;
  Vmemory_signal_data : Lisp_Object;
  malloc_blocks : list (Z * Z)
}.

Definition set_Vmemory_full (v : Lisp_Object) (st : state) : state :=
  {| initialized := initialized st; Vmemory_full := v;
     Vmemory_signal_data := Vmemory_signal_data st;
     malloc_blocks := malloc_blocks st |}.

(** [malloc (size)] where the system allocator answers [p]; [p] is [0]
    when it fails. *)
Definition malloc (size p : Z) (st : state) : state :=
  if p =? 0 then st
  else {| initialized := initialized st; Vmemory_full := Vmemory_full st;
          Vmemory_signal_data := Vmemory_signal_data st;
          malloc_blocks := (p, size) :: malloc_blocks st |}.

Fixpoint remove_block (p : Z) (l : list (Z * Z)) : list (Z * Z) :=
  match l with
  | [] => []
  | b :: l => if b.1 =? p then l else b :: remove_block p l
  end.

Definition free (p : Z) (st : state) : state :=
  {| initialized := initialized st; Vmemory_full := Vmemory_full st;
     Vmemory_signal_data := Vmemory_signal_data st;
     malloc_blocks := remove_block p (malloc_blocks st) |}.

(** [memory_full] does not return: it ends in [fatal], which ends the
    process, or in [xsignal], which raises a Lisp error. *)
Inductive outcome :=
| Fatal (message : string)
| Signal (error_symbol data : Lisp_Object) (st : state).

Definition enough : Z := Z.shiftl 1 14.

(** [memory_full (nbytes)]; [p] is what [malloc (enough)] answers, when it
    is called. *)
Definition memory_full (nbytes p : Z) (st : state) : outcome :=
  if negb (initialized st) then Fatal "memory exhausted"
  else
    let st := set_Vmemory_full Qt st in
    let st :=
      if nbytes >? enough then
        let st := malloc enough p st in
        if negb (p =? 0) then free p (set_Vmemory_full Qnil st) else st
      else st in
    Signal Qnil (Vmemory_signal_data st) st.

(** A state of the running editor, for the examples. *)
Definition example_state : state :=
  {| initialized := true; Vmemory_full := Qnil;
     Vmemory_signal_data := Lisp_Cons 4096; malloc_blocks := [(8192, 64)] |}.

End MemoryFull.

(** ** Cons cells: [Fcons], marking and [sweep_conses]

    No dump is loaded, so [pdumper_object_p] is false everywhere.  The mark
    stack is a list, the top first; its growth by [grow_mark_stack] is not
    modelled. *)

Module Conses.
Import Lisp.
Local Open Scope Z_scope.

(** The union [u] of a [struct Lisp_Cons]: the cdr, or the next cell of the
    free list. *)
Inductive cons_u :=
| Cdr (cdr : Lisp_Object)
| Chain (chain : Z).

Record cons_cell := { car : Lisp_Object; u : cons_u }.

(** [struct cons_block]. *)
Record cons_block_s := {
  conses : list cons_cell;
  gcmarkbits : list Z;
  next : Z
}.

Record state := {
  blocks : gmap Z cons_block_s;     (* the memory, by block address *)
  cons_block : Z;
  cons_block_index : Z;
  cons_free_list : Z;
  bytes_since_gc : Z;
  cons_cells_consed : Z;
  total_conses : Z;                 (* gcstat.total_conses *)
  total_free_conses : Z;            (* gcstat.total_free_conses *)
  mark_stk : list Lisp_Object
}.

Definition with_blocks (m : gmap Z cons_block_s) (st : state) : state :=
  {| blocks := m; cons_block := cons_block st;
     cons_block_index := cons_block_index st;
     cons_free_list := cons_free_list st;
     bytes_since_gc := bytes_since_gc st;
     cons_cells_consed := cons_cells_consed st;
     total_conses := total_conses st;
     total_free_conses := total_free_conses st;
     mark_stk := mark_stk st |}.

Definition with_cons_block (b i : Z) (st : state) : state :=
  {| blocks := blocks st; cons_block := b; cons_block_index := i;
     cons_free_list := cons_free_list st;
     bytes_since_gc := bytes_since_gc st;
     cons_cells_consed := cons_cells_consed st;
     total_conses := total_conses st;
     total_free_conses := total_free_conses st;
     mark_stk := mark_stk st |}.

Definition with_cons_free_list (p : Z) (st : state) : state :=
  {| blocks := blocks st; cons_block := cons_block st;
     cons_block_index := cons_block_index st;
     cons_free_list := p;
     bytes_since_gc := bytes_since_gc st;
     cons_cells_consed := cons_cells_consed st;
     total_conses := total_conses st;
     total_free_conses := total_free_conses st;
     mark_stk := mark_stk st |}.

Definition with_consed (bytes cells : Z) (st : state) : state :=
  {| blocks := blocks st; cons_block := cons_block st;
     cons_block_index := cons_block_index st;
     cons_free_list := cons_free_list st;
     bytes_since_gc := bytes; cons_cells_consed := cells;
     total_conses := total_conses st;
     total_free_conses := total_free_conses st;
     mark_stk := mark_stk st |}.

Definition with_gcstat (used free : Z) (st : state) : state :=
  {| blocks := blocks st; cons_block := cons_block st;
     cons_block_index := cons_block_index st;
     cons_free_list := cons_free_list st;
     bytes_since_gc := bytes_since_gc st;
     cons_cells_consed := cons_cells_consed st;
     total_conses := used; total_free_conses := free;
     mark_stk := mark_stk st |}.

Definition with_mark_stk (l : list Lisp_Object) (st : state) : state :=
  {| blocks := blocks st; cons_block := cons_block st;
     cons_block_index := cons_block_index st;
     cons_free_list := cons_free_list st;
     bytes_since_gc := bytes_since_gc st;
     cons_cells_consed := cons_cells_consed st;
     total_conses := total_conses st;
     total_free_conses := total_free_conses st;
     mark_stk := l |}.

Section platform.
Context (pf : platform).

(** [PURE_P]: the address is in pure space. *)
Context (PURE_P : Z -> bool).

Definition BLOCK_NBITS : Z := 10.
Definition BLOCK_ALIGN : Z := Z.shiftl 1 BLOCK_NBITS.
Definition BLOCK_NBYTES : Z := BLOCK_ALIGN - sizeof_uintptr_t pf.
Definition BLOCK_NCONS : Z :=
  ((BITS_PER_BITS_WORD pf ÷ sizeof_bits_word pf)
   * (BLOCK_NBYTES - sizeof_bits_word pf))
  ÷ ((BITS_PER_BITS_WORD pf ÷ sizeof_bits_word pf) * sizeof_Lisp_Cons pf + 1).

(** All the bits of a [bits_word]. *)
Definition BITS_WORD_MAX : Z := Z.ones (BITS_PER_BITS_WORD pf).

Definition CONS_BLOCK (fptr : Z) : Z := Z.land fptr (Z.lnot (BLOCK_ALIGN - 1)).
Definition CONS_INDEX (fptr : Z) : Z :=
  Z.land fptr (BLOCK_ALIGN - 1) ÷ sizeof_Lisp_Cons pf.

(** [&b->conses[i]]. *)
Definition cons_addr (b i : Z) : Z := b + i * sizeof_Lisp_Cons pf.

(** Reading and writing a cell and a word of mark bits through a pointer. *)
Definition get_cons (p : Z) (st : state) : option cons_cell :=
  blk ← blocks st !! CONS_BLOCK p;
  conses blk !! Z.to_nat (CONS_INDEX p).

Definition set_cons (p : Z) (c : cons_cell) (st : state) : option state :=
  blk ← blocks st !! CONS_BLOCK p;
  _ ← conses blk !! Z.to_nat (CONS_INDEX p);
  Some (with_blocks
          (<[CONS_BLOCK p :=
               {| conses := <[Z.to_nat (CONS_INDEX p) := c]> (conses blk);
                  gcmarkbits := gcmarkbits blk; next := next blk |}]>
             (blocks st)) st).

Definition get_markword (b i : Z) (st : state) : option Z :=
  blk ← blocks st !! b;
  gcmarkbits blk !! Z.to_nat i.

Definition set_markword (b i w : Z) (st : state) : option state :=
  blk ← blocks st !! b;
  _ ← gcmarkbits blk !! Z.to_nat i;
  Some (with_blocks
          (<[b := {| conses := conses blk;
                     gcmarkbits := <[Z.to_nat i := w]> (gcmarkbits blk);
                     next := next blk |}]> (blocks st)) st).

(** [GETMARKBIT], [SETMARKBIT] and [UNSETMARKBIT]. *)
Definition GETMARKBIT (b n : Z) (st : state) : option bool :=
  w ← get_markword b (n ÷ BITS_PER_BITS_WORD pf) st;
  Some (negb (Z.land (Z.shiftr w (Z.rem n (BITS_PER_BITS_WORD pf))) 1 =? 0)).

Definition SETMARKBIT (b n : Z) (st : state) : option state :=
  w ← get_markword b (n ÷ BITS_PER_BITS_WORD pf) st;
  set_markword b (n ÷ BITS_PER_BITS_WORD pf)
    (Z.lor w (Z.shiftl 1 (Z.rem n (BITS_PER_BITS_WORD pf)))) st.

Definition UNSETMARKBIT (b n : Z) (st : state) : option state :=
  w ← get_markword b (n ÷ BITS_PER_BITS_WORD pf) st;
  set_markword b (n ÷ BITS_PER_BITS_WORD pf)
    (Z.land w (Z.lnot (Z.shiftl 1 (Z.rem n (BITS_PER_BITS_WORD pf))))) st.

Definition XCONS_MARKED_P (fptr : Z) : state -> option bool :=
  GETMARKBIT (CONS_BLOCK fptr) (CONS_INDEX fptr).
Definition XMARK_CONS (fptr : Z) : state -> option state :=
  SETMARKBIT (CONS_BLOCK fptr) (CONS_INDEX fptr).
Definition XUNMARK_CONS (fptr : Z) : state -> option state :=
  UNSETMARKBIT (CONS_BLOCK fptr) (CONS_INDEX fptr).

Definition cons_marked_p : Z -> state -> option bool := XCONS_MARKED_P.
Definition set_cons_marked : Z -> state -> option state := XMARK_CONS.

(** The cells of a block that [lisp_align_malloc] has just returned hold
    anything; here, zeros. *)
Definition fresh_block (next_ : Z) : cons_block_s :=
  {| conses :=
       replicate (Z.to_nat BLOCK_NCONS)
         {| car := Lisp_Int 0; u := Cdr (Lisp_Int 0) |};
     gcmarkbits :=
       replicate (Z.to_nat (1 + BLOCK_NCONS ÷ BITS_PER_BITS_WORD pf)) 0;
     next := next_ |}.

(** [Fcons (car, cdr)]; [new] is the address that [lisp_align_malloc]
    returns, when it is called. *)
Definition Fcons (car_ cdr_ : Lisp_Object) (new : Z) (st : state)
  : option (Lisp_Object * state) :=
  '(val, st) ←
    (if negb (cons_free_list st =? 0) then
       c ← get_cons (cons_free_list st) st;
       match u c with
       | Chain chain => Some (cons_free_list st, with_cons_free_list chain st)
       | Cdr _ => None
       end
     else
       let st :=
         if cons_block_index st =? BLOCK_NCONS then
           with_cons_block new 0
             (with_blocks (<[new := fresh_block (cons_block st)]> (blocks st))
                st)
         else st in
       Some (cons_addr (cons_block st) (cons_block_index st),
             with_cons_block (cons_block st) (cons_block_index st + 1) st));
  st ← set_cons val {| car := car_; u := Cdr cdr_ |} st;
  Some (Lisp_Cons val,
        with_consed (bytes_since_gc st + sizeof_Lisp_Cons pf)
          (cons_cells_consed st + 1) st).

Definition list3 (a1 a2 a3 : Lisp_Object) (new : Z) (st : state)
  : option (Lisp_Object * state) :=
  '(l, st) ← Fcons a3 Qnil new st;
  '(l, st) ← Fcons a2 l new st;
  Fcons a1 l new st.

Definition list4 (a1 a2 a3 a4 : Lisp_Object) (new : Z) (st : state)
  : option (Lisp_Object * state) :=
  '(l, st) ← Fcons a4 Qnil new st;
  '(l, st) ← Fcons a3 l new st;
  '(l, st) ← Fcons a2 l new st;
  Fcons a1 l new st.

(** [Flist (nargs, args)]: [while (nargs > 0)]. *)
Fixpoint Flist_loop (rargs : list Lisp_Object) (val : Lisp_Object) (new : Z)
  (st : state) : option (Lisp_Object * state) :=
  match rargs with
  | [] => Some (val, st)
  | a :: rargs =>
      '(val, st) ← Fcons a val new st;
      Flist_loop rargs val new st
  end.

Definition Flist (args : list Lisp_Object) : Z -> state ->
  option (Lisp_Object * state) :=
  Flist_loop (rev args) Qnil.

(** [XSETCDR (c, n)] of lisp.h, for a cons at [p]. *)
Definition XSETCDR (p : Z) (n : Lisp_Object) (st : state) : option state :=
  c ← get_cons p st;
  set_cons p {| car := car c; u := Cdr n |} st.

(** *** Marking *)

Definition mark_stack_push (value : Lisp_Object) (st : state) : state :=
  with_mark_stk (value :: mark_stk st) st.

(** The test [PURE_P] and the cases of the switch of [process_mark_stack]
    for a string, a vectorlike, a symbol and a float, whose structures
    and mark bits are not part of the state.  Each ends with [break]. *)
Context (mark_other : Lisp_Object -> state -> option state).

(** [process_mark_stack (base_sp)].  [cur] is [None] at the head of the
    loop [while (mark_stk.sp > base_sp)] and [Some obj] at the label
    [mark_obj]. *)
Fixpoint process_mark_stack_loop (fuel : nat) (base_sp : Z)
  (cur : option Lisp_Object) (st : state) : option state :=
  match fuel with
  | O => None
  | S fuel =>
      match cur with
      | None =>
          if Z.of_nat (length (mark_stk st)) >? base_sp then
            match mark_stk st with
            | obj :: stk =>
                process_mark_stack_loop fuel base_sp (Some obj)
                  (with_mark_stk stk st)
            | [] => None
            end
          else Some st
      | Some (Lisp_Cons ptr) =>
          if PURE_P ptr then process_mark_stack_loop fuel base_sp None st
          else
            marked ← cons_marked_p ptr st;
            if (marked : bool) then process_mark_stack_loop fuel base_sp None st
            else
              st ← set_cons_marked ptr st;
              c ← get_cons ptr st;
              match u c with
              | Cdr cdr_ =>
                  let st :=
                    if negb (NILP cdr_) then mark_stack_push cdr_ st else st in
                  process_mark_stack_loop fuel base_sp (Some (car c)) st
              | Chain _ => None
              end
      | Some (Lisp_Int _) => process_mark_stack_loop fuel base_sp None st
      | Some obj =>
          st ← mark_other obj st;
          process_mark_stack_loop fuel base_sp None st
      end
  end.

Definition process_mark_stack (fuel : nat) (base_sp : Z) : state ->
  option state :=
  process_mark_stack_loop fuel base_sp None.

Definition mark_object (fuel : nat) (obj : Lisp_Object) (st : state)
  : option state :=
  let sp := Z.of_nat (length (mark_stk st)) in
  process_mark_stack fuel sp (mark_stack_push obj st).

(** *** Sweeping *)

(** The locals of [sweep_conses]. *)
Record sweep_locals := {
  lim : Z; num_free : Z; num_used : Z; this_free : Z
}.

(** The body of [for (pos = start; pos < stop; pos++)]. *)
Definition sweep_pos (cblk pos : Z) (a : sweep_locals * state)
  : option (sweep_locals * state) :=
  let '(v, st) := a in
  let acons := cons_addr cblk pos in
  marked ← XCONS_MARKED_P acons st;
  if negb (marked : bool) then
    st ← set_cons acons
           {| car := dead_object pf; u := Chain (cons_free_list st) |} st;
    Some ({| lim := lim v; num_free := num_free v; num_used := num_used v;
             this_free := this_free v + 1 |},
          with_cons_free_list acons st)
  else
    st ← XUNMARK_CONS acons st;
    Some ({| lim := lim v; num_free := num_free v;
             num_used := num_used v + 1; this_free := this_free v |}, st).

(** [for (pos = start; pos < start + n; pos++)]. *)
Fixpoint sweep_pos_loop (n : nat) (cblk pos : Z) (a : sweep_locals * state)
  : option (sweep_locals * state) :=
  match n with
  | O => Some a
  | S n => a ← sweep_pos cblk pos a; sweep_pos_loop n cblk (pos + 1) a
  end.

(** The body of [for (i = 0; i < ilim; i++)]. *)
Definition sweep_word (cblk i : Z) (a : sweep_locals * state)
  : option (sweep_locals * state) :=
  let '(v, st) := a in
  w ← get_markword cblk i st;
  if w =? BITS_WORD_MAX then
    st ← set_markword cblk i 0 st;
    Some ({| lim := lim v; num_free := num_free v;
             num_used := num_used v + BITS_PER_BITS_WORD pf;
             this_free := this_free v |}, st)
  else
    let start := i * BITS_PER_BITS_WORD pf in
    let stop := lim v - start in
    let stop :=
      if stop >? BITS_PER_BITS_WORD pf then BITS_PER_BITS_WORD pf else stop in
    let stop := stop + start in
    sweep_pos_loop (Z.to_nat (stop - start)) cblk start (v, st).

Fixpoint sweep_word_loop (n : nat) (cblk i : Z) (a : sweep_locals * state)
  : option (sweep_locals * state) :=
  match n with
  | O => Some a
  | S n => a ← sweep_word cblk i a; sweep_word_loop n cblk (i + 1) a
  end.

(** The body of [for (struct cons_block *cblk; (cblk = *cprev); )];
    [cprev] is [None] for [&cons_block] and [Some b] for [&b->next].  The
    result is the next [cprev]. *)
Definition sweep_block (cprev : option Z) (cblk : Z) (a : sweep_locals * state)
  : option (option Z * (sweep_locals * state)) :=
  let '(v, st) := a in
  let v := {| lim := lim v; num_free := num_free v; num_used := num_used v;
              this_free := 0 |} in
  let ilim :=
    (lim v + BITS_PER_BITS_WORD pf - 1) ÷ BITS_PER_BITS_WORD pf in
  '(v, st) ← sweep_word_loop (Z.to_nat ilim) cblk 0 (v, st);
  let v := {| lim := BLOCK_NCONS; num_free := num_free v;
              num_used := num_used v; this_free := this_free v |} in
  if (this_free v =? BLOCK_NCONS) && (num_free v >? BLOCK_NCONS) then
    blk ← blocks st !! cblk;
    st ← match cprev with
         | None => Some (with_cons_block (next blk) (cons_block_index st) st)
         | Some b =>
             pb ← blocks st !! b;
             Some (with_blocks
                     (<[b := {| conses := conses pb;
                                gcmarkbits := gcmarkbits pb;
                                next := next blk |}]> (blocks st)) st)
         end;
    c0 ← get_cons (cons_addr cblk 0) st;
    match u c0 with
    | Chain chain =>
        Some (cprev,
              (v, with_blocks (delete cblk (blocks st))
                    (with_cons_free_list chain st)))
    | Cdr _ => None
    end
  else
    Some (Some cblk,
          ({| lim := lim v; num_free := num_free v + this_free v;
              num_used := num_used v; this_free := this_free v |}, st)).

Fixpoint sweep_blocks (fuel : nat) (cprev : option Z)
  (a : sweep_locals * state) : option (sweep_locals * state) :=
  match fuel with
  | O => None
  | S fuel =>
      cblk ← match cprev with
             | None => Some (cons_block a.2)
             | Some b => blk ← blocks a.2 !! b; Some (next blk)
             end;
      if cblk =? 0 then Some a
      else
        '(cprev, a) ← sweep_block cprev cblk a;
        sweep_blocks fuel cprev a
  end.

Definition sweep_conses (st : state) : option state :=
  let v := {| lim := cons_block_index st; num_free := 0; num_used := 0;
              this_free := 0 |} in
  let st := with_cons_free_list 0 st in
  '(v, st) ← sweep_blocks (S (size (blocks st))) None (v, st);
  Some (with_gcstat (num_used v) (num_free v) st).

(** *** Well-formed heaps and circular lists *)

(** What the constants of the platform must satisfy: the cells of a block
    fit below [BLOCK_ALIGN]. *)
Definition platform_ok : bool :=
  (0 <? sizeof_Lisp_Cons pf) && (0 <? BITS_PER_BITS_WORD pf)
  && (0 <? BLOCK_NCONS)
  && (BLOCK_NCONS * sizeof_Lisp_Cons pf <=? BLOCK_ALIGN).

(** The blocks from [b] along [next]. *)
Fixpoint block_chain (fuel : nat) (b : Z) (st : state) : option (list Z) :=
  match fuel with
  | O => None
  | S fuel =>
      if b =? 0 then Some []
      else
        blk ← blocks st !! b;
        bs ← block_chain fuel (next blk) st;
        Some (b :: bs)
  end.

(** The number of cells in use or on the free list in block [b]. *)
Definition lim_of (st : state) (b : Z) : Z :=
  if b =? cons_block st then cons_block_index st else BLOCK_NCONS.

(** The mark bit [n] of block [b]. *)
Definition mark_bit (st : state) (b n : Z) : bool :=
  match get_markword b (n ÷ BITS_PER_BITS_WORD pf) st with
  | Some w => Z.testbit w (Z.rem n (BITS_PER_BITS_WORD pf))
  | None => false
  end.

Fixpoint nodupb (l : list Z) : bool :=
  match l with
  | [] => true
  | x :: l => forallb (fun y => negb (x =? y)) l && nodupb l
  end.

(** Block [b] is aligned, has its arrays, and no mark bit is set, as
    between two collections. *)
Definition block_ok (st : state) (b : Z) : bool :=
  (0 <? b) && (Z.land b (BLOCK_ALIGN - 1) =? 0)
  && match blocks st !! b with
     | Some blk =>
         (length (conses blk) =? Z.to_nat BLOCK_NCONS)%nat
         && (length (gcmarkbits blk)
             =? Z.to_nat (1 + BLOCK_NCONS ÷ BITS_PER_BITS_WORD pf))%nat
         && forallb (Z.eqb 0) (gcmarkbits blk)
     | None => false
     end.

(** The blocks of the heap, from [cons_block]. *)
Definition heap_blocks (st : state) : list Z :=
  match block_chain (S (size (blocks st))) (cons_block st) st with
  | Some bs => bs
  | None => []
  end.

(** The heap between two collections. *)
Definition wf (st : state) : bool :=
  match block_chain (S (size (blocks st))) (cons_block st) st with
  | Some bs => nodupb bs && forallb (block_ok st) bs
  | None => false
  end
  && (0 <=? cons_block_index st) && (cons_block_index st <=? BLOCK_NCONS)
  && match mark_stk st with [] => true | _ => false end.

(** [p] is the address of a cell in use or on the free list. *)
Definition valid_cons (st : state) (p : Z) : bool :=
  (p =? cons_addr (CONS_BLOCK p) (CONS_INDEX p))
  && existsb (Z.eqb (CONS_BLOCK p)) (heap_blocks st)
  && (0 <=? CONS_INDEX p) && (CONS_INDEX p <? lim_of st (CONS_BLOCK p)).

(** [cyc] is a circular list: the cdr of each cell is the next cell, and
    the cdr of the last cell is the first cell.  The cars are any
    objects. *)
Definition is_cycle (st : state) (cyc : list Z) : bool :=
  nodupb cyc
  && match cyc with [] => false | _ => true end
  && forallb
       (fun k =>
          match cyc !! k, cyc !! ((k + 1) mod length cyc)%nat with
          | Some p, Some q =>
              valid_cons st p && negb (PURE_P p)
              && match get_cons p st with
                 | Some {| car := _; u := Cdr (Lisp_Cons q') |} => q' =? q
                 | _ => false
                 end
          | _, _ => false
          end)
       (seq 0 (length cyc)).

(** What a cell of the structure [cells] may hold: an integer, a cons
    that is pure or one of [cells], or another object of which [leaf]
    holds. *)
Definition held (leaf : Lisp_Object -> bool) (cells : list Z)
  (obj : Lisp_Object) : bool :=
  match obj with
  | Lisp_Int _ => true
  | Lisp_Cons q => PURE_P q || existsb (Z.eqb q) cells
  | _ => leaf obj
  end.

(** The car or the cdr of the cell [c] is the cons at [p]. *)
Definition holds_cons (c : cons_cell) (p : Z) : bool :=
  match car c with Lisp_Cons q => q =? p | _ => false end
  || match u c with Cdr (Lisp_Cons q) => q =? p | _ => false end.

(** [cells] is a structure of cells and its first cell leads to all of
    them: each cell is in use and not pure, its car and its cdr are
    objects that [held] accepts, or the cdr is nil, and each cell but the
    first is the car or the cdr of a cell before it in the list. *)
Definition is_structure (leaf : Lisp_Object -> bool) (st : state)
  (cells : list Z) : bool :=
  nodupb cells
  && forallb
       (fun k =>
          match cells !! k with
          | Some p =>
              valid_cons st p && negb (PURE_P p)
              && match get_cons p st with
                 | Some {| car := a; u := Cdr d |} =>
                     held leaf cells a && (NILP d || held leaf cells d)
                 | _ => false
                 end
              && ((k =? 0)%nat
                  || existsb
                       (fun j =>
                          match cells !! j with
                          | Some q =>
                              match get_cons q st with
                              | Some c => holds_cons c p
                              | None => false
                              end
                          | None => false
                          end)
                       (seq 0 k))
          | None => false
          end)
       (seq 0 (length cells)).

(** *** Predicates for the proofs *)

(** The shape of a block: aligned, with its two arrays. *)
Definition block_shape (m : gmap Z cons_block_s) (b : Z) : Prop :=
  Z.land b (BLOCK_ALIGN - 1) = 0
  /\ exists blk,
       m !! b = Some blk
       /\ length (conses blk) = Z.to_nat BLOCK_NCONS
       /\ length (gcmarkbits blk)
          = Z.to_nat (1 + BLOCK_NCONS ÷ BITS_PER_BITS_WORD pf).

(** [h'] is [h] after [n] calls of [Fcons]: the counters. *)
Definition consed (n : Z) (h h' : state) : Prop :=
  bytes_since_gc h' = bytes_since_gc h + n * sizeof_Lisp_Cons pf
  /\ cons_cells_consed h' = cons_cells_consed h + n
  /\ total_conses h' = total_conses h
  /\ total_free_conses h' = total_free_conses h.

(** The free list is empty and [Fcons] can take a cell of the current
    block, or of a new block at [new]. *)
Definition can_cons (new : Z) (h : state) : Prop :=
  cons_free_list h = 0
  /\ 0 <= cons_block_index h <= BLOCK_NCONS
  /\ (cons_block_index h < BLOCK_NCONS ->
      block_shape (blocks h) (cons_block h))
  /\ Z.land new (BLOCK_ALIGN - 1) = 0.

(** [fl] are the cells of the free list from [x]: each is the address of
    a cell of a block and holds the next one; the last holds a null
    pointer. *)
Fixpoint free_chain (h : state) (x : Z) (fl : list Z) : Prop :=
  match fl with
  | [] => x = 0
  | p :: fl =>
      x = p /\ p <> 0 /\ p = cons_addr (CONS_BLOCK p) (CONS_INDEX p)
      /\ exists c q,
           get_cons p h = Some c /\ u c = Chain q /\ free_chain h q fl
  end.

(** [Fcons] can take a cell: one of the free list, whatever its length,
    and once the free list is empty one of the current block, or of a
    new block at [new]. *)
Definition cons_ready (new : Z) (h : state) : Prop :=
  (exists fl, NoDup fl /\ free_chain h (cons_free_list h) fl)
  /\ 0 <= cons_block_index h <= BLOCK_NCONS
  /\ (cons_block_index h < BLOCK_NCONS ->
      block_shape (blocks h) (cons_block h))
  /\ Z.land new (BLOCK_ALIGN - 1) = 0.


(** [st'] is [st] with other mark bits in block [b]. *)
Definition marks_changed (b : Z) (st st' : state) : Prop :=
  exists blk ws,
    blocks st !! b = Some blk
    /\ length ws = length (gcmarkbits blk)
    /\ st' = with_blocks
               (<[b := {| conses := conses blk; gcmarkbits := ws;
                          next := next blk |}]> (blocks st)) st.

(** [bs] are the blocks from [x] along [next]. *)
Fixpoint chain_from (m : gmap Z cons_block_s) (x : Z) (bs : list Z) : Prop :=
  match bs with
  | [] => x = 0
  | b :: bs =>
      x = b /\ b <> 0
      /\ exists blk, m !! b = Some blk /\ chain_from m (next blk) bs
  end.

(** The number of mark bits that are set among the first [l] of block
    [b], and in a chain of blocks of which the first has [l] cells to
    sweep. *)
Definition block_marks (st : state) (b l : Z) : Z :=
  Z.of_nat (length (List.filter (mark_bit st b) (seqZ 0 l))).

Fixpoint chain_marks (st : state) (l : Z) (bs : list Z) : Z :=
  match bs with
  | [] => 0
  | b :: bs => block_marks st b l + chain_marks st BLOCK_NCONS bs
  end.

Definition count_marks (st : state) : Z :=
  chain_marks st (cons_block_index st) (heap_blocks st).

(** [st'] is [st] with the mark bits of the cells [ps] set as well. *)
Definition at_cons (b n p : Z) : bool :=
  (CONS_BLOCK p =? b) && (CONS_INDEX p =? n).

Record marked_from (st : state) (ps : list Z) (st' : state) : Prop := {
  mf_cells : forall p, get_cons p st' = get_cons p st;
  mf_shape : forall b,
    block_shape (blocks st) b -> block_shape (blocks st') b;
  mf_chain : forall fuel x,
    block_chain fuel x st' = block_chain fuel x st;
  mf_size : size (blocks st') = size (blocks st);
  mf_block : cons_block st' = cons_block st;
  mf_index : cons_block_index st' = cons_block_index st;
  mf_marks : forall b n, 0 <= n ->
    mark_bit st' b n = mark_bit st b n || existsb (at_cons b n) ps;
  mf_count : count_marks st' = count_marks st + Z.of_nat (length ps)
}.

(** The loop of [process_mark_stack] on its way through the structure
    [cells] of the heap [st]: the cells [ms] are marked, and [pending]
    are the object at hand and the objects of the mark stack.  The first
    cell of the structure, and the car and the cdr of a marked cell when
    they are cells that are not pure, are marked or pending. *)
Record marking (leaf : Lisp_Object -> bool) (st : state) (cells ms : list Z)
  (pending : list Lisp_Object) : Prop := {
  mk_nodup : NoDup ms;
  mk_cells : forall p, p ∈ ms -> p ∈ cells;
  mk_held : forall obj, obj ∈ pending -> held leaf cells obj = true;
  mk_first : forall q,
    head cells = Some q -> q ∈ ms \/ Lisp_Cons q ∈ pending;
  mk_next : forall p c q,
    p ∈ ms -> get_cons p st = Some c -> holds_cons c q = true ->
    PURE_P q = false -> q ∈ ms \/ Lisp_Cons q ∈ pending
}.

(** The number of mark bits that are set in block [b] from [lo] up to
    [hi]. *)
Definition range_marks (st : state) (b lo hi : Z) : Z :=
  Z.of_nat (length (List.filter (mark_bit st b) (seqZ lo (hi - lo)))).

(** [a'] is [a] after the cells from [lo] up to [hi] of block [cblk] are
    swept: a marked cell is kept and its mark cleared, the others are put
    on the free list. *)
Record swept (cblk lo hi : Z) (a a' : sweep_locals * state) : Prop := {
  sw_other : forall b, b <> cblk -> blocks a'.2 !! b = blocks a.2 !! b;
  sw_shape : block_shape (blocks a'.2) cblk;
  sw_next : forall blk blk',
    blocks a.2 !! cblk = Some blk -> blocks a'.2 !! cblk = Some blk' ->
    next blk' = next blk;
  sw_kept : forall n,
    0 <= n < BLOCK_NCONS ->
    n < lo \/ hi <= n \/ mark_bit a.2 cblk n = true ->
    get_cons (cons_addr cblk n) a'.2 = get_cons (cons_addr cblk n) a.2;
  sw_freed : forall n,
    0 <= n < BLOCK_NCONS -> lo <= n < hi -> mark_bit a.2 cblk n = false ->
    exists c,
      get_cons (cons_addr cblk n) a'.2
      = Some {| car := dead_object pf; u := Chain c |};
  sw_marks : forall n,
    0 <= n ->
    mark_bit a'.2 cblk n
    = mark_bit a.2 cblk n && negb ((lo <=? n) && (n <? hi));
  sw_used : num_used a'.1 = num_used a.1 + range_marks a.2 cblk lo hi;
  sw_free :
    this_free a'.1 = this_free a.1 + (hi - lo) - range_marks a.2 cblk lo hi;
  sw_lim : lim a'.1 = lim a.1;
  sw_num_free : num_free a'.1 = num_free a.1;
  sw_block : cons_block a'.2 = cons_block a.2;
  sw_index : cons_block_index a'.2 = cons_block_index a.2;
  sw_dom : dom (blocks a'.2) = dom (blocks a.2)
}.

(** No mark bit is set at or after the number of cells to sweep, in a
    chain of blocks of which the first has [l] cells to sweep. *)
Fixpoint chain_valid (st : state) (l : Z) (bs : list Z) : Prop :=
  match bs with
  | [] => True
  | b :: bs =>
      (forall n, l <= n -> mark_bit st b n = false)
      /\ chain_valid st BLOCK_NCONS bs
  end.

(** The block that [*cprev] points to. *)
Definition cprev_target (cprev : option Z) (st : state) : option Z :=
  match cprev with
  | None => Some (cons_block st)
  | Some b => blk ← blocks st !! b; Some (next blk)
  end.

(** Block [b] has the same cells and mark bits in [st'] as in [st]. *)
Definition same_block (st st' : state) (b : Z) : Prop :=
  forall blk, blocks st !! b = Some blk ->
    exists blk', blocks st' !! b = Some blk'
                 /\ conses blk' = conses blk
                 /\ gcmarkbits blk' = gcmarkbits blk.

(** *** Freeing a cell by hand, and the cells that are live *)

(** [free_cons (ptr)]. *)
Definition free_cons (ptr : Z) (st : state) : option state :=
  st' ← set_cons ptr
          {| car := dead_object pf; u := Chain (cons_free_list st) |} st;
  Some (with_consed (bytes_since_gc st' - sizeof_Lisp_Cons pf)
          (cons_cells_consed st') (with_cons_free_list ptr st')).

(** [deadp (x)] of lisp.h: [x] is the dead object, which is no float. *)
Definition deadp (x : Lisp_Object) : bool :=
  match x, dead_object pf with
  | Lisp_Symbol a, Lisp_Symbol b => String.eqb a b
  | Lisp_Int a, Lisp_Int b => a =? b
  | Lisp_String a, Lisp_String b => a =? b
  | Lisp_Vectorlike a, Lisp_Vectorlike b => a =? b
  | Lisp_Cons a, Lisp_Cons b => a =? b
  | _, _ => false
  end.

(** The value of the tag [Lisp_Cons] of lisp.h. *)
Context (Lisp_Cons_tag : Z).

(** [live_cons_holding (m, p)], where [b] is [m->start]; the result is
    [0] for a null pointer.  The cdr is at the offset of one word. *)
Definition live_cons_holding (b : Z) (p : Z) (st : state) : option Z :=
  let offset := p - b in
  if (0 <=? offset) && (offset <? BLOCK_NCONS * sizeof_Lisp_Cons pf)
     && (negb (b =? cons_block st)
         || (offset ÷ sizeof_Lisp_Cons pf <? cons_block_index st))
  then
    let off := Z.rem offset (sizeof_Lisp_Cons pf) in
    if (off =? Lisp_Cons_tag) || (off =? 0) || (off =? word_size pf) then
      let s := p - off in
      c ← get_cons s st;
      if negb (deadp (car c)) then Some s else Some 0
    else Some 0
  else Some 0.

Definition live_cons_p (b : Z) (p : Z) (st : state) : option bool :=
  r ← live_cons_holding b p st; Some (r =? p).

(** [l] is a list that ends in nil: the cdr of each cell is the next
    cell, the cdr of the last cell is nil.  The cars are integers. *)
Definition is_list (st : state) (l : list Z) : bool :=
  nodupb l
  && forallb
       (fun k =>
          match l !! k with
          | Some p =>
              valid_cons st p && negb (PURE_P p)
              && match get_cons p st, l !! S k with
                 | Some {| car := Lisp_Int _; u := Cdr (Lisp_Cons q') |},
                   Some q => q' =? q
                 | Some {| car := Lisp_Int _; u := Cdr (Lisp_Symbol nm) |},
                   None => String.eqb nm "nil"
                 | _, _ => false
                 end
          | None => false
          end)
       (seq 0 (length l)).

End platform.

(** *** An example: a circular list of three cells

    On the 64-bit platform, with nothing in pure space: five cells are
    consed in a first block at 4096, and the cdr of the last cell of the
    list [(1 2 3)] is set to its first cell.  The two other cells are
    garbage. *)
Definition no_heap : state :=
  {| blocks := ∅; cons_block := 0; cons_block_index := BLOCK_NCONS lp64;
     cons_free_list := 0; bytes_since_gc := 0; cons_cells_consed := 0;
     total_conses := 0; total_free_conses := 0; mark_stk := [] |}.

Definition circular_list : option (Lisp_Object * state) :=
  '(_, st) ← Fcons lp64 (Lisp_Int 9) Qnil 4096 no_heap;
  '(c2, st) ← Fcons lp64 (Lisp_Int 3) Qnil 4096 st;
  '(c1, st) ← Fcons lp64 (Lisp_Int 2) c2 4096 st;
  '(_, st) ← Fcons lp64 (Lisp_Int 9) c1 4096 st;
  '(c0, st) ← Fcons lp64 (Lisp_Int 1) c1 4096 st;
  match c2 with
  | Lisp_Cons p => st ← XSETCDR lp64 p c0 st; Some (c0, st)
  | _ => None
  end.

(** The heap with the circular list. *)
Definition circular_heap : state :=
  match circular_list with
  | Some (_, st) => st
  | None => no_heap
  end.

(** The heap with the circular list after a collection that marks from
    its first cell, every other object being marked already: the two
    cells of garbage are on the free list. *)
Definition swept_heap : state :=
  match
    st ← mark_object lp64 (fun _ => false) (fun _ st => Some st) 12
           (Lisp_Cons 4160) circular_heap;
    sweep_conses lp64 st
  with
  | Some st => st
  | None => no_heap
  end.

(** A circular list of three cells of which the cars are a cell of the
    circular list itself, a list of one string, and nil.  The first cell
    that is consed is garbage. *)
Definition circular_cars : option (Lisp_Object * state) :=
  '(_, st) ← Fcons lp64 (Lisp_Int 9) Qnil 4096 no_heap;
  '(e, st) ← Fcons lp64 (Lisp_String 512) Qnil 4096 st;
  '(c2, st) ← Fcons lp64 Qnil Qnil 4096 st;
  '(c1, st) ← Fcons lp64 e c2 4096 st;
  '(c0, st) ← Fcons lp64 c2 c1 4096 st;
  match c2 with
  | Lisp_Cons p => st ← XSETCDR lp64 p c0 st; Some (c0, st)
  | _ => None
  end.

(** The heap with that circular list, of the cells at 4160, 4144 and
    4128; the list of one string is the cell at 4112. *)
Definition circular_cars_heap : state :=
  match circular_cars with
  | Some (_, st) => st
  | None => no_heap
  end.

(** The heap after [list3 (1, 2, 3)]: the list is made of the cells at
    4128, 4112 and 4096. *)
Definition three_list_heap : state :=
  match list3 lp64 (Lisp_Int 1) (Lisp_Int 2) (Lisp_Int 3) 4096 no_heap with
  | Some (_, st) => st
  | None => no_heap
  end.

End Conses.

(** ** The collector's entry points and its thresholds

    [garbage_collect], [Fgarbage_collect], [Fgarbage_collect_maybe],
    [update_bytes_between_gc] and the two watchers.  The counters of
    [gcstat] for conses, the cons heap and [bytes_since_gc] are in the
    state of [Conses]. *)

Module Gc.
Import Lisp.
Local Open Scope Z_scope.

(** The counters of [gcstat] other than those of conses. *)
Record gcstat_s := {
  total_symbols : Z; total_free_symbols : Z;
  total_strings : Z; total_free_strings : Z;
  total_string_bytes : Z;
  total_vectors : Z; total_vector_slots : Z; total_free_vector_slots : Z;
  total_floats : Z; total_free_floats : Z;
  total_intervals : Z; total_free_intervals : Z;
  total_buffers : Z
}.

Record gc_state := {
  heap : Conses.state;
  gcstat : gcstat_s;
  gc_inhibited : bool;
  gc_in_progress : bool;
  gc_cons_threshold : Z;
  Vgc_cons_percentage : Lisp_Object;
  bytes_between_gc : Z;
  gcs_done : Z
}.

Definition with_heap (h : Conses.state) (st : gc_state) : gc_state :=
  {| heap := h; gcstat := gcstat st; gc_inhibited := gc_inhibited st;
     gc_in_progress := gc_in_progress st;
     gc_cons_threshold := gc_cons_threshold st;
     Vgc_cons_percentage := Vgc_cons_percentage st;
     bytes_between_gc := bytes_between_gc st; gcs_done := gcs_done st |}.

Definition with_gc_in_progress (b : bool) (st : gc_state) : gc_state :=
  {| heap := heap st; gcstat := gcstat st; gc_inhibited := gc_inhibited st;
     gc_in_progress := b;
     gc_cons_threshold := gc_cons_threshold st;
     Vgc_cons_percentage := Vgc_cons_percentage st;
     bytes_between_gc := bytes_between_gc st; gcs_done := gcs_done st |}.

Definition with_gc_cons_threshold (t : Z) (st : gc_state) : gc_state :=
  {| heap := heap st; gcstat := gcstat st; gc_inhibited := gc_inhibited st;
     gc_in_progress := gc_in_progress st;
     gc_cons_threshold := t;
     Vgc_cons_percentage := Vgc_cons_percentage st;
     bytes_between_gc := bytes_between_gc st; gcs_done := gcs_done st |}.

Definition with_Vgc_cons_percentage (p : Lisp_Object) (st : gc_state)
  : gc_state :=
  {| heap := heap st; gcstat := gcstat st; gc_inhibited := gc_inhibited st;
     gc_in_progress := gc_in_progress st;
     gc_cons_threshold := gc_cons_threshold st;
     Vgc_cons_percentage := p;
     bytes_between_gc := bytes_between_gc st; gcs_done := gcs_done st |}.

Definition with_bytes_between_gc (n : Z) (st : gc_state) : gc_state :=
  {| heap := heap st; gcstat := gcstat st; gc_inhibited := gc_inhibited st;
     gc_in_progress := gc_in_progress st;
     gc_cons_threshold := gc_cons_threshold st;
     Vgc_cons_percentage := Vgc_cons_percentage st;
     bytes_between_gc := n; gcs_done := gcs_done st |}.

Definition with_gcs_done (n : Z) (st : gc_state) : gc_state :=
  {| heap := heap st; gcstat := gcstat st; gc_inhibited := gc_inhibited st;
     gc_in_progress := gc_in_progress st;
     gc_cons_threshold := gc_cons_threshold st;
     Vgc_cons_percentage := Vgc_cons_percentage st;
     bytes_between_gc := bytes_between_gc st; gcs_done := n |}.

Definition bytes_since_gc (st : gc_state) : Z :=
  Conses.bytes_since_gc (heap st).

Definition with_bytes_since_gc (n : Z) (st : gc_state) : gc_state :=
  with_heap
    (Conses.with_consed n (Conses.cons_cells_consed (heap st)) (heap st)) st.

(** *** Doubles

    A [double] is a binary64 float; the conversions are those of C: an
    integer is rounded to the nearest double, and a double is truncated
    to an integer, which is undefined ([None]) for an infinity, for a
    NaN, and out of the range of [intmax_t]. *)
Definition double_of_Z (n : Z) : spec_float :=
  binary_normalize 53 1024 n 0 false.

Definition double_mul : spec_float -> spec_float -> spec_float :=
  SFmul 53 1024.

Definition intmax_of_double (d : spec_float) : option Z :=
  match d with
  | S754_zero _ => Some 0
  | S754_finite s m e =>
      let n := cond_Zopp s (Z.shiftl (Z.pos m) e) in
      if (INTMAX_MIN <=? n) && (n <=? INTMAX_MAX) then Some n else None
  | S754_infinity _ | S754_nan => None
  end.

Section platform.
Context (pf : platform).

Definition GC_DEFAULT_THRESHOLD : Z := Z.shiftl 1 17 * word_size pf.

(** [total_bytes_of_live_objects], in the arithmetic of [size_t]. *)
Definition total_bytes_of_live_objects (st : gc_state) : Z :=
  (Conses.total_conses (heap st) * sizeof_Lisp_Cons pf
   + total_symbols (gcstat st) * sizeof_Lisp_Symbol pf
   + total_string_bytes (gcstat st)
   + total_vector_slots (gcstat st) * word_size pf
   + total_floats (gcstat st) * sizeof_Lisp_Float pf
   + total_intervals (gcstat st) * sizeof_interval pf
   + total_strings (gcstat st) * sizeof_Lisp_String pf)
  mod 2 ^ SIZE_WIDTH pf.

(** [XFLOAT_DATA (Vgc_cons_percentage) * total_bytes_of_live_objects ()],
    converted to [intmax_t]. *)
Definition percentage_threshold (d : spec_float) (st : gc_state) : option Z :=
  intmax_of_double
    (double_mul d (double_of_Z (total_bytes_of_live_objects st))).

(** The conditional expression of [update_bytes_between_gc].  One of its
    branches is a [double], so it is a [double]: the other branch,
    [threshold0], is converted to a double as well. *)
Definition threshold1_double (st : gc_state) : spec_float :=
  match Vgc_cons_percentage st with
  | Lisp_Float d =>
      double_mul d (double_of_Z (total_bytes_of_live_objects st))
  | _ => double_of_Z (gc_cons_threshold st)
  end.

Definition update_bytes_between_gc (st : gc_state) : option gc_state :=
  let threshold0 := gc_cons_threshold st in
  threshold1 ← intmax_of_double (threshold1_double st);
  Some (with_bytes_between_gc (Z.max threshold0 threshold1) st).

(** [watch_gc_cons_threshold (symbol, newval, operation, where)];
    [integer_to_intmax] succeeds when the integer is in the range of
    [intmax_t]. *)
Definition watch_gc_cons_threshold (newval : Lisp_Object) (st : gc_state)
  : option (Lisp_Object * gc_state) :=
  st ← (if INTEGERP newval then
          match newval with
          | Lisp_Int threshold =>
              if (INTMAX_MIN <=? threshold) && (threshold <=? INTMAX_MAX)
              then
                update_bytes_between_gc
                  (with_gc_cons_threshold
                     (Z.max threshold (Z.shiftr GC_DEFAULT_THRESHOLD 3)) st)
              else Some st
          | _ => Some st
          end
        else Some st);
  Some (Qnil, st).

Definition watch_gc_cons_percentage (newval : Lisp_Object) (st : gc_state)
  : option (Lisp_Object * gc_state) :=
  st ← (if FLOATP newval then
          update_bytes_between_gc (with_Vgc_cons_percentage newval st)
        else Some st);
  Some (Qnil, st).

(** What [garbage_collect] does between setting [gc_in_progress] and the
    reset of [bytes_since_gc]: compacting the buffers, saving the echo
    area, marking from the roots, [gc_sweep] and [unmark_main_thread]. *)
Context (mark_and_sweep : gc_state -> option gc_state).

(** What it does between [update_bytes_between_gc] and the reset of
    [gc_in_progress]: [unblock_input], [unbind_to], then
    [run_finalizers (&doomed_finalizers)] and the hook [post-gc-hook],
    which run Lisp code. *)
Context (finalizers_and_hook : gc_state -> option gc_state).

(** [make_float (float_value)], for what it does to the state: it adds
    the size of a float to [bytes_since_gc]; the blocks of floats and
    [floats_consed] are not part of the state. *)
Definition make_float (st : gc_state) : gc_state :=
  with_bytes_since_gc (bytes_since_gc st + sizeof_Lisp_Float pf) st.

(** [garbage_collect ()].  The timer and the profiler are not part of
    the state; [Vgc_elapsed = make_float (...)] is the last allocation. *)
Definition garbage_collect (st : gc_state) : option gc_state :=
  if gc_inhibited st || gc_in_progress st then Some st
  else
    let st := with_gc_in_progress true st in
    st ← mark_and_sweep st;
    let st := with_bytes_since_gc 0 st in
    st ← update_bytes_between_gc st;
    st ← finalizers_and_hook st;
    let st := with_gc_in_progress false st in
    let st := make_float st in
    Some (with_gcs_done (gcs_done st + 1) st).

(** The end of [Fgarbage_collect]: the array [total] and
    [CALLMANY (Flist, total)]; [new] is the address that
    [lisp_align_malloc] returns if a block of conses is needed.  The
    entries of [total] are built from left to right. *)
Definition gc_statistics (new : Z) (st : gc_state)
  : option (Lisp_Object * gc_state) :=
  let g := gcstat st in
  let h := heap st in
  '(e1, h) ← Conses.list4 pf (Lisp_Symbol "conses")
               (Lisp_Int (sizeof_Lisp_Cons pf))
               (Lisp_Int (Conses.total_conses (heap st)))
               (Lisp_Int (Conses.total_free_conses (heap st))) new h;
  '(e2, h) ← Conses.list4 pf (Lisp_Symbol "symbols")
               (Lisp_Int (sizeof_Lisp_Symbol pf))
               (Lisp_Int (total_symbols g))
               (Lisp_Int (total_free_symbols g)) new h;
  '(e3, h) ← Conses.list4 pf (Lisp_Symbol "strings")
               (Lisp_Int (sizeof_Lisp_String pf))
               (Lisp_Int (total_strings g))
               (Lisp_Int (total_free_strings g)) new h;
  '(e4, h) ← Conses.list3 pf (Lisp_Symbol "string-bytes") (Lisp_Int 1)
               (Lisp_Int (total_string_bytes g)) new h;
  '(e5, h) ← Conses.list3 pf (Lisp_Symbol "vectors")
               (Lisp_Int (header_size pf + word_size pf))
               (Lisp_Int (total_vectors g)) new h;
  '(e6, h) ← Conses.list4 pf (Lisp_Symbol "vector-slots")
               (Lisp_Int (word_size pf))
               (Lisp_Int (total_vector_slots g))
               (Lisp_Int (total_free_vector_slots g)) new h;
  '(e7, h) ← Conses.list4 pf (Lisp_Symbol "floats")
               (Lisp_Int (sizeof_Lisp_Float pf))
               (Lisp_Int (total_floats g))
               (Lisp_Int (total_free_floats g)) new h;
  '(e8, h) ← Conses.list4 pf (Lisp_Symbol "intervals")
               (Lisp_Int (sizeof_interval pf))
               (Lisp_Int (total_intervals g))
               (Lisp_Int (total_free_intervals g)) new h;
  '(e9, h) ← Conses.list3 pf (Lisp_Symbol "buffers")
               (Lisp_Int (sizeof_buffer pf))
               (Lisp_Int (total_buffers g)) new h;
  '(l, h) ← Conses.Flist pf [e1; e2; e3; e4; e5; e6; e7; e8; e9] new h;
  Some (l, with_heap h st).

Definition Fgarbage_collect (new : Z) (st : gc_state)
  : option (Lisp_Object * gc_state) :=
  if gc_inhibited st then Some (Qnil, st)
  else
    st ← garbage_collect st;
    gc_statistics new st.

(** What a Lisp function does: it returns a value, or [CHECK_FIXNAT]
    signals [wrong-type-argument]. *)
Inductive result :=
| Returns (v : Lisp_Object) (st : gc_state)
| Wrong_type_argument (predicate value : Lisp_Object).

Definition FIXNATP (o : Lisp_Object) : bool :=
  match o with
  | Lisp_Int n => (0 <=? n) && (n <=? MOST_POSITIVE_FIXNUM pf)
  | _ => false
  end.

Definition Fgarbage_collect_maybe (factor : Lisp_Object) (st : gc_state)
  : option result :=
  match factor with
  | Lisp_Int fact =>
      if FIXNATP factor then
        if (fact >=? 1) && (bytes_since_gc st >? bytes_between_gc st ÷ fact)
        then st ← garbage_collect st; Some (Returns Qt st)
        else Some (Returns Qnil st)
      else Some (Wrong_type_argument (Lisp_Symbol "fixnatp") factor)
  | _ => Some (Wrong_type_argument (Lisp_Symbol "fixnatp") factor)
  end.

(** Modelled from the spec: [maybe_garbage_collect], the automatic
    trigger, is an inline function of lisp.h, which is not part of the
    sources.  The spec: automatic collection triggers exactly when the
    cumulative bytes since the last collection exceed the effective
    threshold. *)
Definition maybe_garbage_collect (st : gc_state) : option gc_state :=
  if bytes_since_gc st >? bytes_between_gc st then garbage_collect st
  else Some st.

End platform.

(** *** Examples: a state of the running editor *)
Definition example_gcstat : gcstat_s :=
  {| total_symbols := 100; total_free_symbols := 5;
     total_strings := 200; total_free_strings := 7;
     total_string_bytes := 5000;
     total_vectors := 50; total_vector_slots := 400;
     total_free_vector_slots := 30;
     total_floats := 10; total_free_floats := 2;
     total_intervals := 3; total_free_intervals := 1;
     total_buffers := 2 |}.

(** 0.1 as a double. *)
Definition one_tenth : spec_float :=
  S754_finite false 7205759403792794 (-56).

Definition example_state (inhibited in_progress : bool) : gc_state :=
  {| heap := Conses.no_heap; gcstat := example_gcstat;
     gc_inhibited := inhibited; gc_in_progress := in_progress;
     gc_cons_threshold := GC_DEFAULT_THRESHOLD lp64;
     Vgc_cons_percentage := Lisp_Float one_tenth;
     bytes_between_gc := GC_DEFAULT_THRESHOLD lp64; gcs_done := 0 |}.

(** The state in which a finalizer runs: the sweep is over and has filled
    the free list of conses, [bytes_since_gc] is reset, and the
    collection is still in progress. *)
Definition finalizer_state : gc_state :=
  with_bytes_since_gc 0
    {| heap := Conses.swept_heap; gcstat := example_gcstat;
       gc_inhibited := false; gc_in_progress := true;
       gc_cons_threshold := GC_DEFAULT_THRESHOLD lp64;
       Vgc_cons_percentage := Lisp_Float one_tenth;
       bytes_between_gc := GC_DEFAULT_THRESHOLD lp64; gcs_done := 0 |}.

End Gc.

(** ** Vectors: [allocate_vectorlike] and the free lists

    The memory holds, for the address of a vector, its header and
    [contents[0]], which links the vectors of a free list. *)

Module Vectors.
Import Lisp.
Local Open Scope Z_scope.

(** The header of a vector: [XSETPVECTYPESIZE (v, PVEC_FREE, 0, nwords)]
    for a free vector, the length for a vector in use. *)
Inductive vheader :=
| PVEC_FREE (nwords : Z)
| header_size_is (len : Z).

Record vcell := { v_header : vheader; v_contents0 : Z }.

Record state := {
  vmem : gmap Z vcell;
  vector_free_lists : list Z;
  vector_blocks : list Z;          (* the chain of blocks, the latest first *)
  large_vectors : list Z;
  zero_vector : Z;
  bytes_since_gc : Z;
  vector_cells_consed : Z
}.

Definition with_vmem (m : gmap Z vcell) (st : state) : state :=
  {| vmem := m; vector_free_lists := vector_free_lists st;
     vector_blocks := vector_blocks st; large_vectors := large_vectors st;
     zero_vector := zero_vector st; bytes_since_gc := bytes_since_gc st;
     vector_cells_consed := vector_cells_consed st |}.

Definition with_vector_free_lists (l : list Z) (st : state) : state :=
  {| vmem := vmem st; vector_free_lists := l;
     vector_blocks := vector_blocks st; large_vectors := large_vectors st;
     zero_vector := zero_vector st; bytes_since_gc := bytes_since_gc st;
     vector_cells_consed := vector_cells_consed st |}.

Definition with_vector_blocks (l : list Z) (st : state) : state :=
  {| vmem := vmem st; vector_free_lists := vector_free_lists st;
     vector_blocks := l; large_vectors := large_vectors st;
     zero_vector := zero_vector st; bytes_since_gc := bytes_since_gc st;
     vector_cells_consed := vector_cells_consed st |}.

Definition with_large_vectors (l : list Z) (st : state) : state :=
  {| vmem := vmem st; vector_free_lists := vector_free_lists st;
     vector_blocks := vector_blocks st; large_vectors := l;
     zero_vector := zero_vector st; bytes_since_gc := bytes_since_gc st;
     vector_cells_consed := vector_cells_consed st |}.

Definition with_consed (bytes cells : Z) (st : state) : state :=
  {| vmem := vmem st; vector_free_lists := vector_free_lists st;
     vector_blocks := vector_blocks st; large_vectors := large_vectors st;
     zero_vector := zero_vector st; bytes_since_gc := bytes;
     vector_cells_consed := cells |}.

Section platform.
Context (pf : platform).

Definition VBLOCK_ALIGN : Z := Z.shiftl 1 (PSEUDOVECTOR_SIZE_BITS pf).
Definition VBLOCK_NBYTES : Z := VBLOCK_ALIGN - sizeof_uintptr_t pf.
Definition LISP_VECTOR_MIN : Z := header_size pf + word_size pf.
Definition LARGE_VECTOR_THRESH : Z :=
  Z.shiftr VBLOCK_NBYTES 1 - word_size pf.
Definition VBLOCK_NFREE_LISTS : Z :=
  1 + (VBLOCK_NBYTES - LISP_VECTOR_MIN) ÷ word_size pf.

Definition SIZE_MAX : Z := 2 ^ SIZE_WIDTH pf - 1.

Definition VECTOR_ELTS_MAX : Z :=
  Z.min
    ((Z.min (PTRDIFF_MAX pf) SIZE_MAX - header_size pf
      - large_vector_contents_offset pf) ÷ word_size pf)
    (MOST_POSITIVE_FIXNUM pf).

Definition next_vector (v : Z) (st : state) : option Z :=
  c ← vmem st !! v; Some (v_contents0 c).

Definition ADVANCE (v nbytes : Z) : Z := v + nbytes.

Definition VINDEX (nbytes : Z) : Z :=
  (nbytes - LISP_VECTOR_MIN) ÷ word_size pf.

(** [add_vector_free_lists (v, nbytes)]; an index outside the array is
    undefined. *)
Definition add_vector_free_lists (v nbytes : Z) (st : state) : option state :=
  let nwords := (nbytes - header_size pf) ÷ word_size pf in
  let vindex := VINDEX nbytes in
  if 0 <=? vindex then
    head ← vector_free_lists st !! Z.to_nat vindex;
    Some (with_vector_free_lists
            (<[Z.to_nat vindex := v]> (vector_free_lists st))
            (with_vmem
               (<[v := {| v_header := PVEC_FREE nwords; v_contents0 := head |}]>
                  (vmem st)) st))
  else None.

(** The loop of [allocate_vectorlike]: [n] is the number of indices that
    remain below [VBLOCK_NFREE_LISTS].  The result is the vector taken,
    [restbytes] and the state, if a vector is taken. *)
Fixpoint scan_free_lists (n : nat) (index nbytes : Z) (st : state)
  : option (option (Z * Z * state)) :=
  match n with
  | O => Some None
  | S n =>
      let restbytes := index * word_size pf + LISP_VECTOR_MIN - nbytes in
      if (restbytes =? 0) || (restbytes >=? LISP_VECTOR_MIN) then
        p ← vector_free_lists st !! Z.to_nat index;
        if negb (p =? 0) then
          next ← next_vector p st;
          Some (Some (p, restbytes,
                      with_vector_free_lists
                        (<[Z.to_nat index := next]> (vector_free_lists st))
                        st))
        else scan_free_lists n (index + 1) nbytes st
      else scan_free_lists n (index + 1) nbytes st
  end.

(** What [allocate_vectorlike] does: it returns a vector, or it ends in
    [memory_full]. *)
Inductive result :=
| Returns (p : Z) (st : state)
| Memory_full (nbytes : Z).

(** The end of [allocate_vectorlike]: the counters and the header. *)
Definition finish_vector (p len nbytes : Z) (clear : bool) (st : state)
  : state :=
  let c0 :=
    if clear then 0
    else match vmem st !! p with Some c => v_contents0 c | None => 0 end in
  with_vmem
    (<[p := {| v_header := header_size_is len; v_contents0 := c0 |}]>
       (vmem st))
    (with_consed (bytes_since_gc st + nbytes) (vector_cells_consed st + len)
       st).

(** [allocate_vectorlike (len, q_clear)]; [new] is the address that the
    system allocator returns, when a block or a large vector is needed,
    and [0] when it fails. *)
Definition allocate_vectorlike (len : Z) (q_clear : bool) (new : Z)
  (st : state) : option result :=
  let nbytes := header_size pf + len * word_size pf in
  if len =? 0 then Some (Returns (zero_vector st) st)
  else if len >? VECTOR_ELTS_MAX then Some (Memory_full SIZE_MAX)
  else if nbytes >? LARGE_VECTOR_THRESH then
    if new =? 0
    then Some (Memory_full (large_vector_contents_offset pf + nbytes))
    else
      let st := with_large_vectors (new :: large_vectors st) st in
      let p := new + large_vector_contents_offset pf in
      Some (Returns p (finish_vector p len nbytes q_clear st))
  else
    r ← scan_free_lists (Z.to_nat (VBLOCK_NFREE_LISTS - VINDEX nbytes))
          (VINDEX nbytes) nbytes st;
    match r with
    | Some (p, restbytes, st) =>
        st ← (if negb (restbytes =? 0)
              then add_vector_free_lists (ADVANCE p nbytes) restbytes st
              else Some st);
        Some (Returns p (finish_vector p len nbytes q_clear st))
    | None =>
        if new =? 0 then Some (Memory_full (VBLOCK_ALIGN))
        else
          let st := with_vector_blocks (new :: vector_blocks st) st in
          let p := new in
          let restbytes := VBLOCK_NBYTES - nbytes in
          st ← (if negb (restbytes =? 0)
                then add_vector_free_lists (ADVANCE p nbytes) restbytes st
                else Some st);
          Some (Returns p (finish_vector p len nbytes q_clear st))
    end.

(** *** What the claim is about *)

(** The size in bytes of the vectors of the free list [index]. *)
Definition class_size (index : Z) : Z :=
  index * word_size pf + LISP_VECTOR_MIN.

(** The residual of a vector of class [index] is nothing or a vector. *)
Definition residual_ok (index nbytes : Z) : bool :=
  (class_size index - nbytes =? 0)
  || (class_size index - nbytes >=? LISP_VECTOR_MIN).

(** The loop passes over [index]: the residual would not do, or the free
    list is empty. *)
Definition passed_over (st : state) (nbytes : Z) (index : Z) : bool :=
  negb (residual_ok index nbytes)
  || match vector_free_lists st !! Z.to_nat index with
     | Some p => p =? 0
     | None => false
     end.

(** The scan as the spec words it: of the [n] size classes from [index]
    upwards, the first that holds a free vector and whose residual is
    nothing or at least a smallest vector. *)
Fixpoint first_fit_spec (n : nat) (index nbytes : Z) (st : state)
  : option Z :=
  match n with
  | O => None
  | S n =>
      if passed_over st nbytes index
      then first_fit_spec n (index + 1) nbytes st
      else Some index
  end.

(** What the sizes of the platform must satisfy: the header is a whole
    number of words, and the smallest vector is not a large vector. *)
Definition vectors_ok : bool :=
  (0 <? word_size pf) && (0 <=? header_size pf)
  && (Z.rem (header_size pf) (word_size pf) =? 0)
  && (LISP_VECTOR_MIN <=? LARGE_VECTOR_THRESH).

End platform.

(** *** An example: free vectors of 4 and of 6 words *)
Definition example_state : state :=
  {| vmem := {[ 8192 := {| v_header := PVEC_FREE 3; v_contents0 := 0 |};
                8448 := {| v_header := PVEC_FREE 5; v_contents0 := 8704 |};
                8704 := {| v_header := PVEC_FREE 5; v_contents0 := 0 |} ]};
     vector_free_lists :=
       <[2%nat := 8192]> (<[4%nat := 8448]>
         (replicate (Z.to_nat (VBLOCK_NFREE_LISTS lp64)) 0));
     vector_blocks := [8192]; large_vectors := []; zero_vector := 64;
     bytes_since_gc := 0; vector_cells_consed := 0 |}.

End Vectors.

(** ** Checked allocation: [xmalloc], [xrealloc], [xnmalloc], [xpalloc]

    The system allocator is a pair of functions [lmalloc] and [lrealloc]
    that answer an address, or [0] when they fail.  [memory_full] does
    not return. *)

Module Xalloc.
Import Lisp.
Local Open Scope Z_scope.

Inductive outcome :=
| Returns (val : Z)
| Memory_full (nbytes : Z).

Section platform.
Context (pf : platform).

(** [sizeof (size_t)]. *)
Context (sizeof_size_t : Z).

Context (lmalloc : Z -> bool -> Z) (lrealloc : Z -> Z -> Z).

Definition PTRDIFF_MIN : Z := - PTRDIFF_MAX pf - 1.

(** The value that a [ptrdiff_t] holds after an overflow. *)
Definition ptrdiff_wrap (x : Z) : Z :=
  (x - PTRDIFF_MIN) mod (2 * (PTRDIFF_MAX pf + 1)) + PTRDIFF_MIN.

(** [INT_ADD_WRAPV (a, b, &r)] and [INT_MULTIPLY_WRAPV (a, b, &r)] for a
    [ptrdiff_t] result: whether the result overflows, and [r]. *)
Definition INT_ADD_WRAPV (a b : Z) : bool * Z :=
  (((a + b <? PTRDIFF_MIN) || (a + b >? PTRDIFF_MAX pf)),
   ptrdiff_wrap (a + b)).

Definition INT_MULTIPLY_WRAPV (a b : Z) : bool * Z :=
  (((a * b <? PTRDIFF_MIN) || (a * b >? PTRDIFF_MAX pf)),
   ptrdiff_wrap (a * b)).

Definition xmalloc (size : Z) : outcome :=
  let val := lmalloc size false in
  if val =? 0 then Memory_full size else Returns val.

Definition xzalloc (size : Z) : outcome :=
  let val := lmalloc size true in
  if val =? 0 then Memory_full size else Returns val.

Definition xrealloc (block size : Z) : outcome :=
  let val :=
    if negb (block =? 0) then lrealloc block size else lmalloc size false in
  if val =? 0 then Memory_full size else Returns val.

(** [xnmalloc (nitems, item_size)]; the product is not negative, so that
    [SIZE_MAX < nbytes] compares the numbers. *)
Definition xnmalloc (nitems item_size : Z) : outcome :=
  let '(v, nbytes) := INT_MULTIPLY_WRAPV nitems item_size in
  if v || (Vectors.SIZE_MAX pf <? nbytes)
  then Memory_full (Vectors.SIZE_MAX pf)
  else xmalloc nbytes.

Definition xnrealloc (pa nitems item_size : Z) : outcome :=
  let '(v, nbytes) := INT_MULTIPLY_WRAPV nitems item_size in
  if v || (Vectors.SIZE_MAX pf <? nbytes)
  then Memory_full (Vectors.SIZE_MAX pf)
  else xrealloc pa nbytes.

Definition DEFAULT_MXFAST : Z := 64 * sizeof_size_t ÷ 4.

(** [xpalloc (pa, nitems, nitems_incr_min, nitems_max, item_size)], where
    [n0] is [*nitems] at the call; the result is what the function does
    and [*nitems] after it. *)
Definition xpalloc (pa n0 nitems_incr_min nitems_max item_size : Z)
  : outcome * Z :=
  let '(v1, n) := INT_ADD_WRAPV n0 (Z.shiftr n0 1) in
  let n := if v1 then PTRDIFF_MAX pf else n in
  let n := if (0 <=? nitems_max) && (nitems_max <? n) then nitems_max else n in
  let '(v2, nbytes) := INT_MULTIPLY_WRAPV n item_size in
  let adjusted_nbytes :=
    if v2 || (Vectors.SIZE_MAX pf <? nbytes)
    then Z.min (PTRDIFF_MAX pf) (Vectors.SIZE_MAX pf)
    else if nbytes <? DEFAULT_MXFAST then DEFAULT_MXFAST else 0 in
  let '(n, nbytes) :=
    if negb (adjusted_nbytes =? 0)
    then (adjusted_nbytes ÷ item_size,
          adjusted_nbytes - Z.rem adjusted_nbytes item_size)
    else (n, nbytes) in
  let nitems := if pa =? 0 then 0 else n0 in
  let '(full, n, nbytes) :=
    if n - n0 <? nitems_incr_min then
      let '(v3, n) := INT_ADD_WRAPV n0 nitems_incr_min in
      if v3 then (true, n, nbytes)
      else if (0 <=? nitems_max) && (nitems_max <? n) then (true, n, nbytes)
      else
        let '(v4, nbytes) := INT_MULTIPLY_WRAPV n item_size in
        (v4, n, nbytes)
    else (false, n, nbytes) in
  if full then (Memory_full (Vectors.SIZE_MAX pf), nitems)
  else
    match xrealloc pa nbytes with
    | Returns val => (Returns val, n)
    | Memory_full size => (Memory_full size, nitems)
    end.

(** What the callers owe ([eassume]), and the sizes of the platform. *)
Definition xpalloc_pre (n0 nitems_incr_min nitems_max item_size : Z) : bool :=
  (0 <? item_size) && (0 <? nitems_incr_min) && (0 <=? n0)
  && (-1 <=? nitems_max)
  && (item_size <=? PTRDIFF_MAX pf) && (nitems_incr_min <=? PTRDIFF_MAX pf)
  && (n0 <=? PTRDIFF_MAX pf) && (nitems_max <=? PTRDIFF_MAX pf)
  && (0 <? Vectors.SIZE_MAX pf) && (0 <=? DEFAULT_MXFAST)
  && (DEFAULT_MXFAST <=? Z.min (PTRDIFF_MAX pf) (Vectors.SIZE_MAX pf)).

End platform.

(** An allocator that never fails, for the examples. *)
Definition example_lmalloc (size : Z) (clear : bool) : Z := 4096.
Definition example_lrealloc (block size : Z) : Z := block.

End Xalloc.

(** ** Pure storage: [pure_alloc]

    Lisp objects are allocated from the beginning of the pure space,
    other data from its end. *)

Module Pure.
Import Lisp.
Local Open Scope Z_scope.

Record state := {
  purebeg : Z;
  pure_size : Z;
  pure_bytes_used : Z;
  pure_bytes_used_before_overflow : Z;
  pure_bytes_used_lisp : Z;
  pure_bytes_used_non_lisp : Z;
  gc_inhibited : bool
}.

(** What [pure_alloc] does: it returns a pointer, or [xzalloc] ends in
    [memory_full]. *)
Inductive result :=
| Returns (p : Z) (st : state)
| Memory_full (nbytes : Z).

Section platform.

(** [LISP_ALIGNMENT] and [ROUNDUP (x, y)] of lisp.h. *)
Context (LISP_ALIGNMENT : Z) (ROUNDUP : Z -> Z -> Z).

Context (lmalloc : Z -> bool -> Z).

Definition pointer_align (ptr alignment : Z) : Z := ROUNDUP ptr alignment.

Definition small_amount : Z := 10000.

(** [pure_alloc (size, type)]; [fuel] bounds the number of times that
    the label [again] is reached. *)
Fixpoint pure_alloc (fuel : nat) (size type : Z) (st : state)
  : option result :=
  match fuel with
  | O => None
  | S fuel =>
      let '(result, lisp, non_lisp) :=
        if type >=? 0 then
          let result :=
            pointer_align (purebeg st + pure_bytes_used_lisp st)
              LISP_ALIGNMENT in
          (result, (result - purebeg st) + size, pure_bytes_used_non_lisp st)
        else
          let unaligned_non_lisp := pure_bytes_used_non_lisp st + size in
          let unaligned := purebeg st + pure_size st - unaligned_non_lisp in
          let decr := Z.land unaligned (-1 - type) in
          (unaligned - decr, pure_bytes_used_lisp st,
           unaligned_non_lisp + decr) in
      let used := lisp + non_lisp in
      if used <=? pure_size st then
        Some (Returns result
                {| purebeg := purebeg st; pure_size := pure_size st;
                   pure_bytes_used := used;
                   pure_bytes_used_before_overflow :=
                     pure_bytes_used_before_overflow st;
                   pure_bytes_used_lisp := lisp;
                   pure_bytes_used_non_lisp := non_lisp;
                   gc_inhibited := gc_inhibited st |})
      else
        match Xalloc.xzalloc lmalloc small_amount with
        | Xalloc.Memory_full n => Some (Memory_full n)
        | Xalloc.Returns p =>
            pure_alloc fuel size type
              {| purebeg := p; pure_size := small_amount;
                 pure_bytes_used := 0;
                 pure_bytes_used_before_overflow :=
                   pure_bytes_used_before_overflow st + (used - size);
                 pure_bytes_used_lisp := 0;
                 pure_bytes_used_non_lisp := 0;
                 gc_inhibited := true |}
        end
  end.

(** What lisp.h says of [ROUNDUP (x, y)]: the least multiple of [y] that
    is not less than [x]. *)
Definition ROUNDUP_ok : Prop :=
  forall x y, 0 < y -> x <= ROUNDUP x y < x + y /\ ROUNDUP x y mod y = 0.

(** The alignment that the caller of [pure_alloc] asks for. *)
Definition alignment_of (type : Z) : Z :=
  if type >=? 0 then LISP_ALIGNMENT else - type.

(** The pure space is in order: what is used from the two ends fits. *)
Definition pure_ok (st : state) : bool :=
  (0 <=? purebeg st) && (0 <=? pure_bytes_used_lisp st)
  && (0 <=? pure_bytes_used_non_lisp st)
  && (pure_bytes_used_lisp st + pure_bytes_used_non_lisp st <=? pure_size st).

End platform.

(** [ROUNDUP] for the examples, and a pure space of 1000 bytes at 4096
    of which 13 and 5 bytes are used. *)
Definition example_ROUNDUP (x y : Z) : Z := (x + y - 1) / y * y.

Definition example_state : state :=
  {| purebeg := 4096; pure_size := 1000; pure_bytes_used := 18;
     pure_bytes_used_before_overflow := 0;
     pure_bytes_used_lisp := 13; pure_bytes_used_non_lisp := 5;
     gc_inhibited := false |}.

(** The same pure space while collection is inhibited. *)
Definition example_state_inhibited : state :=
  {| purebeg := 4096; pure_size := 1000; pure_bytes_used := 18;
     pure_bytes_used_before_overflow := 0;
     pure_bytes_used_lisp := 13; pure_bytes_used_non_lisp := 5;
     gc_inhibited := true |}.

End Pure.

(** ** Strings: [allocate_string_data], [compact_small_strings],
    [pin_string]

    The data of the strings live in a memory of bytes.  A byte holds a
    number, or one of the bytes of a word that was stored as a whole (a
    pointer, or the [nbytes] of a free [sdata]), as in the memory model
    of CompCert; a word can be read only where a word was stored.  Neither
    [GC_CHECK_STRING_BYTES] nor [GC_CHECK_STRING_OVERRUN] is defined, no
    dump is loaded, and [eassert] checks nothing. *)

Module Strings.
Import Lisp.
Local Open Scope Z_scope.

Inductive memval :=
| Byte (b : Z)
| Frag (v : Z) (i : Z).

Definition memval_eqb (x y : memval) : bool :=
  match x, y with
  | Byte a, Byte b => a =? b
  | Frag v i, Frag w j => (v =? w) && (i =? j)
  | _, _ => false
  end.

Definition memory := gmap Z memval.

(** Writing a list of bytes; a byte that is not there is written as
    not being there. *)
Definition write_opt (a : Z) (o : option memval) (m : memory) : memory :=
  match o with
  | Some v => <[a := v]> m
  | None => delete a m
  end.

Definition write_list (l : list (Z * option memval)) (m : memory) : memory :=
  foldr (fun x m' => write_opt x.1 x.2 m') m l.

(** [memmove (dst, src, n)] and [memset (dst, 0, n)]. *)
Definition memmove (dst src n : Z) (m : memory) : memory :=
  write_list ((fun i => (dst + i, m !! (src + i))) <$> seqZ 0 n) m.

Definition memclear (dst n : Z) (m : memory) : memory :=
  write_list ((fun i => (dst + i, Some (Byte 0))) <$> seqZ 0 n) m.

(** [struct Lisp_String], without the intervals. *)
Record Lisp_String_s := { size : Z; size_byte : Z; data : Z }.

(** [struct sblock], without its data. *)
Record sblock := { next : Z; next_free : Z }.

Record state := {
  strings : gmap Z Lisp_String_s;
  sblocks : gmap Z sblock;
  mem : memory;
  oldest_sblock : Z;
  current_sblock : Z;
  large_sblocks : Z;
  bytes_since_gc : Z
}.

Definition with_strings (x : gmap Z Lisp_String_s) (st : state) : state :=
  {| strings := x; sblocks := sblocks st; mem := mem st;
     oldest_sblock := oldest_sblock st; current_sblock := current_sblock st;
     large_sblocks := large_sblocks st; bytes_since_gc := bytes_since_gc st |}.

Definition with_sblocks (x : gmap Z sblock) (st : state) : state :=
  {| strings := strings st; sblocks := x; mem := mem st;
     oldest_sblock := oldest_sblock st; current_sblock := current_sblock st;
     large_sblocks := large_sblocks st; bytes_since_gc := bytes_since_gc st |}.

Definition with_mem (x : memory) (st : state) : state :=
  {| strings := strings st; sblocks := sblocks st; mem := x;
     oldest_sblock := oldest_sblock st; current_sblock := current_sblock st;
     large_sblocks := large_sblocks st; bytes_since_gc := bytes_since_gc st |}.

Definition with_oldest_sblock (x : Z) (st : state) : state :=
  {| strings := strings st; sblocks := sblocks st; mem := mem st;
     oldest_sblock := x; current_sblock := current_sblock st;
     large_sblocks := large_sblocks st; bytes_since_gc := bytes_since_gc st |}.

Definition with_current_sblock (x : Z) (st : state) : state :=
  {| strings := strings st; sblocks := sblocks st; mem := mem st;
     oldest_sblock := oldest_sblock st; current_sblock := x;
     large_sblocks := large_sblocks st; bytes_since_gc := bytes_since_gc st |}.

Definition with_large_sblocks (x : Z) (st : state) : state :=
  {| strings := strings st; sblocks := sblocks st; mem := mem st;
     oldest_sblock := oldest_sblock st; current_sblock := current_sblock st;
     large_sblocks := x; bytes_since_gc := bytes_since_gc st |}.

Definition with_bytes_since_gc (x : Z) (st : state) : state :=
  {| strings := strings st; sblocks := sblocks st; mem := mem st;
     oldest_sblock := oldest_sblock st; current_sblock := current_sblock st;
     large_sblocks := large_sblocks st; bytes_since_gc := x |}.

(** The sizes that the compiler and lisp.h fix. *)
Record layout := {
  sizeof_pointer : Z;
  SBLOCK_SIZE : Z;               (* MALLOC_SIZE_NEAR (1 << 13) *)
  SDATA_DATA_OFFSET : Z;         (* offsetof (struct sdata, data) *)
  sizeof_sdata : Z;              (* sizeof (sdata) *)
  sdata_align : Z;   (* max (FLEXALIGNOF (struct sdata), alignof (sdata)) *)
  offsetof_sblock_data : Z;      (* offsetof (struct sblock, data) *)
  offsetof_nbytes : Z;           (* offsetof (sdata, n.nbytes) *)
  FLEXSIZEOF_sblock : Z -> Z;    (* FLEXSIZEOF (struct sblock, data, n) *)
  STRING_BYTES_MAX : Z
}.

Definition lp64_layout : layout :=
  {| sizeof_pointer := 8; SBLOCK_SIZE := 8184; SDATA_DATA_OFFSET := 8;
     sizeof_sdata := 16; sdata_align := 8; offsetof_sblock_data := 16;
     offsetof_nbytes := 8; FLEXSIZEOF_sblock := fun n => 16 + n;
     STRING_BYTES_MAX := 2 ^ 61 - 1 |}.

Section layout.
Context (ly : layout).

Definition LARGE_STRING_BYTES : Z := Z.shiftl 1 10.
Definition GC_STRING_EXTRA : Z := 0.

(** Storing and reading a word. *)
Definition store_word (a v : Z) (m : memory) : memory :=
  write_list ((fun i => (a + i, Some (Frag v i))) <$> seqZ 0 (sizeof_pointer ly))
    m.

Definition load_word (a : Z) (m : memory) : option Z :=
  match m !! a with
  | Some (Frag v _) =>
      if forallb
           (fun i =>
              match m !! (a + i) with
              | Some x => memval_eqb x (Frag v i)
              | None => false
              end)
           (seqZ 0 (sizeof_pointer ly))
      then Some v else None
  | _ => None
  end.

(** [STRING_BYTES (s)] of lisp.h. *)
Definition STRING_BYTES (s : Lisp_String_s) : Z :=
  if size_byte s <? 0 then size s else size_byte s.

Definition sdata_size (n : Z) : Z :=
  let unaligned_size :=
    Z.max (SDATA_DATA_OFFSET ly + n + 1) (sizeof_sdata ly) in
  Z.land (unaligned_size + sdata_align ly - 1) (Z.lnot (sdata_align ly - 1)).

(** What [allocate_string_data] does: it returns, or it ends in
    [string_overflow] or in [memory_full]. *)
Inductive result :=
| Returns (st : state)
| String_overflow
| Memory_full (nbytes : Z).

(** [allocate_string_data (s, nchars, nbytes, q_clear, immovable)];
    [new] is what [lisp_malloc] answers if it is called, [0] when it
    fails.  [lisp_malloc] clears the block if it is asked to. *)
Definition allocate_string_data (s nchars nbytes : Z)
  (q_clear immovable : bool) (new : Z) (st : state) : option result :=
  if STRING_BYTES_MAX ly <? nbytes then Some String_overflow
  else
    let needed := sdata_size nbytes in
    r ← (if (nbytes >? LARGE_STRING_BYTES) || immovable then
           let size := FLEXSIZEOF_sblock ly needed in
           if new =? 0 then Some (inr (size + GC_STRING_EXTRA))
           else
             let b := new in
             let data_ := b + offsetof_sblock_data ly in
             let m := if q_clear
                      then memclear b (size + GC_STRING_EXTRA) (mem st)
                      else mem st in
             Some (inl (b, data_,
                        with_large_sblocks b
                          (with_sblocks
                             (<[b := {| next := large_sblocks st;
                                        next_free := data_ |}]> (sblocks st))
                             (with_mem m st))))
         else
           let b := current_sblock st in
           fits ← (if b =? 0 then Some false
                   else
                     hb ← sblocks st !! b;
                     Some (negb (SBLOCK_SIZE ly - GC_STRING_EXTRA
                                 <? next_free hb - b + needed)));
           r ← (if negb (fits : bool) then
                  if new =? 0 then Some (inr (SBLOCK_SIZE ly))
                  else
                    let b := new in
                    let data_ := b + offsetof_sblock_data ly in
                    let st :=
                      with_sblocks
                        (<[b := {| next := 0; next_free := data_ |}]>
                           (sblocks st)) st in
                    st ← (if negb (current_sblock st =? 0) then
                            hc ← sblocks st !! current_sblock st;
                            Some (with_sblocks
                                    (<[current_sblock st :=
                                         {| next := b;
                                            next_free := next_free hc |}]>
                                       (sblocks st)) st)
                          else Some (with_oldest_sblock b st));
                    Some (inl (b, with_current_sblock b st))
                else Some (inl (b, st)));
           match r with
           | inr n => Some (inr n)
           | inl (b, st) =>
               hb ← sblocks st !! b;
               let data_ := next_free hb in
               let m := if q_clear
                        then memclear (data_ + SDATA_DATA_OFFSET ly) nbytes
                               (mem st)
                        else mem st in
               Some (inl (b, data_, with_mem m st))
           end);
    match r with
    | inr n => Some (Memory_full n)
    | inl (b, data_, st) =>
        let st := with_mem (store_word data_ s (mem st)) st in
        hb ← sblocks st !! b;
        let st :=
          with_sblocks
            (<[b := {| next := next hb;
                       next_free := data_ + needed + GC_STRING_EXTRA |}]>
               (sblocks st)) st in
        _ ← strings st !! s;
        let st :=
          with_strings
            (<[s := {| size := nchars; size_byte := nbytes;
                       data := data_ + SDATA_DATA_OFFSET ly |}]>
               (strings st)) st in
        let st :=
          with_mem
            (<[data_ + SDATA_DATA_OFFSET ly + nbytes := Byte 0]> (mem st))
            st in
        Some (Returns (with_bytes_since_gc (bytes_since_gc st + needed) st))
    end.

(** *** Compaction *)

(** [tb], [tb_end] and [to] of [compact_small_strings]. *)
Record cursor := { tb : Z; tb_end : Z; to : Z }.

(** The body of [for (sdata *from = b->data; from < end; )]; the result
    is [from_end], the cursor and the state.  Going on to a null [tb] is
    undefined. *)
Definition compact_sdata (from : Z) (c : cursor) (st : state)
  : option (Z * cursor * state) :=
  s ← load_word from (mem st);
  nbytes ← (if negb (s =? 0)
            then str ← strings st !! s; Some (STRING_BYTES str)
            else load_word (from + offsetof_nbytes ly) (mem st));
  let size_ := sdata_size nbytes in
  let from_end := from + size_ + GC_STRING_EXTRA in
  if negb (s =? 0) then
    let to_end := to c + size_ + GC_STRING_EXTRA in
    '(c, to_end, st) ←
      (if to_end >? tb_end c then
         htb ← sblocks st !! tb c;
         let st :=
           with_sblocks
             (<[tb c := {| next := next htb; next_free := to c |}]>
                (sblocks st)) st in
         let tb' := next htb in
         if tb' =? 0 then None
         else
           let to' := tb' + offsetof_sblock_data ly in
           Some ({| tb := tb'; tb_end := tb' + SBLOCK_SIZE ly; to := to' |},
                 to' + size_ + GC_STRING_EXTRA, st)
       else Some (c, to_end, st));
    st ← (if negb (from =? to c) then
            let m := memmove (to c) from (size_ + GC_STRING_EXTRA) (mem st) in
            s' ← load_word (to c) m;
            str ← strings st !! s';
            Some (with_strings
                    (<[s' := {| size := size str; size_byte := size_byte str;
                                data := to c + SDATA_DATA_OFFSET ly |}]>
                       (strings st))
                    (with_mem m st))
          else Some st);
    Some (from_end, {| tb := tb c; tb_end := tb_end c; to := to_end |}, st)
  else Some (from_end, c, st).

Fixpoint compact_sblock (fuel : nat) (end_ from : Z) (c : cursor) (st : state)
  : option (cursor * state) :=
  match fuel with
  | O => None
  | S fuel =>
      if from <? end_ then
        '(from, c, st) ← compact_sdata from c st;
        compact_sblock fuel end_ from c st
      else Some (c, st)
  end.

(** [do ... while (b)]. *)
Fixpoint compact_sblocks (fuel : nat) (b : Z) (c : cursor) (st : state)
  : option (cursor * state) :=
  match fuel with
  | O => None
  | S fuel' =>
      hb ← sblocks st !! b;
      '(c, st) ← compact_sblock fuel (next_free hb)
                   (b + offsetof_sblock_data ly) c st;
      hb ← sblocks st !! b;
      if next hb =? 0 then Some (c, st)
      else compact_sblocks fuel' (next hb) c st
  end.

(** [for (b = tb->next; b; )], with [lisp_free (b)]. *)
Fixpoint free_sblocks (fuel : nat) (b : Z) (st : state) : option state :=
  match fuel with
  | O => None
  | S fuel =>
      if b =? 0 then Some st
      else
        hb ← sblocks st !! b;
        free_sblocks fuel (next hb)
          (with_sblocks (delete b (sblocks st)) st)
  end.

(** [compact_small_strings ()]; [fuel] bounds the iterations of each
    loop. *)
Definition compact_small_strings (fuel : nat) (st : state) : option state :=
  let tb_ := oldest_sblock st in
  if negb (tb_ =? 0) then
    let c := {| tb := tb_; tb_end := tb_ + SBLOCK_SIZE ly;
                to := tb_ + offsetof_sblock_data ly |} in
    '(c, st) ← compact_sblocks fuel tb_ c st;
    htb ← sblocks st !! tb c;
    st ← free_sblocks fuel (next htb) st;
    _ ← sblocks st !! tb c;
    let st :=
      with_sblocks (<[tb c := {| next := 0; next_free := to c |}]> (sblocks st))
        st in
    Some (with_current_sblock (tb c) st)
  else Some (with_current_sblock 0 st).

(** The branch of [sweep_strings] for a string that is not marked: the
    size goes to its [sdata], whose back pointer is reset, and the string
    loses its data.  The free list of strings is not modelled. *)
Definition sweep_dead_string (s : Z) (st : state) : option state :=
  str ← strings st !! s;
  let data_ := data str - SDATA_DATA_OFFSET ly in
  let m := store_word (data_ + offsetof_nbytes ly) (STRING_BYTES str) (mem st) in
  let m := store_word data_ 0 m in
  Some (with_strings
          (<[s := {| size := size str; size_byte := size_byte str;
                     data := 0 |}]> (strings st))
          (with_mem m st)).

(** [pin_string (string)] for the string at [s]; [PURE_P]: the address
    is in pure space. *)
Definition pin_string (PURE_P : Z -> bool) (s new : Z) (st : state)
  : option result :=
  str ← strings st !! s;
  let size_ := STRING_BYTES str in
  let data_ := data str in
  r ← (if negb ((size_ >? LARGE_STRING_BYTES) || PURE_P data_
                || (size_byte str =? -3)) then
         let old_sdata := data_ - SDATA_DATA_OFFSET ly in
         r ← allocate_string_data s size_ size_ false true new st;
         match r with
         | Returns st =>
             str' ← strings st !! s;
             let m := memmove (data str') data_ size_ (mem st) in
             let m := store_word old_sdata 0 m in
             let m := store_word (old_sdata + offsetof_nbytes ly) size_ m in
             Some (Returns (with_mem m st))
         | r => Some r
         end
       else Some (Returns st));
  match r with
  | Returns st =>
      str ← strings st !! s;
      Some (Returns
              (with_strings
                 (<[s := {| size := size str; size_byte := -3;
                            data := data str |}]> (strings st)) st))
  | r => Some r
  end.

(** *** The layout of the small blocks *)

(** An [sdata]: the string that owns it, or [0], and the bytes of the
    string. *)
Record entry := { e_string : Z; e_nbytes : Z }.

Definition entry_size (e : entry) : Z :=
  sdata_size (e_nbytes e) + GC_STRING_EXTRA.

Fixpoint entries_end (d : Z) (es : list entry) : Z :=
  match es with
  | [] => d
  | e :: es => entries_end (d + entry_size e) es
  end.

Definition entry_ok (st : state) (d : Z) (e : entry) : bool :=
  (0 <=? e_nbytes e) && (e_nbytes e <=? LARGE_STRING_BYTES)
  && match load_word d (mem st) with
     | Some s =>
         (s =? e_string e)
         && (if s =? 0 then
               match load_word (d + offsetof_nbytes ly) (mem st) with
               | Some n => n =? e_nbytes e
               | None => false
               end
             else
               match strings st !! s with
               | Some str =>
                   (data str =? d + SDATA_DATA_OFFSET ly)
                   && (STRING_BYTES str =? e_nbytes e)
               | None => false
               end)
     | None => false
     end.

Fixpoint entries_ok (st : state) (d : Z) (es : list entry) : bool :=
  match es with
  | [] => true
  | e :: es => entry_ok st d e && entries_ok st (d + entry_size e) es
  end.

(** The blocks from [x] along [next], with the entries of each. *)
Fixpoint blocks_ok (st : state) (x : Z) (L : list (Z * list entry)) : bool :=
  match L with
  | [] => x =? 0
  | (b, es) :: L =>
      (x =? b) && (0 <? b)
      && match sblocks st !! b with
         | Some hb =>
             (next_free hb =? entries_end (b + offsetof_sblock_data ly) es)
             && (next_free hb <=? b + SBLOCK_SIZE ly)
             && entries_ok st (b + offsetof_sblock_data ly) es
             && blocks_ok st (next hb) L
         | None => false
         end
  end.

(** No two blocks overlap. *)
Fixpoint separated (bs : list Z) : bool :=
  match bs with
  | [] => true
  | b :: bs =>
      forallb (fun b' => (b + SBLOCK_SIZE ly <=? b') || (b' + SBLOCK_SIZE ly <=? b))
        bs
      && separated bs
  end.

(** The strings that own an [sdata] of the layout. *)
Definition live_strings (L : list (Z * list entry)) : list Z :=
  List.filter (fun s => negb (s =? 0))
    (e_string <$> concat (snd <$> L)).

(** The last block of the chain, or null. *)
Fixpoint last_block (L : list (Z * list entry)) : Z :=
  match L with
  | [] => 0
  | (b, _) :: L' =>
      match L' with
      | [] => b
      | _ :: _ => last_block L'
      end
  end.

(** The layout with one more entry in block [b]: at the end of the last
    block if that is [b], and else in a new last block. *)
Fixpoint add_entry (b : Z) (e : entry) (L : list (Z * list entry))
  : list (Z * list entry) :=
  match L with
  | [] => [(b, [e])]
  | (b0, es) :: L' =>
      match L' with
      | [] => if b0 =? b then [(b0, es ++ [e])] else [(b0, es); (b, [e])]
      | _ :: _ => (b0, es) :: add_entry b e L'
      end
  end.

(** The layout when the [sdata] of the string [s] has become free. *)
Definition kill_entry (s : Z) (L : list (Z * list entry))
  : list (Z * list entry) :=
  (fun x : Z * list entry =>
     (x.1,
      (fun e => if e_string e =? s
                then {| e_string := 0; e_nbytes := e_nbytes e |} else e)
        <$> x.2))
    <$> L.

Definition layout_sizes_ok : bool :=
  (0 <? sizeof_pointer ly) && (0 <? sdata_align ly)
  && (2 ^ Z.log2 (sdata_align ly) =? sdata_align ly)
  && (sizeof_pointer ly <=? SDATA_DATA_OFFSET ly)
  && (offsetof_nbytes ly + sizeof_pointer ly <=? sizeof_sdata ly)
  && (sizeof_pointer ly <=? offsetof_nbytes ly)
  && (0 <=? offsetof_sblock_data ly) && (0 <? SBLOCK_SIZE ly).

Definition layout_ok (st : state) (L : list (Z * list entry)) : bool :=
  layout_sizes_ok
  && blocks_ok st (oldest_sblock st) L
  && separated (fst <$> L)
  && Conses.nodupb (live_strings L).

(** *** Predicates for the proofs *)

(** An entry with the index and the address of its block, and its own
    address. *)
Record placed := { p_bi : nat; p_blk : Z; p_addr : Z; p_entry : entry }.

Definition p_size (x : placed) : Z := entry_size (p_entry x).
Definition p_string (x : placed) : Z := e_string (p_entry x).

Fixpoint place_entries (bi : nat) (b d : Z) (es : list entry) : list placed :=
  match es with
  | [] => []
  | e :: es =>
      {| p_bi := bi; p_blk := b; p_addr := d; p_entry := e |}
      :: place_entries bi b (d + entry_size e) es
  end.

Fixpoint place_blocks (bi : nat) (L : list (Z * list entry)) : list placed :=
  match L with
  | [] => []
  | (b, es) :: L =>
      place_entries bi b (b + offsetof_sblock_data ly) es
      ++ place_blocks (S bi) L
  end.

(** The [n] bytes at [d] in [m] are the [n] bytes at [d0] in [m0]. *)
Definition same_bytes (m m0 : memory) (d d0 n : Z) : Prop :=
  forall i, 0 <= i < n -> m !! (d + i) = m0 !! (d0 + i).

(** What a layout says of the state, as propositions. *)
Record laid_out (st0 : state) (L : list (Z * list entry)) : Prop := {
  lo_sizes : layout_sizes_ok = true;
  lo_nodup : NoDup (fst <$> L);
  lo_pos : forall b, b ∈ fst <$> L -> 0 < b;
  lo_sep : forall (i j : nat) b1 b2,
    (fst <$> L) !! i = Some b1 -> (fst <$> L) !! j = Some b2 -> i <> j ->
    b1 + SBLOCK_SIZE ly <= b2 \/ b2 + SBLOCK_SIZE ly <= b1;
  lo_hdr : forall (i : nat) b es,
    L !! i = Some (b, es) ->
    exists hb,
      sblocks st0 !! b = Some hb
      /\ next hb = default 0 ((fst <$> L) !! S i)
      /\ next_free hb = entries_end (b + offsetof_sblock_data ly) es
      /\ next_free hb <= b + SBLOCK_SIZE ly;
  lo_oldest : oldest_sblock st0 = default 0 ((fst <$> L) !! O);
  lo_placed : forall x,
    x ∈ place_blocks O L ->
    (fst <$> L) !! p_bi x = Some (p_blk x)
    /\ p_blk x + offsetof_sblock_data ly <= p_addr x
    /\ p_addr x + p_size x <= p_blk x + SBLOCK_SIZE ly
    /\ entry_ok st0 (p_addr x) (p_entry x) = true;
  lo_sorted : forall A x B,
    place_blocks O L = A ++ x :: B ->
    forall y, y ∈ B ->
      (p_bi x <= p_bi y)%nat
      /\ (p_bi x = p_bi y -> p_addr x + p_size x <= p_addr y);
  lo_live : forall A x B,
    place_blocks O L = A ++ x :: B -> p_string x <> 0 ->
    forall y, y ∈ A ++ B -> p_string y <> p_string x
}.

(** The invariant of the loops of [compact_small_strings]: [Pp] are the
    entries that the loops have passed, [Pu] those that they have not;
    [ti] is the index of the block [tb].  [st0] is the state at the
    start. *)
Record compacting (st0 : state) (bs : list Z) (ti : nat)
  (Pp Pu : list placed) (c : cursor) (st : state) : Prop := {
  cp_tb : bs !! ti = Some (tb c);
  cp_tb_end : tb_end c = tb c + SBLOCK_SIZE ly;
  cp_to : tb c + offsetof_sblock_data ly <= to c <= tb c + SBLOCK_SIZE ly;
  cp_unproc : forall y,
    y ∈ Pu ->
    (ti <= p_bi y)%nat /\ (p_bi y = ti -> to c <= p_addr y)
    /\ same_bytes (mem st) (mem st0) (p_addr y) (p_addr y) (p_size y);
  cp_proc : forall x,
    x ∈ Pp -> p_string x <> 0 ->
    exists (bi' : nat) b' d' str0,
      bs !! bi' = Some b' /\ (bi' <= ti)%nat
      /\ b' + offsetof_sblock_data ly <= d'
      /\ d' + p_size x <= b' + SBLOCK_SIZE ly
      /\ (bi' = ti -> d' + p_size x <= to c)
      /\ strings st0 !! p_string x = Some str0
      /\ strings st !! p_string x
         = Some {| size := size str0; size_byte := size_byte str0;
                   data := d' + SDATA_DATA_OFFSET ly |}
      /\ same_bytes (mem st) (mem st0) d' (p_addr x) (p_size x);
  cp_hdr_same : forall (bi : nat) b,
    bs !! bi = Some b -> (ti <= bi)%nat -> sblocks st !! b = sblocks st0 !! b;
  cp_hdr_next : forall b hb,
    b ∈ bs -> sblocks st0 !! b = Some hb ->
    exists hb', sblocks st !! b = Some hb' /\ next hb' = next hb;
  cp_hdr_other : forall b, b ∉ bs -> sblocks st !! b = sblocks st0 !! b;
  cp_strings : forall s,
    (forall x, x ∈ Pp -> p_string x <> 0 -> p_string x <> s) ->
    strings st !! s = strings st0 !! s;
  cp_mem : forall a,
    (forall b, b ∈ bs -> ~ (b <= a < b + SBLOCK_SIZE ly)) ->
    mem st !! a = mem st0 !! a;
  cp_fields :
    oldest_sblock st = oldest_sblock st0
    /\ current_sblock st = current_sblock st0
    /\ large_sblocks st = large_sblocks st0
    /\ bytes_since_gc st = bytes_since_gc st0
}.

End layout.

(** *** An example: three small strings and a pinned one

    The strings at 1000, 1032 and 1064 get the bytes of "abc", "hello"
    and "xy" in a first block at 16384; the second dies; the string at
    1096 is pinned in a block of its own at 32768. *)
Fixpoint store_bytes (a : Z) (l : list Z) (m : memory) : memory :=
  match l with
  | [] => m
  | b :: l => store_bytes (a + 1) l (<[a := Byte b]> m)
  end.

(** [make_string]: [allocate_string_data], then [memcpy] of the
    contents. *)
Definition example_make_string (s : Z) (contents : list Z) (new : Z)
  (st : state) : option state :=
  let n := Z.of_nat (length contents) in
  r ← allocate_string_data lp64_layout s n n false false new st;
  match r with
  | Returns st =>
      str ← strings st !! s;
      Some (with_mem (store_bytes (data str) contents (mem st)) st)
  | _ => None
  end.

Definition no_strings : state :=
  {| strings :=
       {[ 1000 := {| size := 0; size_byte := 0; data := 0 |};
          1032 := {| size := 0; size_byte := 0; data := 0 |};
          1064 := {| size := 0; size_byte := 0; data := 0 |};
          1096 := {| size := 0; size_byte := 0; data := 0 |} ]};
     sblocks := ∅; mem := ∅; oldest_sblock := 0; current_sblock := 0;
     large_sblocks := 0; bytes_since_gc := 0 |}.

Definition example_state : option state :=
  st ← example_make_string 1000 [97; 98; 99] 16384 no_strings;
  st ← example_make_string 1032 [104; 101; 108; 108; 111] 0 st;
  st ← example_make_string 1064 [120; 121] 0 st;
  st ← example_make_string 1096 [112; 105; 110] 0 st;
  r ← pin_string lp64_layout (fun _ => false) 1096 32768 st;
  match r with
  | Returns st => sweep_dead_string lp64_layout 1032 st
  | _ => None
  end.

(** The states after the first and after the third string, and the
    layout of the latter. *)
Definition example_one_string : state :=
  match example_make_string 1000 [97; 98; 99] 16384 no_strings with
  | Some st => st
  | None => no_strings
  end.

Definition example_three_strings : state :=
  match
    st ← example_make_string 1000 [97; 98; 99] 16384 no_strings;
    st ← example_make_string 1032 [104; 101; 108; 108; 111] 0 st;
    example_make_string 1064 [120; 121] 0 st
  with
  | Some st => st
  | None => no_strings
  end.

Definition example_three_layout : list (Z * list entry) :=
  [(16384, [ {| e_string := 1000; e_nbytes := 3 |};
             {| e_string := 1032; e_nbytes := 5 |};
             {| e_string := 1064; e_nbytes := 2 |} ])].

(** The same with the second string unibyte, as after
    [STRING_SET_UNIBYTE]. *)
Definition example_unibyte : state :=
  with_strings
    (<[1032 := {| size := 5; size_byte := -1; data := 16424 |}]>
       (strings example_three_strings))
    example_three_strings.

Definition example_strings : state :=
  match example_state with Some st => st | None => no_strings end.

(** The layout of the first block of [example_strings]. *)
Definition example_layout : list (Z * list entry) :=
  [(16384, [ {| e_string := 1000; e_nbytes := 3 |};
             {| e_string := 0; e_nbytes := 5 |};
             {| e_string := 1064; e_nbytes := 2 |};
             {| e_string := 0; e_nbytes := 3 |} ])].

End Strings.

(** * Proofs *)

(** ** The tree of allocated regions *)
Module MemTreeProofs.
Import MemTree.
Local Open Scope Z_scope.
(** *** Representation lemmas and rotations *)
Lemma rep_ext m m' par t :
  rep m par t -> (forall a, a ∈ addrs t -> m' !! a = m !! a) -> rep m' par t.
Proof.
  revert par. induction t as [|c l IHl a d r IHr]; intros par H Hm; simpl in *; [done|].
  destruct H as (Ha & Hl & Hr). split_and!.
  - rewrite Hm; [done|]. set_solver.
  - apply IHl; [done|]. intros; apply Hm. set_solver.
  - apply IHr; [done|]. intros; apply Hm. set_solver.
Qed.

Lemma repk_ext m m' k h :
  repk m k h -> (forall a, a ∈ kaddrs k -> m' !! a = m !! a) -> repk m' k h.
Proof.
  revert h. induction k as [|[c a d r|c l a d] k IH]; intros h H Hm; simpl in *; [done|..];
    destruct H as (Ha & Hs & Hk); split_and!.
  - rewrite Hm; [done|]. set_solver.
  - eapply rep_ext; [done|]. intros; apply Hm. set_solver.
  - apply IH; [done|]. intros; apply Hm. set_solver.
  - rewrite Hm; [done|]. set_solver.
  - eapply rep_ext; [done|]. intros; apply Hm. set_solver.
  - apply IH; [done|]. intros; apply Hm. set_solver.
Qed.

Lemma rep_plug m t k :
  rep m NULL (plug t k) <-> rep m (kparent k) t /\ repk m k (rootp t).
Proof.
  revert t. induction k as [|[c a d r|c l a d] k IH]; intros t; simpl.
  - tauto.
  - rewrite IH. simpl. tauto.
  - rewrite IH. simpl. tauto.
Qed.

Lemma addrs_plug t k : addrs (plug t k) ≡ₚ addrs t ++ kaddrs k.
Proof.
  revert t. induction k as [|[c a d r|c l a d] k IH]; intros t; simpl.
  - by rewrite app_nil_r.
  - rewrite IH. simpl. by rewrite <- app_assoc.
  - rewrite IH. simpl. rewrite <- !Permutation_middle. simpl.
    constructor. rewrite (Permutation_app_comm (addrs l)).
    by rewrite <- app_assoc.
Qed.

Lemma rootp_cases t : rootp t = MEM_NIL \/ rootp t ∈ addrs t.
Proof. destruct t; simpl; [by left|right]. set_solver. Qed.

Lemma Rep_plug st t k z :
  Rep st (plug t k) z ->
  rep (nodes st) (kparent k) t /\ repk (nodes st) k (rootp t)
  /\ NoDup (addrs t ++ kaddrs k) /\ Forall good_addr (addrs t ++ kaddrs k).
Proof.
  intros [H1 H2 H3 H4 H5]. apply rep_plug in H1 as [? ?].
  split_and!; try done.
  - by rewrite <- addrs_plug.
  - by rewrite <- addrs_plug.
Qed.

Lemma Rep_intro st t k z :
  rep (nodes st) (kparent k) t -> repk (nodes st) k (rootp t) ->
  NoDup (addrs t ++ kaddrs k) -> Forall good_addr (addrs t ++ kaddrs k) ->
  mem_root st = rootp (plug t k) ->
  nodes st !! MEM_NIL = Some z ->
  Rep st (plug t k) z.
Proof.
  intros. split; try done.
  - by apply rep_plug.
  - by rewrite addrs_plug.
  - by rewrite addrs_plug.
Qed.



Lemma good_addr_elim a : good_addr a -> a <> NULL /\ a <> MEM_NIL.
Proof. done. Qed.

Lemma good_not_nil l : Forall good_addr l -> MEM_NIL ∉ l.
Proof. rewrite Forall_forall. intros H Hin. by destruct (H _ Hin). Qed.

Ltac nodup_split H :=
  try (repeat (rewrite ?NoDup_app, ?NoDup_cons, ?Forall_app, ?Forall_cons in H);
       destruct_and? H);
  repeat match goal with
    | G : good_addr _ |- _ => apply good_addr_elim in G; destruct G
    | G : Forall good_addr (addrs ?t) |- _ => is_var t; apply good_not_nil in G
    | G : Forall good_addr (kaddrs ?k) |- _ => is_var k; apply good_not_nil in G
    | G : NoDup [] |- _ => clear G
    | G : Forall _ [] |- _ => clear G
    | G : forall x, x ∈ _ -> x ∉ [] |- _ => clear G
    | G : _ ∉ [] |- _ => clear G
    end.

Ltac elem_tac :=
  match goal with
  | |- _ ∈ _ :: _ => (apply list_elem_of_here) + (apply list_elem_of_further; elem_tac)
  | |- _ ∈ _ ++ _ => apply elem_of_app; ((left; elem_tac) + (right; elem_tac))
  | |- _ ∈ _ => eassumption
  end.

Ltac neq_search a :=
  match goal with
  | H : a ∉ _ |- False => apply H; solve [elem_tac]
  | H : forall x, x ∈ _ -> x ∉ _ |- False => apply (H a); solve [elem_tac]
  end.

Lemma neq_rootp a t : a <> MEM_NIL -> a ∉ addrs t -> a <> rootp t.
Proof. destruct t; simpl; [done|]. set_solver. Qed.

Lemma neq_rootp' a t : a <> MEM_NIL -> a ∉ addrs t -> rootp t <> a.
Proof. intros ?? E. by eapply neq_rootp. Qed.

Ltac neq :=
  first [ assumption | congruence
        | match goal with
          | |- ?a <> rootp ?t =>
              apply neq_rootp;
              [assumption | let E := fresh "E" in intros E; neq_search a]
          | |- rootp ?t <> ?a =>
              apply neq_rootp';
              [assumption | let E := fresh "E" in intros E; neq_search a]
          end
        | let E := fresh "E" in
          intros E;
          match type of E with
          | ?a = ?b => first [ subst a; neq_search b | subst b; neq_search a ]
          end ].

Ltac exec_step :=
  match goal with
  | |- context [nodes (with_nodes _ _)] => unfold with_nodes at 1; simpl nodes
  | |- context [<[?a := _]> _ !! ?a] => rewrite lookup_insert_eq
  | H : ?m !! ?a = Some _ |- context [?m !! ?a] => rewrite H
  | |- context [<[?a := _]> _ !! ?b] => rewrite (lookup_insert_ne _ a b) by neq
  | |- context [?a =? ?a] => rewrite Z.eqb_refl
  | |- context [?a =? ?b] => rewrite (proj2 (Z.eqb_neq a b)) by neq
  end.

Ltac exec := repeat (exec_step; simpl).

Ltac solve_lookup :=
  simpl; repeat (rewrite lookup_insert_eq || rewrite lookup_insert_ne by neq);
  first [ reflexivity | eassumption
        | match goal with H : ?m !! ?a = Some _ |- ?m !! ?a = Some _ =>
            rewrite H; reflexivity end ].

Ltac solve_ext :=
  let a' := fresh "a'" in let Ha' := fresh "Ha'" in
  intros a' Ha'; simpl; repeat (rewrite lookup_insert_ne by neq); reflexivity.

Ltac solve_rep :=
  match goal with
  | |- rep _ _ _ => eapply rep_ext; [eassumption | solve_ext]
  | |- repk _ _ _ => eapply repk_ext; [eassumption | solve_ext]
  end.


Lemma rootp_plug_cons t t' f k : rootp (plug t (f :: k)) = rootp (plug t' (f :: k)).
Proof.
  revert t t' f. induction k as [|g k IH]; intros t t' f.
  - by destruct f.
  - destruct f; simpl; apply (IH _ _ g).
Qed.

Lemma Rep_replace st st' t t' k z z' :
  Rep st (plug t k) z ->
  addrs t' ≡ₚ addrs t ->
  rep (nodes st') (kparent k) t' ->
  repk (nodes st') k (rootp t') ->
  mem_root st' = rootp (plug t' k) ->
  nodes st' !! MEM_NIL = Some z' ->
  Rep st' (plug t' k) z'.
Proof.
  intros [H1 H2 H3 H4 H5] Hp Ht Hk Hr Hz. split; try done.
  - by apply rep_plug.
  - rewrite addrs_plug, Hp, <- addrs_plug. done.
  - rewrite addrs_plug, Hp, <- addrs_plug. done.
Qed.




Lemma rotate_left_spec st cx a x dx cy b y dy c k z :
  Rep st (plug (T cx a x dx (T cy b y dy c)) k) z ->
  exists st', mem_rotate_left x st = Some st'
    /\ Rep st' (plug (T cy (T cx a x dx b) y dy c) k) z
    /\ same_bounds st st'.
Proof.
  intros H. pose proof (rep_z _ _ _ H) as Hz. pose proof (rep_root _ _ _ H) as Hroot.
  pose proof H as (Ht & Hk & Hnd & Hg)%Rep_plug.
  assert (Hp : addrs (T cy (T cx a x dx b) y dy c)
               ≡ₚ addrs (T cx a x dx (T cy b y dy c))).
  { simpl. by rewrite <- app_assoc. }
  simpl in Ht. destruct Ht as (Hx & Ha & (Hy & Hb & Hc)).
  destruct b as [|cb bl ab db br]; destruct k as [|[cp p dp sib|cp sib p dp] k];
    simpl in Hx, Hy, Hb, Hk, Hnd, Hg, Hroot; destruct_and?; nodup_split Hnd; nodup_split Hg;
    unfold mem_rotate_left, rd, wr; simpl; exec;
    (eexists; split; [reflexivity|]; split; [|done];
     match type of H with Rep _ (plug ?t0 ?k0) _ =>
       eapply (Rep_replace _ _ t0 _ k0) end;
     [exact H | exact Hp
     | simpl; split_and!; try solve_lookup; solve_rep
     | simpl; split_and?; try solve_lookup; try solve_rep
     | simpl; first [done | rewrite Hroot;
           match type of H with Rep _ (plug _ (?f :: ?k')) _ =>
             apply (rootp_plug_cons _ _ f k') end]
     | solve_lookup ]).
Qed.

Lemma rotate_right_spec st cx a x dx cy b y dy c k z :
  Rep st (plug (T cx (T cy a y dy b) x dx c) k) z ->
  exists st', mem_rotate_right x st = Some st'
    /\ Rep st' (plug (T cy a y dy (T cx b x dx c)) k) z
    /\ same_bounds st st'.
Proof.
  intros H. pose proof (rep_z _ _ _ H) as Hz. pose proof (rep_root _ _ _ H) as Hroot.
  pose proof H as (Ht & Hk & Hnd & Hg)%Rep_plug.
  assert (Hp : addrs (T cy a y dy (T cx b x dx c))
               ≡ₚ addrs (T cx (T cy a y dy b) x dx c)).
  { simpl. by rewrite <- app_assoc. }
  simpl in Ht. destruct Ht as (Hx & (Hy & Ha & Hb) & Hc).
  destruct b as [|cb bl ab db br]; destruct k as [|[cp p dp sib|cp sib p dp] k];
    simpl in Hx, Hy, Hb, Hk, Hnd, Hg, Hroot; destruct_and?; nodup_split Hnd; nodup_split Hg;
    unfold mem_rotate_right, rd, wr; simpl; exec;
    (eexists; split; [reflexivity|]; split; [|done];
     match type of H with Rep _ (plug ?t0 ?k0) _ =>
       eapply (Rep_replace _ _ t0 _ k0) end;
     [exact H | exact Hp
     | simpl; split_and!; try solve_lookup; solve_rep
     | simpl; split_and?; try solve_lookup; try solve_rep
     | simpl; first [done | rewrite Hroot;
           match type of H with Rep _ (plug _ (?f :: ?k')) _ =>
             apply (rootp_plug_cons _ _ f k') end]
     | solve_lookup ]).
Qed.

Lemma Rep_node st c l a d r k z :
  Rep st (plug (T c l a d r) k) z ->
  nodes st !! a = Some (mk c (rootp l) (rootp r) (kparent k) d).
Proof. intros (Ht & _)%Rep_plug. simpl in Ht. tauto. Qed.

Lemma recolor_spec c' st c l a d r k z :
  Rep st (plug (T c l a d r) k) z ->
  exists st', wr (upd_color c') a st = Some st'
    /\ Rep st' (plug (T c' l a d r) k) z
    /\ same_bounds st st'.
Proof.
  intros H. pose proof (rep_z _ _ _ H) as Hz. pose proof (rep_root _ _ _ H) as Hroot.
  pose proof H as (Ht & Hk & Hnd & Hg)%Rep_plug.
  simpl in Ht. destruct Ht as (Hx & Ha & Hb).
  simpl in Hnd, Hg. nodup_split Hnd. nodup_split Hg.
  unfold wr. rewrite Hx. simpl.
  eexists; split; [reflexivity|]; split; [|done].
  eapply (Rep_replace _ _ (T c l a d r) _ k); [exact H | done | ..].
  - simpl; split_and!; try solve_lookup; solve_rep.
  - destruct k as [|[cp p dp sib|cp sib p dp] k]; simpl in *; destruct_and?;
      split_and?; try solve_lookup; try solve_rep.
  - simpl. rewrite Hroot. destruct k as [|f k]; [done|]. apply rootp_plug_cons.
  - solve_lookup.
Qed.

Lemma rerange_spec s e ty st c l a d r k z :
  Rep st (plug (T c l a d r) k) z ->
  exists st', wr (upd_range s e ty) a st = Some st'
    /\ Rep st' (plug (T c l a {| i_start := s; i_end := e; i_type := ty |} r) k) z
    /\ same_bounds st st'
    /\ (forall b, b <> a -> nodes st' !! b = nodes st !! b).
Proof.
  intros H. pose proof (rep_z _ _ _ H) as Hz. pose proof (rep_root _ _ _ H) as Hroot.
  pose proof H as (Ht & Hk & Hnd & Hg)%Rep_plug.
  simpl in Ht. destruct Ht as (Hx & Ha & Hb).
  simpl in Hnd, Hg. nodup_split Hnd. nodup_split Hg.
  unfold wr. rewrite Hx. simpl.
  eexists; split; [reflexivity|]; split; [|split; [done|]].
  2:{ intros b Hb'. simpl. by rewrite lookup_insert_ne. }
  eapply (Rep_replace _ _ (T c l a d r) _ k); [exact H | done | ..].
  - simpl; split_and!; try solve_lookup; solve_rep.
  - destruct k as [|[cp p dp sib|cp sib p dp] k]; simpl in *; destruct_and?;
      split_and?; try solve_lookup; try solve_rep.
  - simpl. rewrite Hroot. destruct k as [|f k]; [done|]. apply rootp_plug_cons.
  - solve_lookup.
Qed.

(** *** The loop of [mem_insert_fixup] *)
Lemma rootp_plug t k : rootp (plug t k) = kroot (rootp t) k.
Proof. revert t. induction k as [|[]]; intros; simpl; rewrite ?IHk; done. Qed.

Lemma kroot_elem h k : k <> [] -> kroot h k ∈ kaddrs k.
Proof.
  revert h. induction k as [|f k IH]; intros h Hk; [done|]. simpl.
  destruct k as [|g k]; [destruct f; simpl; set_solver|].
  apply elem_of_app. right. by apply IH.
Qed.

Lemma entries_plug t k : entries (plug t k) = kleft k ++ entries t ++ kright k.
Proof.
  revert t. induction k as [|[c a d r|c l a d] k IH]; intros t; simpl.
  - by rewrite app_nil_r.
  - rewrite IH. simpl. by rewrite <- !app_assoc.
  - rewrite IH. simpl. by rewrite <- !app_assoc.
Qed.

Lemma entries_plug_congr t t' k :
  entries t = entries t' -> entries (plug t k) = entries (plug t' k).
Proof. intros E. by rewrite !entries_plug, E. Qed.

Lemma same_bounds_refl st : same_bounds st st.
Proof. done. Qed.

Lemma same_bounds_trans st1 st2 st3 :
  same_bounds st1 st2 -> same_bounds st2 st3 -> same_bounds st1 st3.
Proof. unfold same_bounds. intros [] []. split; congruence. Qed.

Lemma rbt_plug n t k :
  rbt n t -> rbk n k -> (colorof t = MEM_RED -> k = [] \/ kblack k) ->
  exists m, rbt m (plug t k).
Proof.
  revert n t. induction k as [|[[] a d r|[] l a d] k IH]; intros n t Ht Hk Hc; simpl in *.
  - eauto.
  - destruct Hk as [? ?]. apply (IH (S n)); simpl; auto. intros [=].
  - destruct Hk as (? & ? & ? & ?). apply (IH n); simpl; auto.
    split_and!; auto. destruct (colorof t) eqn:E; [done|]. destruct Hc as [|[]]; done.
  - destruct Hk as [? ?]. apply (IH (S n)); simpl; auto. intros [=].
  - destruct Hk as (? & ? & ? & ?). apply (IH n); simpl; auto.
    split_and!; auto. destruct (colorof t) eqn:E; [done|]. destruct Hc as [|[]]; done.
Qed.

Lemma rbk_root_black n t k : rbk n k -> k <> [] -> colorof (plug t k) = MEM_BLACK.
Proof.
  revert n t. induction k as [|f k IH]; intros n t Hk Hne; [done|].
  destruct k as [|g k].
  - destruct f as [[] ? ? ?|[] ? ? ?]; simpl in *; try done; tauto.
  - destruct f as [[] ? ? ?|[] ? ? ?]; simpl plug; simpl in Hk; destruct_and?;
    eapply IH; eauto.
Qed.

(** Focusing a representation hypothesis on the node at an address. *)
Ltac zip t K :=
  lazymatch K with
  | Fl ?c ?a ?d ?r :: ?K' => zip (T c t a d r) K'
  | Fr ?c ?l ?a ?d :: ?K' => zip (T c l a d t) K'
  | _ => constr:((t, K))
  end.

Ltac find_down t a K :=
  match t with
  | T _ _ a _ _ => constr:((t, K))
  | T ?c ?l ?b ?d ?r => find_down l a (Fl c b d r :: K)
  | T ?c ?l ?b ?d ?r => find_down r a (Fr c l b d :: K)
  end.

Ltac focus H a :=
  lazymatch type of H with
  | Rep ?st (plug ?t ?K) ?z =>
      let wk := zip t K in
      lazymatch wk with
      | (?w, ?K0) =>
          let r := find_down w a K0 in
          lazymatch r with
          | (?sub, ?K1) => change (Rep st (plug sub K1) z) in H
          end
      end
  end.

Lemma post_bind {A B} (m : option A) (f : A -> option B) P :
  post m (fun v => post (f v) P) -> post (m ≫= f) P.
Proof. intros (v & -> & r & E & HP). exists r. done. Qed.

Lemma post_ret {A} (v : A) (P : A -> Prop) : P v -> post (Some v) P.
Proof. intros. by exists v. Qed.

Lemma post_rd {A} (f : mem_node -> A) a st n P :
  nodes st !! a = Some n -> P (f n) -> post (rd f a st) P.
Proof. intros L HP. exists (f n). unfold rd. rewrite L. done. Qed.

Lemma post_recolor c' st c l a d r k z P :
  Rep st (plug (T c l a d r) k) z ->
  (forall st', Rep st' (plug (T c' l a d r) k) z -> same_bounds st st' -> P st') ->
  post (wr (upd_color c') a st) P.
Proof.
  intros H HP. destruct (recolor_spec c' _ _ _ _ _ _ _ _ H) as (st' & E & H' & B).
  exists st'. eauto.
Qed.

Lemma post_rotate_left st cx a x dx cy b y dy c k z P :
  Rep st (plug (T cx a x dx (T cy b y dy c)) k) z ->
  (forall st', Rep st' (plug (T cy (T cx a x dx b) y dy c) k) z ->
               same_bounds st st' -> P st') ->
  post (mem_rotate_left x st) P.
Proof.
  intros H HP. destruct (rotate_left_spec _ _ _ _ _ _ _ _ _ _ _ _ H) as (st' & E & H' & B).
  exists st'. eauto.
Qed.

Lemma post_rotate_right st cx a x dx cy b y dy c k z P :
  Rep st (plug (T cx (T cy a y dy b) x dx c) k) z ->
  (forall st', Rep st' (plug (T cy a y dy (T cx b x dx c)) k) z ->
               same_bounds st st' -> P st') ->
  post (mem_rotate_right x st) P.
Proof.
  intros H HP. destruct (rotate_right_spec _ _ _ _ _ _ _ _ _ _ _ _ H) as (st' & E & H' & B).
  exists st'. eauto.
Qed.

Lemma post_mono {A} (o : option A) (P Q : A -> Prop) :
  post o P -> (forall r, P r -> Q r) -> post o Q.
Proof. intros (r & E & HP) HQ. exists r. auto. Qed.

Ltac solve_entries :=
  simpl; apply entries_plug_congr; simpl; repeat (rewrite <- app_assoc; simpl);
  reflexivity.

Ltac next_state H B :=
  let st' := fresh "st" in
  let H' := fresh "H" in
  let B' := fresh "B" in
  intros st' H' B';
  match type of B with
  | same_bounds ?st0 ?st =>
      pose proof (same_bounds_trans _ _ _ B B'); clear B B' H;
      try clear st; rename H' into H
  end;
  match goal with B0 : same_bounds _ st' |- _ => rename B0 into B end.

Ltac wp_step H B :=
  lazymatch goal with
  | |- post (mbind _ _) _ => apply post_bind
  | |- post (Some _) _ => apply post_ret
  | |- post (rd _ MEM_NIL _) _ =>
      eapply post_rd; [exact (rep_z _ _ _ H)|]
  | |- post (rd _ ?a _) _ =>
      focus H a; eapply post_rd; [exact (Rep_node _ _ _ _ _ _ _ _ H)|]
  | |- post (wr (upd_color ?c) ?a _) _ =>
      focus H a; eapply (post_recolor c); [exact H|]; next_state H B
  | |- post (mem_rotate_left ?a _) _ =>
      focus H a; eapply post_rotate_left; [exact H|]; next_state H B
  | |- post (mem_rotate_right ?a _) _ =>
      focus H a; eapply post_rotate_right; [exact H|]; next_state H B
  | |- context [?a =? ?a] => rewrite Z.eqb_refl
  | |- context [?a =? ?b] => rewrite (proj2 (Z.eqb_neq a b)) by neq
  | Hz : n_color ?z = _ |- context [n_color ?z] => rewrite Hz
  end; simpl.

Ltac wp H B := repeat wp_step H B.

Lemma plug_ne t k : t <> E -> plug t k <> E.
Proof. revert t. induction k as [|[]]; intros; simpl; auto. Qed.

Lemma insert_fixup_loop_spec fuel : forall k t st0 st z n,
  (length k < fuel)%nat ->
  Rep st (plug t k) z -> same_bounds st0 st -> n_color z = MEM_BLACK ->
  colorof t = MEM_RED -> rbt n t -> rbk n k ->
  post (mem_insert_fixup_loop fuel (rootp t) st) (fun st' =>
    exists t', Rep st' t' z /\ same_bounds st0 st'
    /\ entries t' = entries (plug t k)
    /\ (exists m, rbt m t') /\ t' <> E).
Proof.
  induction fuel as [|fuel IH]; intros k t st0 st z n Hf H B Hz Hc Ht Hk; [lia|].
  destruct t as [|c l x d r]; [done|]. simpl in Hc. subst c.
  pose proof H as (_ & _ & Hnd & Hg)%Rep_plug.
  simpl mem_insert_fixup_loop. rewrite (rep_root _ _ _ H), rootp_plug. simpl rootp.
  destruct k as [|f1 k1].
  { simpl. rewrite Z.eqb_refl. apply post_ret. exists (T MEM_RED l x d r). simpl. eauto 10. }
  assert (x <> kroot x (f1 :: k1)).
  { intros E. apply NoDup_app in Hnd as (_ & Hnd & _). apply (Hnd x).
    - simpl. set_solver.
    - rewrite E at 1. by apply kroot_elem. }
  rewrite (proj2 (Z.eqb_neq _ _)) by done. clear H0.
  destruct f1 as [[] p dp pr|[] pl p dp].
  - wp H B. exists (plug (T MEM_RED l x d r) (Fl MEM_BLACK p dp pr :: k1)).
    split_and!; try done; [|by apply plug_ne].
    eapply rbt_plug; eauto. intros _. right. done.
  - destruct k1 as [|[[] g dg u|[] u g dg] k2]; simpl in Hk; try (exfalso; tauto);
      wp H B; unfold mem_insert_fixup_body;
      (destruct u as [|[] ul ua du ur]; simpl in Hnd, Hg; nodup_split Hnd; nodup_split Hg;
       wp H B;
       lazymatch goal with
       | |- post (mem_insert_fixup_loop _ ?x' _) _ => focus H x'
       end;
       lazymatch type of H with
       | Rep _ (plug ?sub ?K) _ =>
           eapply post_mono;
           [ first [ eapply (IH K sub _ _ _ (S n));
                     [simpl in *; lia | exact H | exact B | exact Hz | reflexivity
                     | simpl in *; intuition congruence..]
                   | eapply (IH K sub _ _ _ n);
                     [simpl in *; lia | exact H | exact B | exact Hz | reflexivity
                     | simpl in *; intuition congruence..] ]
           | let E := fresh "E" in
             intros ? (t' & ? & ? & E & ? & ?); exists t'; split_and!; try done;
             rewrite E; solve_entries ]
       end).
  - wp H B. exists (plug (T MEM_RED l x d r) (Fr MEM_BLACK pl p dp :: k1)).
    split_and!; try done; [|by apply plug_ne].
    eapply rbt_plug; eauto. intros _. right. done.
  - destruct k1 as [|[[] g dg u|[] u g dg] k2]; simpl in Hk; try (exfalso; tauto);
      wp H B; unfold mem_insert_fixup_body;
      (destruct u as [|[] ul ua du ur]; simpl in Hnd, Hg; nodup_split Hnd; nodup_split Hg;
       wp H B;
       lazymatch goal with
       | |- post (mem_insert_fixup_loop _ ?x' _) _ => focus H x'
       end;
       lazymatch type of H with
       | Rep _ (plug ?sub ?K) _ =>
           eapply post_mono;
           [ first [ eapply (IH K sub _ _ _ (S n));
                     [simpl in *; lia | exact H | exact B | exact Hz | reflexivity
                     | simpl in *; intuition congruence..]
                   | eapply (IH K sub _ _ _ n);
                     [simpl in *; lia | exact H | exact B | exact Hz | reflexivity
                     | simpl in *; intuition congruence..] ]
           | let E := fresh "E" in
             intros ? (t' & ? & ? & E & ? & ?); exists t'; split_and!; try done;
             rewrite E; solve_entries ]
       end).
Qed.

(** *** [mem_insert] *)
Lemma rep_dom m par t a : rep m par t -> a ∈ addrs t -> is_Some (m !! a).
Proof.
  revert par. induction t as [|c l IHl b d r IHr]; intros par H Ha; simpl in *.
  - by apply elem_of_nil in Ha.
  - destruct H as (Hb & Hl & Hr).
    apply elem_of_app in Ha as [Ha|Ha]; [eauto|].
    apply elem_of_cons in Ha as [->|Ha]; eauto.
Qed.

Lemma Rep_dom st t z a : Rep st t z -> a ∈ addrs t -> is_Some (nodes st !! a).
Proof. intros [H _ _ _ _] Ha. by eapply rep_dom. Qed.

Lemma Rep_size st t z : Rep st t z -> (length (addrs t) < size (nodes st))%nat.
Proof.
  intros H.
  assert (Hs : list_to_set (MEM_NIL :: addrs t) ⊆ dom (nodes st)).
  { intros a Ha. apply elem_of_dom. apply elem_of_list_to_set in Ha.
    apply elem_of_cons in Ha as [->|Ha].
    - rewrite (rep_z _ _ _ H). eauto.
    - by eapply Rep_dom. }
  apply subseteq_size in Hs. rewrite size_dom in Hs.
  rewrite size_list_to_set in Hs; [simpl in Hs; lia|].
  constructor; [|apply (rep_nodup _ _ _ H)].
  intros Hin. pose proof (rep_good _ _ _ H) as Hg.
  rewrite Forall_forall in Hg. destruct (Hg _ Hin). done.
Qed.

Lemma length_kaddrs k : (length k <= length (kaddrs k))%nat.
Proof.
  induction k as [|[] k IH]; simpl; [lia|..]; rewrite ?length_app; simpl; lia.
Qed.

Lemma height_addrs t : (height t <= length (addrs t))%nat.
Proof.
  induction t; simpl; [lia|]. rewrite length_app. simpl. lia.
Qed.

Lemma length_addrs_plug t k :
  length (addrs (plug t k)) = (length (addrs t) + length (kaddrs k))%nat.
Proof. by rewrite addrs_plug, length_app. Qed.

Lemma plug_ins_ctx s t k : plug E (ins_ctx s t k) = plug t k.
Proof.
  revert k. induction t as [|c l IHl a d r IHr]; intros k; simpl; [done|].
  destruct (s <? i_start d); [rewrite IHl|rewrite IHr]; done.
Qed.

Lemma dir_ok_ins_ctx s t k : dir_ok s k -> dir_ok s (ins_ctx s t k).
Proof.
  revert k. induction t as [|c l IHl a d r IHr]; intros k Hk; simpl; [done|].
  destruct (Z.ltb_spec s (i_start d)); [apply IHl|apply IHr]; simpl; lia.
Qed.

Lemma blacken_rbt m t : rbt m t -> exists m', rbt m' (blacken t).
Proof.
  destruct t as [|[] l a d r]; simpl; eauto.
  intros (_ & _ & ? & ?). exists (S m). done.
Qed.

Lemma descend_spec s fuel : forall t k st z,
  Rep st (plug t k) z -> (height t < fuel)%nat ->
  mem_insert_descend fuel s (rootp t) (kparent k) st
  = Some (kparent (ins_ctx s t k)).
Proof.
  induction fuel as [|fuel IH]; intros t k st z H Hf; [lia|].
  destruct t as [|c l a d r]; simpl; [done|].
  pose proof H as (_ & _ & _ & Hg)%Rep_plug. simpl in Hg. nodup_split Hg.
  rewrite (proj2 (Z.eqb_neq a MEM_NIL)) by done. simpl.
  rewrite (Rep_node _ _ _ _ _ _ _ _ H). simpl. simpl in Hf.
  destruct (s <? i_start d).
  - apply (IH l (Fl c a d r :: k) st z); [exact H|lia].
  - apply (IH r (Fr c l a d :: k) st z); [exact H|lia].
Qed.

Lemma repk_dom m k h a : repk m k h -> a ∈ kaddrs k -> is_Some (m !! a).
Proof.
  revert h. induction k as [|[c b d r|c l b d] k IH]; intros h H Ha; simpl in *.
  - by apply elem_of_nil in Ha.
  - destruct H as (Hb & Hr & Hk).
    apply elem_of_cons in Ha as [->|Ha]; [eauto|].
    apply elem_of_app in Ha as [Ha|Ha]; [by eapply rep_dom|eauto].
  - destruct H as (Hb & Hr & Hk).
    apply elem_of_cons in Ha as [->|Ha]; [eauto|].
    apply elem_of_app in Ha as [Ha|Ha]; [by eapply rep_dom|eauto].
Qed.

Lemma link_spec st k z x d :
  Rep st (plug E k) z -> nodes st !! x = None -> x <> NULL -> x <> MEM_NIL ->
  dir_ok (i_start d) k ->
  let st1 :=
    with_nodes (<[x := mk MEM_RED MEM_NIL MEM_NIL (kparent k) d]> (nodes st)) st in
  post (if negb (kparent k =? NULL)
        then
          ps ← rd n_start (kparent k) st1;
          if i_start d <? ps then wr (upd_left x) (kparent k) st1
          else wr (upd_right x) (kparent k) st1
        else Some (with_root x st1))
    (fun st' => Rep st' (plug (T MEM_RED E x d E) k) z /\ same_bounds st st').
Proof.
  intros H Hx HxN HxZ Hd st1. subst st1.
  pose proof (rep_z _ _ _ H) as Hz. pose proof (rep_root _ _ _ H) as Hroot.
  pose proof H as (_ & Hk & Hnd & Hg)%Rep_plug.
  assert (Hfresh : x ∉ kaddrs k).
  { intros Hin. eapply repk_dom in Hin as [? Hin]; [|exact Hk]. congruence. }
  assert (Hnd2 : NoDup (addrs (T MEM_RED E x d E) ++ kaddrs k))
    by (simpl; constructor; done).
  assert (Hg2 : Forall good_addr (addrs (T MEM_RED E x d E) ++ kaddrs k))
    by (simpl; constructor; done).
  destruct k as [|[c p dp sib|c sib p dp] k]; simpl in Hk, Hnd, Hg, Hd, Hfresh |- *;
    destruct_and?; nodup_split Hnd; try nodup_split Hg.
  - apply post_ret. split; [|done].
    apply (Rep_intro _ _ []); [| done | exact Hnd2 | exact Hg2 | done |].
    + simpl. split_and!; try done. solve_lookup.
    + solve_lookup.
  - rewrite (proj2 (Z.eqb_neq p NULL)) by done. simpl.
    unfold rd, wr. simpl. exec.
    destruct (Z.ltb_spec (i_start d) (i_start dp)); [|lia].
    apply post_ret. split; [|done].
    apply (Rep_intro _ _ (Fl c p dp sib :: k)); simpl.
    + split_and!; try done. solve_lookup.
    + split_and!; try solve_lookup; solve_rep.
    + exact Hnd2.
    + exact Hg2.
    + rewrite Hroot. apply (rootp_plug_cons _ _ (Fl c p dp sib) k).
    + solve_lookup.
  - rewrite (proj2 (Z.eqb_neq p NULL)) by done. simpl.
    unfold rd, wr. simpl. exec.
    destruct (Z.ltb_spec (i_start d) (i_start dp)); [lia|].
    apply post_ret. split; [|done].
    apply (Rep_intro _ _ (Fr c sib p dp :: k)); simpl.
    + split_and!; try done. solve_lookup.
    + split_and!; try solve_lookup; solve_rep.
    + exact Hnd2.
    + exact Hg2.
    + rewrite Hroot. apply (rootp_plug_cons _ _ (Fr c sib p dp) k).
    + solve_lookup.
Qed.

Lemma Rep_same st st' t z :
  Rep st t z -> nodes st' = nodes st -> mem_root st' = mem_root st ->
  Rep st' t z.
Proof. intros [] Hn Hr. split; rewrite ?Hn, ?Hr; done. Qed.

Lemma rbk_ins_ctx s : forall t k n,
  rbt n t -> rbk n k -> (colorof t = MEM_RED -> kblack k) ->
  rbk 0 (ins_ctx s t k).
Proof.
  induction t as [|c l IHl a d r IHr]; intros k n Ht Hk Hc; simpl in *.
  - by subst n.
  - destruct c.
    + destruct n as [|n']; [done|]. destruct Ht as [Hl Hr].
      destruct (s <? i_start d).
      * apply (IHl _ n'); simpl; auto.
      * apply (IHr _ n'); simpl; auto.
    + destruct Ht as (Hcl & Hcr & Hl & Hr).
      destruct (s <? i_start d).
      * apply (IHl _ n); simpl; auto. rewrite Hcl. done.
      * apply (IHr _ n); simpl; auto. rewrite Hcr. done.
Qed.

Lemma mem_insert_fixup_spec st k t z n :
  Rep st (plug t k) z -> n_color z = MEM_BLACK ->
  colorof t = MEM_RED -> rbt n t -> rbk n k ->
  post (mem_insert_fixup (rootp t) st) (fun st' =>
    exists t', Rep st' t' z /\ same_bounds st st'
    /\ entries t' = entries (plug t k)
    /\ (exists m, rbt m t') /\ colorof t' = MEM_BLACK).
Proof.
  intros H Hz Hc Ht Hk. unfold mem_insert_fixup. apply post_bind.
  eapply post_mono.
  { eapply (insert_fixup_loop_spec _ k t st st z n); eauto; [|done].
    pose proof (Rep_size _ _ _ H) as Hs. rewrite length_addrs_plug in Hs.
    pose proof (length_kaddrs k). lia. }
  intros st1 (t1 & H1 & B1 & E1 & (m & Hm) & Hne). simpl.
  destruct t1 as [|c l a d r]; [done|].
  rewrite (rep_root _ _ _ H1). simpl.
  eapply (post_recolor MEM_BLACK _ c l a d r []); [exact H1|].
  intros st2 H2 B2. exists (T MEM_BLACK l a d r). split_and!; try done.
  - by eapply same_bounds_trans.
  - apply (blacken_rbt m (T c l a d r) Hm).
Qed.

Lemma mem_insert_spec st t z s e ty x n :
  Rep st t z -> n_color z = MEM_BLACK -> rbt n t -> colorof t = MEM_BLACK ->
  nodes st !! x = None -> x <> NULL -> x <> MEM_NIL ->
  post (mem_insert s e ty x st) (fun r =>
    r.1 = x /\ exists t', Rep r.2 t' z /\ bounds_after_insert s e st r.2
    /\ entries t' = kleft (ins_ctx s t []) ++
         (x, {| i_start := s; i_end := e; i_type := ty |})
         :: kright (ins_ctx s t [])
    /\ (exists m, rbt m t') /\ colorof t' = MEM_BLACK).
Proof.
  intros H Hz Ht Hc Hx HxN HxZ. unfold mem_insert.
  set (st1 := if _ : bool then _ else st).
  set (st2 := if _ : bool then _ else st1).
  assert (Hn2 : nodes st2 = nodes st) by (subst st2 st1; repeat case_match; done).
  assert (Hr2 : mem_root st2 = mem_root st) by (subst st2 st1; repeat case_match; done).
  assert (Hb2 : bounds_after_insert s e st st2).
  { subst st2 st1. unfold bounds_after_insert.
    destruct ((min_heap_address st =? NULL) || (s <? min_heap_address st)); simpl;
      destruct ((max_heap_address st =? NULL) || (e >? max_heap_address st)); simpl;
      done. }
  clearbody st2. clear st1.
  assert (H2 : Rep st2 t z) by (by eapply Rep_same).
  apply post_bind.
  set (K := ins_ctx s t []).
  rewrite Hr2, (rep_root _ _ _ H).
  rewrite (descend_spec s _ t [] st2 z H2).
  2:{ pose proof (Rep_size _ _ _ H2). pose proof (height_addrs t). lia. }
  apply post_ret. apply post_bind. fold K.
  assert (HK : Rep st2 (plug E K) z) by (unfold K; by rewrite plug_ins_ctx).
  set (d := {| i_start := s; i_end := e; i_type := ty |}).
  eapply post_mono.
  { apply (link_spec st2 K z x d HK); try done; [congruence|].
    apply dir_ok_ins_ctx. done. }
  intros st3 (H3 & B3). simpl. apply post_bind.
  eapply post_mono.
  { apply (mem_insert_fixup_spec st3 K (T MEM_RED E x d E) z 0 H3 Hz); try done.
    eapply rbk_ins_ctx; eauto; [done|]. rewrite Hc. done. }
  intros st4 (t4 & H4 & B4 & E4 & Hm & Hc4). apply post_ret. simpl.
  split; [done|]. exists t4. split_and!; try done.
  - destruct B3 as [B3a B3b], B4 as [B4a B4b], Hb2 as [Ha Hb].
    split; congruence.
  - rewrite E4, entries_plug. done.
Qed.

(** *** The loop of [mem_delete_fixup] *)
Lemma post_rd_root_parent st t k z (P : Z -> Prop) :
  Rep st (plug t k) z -> (t = E -> n_parent z = kparent k) ->
  P (kparent k) -> post (rd n_parent (rootp t) st) P.
Proof.
  intros H Hp HP. destruct t as [|c l a d r]; simpl.
  - eapply post_rd; [exact (rep_z _ _ _ H)|]. by rewrite Hp.
  - eapply post_rd; [exact (Rep_node _ _ _ _ _ _ _ _ H)|]. done.
Qed.

Lemma post_rd_root_color st t k z (P : mem_color -> Prop) :
  Rep st (plug t k) z -> n_color z = MEM_BLACK ->
  P (colorof t) -> post (rd n_color (rootp t) st) P.
Proof.
  intros H Hz HP. destruct t as [|c l a d r]; simpl.
  - eapply post_rd; [exact (rep_z _ _ _ H)|]. by rewrite Hz.
  - eapply post_rd; [exact (Rep_node _ _ _ _ _ _ _ _ H)|]. done.
Qed.

Lemma root_neq t k :
  NoDup (addrs t ++ kaddrs k) -> Forall good_addr (kaddrs k) -> k <> [] ->
  rootp t <> kroot (rootp t) k.
Proof.
  intros Hnd Hg Hk E. pose proof (kroot_elem (rootp t) k Hk) as Hin.
  rewrite <- E in Hin. destruct (rootp_cases t) as [Hr|Hr].
  - rewrite Forall_forall in Hg. apply Hg in Hin as [_ Hin]. done.
  - apply NoDup_app in Hnd as (_ & Hnd & _). by apply (Hnd (rootp t)).
Qed.

Lemma upd_color_same z : upd_color (n_color z) z = z.
Proof. by destruct z. Qed.

Lemma post_recolor_nil c st t z P :
  Rep st t z ->
  (forall st', Rep st' t (upd_color c z) -> same_bounds st st' -> P st') ->
  post (wr (upd_color c) MEM_NIL st) P.
Proof.
  intros [H1 H2 H3 H4 H5] HP. unfold wr. rewrite H5. simpl. apply post_ret.
  apply HP; [|done]. split; simpl; try done.
  - eapply rep_ext; [exact H1|]. intros a Ha. rewrite lookup_insert_ne; [done|].
    rewrite Forall_forall in H4. destruct (H4 _ Ha). done.
  - by rewrite lookup_insert_eq.
Qed.

Ltac find_hole w u K :=
  match w with
  | _ => let _ := match goal with _ => constr_eq w u end in constr:((w, K))
  | T ?c ?l ?b ?d ?r => find_hole l u (Fl c b d r :: K)
  | T ?c ?l ?b ?d ?r => find_hole r u (Fr c l b d :: K)
  end.

Ltac focus_hole H u :=
  lazymatch type of H with
  | Rep ?st (plug ?t ?K) ?z =>
      let wk := zip t K in
      lazymatch wk with
      | (?w, ?K0) =>
          let r := find_hole w u K0 in
          lazymatch r with
          | (?sub, ?K1) => change (Rep st (plug sub K1) z) in H
          end
      end
  end.

Ltac resplit :=
  repeat match goal with
    | G : context [addrs (T _ _ _ _ _)] |- _ => progress (simpl in G); nodup_split G
    end.

Ltac absurd_rb :=
  exfalso; simpl in *; destruct_and?; subst; simpl in *; intuition (congruence || lia).

Ltac dwp_step H B Hp Hz :=
  lazymatch goal with
  | |- post (rd n_parent (rootp ?u) _) _ =>
      tryif is_var u then
        (focus_hole H u; eapply post_rd_root_parent; [exact H | exact Hp |])
      else fail
  | |- post (rd n_color (rootp ?u) _) _ =>
      tryif is_var u then
        (focus_hole H u; eapply post_rd_root_color; [exact H | exact Hz |])
      else fail
  | _ => wp_step H B
  end; simpl.

Ltac dwp H B Hp Hz := repeat dwp_step H B Hp Hz.

Lemma delete_loop_root fuel st t z st0 :
  (1 <= fuel)%nat -> Rep st t z -> same_bounds st0 st -> (exists m, rbt m t) ->
  post (mem_delete_fixup_loop fuel (mem_root st) st) (fun r =>
    exists t' k' m, Rep r.2 (plug t' k') z /\ r.1 = rootp t'
    /\ same_bounds st0 r.2
    /\ entries (plug t' k') = entries t
    /\ rbt m (blacken t') /\ rbk m k').
Proof.
  intros Hf H B (m & Hm). destruct fuel as [|fuel]; [lia|]. simpl.
  rewrite Z.eqb_refl. apply post_ret.
  destruct (blacken_rbt _ _ Hm) as (m' & Hm').
  exists t, [], m'. split_and!; try done. apply (rep_root _ _ _ H).
Qed.

Ltac dstuck :=
  match goal with
  | |- post (if color_eqb ?c _ && _ then _ else _) _ => destruct c eqn:?
  | |- post (if color_eqb ?c _ then _ else _) _ => destruct c eqn:?
  | |- post (_ _ (rootp ?u) _) _ =>
      is_var u; destruct u as [|? ? ? ? ?]; [|resplit]
  end; simpl; try solve [absurd_rb].

Ltac whole H :=
  lazymatch type of H with
  | Rep ?st (plug ?t ?K) ?z =>
      let wk := zip t K in
      lazymatch wk with
      | (?w, ?K0) => change (Rep st (plug w K0) z) in H
      end
  end.

Ltac rb_side := solve [simpl in *; destruct_and?; subst; simpl in *; unfold dinv; simpl; intuition (congruence || lia)].

Ltac d_finish IH H B Hz n :=
  lazymatch goal with
  | |- post (mem_delete_fixup_loop _ (mem_root _) _) _ =>
      whole H;
      lazymatch type of H with
      | Rep _ (plug ?w ?K) _ =>
          eapply post_mono;
          [ eapply delete_loop_root; [lia | exact H | exact B |];
            first [ apply (rbt_plug (S n) w K); [rb_side..]
                  | apply (rbt_plug (S (S n)) w K); [rb_side..] ]
          | let E := fresh "E" in
            intros ? (t' & k' & m' & ? & ? & ? & E & ? & ?);
            exists t', k', m'; split_and!; try done;
            rewrite E; solve_entries ]
      end
  | |- post (mem_delete_fixup_loop _ ?x' _) _ =>
      focus H x';
      lazymatch type of H with
      | Rep _ (plug ?sub ?K) _ =>
          eapply post_mono;
          [ first [ eapply (IH K sub _ _ _ n);
                    [unfold dneed; simpl in *; lia | exact H | exact B | exact Hz
                    | intros [=] | rb_side..]
                  | eapply (IH K sub _ _ _ (S n));
                    [unfold dneed; simpl in *; lia | exact H | exact B | exact Hz
                    | intros [=] | rb_side..] ]
          | let E := fresh "E" in
            intros ? (t' & k' & m' & ? & ? & ? & E & ? & ?);
            exists t', k', m'; split_and!; try done;
            rewrite E; solve_entries ]
      end
  end.

Lemma delete_fixup_loop_spec fuel : forall k t st0 st z n,
  (dneed t k <= fuel)%nat ->
  Rep st (plug t k) z -> same_bounds st0 st -> n_color z = MEM_BLACK ->
  (t = E -> n_parent z = kparent k) ->
  dinv n t -> rbk (S n) k ->
  post (mem_delete_fixup_loop fuel (rootp t) st) (fun r =>
    exists t' k' m, Rep r.2 (plug t' k') z /\ r.1 = rootp t'
    /\ same_bounds st0 r.2
    /\ entries (plug t' k') = entries (plug t k)
    /\ rbt m (blacken t') /\ rbk m k').
Proof.
  induction fuel as [|fuel IH]; intros k t st0 st z n Hf H B Hz Hp Ht Hk.
  { unfold dneed in Hf. destruct (colorof t); lia. }
  pose proof H as (_ & _ & Hnd & Hg)%Rep_plug.
  simpl mem_delete_fixup_loop. rewrite (rep_root _ _ _ H), rootp_plug.
  destruct k as [|f1 k1].
  { simpl. rewrite Z.eqb_refl. apply post_ret. exists t, [].
    destruct Ht as [[Hc Ht]|[Hc Ht]].
    - exists n. split_and!; try done. destruct t as [|[] ? ? ? ?]; done.
    - exists (S n). split_and!; done. }
  rewrite (proj2 (Z.eqb_neq _ _)).
  2:{ apply root_neq; try done. apply Forall_app in Hg. tauto. }
  dwp_step H B Hp Hz. dwp_step H B Hp Hz.
  destruct Ht as [[Hc Ht]|[Hc Ht]]; rewrite Hc; simpl.
  2:{ apply post_ret. exists t, (f1 :: k1), (S n). split_and!; done. }
  unfold dneed in Hf. rewrite Hc in Hf. simpl in Hf.
  dwp_step H B Hp Hz. unfold mem_delete_fixup_body.
  destruct f1 as [cp p dp w|cp w p dp].
  - destruct w as [|cw wl wa dw wr]; [destruct cp; absurd_rb|].
    simpl in Hnd, Hg; nodup_split Hnd; nodup_split Hg.
    destruct cp; simpl in Hk;
    repeat (first [progress (dwp H B Hp Hz) | dstuck]).
    all: d_finish IH H B Hz n.
  - destruct w as [|cw wl wa dw wr]; [destruct cp; absurd_rb|].
    simpl in Hnd, Hg; nodup_split Hnd; nodup_split Hg.
    destruct cp; simpl in Hk;
    repeat (first [progress (dwp H B Hp Hz) | dstuck]).
    all: d_finish IH H B Hz n.
Qed.

(** *** Splicing a node out *)
Lemma post_wr f a st n P :
  nodes st !! a = Some n ->
  P (with_nodes (<[a := f n]> (nodes st)) st) -> post (wr f a st) P.
Proof. intros L HP. unfold wr. rewrite L. simpl. by apply post_ret. Qed.

Lemma Forall_sublist_of {A} (P : A -> Prop) l1 l2 :
  l1 `sublist_of` l2 -> Forall P l2 -> Forall P l1.
Proof.
  rewrite !Forall_forall. intros Hs H x Hx. apply H.
  eapply elem_of_sublist; eauto.
Qed.

Ltac cwp_step :=
  lazymatch goal with
  | |- post (mbind _ _) _ => apply post_bind
  | |- post (Some _) _ => apply post_ret
  | |- post (rd _ _ _) _ => eapply post_rd; [solve_lookup|]
  | |- post (wr _ _ _) _ => eapply post_wr; [solve_lookup|]
  | |- context [?a =? ?a] => rewrite Z.eqb_refl
  | |- context [?a =? ?b] => rewrite (proj2 (Z.eqb_neq a b)) by neq
  end; simpl.


Lemma splice_spec {A} st cy yl y dy yr K z c x (rest : mem_state -> option A) Q :
  Rep st (plug (T cy yl y dy yr) K) z ->
  (yl = E /\ c = yr) \/ (yr = E /\ c = yl) ->
  x = rootp c ->
  (forall st', Rep st' (plug c K) (spliced_z c (kparent K) z) ->
     same_bounds st st' ->
     nodes st' !! y = Some (mk cy (rootp yl) (rootp yr) (kparent K) dy) ->
     post (rest st') Q) ->
  post (yp ← rd n_parent y st;
        st1 ← wr (upd_parent yp) x st;
        yp ← rd n_parent y st1;
        st2 ← (if negb (yp =? NULL)
               then
                 ypl ← rd n_left yp st1;
                 if y =? ypl then wr (upd_left x) yp st1
                 else wr (upd_right x) yp st1
               else Some (with_root x st1));
        rest st2) Q.
Proof.
  intros H Hc -> HQ.
  pose proof (rep_z _ _ _ H) as Hz. pose proof (rep_root _ _ _ H) as Hroot.
  pose proof H as (Ht & Hk & Hnd & Hg)%Rep_plug.
  simpl in Ht. destruct Ht as (Hy & Hl & Hr).
  assert (Hs : addrs c ++ kaddrs K `sublist_of` addrs (T cy yl y dy yr) ++ kaddrs K).
  { apply sublist_app; [|done]. simpl.
    destruct Hc as [[-> ->]|[-> ->]]; simpl.
    - by apply sublist_cons.
    - by apply sublist_inserts_r. }
  assert (Hnd' := sublist_NoDup _ _ Hnd Hs).
  assert (Hg' := Forall_sublist_of _ _ _ Hs Hg).
  destruct Hc as [[-> ->]|[-> ->]].
  - destruct K as [|[cp p dp sib|cp sib p dp] K];
      destruct yr as [|cc cl ca cd cr];
      simpl in Hy, Hl, Hr, Hk, Hnd, Hg, Hroot |- *; destruct_and?;
      nodup_split Hnd; try nodup_split Hg;
      repeat cwp_step;
      (apply HQ; [|done|solve_lookup]);
      (apply Rep_intro; [ simpl; split_and?; try solve_lookup; try solve_rep
                        | simpl; split_and?; try solve_lookup; try solve_rep
                        | exact Hnd' | exact Hg'
                        | simpl; first [done | rewrite Hroot;
                            match type of H with Rep _ (plug _ (?f :: ?k')) _ =>
                              apply (rootp_plug_cons _ _ f k') end]
                        | solve_lookup ]).
  - destruct K as [|[cp p dp sib|cp sib p dp] K];
      destruct yl as [|cc cl ca cd cr];
      simpl in Hy, Hl, Hr, Hk, Hnd, Hg, Hroot |- *; destruct_and?;
      nodup_split Hnd; try nodup_split Hg;
      repeat cwp_step;
      (apply HQ; [|done|solve_lookup]);
      (apply Rep_intro; [ simpl; split_and?; try solve_lookup; try solve_rep
                        | simpl; split_and?; try solve_lookup; try solve_rep
                        | exact Hnd' | exact Hg'
                        | simpl; first [done | rewrite Hroot;
                            match type of H with Rep _ (plug _ (?f :: ?k')) _ =>
                              apply (rootp_plug_cons _ _ f k') end]
                        | solve_lookup ]).
Qed.

(** *** The successor, and [mem_delete_fixup] *)
Lemma addrs_entries t : addrs t = (entries t).*1.
Proof.
  induction t as [|c l IHl a d r IHr]; simpl; [done|].
  by rewrite fmap_app, fmap_cons, IHl, IHr.
Qed.

Lemma items_entries t : items t = (entries t).*2.
Proof.
  induction t as [|c l IHl a d r IHr]; simpl; [done|].
  by rewrite fmap_app, fmap_cons, IHl, IHr.
Qed.

Lemma plug_app t k1 k2 : plug t (k1 ++ k2) = plug (plug t k1) k2.
Proof. revert t. induction k1 as [|[] k1 IH]; intros; simpl; auto. Qed.

Lemma min_ctx_app t k : min_ctx t k = min_ctx t [] ++ k.
Proof.
  revert k. induction t as [|c l IHl a d r _]; intros k; simpl; [done|].
  destruct l as [|cl ll la ld lr]; [done|].
  rewrite IHl, (IHl [_]). by rewrite <- app_assoc.
Qed.

Lemma plug_min t k : plug (min_node t) (min_ctx t k) = plug t k.
Proof.
  revert k. induction t as [|c l IHl a d r _]; intros k; simpl; [done|].
  destruct l as [|cl ll la ld lr]; [done|]. by rewrite IHl.
Qed.

Lemma min_node_shape t :
  t <> E -> exists cy y dy yr, min_node t = T cy E y dy yr.
Proof.
  induction t as [|c l IHl a d r _]; intros Hne; [done|]. simpl.
  destruct l as [|cl ll la ld lr]; [eauto|]. by apply IHl.
Qed.

Lemma kleft_min t : kleft (min_ctx t []) = [].
Proof.
  assert (forall k, kleft (min_ctx t k) = kleft k) as Hk; [|apply Hk].
  induction t as [|c l IHl a d r _]; intros k; simpl; [done|].
  destruct l as [|cl ll la ld lr]; [done|]. by rewrite IHl.
Qed.

Lemma kleft_app k1 k2 : kleft (k1 ++ k2) = kleft k2 ++ kleft k1.
Proof.
  induction k1 as [|[] k1 IH]; simpl; rewrite ?app_nil_r; auto.
  by rewrite IH, <- app_assoc.
Qed.

Lemma kright_app k1 k2 : kright (k1 ++ k2) = kright k1 ++ kright k2.
Proof.
  induction k1 as [|[] k1 IH]; simpl; auto.
  by rewrite IH, <- app_assoc.
Qed.

Lemma rd_Some {A} (f : mem_node -> A) a st n :
  nodes st !! a = Some n -> rd f a st = Some (f n).
Proof. unfold rd. by intros ->. Qed.

Lemma delete_min_spec fuel : forall t k st z,
  Rep st (plug t k) z -> t <> E -> (height t <= fuel)%nat ->
  mem_delete_min fuel (rootp t) st = Some (rootp (min_node t)).
Proof.
  induction fuel as [|fuel IH]; intros t k st z H Hne Hf.
  { destruct t; simpl in *; [done|lia]. }
  destruct t as [|c l a d r]; [done|]. simpl.
  rewrite (rd_Some _ _ _ _ (Rep_node _ _ _ _ _ _ _ _ H)). simpl.
  destruct l as [|cl ll la ld lr]; simpl; [done|].
  pose proof H as (_ & _ & _ & Hg)%Rep_plug. simpl in Hg. nodup_split Hg.
  rewrite (proj2 (Z.eqb_neq la MEM_NIL)) by done. simpl.
  apply (IH (T cl ll la ld lr) (Fl c a d r :: k) st z); [exact H|done|].
  simpl in *. lia.
Qed.

Lemma rbt_plug_inv k : forall t n,
  rbt n (plug t k) -> colorof (plug t k) = MEM_BLACK ->
  exists m, rbt m t /\ rbk m k /\ (colorof t = MEM_RED -> kblack k).
Proof.
  induction k as [|f k IH]; intros t n Ht Hc; simpl in *.
  - exists n. split_and!; try done. rewrite Hc. done.
  - destruct f as [c a d r|c l a d]; simpl in *;
      destruct (IH _ _ Ht Hc) as (m & Hm & Hk & Hb); simpl in *;
      destruct c; simpl in *.
    + destruct m as [|m]; [done|]. exists m. tauto.
    + exists m. destruct Hm as (Hct & ? & ? & ?). split_and!; try tauto.
      rewrite Hct. done.
    + destruct m as [|m]; [done|]. exists m. tauto.
    + exists m. destruct Hm as (? & Hct & ? & ?). split_and!; try tauto.
      rewrite Hct. done.
Qed.

Lemma rbk_rerange k1 c l a d d' k2 n :
  rbk n (k1 ++ Fr c l a d :: k2) -> rbk n (k1 ++ Fr c l a d' :: k2).
Proof.
  revert n. induction k1 as [|f k1 IH]; intros n; simpl; [by destruct c|].
  assert (Hb : kblack (k1 ++ Fr c l a d :: k2) -> kblack (k1 ++ Fr c l a d' :: k2)).
  { destruct k1 as [|[[] ? ? ?|[] ? ? ?] ?]; simpl; auto. }
  destruct f as [[] ? ? ?|[] ? ? ?]; simpl; intuition auto.
Qed.

Lemma rbk_nonempty_red n k : rbk n k -> kblack k -> k <> [].
Proof. by destruct k. Qed.

Lemma rbt_dinv n t : rbt n t -> dinv n t.
Proof.
  destruct t as [|[] l a d r]; simpl; unfold dinv; simpl; [tauto..|].
  intros (?&?&?&?). right. tauto.
Qed.

Lemma rbt_black_zero t : rbt 0 t -> colorof t = MEM_BLACK -> t = E.
Proof. destruct t as [|[] ? ? ? ?]; simpl; try done. Qed.

Lemma Rep_delete st t z y :
  Rep st t z -> y ∉ addrs t -> y <> MEM_NIL ->
  Rep (with_nodes (delete y (nodes st)) st) t z.
Proof.
  intros [H1 H2 H3 H4 H5] Hy HyN. split; simpl; try done.
  - eapply rep_ext; [exact H1|]. intros a Ha. rewrite lookup_delete_ne; [done|].
    intros ->. done.
  - rewrite lookup_delete_ne; done.
Qed.

Lemma length_addrs_ge_k t k : (length k <= length (addrs (plug t k)))%nat.
Proof. rewrite length_addrs_plug. pose proof (length_kaddrs k). lia. Qed.

Lemma mem_delete_fixup_spec st k t z n :
  Rep st (plug t k) z -> n_color z = MEM_BLACK ->
  (t = E -> n_parent z = kparent k) ->
  dinv n t -> rbk (S n) k ->
  post (mem_delete_fixup (rootp t) st) (fun st' =>
    exists t', Rep st' t' z /\ same_bounds st st'
    /\ entries t' = entries (plug t k)
    /\ (exists m, rbt m t') /\ colorof t' = MEM_BLACK).
Proof.
  intros H Hz Hp Ht Hk. unfold mem_delete_fixup. apply post_bind.
  eapply post_mono.
  { eapply (delete_fixup_loop_spec _ k t st st z n); eauto; [|done].
    pose proof (Rep_size _ _ _ H) as Hs. pose proof (length_addrs_ge_k t k).
    unfold dneed. destruct (colorof t); lia. }
  intros [x st1] (t1 & k1 & m & H1 & Hx & B1 & E1 & Hm & Hk1). simpl in *. subst x.
  assert (Hfin : (exists m', rbt m' (plug (blacken t1) k1))
                 /\ colorof (plug (blacken t1) k1) = MEM_BLACK).
  { split.
    - eapply rbt_plug; eauto. destruct t1; simpl; done.
    - destruct k1 as [|f k1]; [by destruct t1|]. by eapply rbk_root_black. }
  assert (Hent : entries (plug (blacken t1) k1) = entries (plug t k)).
  { rewrite <- E1. apply entries_plug_congr. by destruct t1. }
  destruct t1 as [|c l a d r]; simpl.
  - eapply post_recolor_nil; [exact H1|]. intros st2 H2 B2.
    exists (plug E k1). rewrite <- Hz, upd_color_same in H2.
    split_and!; try tauto. by eapply same_bounds_trans.
  - eapply (post_recolor MEM_BLACK); [exact H1|]. intros st2 H2 B2.
    exists (plug (T MEM_BLACK l a d r) k1).
    split_and!; try tauto. by eapply same_bounds_trans.
Qed.

(** *** [mem_delete] *)
Lemma delete_tail st c K z y ny m :
  Rep st (plug c K) z -> n_color z = MEM_BLACK ->
  (c = E -> n_parent z = kparent K) ->
  nodes st !! y = Some ny -> y ∉ addrs (plug c K) -> y <> MEM_NIL ->
  (n_color ny = MEM_BLACK -> dinv m c /\ rbk (S m) K) ->
  (n_color ny = MEM_RED ->
     (exists m', rbt m' (plug c K)) /\ colorof (plug c K) = MEM_BLACK) ->
  post (yc ← rd n_color y st;
        st1 ← (if color_eqb yc MEM_BLACK
               then mem_delete_fixup (rootp c) st else Some st);
        Some (with_nodes (delete y (nodes st1)) st1))
    (fun st' => exists t', Rep st' t' z /\ same_bounds st st'
       /\ entries t' = entries (plug c K)
       /\ (exists m, rbt m t') /\ colorof t' = MEM_BLACK).
Proof.
  intros H Hz Hp Ly Hy HyN Hb Hr.
  apply post_bind. eapply post_rd; [exact Ly|]. apply post_bind.
  destruct (n_color ny); simpl.
  - destruct Hb as [Hd Hk]; [done|].
    eapply post_mono; [by eapply mem_delete_fixup_spec|].
    intros st1 (t1 & H1 & B1 & E1 & Hm & Hc1). apply post_ret.
    exists t1. split_and!; try done.
    apply Rep_delete; [done| |done].
    rewrite addrs_entries, E1, <- addrs_entries. done.
  - destruct Hr as [Hm Hc]; [done|]. apply post_ret. apply post_ret.
    exists (plug c K). split_and!; try done.
    apply Rep_delete; done.
Qed.

Lemma item_eta d :
  {| i_start := i_start d; i_end := i_end d; i_type := i_type d |} = d.
Proof. by destruct d. Qed.

Lemma kaddrs_app k1 k2 : kaddrs (k1 ++ k2) = kaddrs k1 ++ kaddrs k2.
Proof. induction k1 as [|f k1 IH]; simpl; [done|]. by rewrite IH, app_assoc. Qed.

Lemma kparent_rerange k1 c l a d d' k2 :
  kparent (k1 ++ Fr c l a d :: k2) = kparent (k1 ++ Fr c l a d' :: k2).
Proof. by destruct k1 as [|[] ?]. Qed.

Lemma kblack_rerange k1 c l a d d' k2 :
  kblack (k1 ++ Fr c l a d :: k2) -> kblack (k1 ++ Fr c l a d' :: k2).
Proof. by destruct k1 as [|[[] ? ? ?|[] ? ? ?] ?]. Qed.

(** The local red-black facts at a node with at most one child, and what
    they give for the tree without the node. *)
Lemma unlink_rb cy yl y dy yr K c n :
  rbt n (plug (T cy yl y dy yr) K) ->
  colorof (plug (T cy yl y dy yr) K) = MEM_BLACK ->
  (yl = E /\ c = yr) \/ (yr = E /\ c = yl) ->
  exists m,
    (cy = MEM_BLACK -> dinv m c /\ rbk (S m) K)
    /\ (cy = MEM_RED -> c = E /\ rbk 0 K /\ kblack K).
Proof.
  intros Ht Hc Hyc. destruct (rbt_plug_inv _ _ _ Ht Hc) as (m & Hm & Hk & Hb).
  simpl in Hm, Hb. destruct cy.
  - destruct m as [|m]; [done|]. exists m. split; [|done]. intros _.
    split; [|done]. apply rbt_dinv. destruct Hyc as [[-> ->]|[-> ->]]; tauto.
  - exists 0%nat. split; [done|]. intros _.
    destruct Hm as (Hcl & Hcr & Hl & Hr).
    assert (m = 0%nat) as ->.
    { destruct Hyc as [[-> _]|[-> _]]; simpl in *; done. }
    split_and!; auto.
    destruct Hyc as [[-> ->]|[-> ->]]; by apply rbt_black_zero.
Qed.

Lemma spliced_z_color c par z : n_color (spliced_z c par z) = n_color z.
Proof. by destruct c. Qed.

Lemma spliced_z_parent par z : n_parent (spliced_z E par z) = par.
Proof. done. Qed.

Lemma unlink_x yl yr c :
  (yl = E /\ c = yr) \/ (yr = E /\ c = yl) ->
  Forall good_addr (addrs yl) ->
  (if negb (rootp yl =? MEM_NIL) then rootp yl else rootp yr) = rootp c.
Proof.
  intros [[-> <-]|[-> <-]] Hg; simpl; [done|].
  destruct c as [|cc l a d r]; simpl; [done|].
  simpl in Hg. nodup_split Hg.
  by rewrite (proj2 (Z.eqb_neq a MEM_NIL)).
Qed.

Lemma unlink_spec st cy yl y dy yr K z c n a Kfinal :
  Rep st (plug (T cy yl y dy yr) K) z -> n_color z = MEM_BLACK ->
  rbt n (plug (T cy yl y dy yr) K) ->
  colorof (plug (T cy yl y dy yr) K) = MEM_BLACK ->
  (yl = E /\ c = yr) \/ (yr = E /\ c = yl) ->
  (a = y /\ Kfinal = K)
  \/ (exists ky cz zl dz kz,
        K = ky ++ Fr cz zl a dz :: kz /\ Kfinal = ky ++ Fr cz zl a dy :: kz) ->
  post (mem_delete_unlink a y st) (fun st' =>
    exists t' z', Rep st' t' z' /\ n_color z' = MEM_BLACK
    /\ same_bounds st st'
    /\ entries t' = entries (plug c Kfinal)
    /\ (exists m, rbt m t') /\ colorof t' = MEM_BLACK).
Proof.
  intros H Hz Ht Hc Hyc Ha.
  pose proof H as (_ & _ & Hnd & Hg)%Rep_plug.
  destruct (unlink_rb _ _ _ _ _ _ _ _ Ht Hc Hyc) as (m & Hbl & Hrd).
  assert (Hy_c : y ∉ addrs c ++ kaddrs K /\ y <> MEM_NIL).
  { simpl in Hnd, Hg.
    apply NoDup_app in Hnd as (Hnd1 & Hnd2 & _).
    apply NoDup_app in Hnd1 as (_ & Hnd3 & Hnd4).
    apply NoDup_cons in Hnd4 as [Hnd4 _].
    assert (y ∉ kaddrs K) by (apply Hnd2; set_solver).
    assert (y ∉ addrs yl) by (intros Hin; eapply Hnd3; eauto; set_solver).
    split.
    - rewrite elem_of_app. destruct Hyc as [[-> <-]|[-> <-]]; tauto.
    - rewrite !Forall_app, Forall_cons in Hg. destruct Hg as [(_ & [] & _) _]. done. }
  destruct Hy_c as [Hy_c HyN].
  unfold mem_delete_unlink.
  apply post_bind. eapply post_rd; [exact (Rep_node _ _ _ _ _ _ _ _ H)|]. simpl.
  apply post_bind. eapply post_rd; [exact (Rep_node _ _ _ _ _ _ _ _ H)|]. simpl.
  rewrite (unlink_x yl yr c Hyc).
  2:{ simpl in Hg. rewrite !Forall_app in Hg. tauto. }
  eapply splice_spec; [exact H | exact Hyc | reflexivity |].
  intros st1 H1 B1 Ly. apply post_bind.
  destruct Ha as [[-> ->]|(ky & cz & zl & dz & kz & -> & ->)].
  - rewrite Z.eqb_refl. simpl. apply post_ret.
    eapply post_mono.
    { eapply (delete_tail st1 c K _ y _ m); [exact H1 | | | exact Ly | | done | |].
      - by rewrite spliced_z_color.
      - intros ->. done.
      - by rewrite addrs_plug.
      - simpl. done.
      - simpl. intros Hcy. destruct (Hrd Hcy) as (-> & Hk0 & Hkb). split.
        + eapply rbt_plug; eauto; done.
        + eapply rbk_root_black; eauto. by eapply rbk_nonempty_red. }
    intros st2 (t2 & H2 & B2 & E2 & Hm2 & Hc2).
    exists t2, (spliced_z c (kparent K) z).
    split_and!; try done.
    + by rewrite spliced_z_color.
    + by eapply same_bounds_trans.
  - assert (Hya : y <> a).
    { intros ->. apply Hy_c. rewrite kaddrs_app. simpl. set_solver. }
    rewrite (proj2 (Z.eqb_neq y a)) by done. simpl.
    apply post_bind. eapply post_rd; [exact Ly|]. simpl.
    apply post_bind. eapply post_rd; [exact Ly|]. simpl.
    apply post_bind. eapply post_rd; [exact Ly|]. simpl.
    rewrite plug_app in H1. simpl in H1.
    destruct (rerange_spec (i_start dy) (i_end dy) (i_type dy) _ _ _ _ _ _ _ _ H1)
      as (st2 & E2 & H2 & B2 & F2).
    rewrite E2. apply post_ret. rewrite item_eta in H2.
    change (Rep st2 (plug (plug c ky) (Fr cz zl a dy :: kz))
              (spliced_z c (kparent (ky ++ Fr cz zl a dz :: kz)) z)) in H2.
    rewrite <- plug_app in H2.
    eapply post_mono.
    { eapply (delete_tail st2 c _ _ y _ m); [exact H2 | | | | | done | |].
      - by rewrite spliced_z_color.
      - intros ->. simpl. apply kparent_rerange.
      - rewrite F2 by done. exact Ly.
      - rewrite addrs_plug, kaddrs_app. simpl.
        rewrite kaddrs_app in Hy_c. simpl in Hy_c. exact Hy_c.
      - simpl. intros Hcy. destruct (Hbl Hcy). split; [done|].
        by eapply rbk_rerange.
      - simpl. intros Hcy. destruct (Hrd Hcy) as (-> & Hk0 & Hkb).
        apply (rbk_rerange _ _ _ _ _ dy) in Hk0.
        apply (kblack_rerange _ _ _ _ _ dy) in Hkb. split.
        + eapply rbt_plug; eauto; done.
        + eapply rbk_root_black; eauto. by eapply rbk_nonempty_red. }
    intros st3 (t3 & H3 & B3 & E3 & Hm3 & Hc3).
    exists t3, (spliced_z c (kparent (ky ++ Fr cz zl a dz :: kz)) z).
    split_and!; try done.
    + by rewrite spliced_z_color.
    + eapply same_bounds_trans; [|exact B3]. by eapply same_bounds_trans.
Qed.

Lemma mem_delete_spec st cz zl a dz zr kz z n :
  Rep st (plug (T cz zl a dz zr) kz) z -> n_color z = MEM_BLACK ->
  rbt n (plug (T cz zl a dz zr) kz) ->
  colorof (plug (T cz zl a dz zr) kz) = MEM_BLACK ->
  post (mem_delete a st) (fun st' =>
    exists t' z', Rep st' t' z' /\ n_color z' = MEM_BLACK
    /\ same_bounds st st'
    /\ items t' = (kleft kz).*2 ++ items zl ++ items zr ++ (kright kz).*2
    /\ (exists m, rbt m t') /\ colorof t' = MEM_BLACK).
Proof.
  intros H Hz Ht Hc.
  pose proof H as (_ & _ & Hnd & Hg)%Rep_plug.
  assert (Ha : a <> NULL /\ a <> MEM_NIL).
  { simpl in Hg. rewrite !Forall_app, Forall_cons in Hg. destruct Hg as [(_ & [] & _) _]. done. }
  destruct Ha as [HaN HaZ].
  unfold mem_delete.
  rewrite (proj2 (Z.eqb_neq a NULL)), (proj2 (Z.eqb_neq a MEM_NIL)) by done. simpl.
  apply post_bind. eapply post_rd; [exact (Rep_node _ _ _ _ _ _ _ _ H)|]. simpl.
  apply post_bind. eapply post_rd; [exact (Rep_node _ _ _ _ _ _ _ _ H)|]. simpl.
  apply post_bind.
  destruct zl as [|cl ll la ld lr].
  { simpl. apply post_ret. eapply post_mono.
    { eapply (unlink_spec _ _ _ _ _ _ _ _ zr _ a kz); eauto. }
    intros st' (t' & z' & H' & Hz' & B' & E' & Hm' & Hc').
    exists t', z'. split_and!; try done.
    rewrite items_entries, E', entries_plug, !fmap_app, <- items_entries. done. }
  destruct zr as [|cr rl ra rd_ rr].
  { simpl. rewrite orb_true_r. apply post_ret. eapply post_mono.
    { eapply (unlink_spec _ _ _ _ _ _ _ _ (T cl ll la ld lr) _ a kz); eauto. }
    intros st' (t' & z' & H' & Hz' & B' & E' & Hm' & Hc').
    exists t', z'. split_and!; try done.
    rewrite items_entries, E', entries_plug, !fmap_app, <- items_entries.
    simpl. done. }
  assert (Hzl : la <> MEM_NIL /\ ra <> MEM_NIL).
  { pose proof Hg as Hg2. simpl in Hg2. nodup_split Hg2. done. }
  change la with (rootp (T cl ll la ld lr)) in Hzl.
  change ra with (rootp (T cr rl ra rd_ rr)) in Hzl.
  assert (Hne : T cr rl ra rd_ rr <> E) by done.
  remember (T cl ll la ld lr) as zl eqn:Ezl.
  remember (T cr rl ra rd_ rr) as zr eqn:Ezr.
  clear Ezl Ezr.
  destruct Hzl as [HlN HrN].
  rewrite (proj2 (Z.eqb_neq _ _) HlN), (proj2 (Z.eqb_neq _ _) HrN). simpl.
  rewrite (delete_min_spec _ zr (Fr cz zl a dz :: kz) st z H); [|done|].
  2:{ pose proof (Rep_size _ _ _ H) as Hs. rewrite length_addrs_plug in Hs.
      simpl in Hs. rewrite length_app in Hs. simpl in Hs.
      pose proof (height_addrs zr). lia. }
  apply post_ret.
  destruct (min_node_shape zr) as (cy & y & dy & yr & Hmin); [done|].
  rewrite Hmin. simpl rootp.
  assert (Hplug : plug (T cz zl a dz zr) kz
                  = plug (T cy E y dy yr) (min_ctx zr [] ++ Fr cz zl a dz :: kz)).
  { rewrite <- Hmin, <- min_ctx_app, plug_min. done. }
  rewrite Hplug in H, Ht, Hc.
  eapply post_mono.
  { eapply (unlink_spec _ _ _ _ _ _ _ _ yr _ a
              (min_ctx zr [] ++ Fr cz zl a dy :: kz)); eauto.
    right. eauto 10. }
  intros st' (t' & z' & H' & Hz' & B' & E' & Hm' & Hc').
  exists t', z'. split_and!; try done.
  rewrite items_entries, E', entries_plug, kleft_app, kright_app, kleft_min.
  rewrite (items_entries zr).
  replace (entries zr) with (entries (plug (min_node zr) (min_ctx zr [])))
    by (by rewrite plug_min).
  rewrite Hmin, entries_plug, kleft_min.
  rewrite (items_entries zl).
  cbn [kleft kright entries app].
  repeat (rewrite ?fmap_app, ?fmap_cons, ?fmap_nil, ?app_nil_r, <- ?app_assoc;
          cbn [app snd]).
  done.
Qed.

(** *** Ordered regions and [mem_find] *)
(** Ordered lists of regions. *)
Lemma ordered_weaken lo lo' l : lo' <= lo -> ordered lo l -> ordered lo' l.
Proof. destruct l; simpl; [done|]. intros ? (?&?&?). split_and!; auto; lia. Qed.

Lemma ordered_app lo l1 d l2 :
  ordered lo (l1 ++ d :: l2) <->
  ordered lo l1 /\ (forall d1, d1 ∈ l1 -> i_end d1 <= i_start d)
  /\ lo <= i_start d /\ i_start d < i_end d /\ ordered (i_end d) l2.
Proof.
  revert lo. induction l1 as [|d0 l1 IH]; intros lo; simpl.
  - split; [intros (?&?&?)|intros (_&_&?&?&?)]; split_and!; auto.
    intros ? Hin. by apply elem_of_nil in Hin.
  - rewrite IH. split.
    + intros (?&?&?&Hall&?&?&?). split_and!; auto; [|lia].
      intros d1 [->|Hin]%elem_of_cons; auto.
    + intros ((?&?&?)&Hall&?&?&?). split_and!; auto.
      * intros d1 Hin. apply Hall. by right.
      * apply Hall. by left.
Qed.

Lemma ordered_elem lo l d :
  ordered lo l -> d ∈ l -> lo <= i_start d /\ i_start d < i_end d.
Proof.
  intros Ho (l1 & l2 & ->)%list_elem_of_split.
  apply ordered_app in Ho. tauto.
Qed.

Lemma ordered_remove lo l1 d l2 :
  ordered lo (l1 ++ d :: l2) -> ordered lo (l1 ++ l2).
Proof.
  rewrite ordered_app. intros (H1 & Hall & Hlo & Hd & H2).
  destruct l2 as [|d2 l2]; [by rewrite app_nil_r|].
  apply ordered_app. simpl in H2. destruct H2 as (?&?&?).
  split_and!; auto; [|lia].
  intros d1 Hin. specialize (Hall _ Hin). lia.
Qed.

Lemma ordered_insert lo l1 d l2 :
  ordered lo (l1 ++ l2) ->
  (forall d1, d1 ∈ l1 -> i_end d1 <= i_start d) ->
  (forall d2, d2 ∈ l2 -> i_end d <= i_start d2) ->
  lo <= i_start d -> i_start d < i_end d ->
  ordered lo (l1 ++ d :: l2).
Proof.
  intros Ho H1 H2 Hlo Hd. apply ordered_app.
  destruct l2 as [|d2 l2].
  - rewrite app_nil_r in Ho. split_and!; auto. done.
  - apply ordered_app in Ho as (?&?&?&?&?). split_and!; auto.
    simpl. split_and!; auto. apply H2. by left.
Qed.

Lemma in_range_spec a d : in_range a d = true <-> i_start d <= a < i_end d.
Proof. unfold in_range. rewrite andb_true_iff, Z.leb_le, Z.ltb_lt. done. Qed.

Lemma ordered_unique lo l1 d l2 a d' :
  ordered lo (l1 ++ d :: l2) -> in_range a d = true ->
  d' ∈ l1 ++ l2 -> in_range a d' = false.
Proof.
  rewrite ordered_app. intros (H1 & Hall & Hlo & Hd & H2) Ha Hin.
  apply in_range_spec in Ha. apply not_true_is_false. rewrite in_range_spec.
  apply elem_of_app in Hin as [Hin|Hin].
  - specialize (Hall _ Hin). lia.
  - pose proof (ordered_elem _ _ _ H2 Hin). lia.
Qed.

Lemma ordered_no_overlap lo l : ordered lo l -> no_overlap l.
Proof.
  intros Ho i j d1 d2 Hij H1 H2. unfold disjoint_items.
  assert (Hgen : forall i j d1 d2, (i < j)%nat ->
            l !! i = Some d1 -> l !! j = Some d2 -> i_end d1 <= i_start d2).
  { clear i j d1 d2 Hij H1 H2. intros i j d1 d2 Hij H1 H2.
    apply list_elem_of_split_length in H1 as (l1 & l2 & -> & ->).
    rewrite lookup_app_r in H2 by lia.
    destruct (j - length l1)%nat as [|j'] eqn:Ej; [lia|]. simpl in H2.
    apply ordered_app in Ho as (_ & _ & _ & _ & Ho).
    apply list_elem_of_lookup_2 in H2.
    pose proof (ordered_elem _ _ _ Ho H2). lia. }
  destruct (Nat.lt_total i j) as [Hlt|[->|Hlt]]; [left|done|right]; eauto.
Qed.

(** [tfind]. *)
Lemma tfind_nil a t :
  (forall d, d ∈ items t -> in_range a d = false) -> tfind a t = MEM_NIL.
Proof.
  induction t as [|c l IHl p d r IHr]; intros H; simpl in *; [done|].
  assert (Hd : in_range a d = false) by (apply H; set_solver).
  unfold in_range in Hd. apply andb_false_iff in Hd.
  rewrite Z.leb_gt, Z.ltb_ge in Hd.
  destruct (Z.ltb_spec a (i_start d)); simpl.
  - apply IHl. intros; apply H; set_solver.
  - destruct (Z.geb_spec a (i_end d)); [|lia].
    apply IHr. intros; apply H; set_solver.
Qed.

Lemma tfind_elem lo a t p d :
  ordered lo (items t) -> (p, d) ∈ entries t -> in_range a d = true ->
  tfind a t = p.
Proof.
  revert lo. induction t as [|c l IHl p0 d0 r IHr]; intros lo Ho Hin Ha; simpl in *.
  { by apply elem_of_nil in Hin. }
  apply ordered_app in Ho as (Hl & Hall & Hlo & Hd & Hr).
  apply in_range_spec in Ha as Ha'.
  apply elem_of_app in Hin as [Hin|Hin].
  - assert (d ∈ items l).
    { rewrite items_entries. apply list_elem_of_fmap. by exists (p, d). }
    specialize (Hall _ H).
    destruct (Z.ltb_spec a (i_start d0)); [|lia]. simpl. eauto.
  - apply elem_of_cons in Hin as [[= -> ->]|Hin].
    + destruct (Z.ltb_spec a (i_start d0)); [lia|].
      destruct (Z.geb_spec a (i_end d0)); [lia|]. done.
    + assert (d ∈ items r).
      { rewrite items_entries. apply list_elem_of_fmap. by exists (p, d). }
      pose proof (ordered_elem _ _ _ Hr H).
      destruct (Z.ltb_spec a (i_start d0)); [lia|].
      destruct (Z.geb_spec a (i_end d0)); [|lia]. simpl. eauto.
Qed.

Lemma tfind_in a t p :
  tfind a t = p -> p <> MEM_NIL ->
  exists d, (p, d) ∈ entries t /\ in_range a d = true.
Proof.
  induction t as [|c l IHl p0 d0 r IHr]; simpl; intros Hp Hne; [congruence|].
  destruct (Z.ltb_spec a (i_start d0)); simpl in Hp.
  { destruct (IHl Hp Hne) as (d & ? & ?). exists d. set_solver. }
  destruct (Z.geb_spec a (i_end d0)); simpl in Hp.
  { destruct (IHr Hp Hne) as (d & ? & ?). exists d. set_solver. }
  subst p0. exists d0. split; [set_solver|]. apply in_range_spec. lia.
Qed.

Lemma find_loop_spec a fuel : forall t par st,
  rep (nodes st) par t ->
  (exists zz, nodes st !! MEM_NIL = Some zz /\ n_start zz = a /\ n_end zz = a + 1) ->
  (height t < fuel)%nat ->
  mem_find_loop fuel a (rootp t) st = Some (tfind a t).
Proof.
  induction fuel as [|fuel IH]; intros t par st Ht Hz Hf; [lia|].
  destruct t as [|c l p d r]; cbn [mem_find_loop rootp tfind].
  - destruct Hz as (zz & Hzz & Hs & He). rewrite Hzz. cbn [mbind option_bind].
    rewrite Hs, He.
    destruct (Z.ltb_spec a a); [lia|]. destruct (Z.geb_spec a (a + 1)); [lia|]. done.
  - simpl in Ht, Hf. destruct Ht as (Hp & Hl & Hr). rewrite Hp.
    cbn [mbind option_bind mk n_start n_end n_left n_right].
    destruct (Z.ltb_spec a (i_start d)); cbn [orb].
    + eapply IH; eauto. lia.
    + destruct (Z.geb_spec a (i_end d)); [|done].
      eapply IH; eauto. lia.
Qed.

Lemma entries_split p d t :
  (p, d) ∈ entries t -> exists c l r k, t = plug (T c l p d r) k.
Proof.
  assert (Hgen : forall t k0, (p, d) ∈ entries t ->
            exists c l r k, plug t k0 = plug (T c l p d r) k).
  2:{ intros Hin. apply (Hgen t [] Hin). }
  clear t. induction t as [|c l IHl p0 d0 r IHr]; intros k0 Hin; simpl in Hin.
  { by apply elem_of_nil in Hin. }
  apply elem_of_app in Hin as [Hin|Hin].
  - apply (IHl (Fl c p0 d0 r :: k0) Hin).
  - apply elem_of_cons in Hin as [[= -> ->]|Hin]; [by eauto|].
    apply (IHr (Fr c l p0 d0 :: k0) Hin).
Qed.

Lemma rep_entries m par t p d :
  rep m par t -> (p, d) ∈ entries t ->
  exists n, m !! p = Some n /\ n_start n = i_start d /\ n_end n = i_end d
            /\ n_type n = i_type d.
Proof.
  revert par. induction t as [|c l IHl p0 d0 r IHr]; intros par H Hin; simpl in *.
  { by apply elem_of_nil in Hin. }
  destruct H as (Hp & Hl & Hr).
  apply elem_of_app in Hin as [Hin|Hin]; [eauto|].
  apply elem_of_cons in Hin as [[= -> ->]|Hin]; [|eauto].
  eexists. split; [exact Hp|]. done.
Qed.

(** *** The invariant along a run *)
Lemma Rep_set_nil st t z z' :
  Rep st t z -> Rep (with_nodes (<[MEM_NIL := z']> (nodes st)) st) t z'.
Proof.
  intros [H1 H2 H3 H4 H5]. split; simpl; try done.
  - eapply rep_ext; [exact H1|]. intros a Ha. rewrite lookup_insert_ne; [done|].
    rewrite Forall_forall in H4. destruct (H4 _ Ha). done.
  - by rewrite lookup_insert_eq.
Qed.

Lemma mem_find_spec st t z a :
  Rep st t z ->
  post (mem_find a st) (fun r =>
    exists z', Rep r.2 t z' /\ n_color z' = n_color z /\ same_bounds st r.2
    /\ r.1 = (if (a <? min_heap_address st) || (a >? max_heap_address st)
              then MEM_NIL else tfind a t)).
Proof.
  intros H. unfold mem_find.
  destruct ((a <? min_heap_address st) || (a >? max_heap_address st)).
  { apply post_ret. exists z. by split_and!. }
  apply post_bind. eapply post_wr; [apply (rep_z _ _ _ H)|].
  set (z' := upd_range a (a + 1) (n_type z) z).
  pose proof (Rep_set_nil _ _ _ z' H) as H'.
  set (st' := with_nodes _ st) in *.
  apply post_bind.
  rewrite (rep_root _ _ _ H').
  rewrite (find_loop_spec a _ t NULL st').
  - apply post_ret, post_ret. exists z'. by split_and!.
  - apply (rep_tree _ _ _ H').
  - exists z'. split; [apply (rep_z _ _ _ H')|done].
  - pose proof (Rep_size _ _ _ H'). pose proof (height_addrs t). lia.
Qed.

Lemma bounds_ok_same st st' t :
  same_bounds st st' -> bounds_ok st t -> bounds_ok st' t.
Proof. intros [Hmin Hmax] H d Hd. rewrite Hmin, Hmax. auto. Qed.

Lemma entries_items p d t : (p, d) ∈ entries t -> d ∈ items t.
Proof.
  intros. rewrite items_entries. apply list_elem_of_fmap. by exists (p, d).
Qed.

Lemma items_entries_elem d t : d ∈ items t -> exists p, (p, d) ∈ entries t.
Proof.
  rewrite items_entries. intros ([p d'] & -> & ?)%list_elem_of_fmap. by exists p.
Qed.

Lemma find_Inv st t R a :
  Inv st t R ->
  post (mem_find a st) (fun r =>
    Inv r.2 t R /\ same_bounds st r.2
    /\ (forall p d, (p, d) ∈ entries t -> in_range a d = true -> r.1 = p)
    /\ ((forall d, d ∈ items t -> in_range a d = false) -> r.1 = MEM_NIL)
    /\ (r.1 <> MEM_NIL -> exists d, (r.1, d) ∈ entries t /\ in_range a d = true)).
Proof.
  intros [(z & Hrep & Hz) Hrb Hb Ho Hbd Hl].
  eapply post_mono; [apply (mem_find_spec _ _ _ a Hrep)|].
  intros [p st'] (z' & Hrep' & Hz' & Hsb & Hp). simpl in *.
  split_and!.
  - split; try done.
    + exists z'. split; [done|congruence].
    + by eapply bounds_ok_same.
  - done.
  - intros q d Hin Ha. rewrite Hp.
    destruct (Hbd d (entries_items _ _ _ Hin)) as (? & ? & ? & ?).
    apply in_range_spec in Ha as Ha'.
    destruct (Z.ltb_spec a (min_heap_address st)); [lia|].
    destruct (Z.gtb_spec a (max_heap_address st)); [lia|]. simpl.
    by eapply tfind_elem.
  - intros Hno. rewrite Hp. rewrite (tfind_nil _ _ Hno). by destruct (_ || _).
  - intros Hne. rewrite Hp in Hne. destruct (_ || _); [done|].
    rewrite Hp. by apply tfind_in.
Qed.

Lemma ins_ctx_sides s : forall t k lo,
  ordered lo (items t) ->
  (forall pd, pd ∈ kleft k -> i_start pd.2 <= s) ->
  (forall pd, pd ∈ kright k -> s < i_start pd.2) ->
  (forall pd, pd ∈ kleft (ins_ctx s t k) -> i_start pd.2 <= s)
  /\ (forall pd, pd ∈ kright (ins_ctx s t k) -> s < i_start pd.2).
Proof.
  induction t as [|c l IHl a d r IHr]; intros k lo Ho Hkl Hkr; simpl in *; [done|].
  apply ordered_app in Ho as (Hl & Hall & Hlo & Hd & Hr).
  destruct (Z.ltb_spec s (i_start d)).
  - apply (IHl _ lo); simpl; auto.
    intros [p d2] Hin. apply elem_of_cons in Hin as [Hin|Hin].
    { injection Hin as -> ->. done. }
    apply elem_of_app in Hin as [Hin|Hin]; simpl; [|apply (Hkr _ Hin)].
    pose proof (ordered_elem _ _ _ Hr (entries_items _ _ _ Hin)). lia.
  - apply (IHr _ (i_end d)); simpl; auto.
    intros [p d1] Hin. apply elem_of_app in Hin as [Hin|Hin]; [apply (Hkl _ Hin)|].
    apply elem_of_app in Hin as [Hin|Hin]; simpl.
    + pose proof (Hall _ (entries_items _ _ _ Hin)).
      pose proof (ordered_elem _ _ _ Hl (entries_items _ _ _ Hin)). lia.
    + apply list_elem_of_singleton in Hin. injection Hin as -> ->. done.
Qed.

Lemma valid_insert_elim st s e ty x :
  valid_op st (Insert s e ty x) = true ->
  0 < s /\ s < e /\ nodes st !! x = None /\ x <> NULL /\ x <> MEM_NIL
  /\ forall p n, nodes st !! p = Some n -> p <> MEM_NIL ->
       n_end n <= s \/ e <= n_start n.
Proof.
  unfold valid_op. rewrite !andb_true_iff, !negb_true_iff, !Z.eqb_neq.
  rewrite !Z.ltb_lt. intros (((((? & ?) & Hx) & ?) & ?) & Hall).
  split_and!; auto.
  - by destruct (nodes st !! x).
  - intros p n Hp Hne. rewrite forallb_forall in Hall.
    specialize (Hall (p, n)). simpl in Hall.
    rewrite !orb_true_iff, !Z.leb_le, Z.eqb_eq in Hall.
    destruct Hall as [[|]|]; auto; [|done].
    apply list_elem_of_In. by apply elem_of_map_to_list.
Qed.

Lemma insert_Inv st t R s e ty x :
  Inv st t R -> valid_op st (Insert s e ty x) = true ->
  post (mem_insert s e ty x st) (fun r =>
    r.1 = x /\ bounds_after_insert s e st r.2
    /\ exists t', Inv r.2 t' ({| i_start := s; i_end := e; i_type := ty |} :: R)).
Proof.
  intros [(z & Hrep & Hz) (n & Hrb) Hb Ho Hbd Hl] Hv.
  apply valid_insert_elim in Hv as (Hs & Hse & Hx & HxN & HxM & Hdis).
  eapply post_mono; [apply (mem_insert_spec _ _ _ s e ty x _ Hrep Hz Hrb Hb Hx HxN HxM)|].
  intros [p st'] (-> & t' & Hrep' & Hba & He & Hrb' & Hb'). simpl in *.
  split; [done|]. split; [done|]. exists t'.
  set (K := ins_ctx s t []) in *.
  set (d := {| i_start := s; i_end := e; i_type := ty |}) in *.
  assert (Het : entries t = kleft K ++ kright K).
  { pose proof (entries_plug E K) as HE. unfold K in HE at 1.
    rewrite plug_ins_ctx in HE. exact HE. }
  assert (Hit : items t = (kleft K).*2 ++ (kright K).*2).
  { by rewrite items_entries, Het, fmap_app. }
  assert (Hit' : items t' = (kleft K).*2 ++ d :: (kright K).*2).
  { by rewrite items_entries, He, fmap_app, fmap_cons. }
  destruct (ins_ctx_sides s t [] 1 Ho) as [Hsl Hsr]; simpl.
  { intros ? Hin. by apply elem_of_nil in Hin. }
  { intros ? Hin. by apply elem_of_nil in Hin. }
  fold K in Hsl, Hsr.
  assert (Hdis' : forall d', d' ∈ items t ->
            (i_end d' <= s \/ e <= i_start d') /\ i_start d' < i_end d').
  { intros d' Hd'. split; [|by eapply ordered_elem].
    apply items_entries_elem in Hd' as [q Hq].
    destruct (rep_entries _ _ _ _ _ (rep_tree _ _ _ Hrep) Hq) as (nd & Hnd & E1 & E2 & _).
    rewrite <- E1, <- E2. apply (Hdis q nd Hnd).
    pose proof (rep_good _ _ _ Hrep) as Hg. rewrite Forall_forall in Hg.
    apply Hg. rewrite addrs_entries. apply list_elem_of_fmap. by exists (q, d'). }
  split.
  - by exists z.
  - done.
  - done.
  - rewrite Hit'. apply ordered_insert; simpl; try lia.
    + by rewrite <- Hit.
    + intros d1 Hd1.
      assert (Hin : d1 ∈ items t) by (rewrite Hit; set_solver).
      apply list_elem_of_fmap in Hd1 as (pd & -> & Hpd).
      specialize (Hsl _ Hpd). destruct (Hdis' _ Hin). lia.
    + intros d2 Hd2.
      assert (Hin : d2 ∈ items t) by (rewrite Hit; set_solver).
      apply list_elem_of_fmap in Hd2 as (pd & -> & Hpd).
      specialize (Hsr _ Hpd). destruct (Hdis' _ Hin). lia.
  - intros d' Hd'. destruct Hba as [-> ->].
    assert (Hc : d' = d \/ d' ∈ items t).
    { rewrite Hit' in Hd'. rewrite Hit. set_solver. }
    destruct Hc as [->|Hin]; simpl.
    + destruct (Z.eqb_spec (min_heap_address st) NULL);
        destruct (Z.ltb_spec s (min_heap_address st));
        destruct (Z.eqb_spec (max_heap_address st) NULL);
        destruct (Z.gtb_spec e (max_heap_address st)); simpl; unfold NULL in *; lia.
    + destruct (Hbd _ Hin) as (? & ? & ? & ?).
      destruct (Z.eqb_spec (min_heap_address st) NULL);
        destruct (Z.ltb_spec s (min_heap_address st));
        destruct (Z.eqb_spec (max_heap_address st) NULL);
        destruct (Z.gtb_spec e (max_heap_address st)); simpl; unfold NULL in *; lia.
  - rewrite Hit', <- Hl, Hit. by rewrite <- Permutation_middle.
Qed.

Lemma filter_Permutation' {A} (f : A -> bool) l1 l2 :
  l1 ≡ₚ l2 -> List.filter f l1 ≡ₚ List.filter f l2.
Proof.
  induction 1; simpl; try done.
  - destruct (f x); [by constructor|done].
  - destruct (f x), (f y); try done. apply perm_swap.
  - etrans; eauto.
Qed.

Lemma filter_all {A} (f : A -> bool) l :
  (forall x, x ∈ l -> f x = true) -> List.filter f l = l.
Proof.
  induction l as [|x l IH]; intros H; simpl; [done|].
  rewrite (H x) by set_solver. f_equal. apply IH. intros; apply H. set_solver.
Qed.

Lemma delete_Inv st t R a st1 p :
  Inv st1 t R -> same_bounds st st1 ->
  (forall q d, (q, d) ∈ entries t -> in_range a d = true -> p = q) ->
  ((forall d, d ∈ items t -> in_range a d = false) -> p = MEM_NIL) ->
  (p <> MEM_NIL -> exists d, (p, d) ∈ entries t /\ in_range a d = true) ->
  post (mem_delete p st1) (fun st' =>
    same_bounds st st' /\
    exists t', Inv st' t' (List.filter (fun d => negb (in_range a d)) R)).
Proof.
  intros HI Hsb H1 H2 H3.
  destruct (decide (p = MEM_NIL)) as [->|Hne].
  { unfold mem_delete. simpl. apply post_ret. split; [done|]. exists t.
    destruct HI as [Hz ? ? ? ? Hl]. split; try done.
    rewrite <- (filter_Permutation' _ _ _ Hl).
    rewrite filter_all; [done|]. intros d Hd. apply negb_true_iff.
    destruct (in_range a d) eqn:Ea; [|done].
    apply items_entries_elem in Hd as [q Hq]. specialize (H1 _ _ Hq Ea).
    subst q. destruct Hz as (z & Hrep & _).
    pose proof (rep_good _ _ _ Hrep) as Hg. rewrite Forall_forall in Hg.
    destruct (Hg MEM_NIL); [|done].
    rewrite addrs_entries. apply list_elem_of_fmap. by exists (MEM_NIL, d). }
  destruct (H3 Hne) as (dz & Hin & Ha).
  destruct (entries_split _ _ _ Hin) as (cz & zl & zr & kz & ->).
  destruct HI as [(z & Hrep & Hz) (n & Hrb) Hb Ho Hbd Hl].
  eapply post_mono; [apply (mem_delete_spec _ _ _ _ _ _ _ _ _ Hrep Hz Hrb Hb)|].
  intros st' (t' & z' & Hrep' & Hz' & Hsb' & Hit' & Hrb' & Hb'). simpl.
  split; [by eapply same_bounds_trans|]. exists t'.
  assert (Hit : items (plug (T cz zl p dz zr) kz)
            = ((kleft kz).*2 ++ items zl) ++ dz :: (items zr ++ (kright kz).*2)).
  { rewrite items_entries, entries_plug. cbn [entries].
    rewrite !fmap_app, fmap_cons, ?fmap_app, <- !items_entries.
    by rewrite <- !app_assoc. }
  assert (Hit2 : items t' = ((kleft kz).*2 ++ items zl) ++ (items zr ++ (kright kz).*2)).
  { rewrite Hit'. by rewrite <- !app_assoc. }
  rewrite Hit in Ho.
  split.
  - by exists z'.
  - done.
  - done.
  - rewrite Hit2. by eapply ordered_remove.
  - intros d Hd. destruct Hsb' as [-> ->]. apply Hbd.
    rewrite Hit. rewrite Hit2 in Hd. set_solver.
  - rewrite <- (filter_Permutation' _ _ _ Hl). rewrite Hit, Hit2.
    rewrite List.filter_app. simpl. rewrite Ha. simpl.
    rewrite <- List.filter_app. rewrite filter_all; [done|].
    intros d Hd. apply negb_true_iff. by eapply ordered_unique.
Qed.

Lemma exec_Inv o st t R :
  Inv st t R -> valid_op st o = true ->
  post (exec o st) (fun st' => exists t', Inv st' t' (live [o] R)).
Proof.
  intros HI Hv. destruct o as [s e ty x|a|a]; simpl.
  - apply post_bind. eapply post_mono; [by apply (insert_Inv _ t R)|].
    intros r (_ & _ & t' & Ht'). apply post_ret. eauto.
  - apply post_bind. eapply post_mono; [by apply (find_Inv _ t R)|].
    intros [p st1] (HI1 & Hsb & H1 & H2 & H3). simpl in *.
    eapply post_mono; [by eapply (delete_Inv st t R a)|].
    intros st' (_ & t' & Ht'). eauto.
  - apply post_bind. eapply post_mono; [by apply (find_Inv _ t R)|].
    intros r (HI1 & _). apply post_ret. eauto.
Qed.

Lemma run_Inv ops : forall st t R,
  Inv st t R -> valid_run ops st = true ->
  exists st' t', run ops st = Some st' /\ Inv st' t' (live ops R).
Proof.
  induction ops as [|o ops IH]; intros st t R HI Hv; simpl in *.
  { eauto. }
  apply andb_true_iff in Hv as [Hv Hr].
  destruct (exec_Inv o st t R HI Hv) as (st1 & He & t1 & HI1).
  rewrite He in *. simpl.
  destruct (IH _ _ _ HI1 Hr) as (st' & t' & Hrun & HI').
  exists st', t'. split; [done|]. by destruct o.
Qed.

Lemma mem_init_initial : mem_init static_state = Some initial_state.
Proof.
  unfold mem_init, wr, static_state, initial_state. cbn [nodes].
  rewrite lookup_singleton_eq. cbn [mbind option_bind with_nodes nodes].
  repeat (rewrite lookup_insert_eq; cbn [mbind option_bind with_nodes nodes]).
  reflexivity.
Qed.

Lemma Rep_initial :
  Rep initial_state E
    {| n_left := MEM_NIL; n_right := MEM_NIL; n_parent := NULL;
       n_start := NULL; n_end := NULL; n_color := MEM_BLACK;
       n_type := MEM_TYPE_NON_LISP |}.
Proof.
  split; simpl; try done. constructor.
Qed.

Lemma Inv_initial : Inv initial_state E [].
Proof.
  split; simpl; try done.
  - eexists. split; [apply Rep_initial|done].
  - by exists O.
  - intros d Hd. by apply elem_of_nil in Hd.
Qed.

(** *** The heap bounds; the properties as worded *)
(** The heap bounds are written by [mem_insert] alone. *)
Lemma wr_bounds f p st st' : wr f p st = Some st' -> same_bounds st st'.
Proof.
  unfold wr. destruct (nodes st !! p); simpl; [|done]. intros [= <-]. done.
Qed.

Lemma same_bounds_with_root y st : same_bounds st (with_root y st).
Proof. done. Qed.

Ltac bounds_step :=
  match goal with
  | H : Some _ = Some _ |- _ => injection H as H; subst
  | H : None = Some _ |- _ => discriminate H
  | H : wr _ _ _ = Some _ |- _ => apply wr_bounds in H
  | H : mbind _ ?e = Some _ |- _ =>
      let E := fresh "E" in destruct e eqn:E; cbn [mbind option_bind] in H;
      [|discriminate H]
  | H : (let '(_, _) := ?p in _) = Some _ |- _ => destruct p
  | H : (if ?b then _ else _) = Some _ |- _ => destruct b
  | H : rd _ _ _ = Some _ |- _ => clear H
  end.

Ltac bounds_close :=
  repeat match goal with
    | H : same_bounds _ _ |- _ => destruct H as [? ?]
    end;
  split; simpl in *; congruence.

Lemma rotate_left_bounds x st st' :
  mem_rotate_left x st = Some st' -> same_bounds st st'.
Proof. unfold mem_rotate_left. intros H. repeat bounds_step; bounds_close. Qed.

Lemma rotate_right_bounds x st st' :
  mem_rotate_right x st = Some st' -> same_bounds st st'.
Proof. unfold mem_rotate_right. intros H. repeat bounds_step; bounds_close. Qed.

Ltac bounds_step' :=
  first [ bounds_step
        | match goal with
          | H : mem_rotate_left _ _ = Some _ |- _ => apply rotate_left_bounds in H
          | H : mem_rotate_right _ _ = Some _ |- _ => apply rotate_right_bounds in H
          end ].

Lemma insert_fixup_body_bounds x st r :
  mem_insert_fixup_body x st = Some r -> same_bounds st r.2.
Proof.
  unfold mem_insert_fixup_body. intros H. repeat bounds_step'; bounds_close.
Qed.

Lemma insert_fixup_loop_bounds fuel : forall x st st',
  mem_insert_fixup_loop fuel x st = Some st' -> same_bounds st st'.
Proof.
  induction fuel as [|fuel IH]; intros x st st' H; simpl in H; [done|].
  destruct (x =? mem_root st); [by injection H as <-|].
  repeat bounds_step'; try done.
  match goal with
  | H1 : mem_insert_fixup_body _ _ = Some _ |- _ =>
      apply insert_fixup_body_bounds in H1; simpl in H1;
      apply IH in H; eapply same_bounds_trans; eauto
  end.
Qed.

Lemma mem_insert_bounds s e ty x st r :
  mem_insert s e ty x st = Some r -> bounds_after_insert s e st r.2.
Proof.
  unfold mem_insert, mem_insert_fixup, bounds_after_insert. intros H.
  repeat bounds_step'.
  all: match goal with
    | H1 : mem_insert_fixup_loop _ _ _ = Some _ |- _ =>
        apply insert_fixup_loop_bounds in H1
    end.
  all: repeat match goal with
    | H : same_bounds _ _ |- _ => destruct H as [? ?]
    end; simpl in *.
  all: repeat match goal with
    | H : context [if ?b then _ else _] |- _ => destruct b eqn:?; simpl in *
    end.
  all: repeat match goal with
    | |- context [if ?b then _ else _] => destruct b eqn:?
    end.
  all: split; congruence.
Qed.

Lemma mem_find_bounds a st r : mem_find a st = Some r -> same_bounds st r.2.
Proof.
  unfold mem_find. intros H. repeat bounds_step'; bounds_close.
Qed.

(** From [rbt] to the three properties as worded. *)
Lemma rbt_no_red_red t : forall n, rbt n t -> no_red_red t.
Proof.
  induction t as [|c l IHl a d r IHr]; intros n H; simpl in *; [done|].
  destruct c.
  - destruct n; [done|]. destruct H. split_and!; eauto. done.
  - destruct H as (? & ? & ? & ?). split_and!; eauto.
Qed.

Lemma rbt_path_blacks t : forall n x, rbt n t -> In x (path_blacks t) -> x = n.
Proof.
  induction t as [|c l IHl a d r IHr]; intros n x H Hin; simpl in *.
  { destruct Hin; [congruence|done]. }
  apply in_map_iff in Hin as (y & <- & Hy). apply in_app_or in Hy.
  destruct c; simpl.
  - destruct n; [done|]. destruct H. f_equal. destruct Hy; eauto.
  - destruct H as (? & ? & ? & ?). destruct Hy; eauto.
Qed.

Lemma rbt_red_black n t : rbt n t -> colorof t = MEM_BLACK -> red_black t.
Proof.
  intros H Hc. split_and!; [done|by eapply rbt_no_red_red|].
  intros x y Hx Hy.
  rewrite (rbt_path_blacks _ _ _ H Hx), (rbt_path_blacks _ _ _ H Hy). done.
Qed.

(** *** The tree in use: the claims *)
(** C4: after every insertion into and deletion from the tree, the tree is
    red-black (the root is black, no red node has a red child, all paths
    from the root to a leaf count the same number of black nodes) and its
    regions do not overlap.  The operations may be interleaved in any order;
    every prefix of a run is a run, so the property holds after each step.
    The callers insert non-empty regions that overlap no region in use, at
    the address of a fresh node ([valid_run]). *)
Theorem mem_tree_red_black (ops : list op) :
  valid_run ops initial_state = true ->
  exists st t z,
    run ops initial_state = Some st /\ Rep st t z
    /\ red_black t /\ no_overlap (items t) /\ items t ≡ₚ live ops [].
Proof.
  intros Hv.
  destruct (run_Inv ops _ _ _ Inv_initial Hv) as (st & t & Hrun & HI).
  destruct HI as [(z & Hrep & _) (n & Hrb) Hb Ho _ Hl].
  exists st, t, z. split_and!; try done.
  - by eapply rbt_red_black.
  - by eapply ordered_no_overlap.
Qed.

Lemma mem_tree_red_black_witness :
  let ops := [Insert 10 20 MEM_TYPE_CONS 100; Insert 30 40 MEM_TYPE_STRING 101;
              Insert 50 60 MEM_TYPE_FLOAT 102; Free 35; Find 15;
              Insert 20 30 MEM_TYPE_SYMBOL 103; Insert 70 80 MEM_TYPE_CONS 104;
              Insert 90 95 MEM_TYPE_CONS 105; Free 10] in
  valid_run ops initial_state = true /\
  exists st t z,
    run ops initial_state = Some st /\ Rep st t z
    /\ red_black t /\ no_overlap (items t) /\ items t ≡ₚ live ops [].
Proof.
  intros ops. split; [vm_compute; reflexivity|].
  apply (mem_tree_red_black ops). vm_compute. reflexivity.
Defined.

(** C3: after any run of insertions and deletions, [mem_find] on an
    address inside a region in use returns the node that records this
    region, and [mem_find] on an address outside all the regions in use
    returns the sentinel [MEM_NIL]. *)
Theorem mem_find_live (ops : list op) :
  valid_run ops initial_state = true ->
  exists st, run ops initial_state = Some st /\
    forall a,
      (forall d, d ∈ live ops [] -> in_range a d = true ->
         exists p st' n,
           mem_find a st = Some (p, st') /\ p <> MEM_NIL
           /\ nodes st' !! p = Some n
           /\ n_start n = i_start d /\ n_end n = i_end d /\ n_type n = i_type d)
      /\ ((forall d, d ∈ live ops [] -> in_range a d = false) ->
          exists st', mem_find a st = Some (MEM_NIL, st')).
Proof.
  intros Hv.
  destruct (run_Inv ops _ _ _ Inv_initial Hv) as (st & t & Hrun & HI).
  exists st. split; [done|]. intros a.
  destruct (find_Inv _ _ _ a HI) as ([p st'] & Hf & HI' & _ & H1 & H2 & _).
  simpl in *. pose proof (inv_live _ _ _ HI) as Hl. split.
  - intros d Hd Ha. rewrite <- Hl in Hd.
    apply items_entries_elem in Hd as [q Hq].
    rewrite (H1 _ _ Hq Ha) in *.
    destruct (inv_rep _ _ _ HI') as (z' & Hrep' & _).
    destruct (rep_entries _ _ _ _ _ (rep_tree _ _ _ Hrep') Hq) as (n & ? & ? & ? & ?).
    exists q, st', n. split_and!; try done.
    pose proof (rep_good _ _ _ Hrep') as Hg. rewrite Forall_forall in Hg.
    apply Hg. rewrite addrs_entries. apply list_elem_of_fmap. by exists (q, d).
  - intros Hno. exists st'. rewrite Hf, H2; [done|].
    intros d Hd. apply Hno. by rewrite <- Hl.
Qed.

Lemma mem_find_live_witness :
  let ops := [Insert 10 20 MEM_TYPE_CONS 100; Insert 30 40 MEM_TYPE_STRING 101;
              Insert 50 60 MEM_TYPE_FLOAT 102; Free 35] in
  valid_run ops initial_state = true /\
  exists st, run ops initial_state = Some st /\
    forall a,
      (forall d, d ∈ live ops [] -> in_range a d = true ->
         exists p st' n,
           mem_find a st = Some (p, st') /\ p <> MEM_NIL
           /\ nodes st' !! p = Some n
           /\ n_start n = i_start d /\ n_end n = i_end d /\ n_type n = i_type d)
      /\ ((forall d, d ∈ live ops [] -> in_range a d = false) ->
          exists st', mem_find a st = Some (MEM_NIL, st')).
Proof.
  intros ops. split; [vm_compute; reflexivity|].
  apply (mem_find_live ops). vm_compute. reflexivity.
Defined.

(** C7, as stated, fails: with the bounds at 100 and 200, [mem_find] on
    50, on 250 and on 150 returns with the bounds still 100 and 200. *)
Lemma mem_find_leaves_bounds_example :
  let st := {| nodes := nodes initial_state; mem_root := MEM_NIL;
               min_heap_address := 100; max_heap_address := 200 |} in
  mem_find 50 st = Some (MEM_NIL, st)
  /\ mem_find 250 st = Some (MEM_NIL, st)
  /\ exists st', mem_find 150 st = Some (MEM_NIL, st')
       /\ min_heap_address st' = 100 /\ max_heap_address st' = 200.
Proof.
  split_and!; [reflexivity|reflexivity|].
  eexists. split; [vm_compute; reflexivity|]. split; reflexivity.
Qed.

(** C7, amended: [mem_find] never changes [min_heap_address] and
    [max_heap_address]; it reads them, and an address below the one or above
    the other is rejected with the state as it was.  [mem_insert] is what
    updates them: the minimum is lowered to the start of the new region, the
    maximum raised to its end. *)
Theorem mem_find_reads_bounds a st s e ty x :
  (forall r, mem_find a st = Some r ->
     min_heap_address r.2 = min_heap_address st
     /\ max_heap_address r.2 = max_heap_address st
     /\ (a < min_heap_address st \/ a > max_heap_address st -> r = (MEM_NIL, st)))
  /\ (forall r, mem_insert s e ty x st = Some r ->
        bounds_after_insert s e st r.2).
Proof.
  split; [|intros r; apply mem_insert_bounds].
  intros r H. destruct (mem_find_bounds _ _ _ H) as [? ?]. split_and!; try done.
  intros Ha. unfold mem_find in H.
  destruct (Z.ltb_spec a (min_heap_address st)); simpl in H; [congruence|].
  destruct (Z.gtb_spec a (max_heap_address st)); simpl in H; [congruence|]. lia.
Qed.

Lemma mem_find_reads_bounds_witness :
  let st := {| nodes := nodes initial_state; mem_root := MEM_NIL;
               min_heap_address := 100; max_heap_address := 200 |} in
  (exists r, mem_find 250 st = Some r
     /\ min_heap_address r.2 = 100 /\ max_heap_address r.2 = 200
     /\ (250 < 100 \/ 250 > 200 -> r = (MEM_NIL, st)))
  /\ (exists r, mem_insert 300 400 MEM_TYPE_CONS 7 st = Some r
        /\ bounds_after_insert 300 400 st r.2).
Proof.
  intros st.
  destruct (mem_find_reads_bounds 250 st 300 400 MEM_TYPE_CONS 7) as [Hf Hi].
  split.
  - eexists. split; [vm_compute; reflexivity|]. apply Hf. vm_compute. reflexivity.
  - eexists. split; [vm_compute; reflexivity|]. apply Hi. vm_compute. reflexivity.
Defined.

(** *** The heap bounds and the balance of the tree *)
Lemma rbt_height t : forall n,
  rbt n t ->
  (height t <= 2 * n + match colorof t with MEM_RED => 1 | MEM_BLACK => 0 end)%nat.
Proof.
  induction t as [|c l IHl a d r IHr]; intros n H; simpl in *; [lia|].
  destruct c.
  - destruct n as [|n]; [done|]. destruct H as [Hl Hr].
    specialize (IHl _ Hl). specialize (IHr _ Hr).
    destruct (colorof l), (colorof r); lia.
  - destruct H as (Hcl & Hcr & Hl & Hr).
    specialize (IHl _ Hl). specialize (IHr _ Hr).
    rewrite Hcl in IHl. rewrite Hcr in IHr. lia.
Qed.

Lemma rbt_size t : forall n,
  rbt n t -> (2 ^ n <= length (items t) + 1)%nat.
Proof.
  induction t as [|c l IHl a d r IHr]; intros n H; simpl in *.
  { subst. simpl. lia. }
  rewrite length_app. simpl. destruct c.
  - destruct n as [|n]; [done|]. destruct H as [Hl Hr].
    specialize (IHl _ Hl). specialize (IHr _ Hr).
    rewrite Nat.pow_succ_r'. lia.
  - destruct H as (Hcl & Hcr & Hl & Hr).
    specialize (IHl _ Hl). specialize (IHr _ Hr). lia.
Qed.

(** X5.  After any run of insertions and deletions, the heap bounds
    cover every region in use: [min_heap_address] is at most the start and
    [max_heap_address] at least the end of each, and neither is null, so
    the early exit of [mem_find] rejects no address of a region in use. *)
Theorem heap_bounds_cover_live (ops : list op) :
  valid_run ops initial_state = true ->
  exists st, run ops initial_state = Some st /\
    forall d, d ∈ live ops [] ->
      min_heap_address st <> NULL /\ min_heap_address st <= i_start d
      /\ max_heap_address st <> NULL /\ i_end d <= max_heap_address st.
Proof.
  intros Hv.
  destruct (run_Inv ops _ _ _ Inv_initial Hv) as (st & t & Hrun & HI).
  exists st. split; [done|]. intros d Hd.
  apply (inv_bounds _ _ _ HI). by rewrite (inv_live _ _ _ HI).
Qed.

(** X6.  The tree stays balanced: after any run of insertions and
    deletions its height [h] satisfies [2 ^ h <= (n + 1) ^ 2] for [n]
    regions in use, and the loop of [mem_find] ends within [h + 1]
    iterations, at the node that the search of the tree reaches. *)
Theorem mem_find_balanced (ops : list op) :
  valid_run ops initial_state = true ->
  exists st t z,
    run ops initial_state = Some st /\ Rep st t z
    /\ items t ≡ₚ live ops []
    /\ (2 ^ height t <= (length (live ops []) + 1) ^ 2)%nat
    /\ forall a st1 fuel,
         wr (fun n => upd_range a (a + 1) (n_type n) n) MEM_NIL st = Some st1 ->
         (height t < fuel)%nat ->
         mem_find_loop fuel a (mem_root st) st1 = Some (tfind a t).
Proof.
  intros Hv.
  destruct (run_Inv ops _ _ _ Inv_initial Hv) as (st & t & Hrun & HI).
  destruct HI as [(z & Hrep & Hz) (n & Hrb) Hb Ho Hbd Hl].
  exists st, t, z. split_and!; try done.
  - pose proof (rbt_height _ _ Hrb) as Hh. rewrite Hb in Hh.
    pose proof (rbt_size _ _ Hrb) as Hs. rewrite <- Hl.
    transitivity ((2 ^ n) ^ 2)%nat.
    + rewrite <- Nat.pow_mul_r. apply Nat.pow_le_mono_r; lia.
    + apply Nat.pow_le_mono_l. lia.
  - intros a st1 fuel Hwr Hf.
    unfold wr in Hwr. rewrite (rep_z _ _ _ Hrep) in Hwr.
    cbn [mbind option_bind] in Hwr. injection Hwr as <-.
    set (z' := upd_range a (a + 1) (n_type z) z).
    pose proof (Rep_set_nil _ _ _ z' Hrep) as H'.
    change (mem_root st) with (mem_root (with_nodes (<[MEM_NIL := z']> (nodes st)) st)).
    rewrite (rep_root _ _ _ H').
    apply (find_loop_spec a fuel t NULL); [apply (rep_tree _ _ _ H')| |done].
    exists z'. split; [apply (rep_z _ _ _ H')|done].
Qed.

Lemma heap_bounds_cover_live_witness :
  let ops := [Insert 10 20 MEM_TYPE_CONS 100; Insert 30 40 MEM_TYPE_STRING 101;
              Insert 50 60 MEM_TYPE_FLOAT 102; Free 55] in
  valid_run ops initial_state = true /\
  exists st, run ops initial_state = Some st /\
    forall d, d ∈ live ops [] ->
      min_heap_address st <> NULL /\ min_heap_address st <= i_start d
      /\ max_heap_address st <> NULL /\ i_end d <= max_heap_address st.
Proof.
  intros ops. split; [vm_compute; reflexivity|].
  apply (heap_bounds_cover_live ops). vm_compute. reflexivity.
Defined.

Lemma mem_find_balanced_witness :
  let ops := [Insert 10 20 MEM_TYPE_CONS 100; Insert 30 40 MEM_TYPE_STRING 101;
              Insert 50 60 MEM_TYPE_FLOAT 102; Insert 70 80 MEM_TYPE_CONS 103;
              Insert 90 95 MEM_TYPE_CONS 104; Free 35] in
  valid_run ops initial_state = true /\
  exists st t z,
    run ops initial_state = Some st /\ Rep st t z
    /\ items t ≡ₚ live ops []
    /\ (2 ^ height t <= (length (live ops []) + 1) ^ 2)%nat
    /\ forall a st1 fuel,
         wr (fun n => upd_range a (a + 1) (n_type n) n) MEM_NIL st = Some st1 ->
         (height t < fuel)%nat ->
         mem_find_loop fuel a (mem_root st) st1 = Some (tfind a t).
Proof.
  intros ops. split; [vm_compute; reflexivity|].
  apply (mem_find_balanced ops). vm_compute. reflexivity.
Defined.

End MemTreeProofs.
(** ** Running out of memory *)
Module MemoryFullProofs.
Import Lisp MemoryFull.
Local Open Scope Z_scope.
Lemma remove_block_head p size l : remove_block p ((p, size) :: l) = l.
Proof. simpl. by rewrite Z.eqb_refl. Qed.

(** C9, as stated, fails: the runtime is initialized, a request for 20000
    bytes has failed and the system allocator can still give 16384 bytes;
    [memory_full] raises the signal with [Vmemory_full] nil. *)
Lemma memory_full_flag_cleared_example :
  memory_full 20000 65536 example_state
  = Signal Qnil (Lisp_Cons 4096) example_state
  /\ Vmemory_full example_state = Qnil.
Proof. split; reflexivity. Qed.

(** C9, amended: before the runtime is initialized [memory_full] is fatal.
    Once it is initialized, [memory_full] raises the signal whose data is
    the value that [Vmemory_signal_data] already holds, and leaves the
    blocks of the system allocator as they were; [Vmemory_full] is set to t,
    except that it is nil when more than 16384 bytes were asked for and an
    allocation of 16384 bytes succeeds (that block is freed at once). *)
Theorem memory_full_spec (nbytes p : Z) (st : state) :
  (initialized st = false ->
     memory_full nbytes p st = Fatal "memory exhausted")
  /\ (initialized st = true ->
      exists st',
        memory_full nbytes p st = Signal Qnil (Vmemory_signal_data st) st'
        /\ initialized st' = true
        /\ Vmemory_signal_data st' = Vmemory_signal_data st
        /\ malloc_blocks st' = malloc_blocks st
        /\ Vmemory_full st'
           = (if (nbytes >? 2 ^ 14) && negb (p =? 0) then Qnil else Qt)).
Proof.
  unfold memory_full, enough. change (Z.shiftl 1 14) with 16384.
  change (2 ^ 14) with 16384. split; intros Hi; rewrite Hi; cbn [negb]; [done|].
  destruct (nbytes >? 16384); cbn [andb].
  - unfold malloc. destruct (p =? 0) eqn:Ep; simpl.
    + eexists. split; [reflexivity|]. by split_and!.
    + eexists. split; [reflexivity|]. split_and!; try done.
      simpl. by rewrite Z.eqb_refl.
  - eexists. split; [reflexivity|]. by split_and!.
Qed.

Lemma memory_full_spec_witness :
  memory_full 20000 65536
    {| initialized := false; Vmemory_full := Qnil;
       Vmemory_signal_data := Lisp_Cons 4096; malloc_blocks := [] |}
  = Fatal "memory exhausted"
  /\ exists st',
       memory_full 100 0 example_state
       = Signal Qnil (Vmemory_signal_data example_state) st'
       /\ initialized st' = true
       /\ Vmemory_signal_data st' = Vmemory_signal_data example_state
       /\ malloc_blocks st' = malloc_blocks example_state
       /\ Vmemory_full st' = Qt.
Proof.
  split.
  - apply (memory_full_spec 20000 65536). reflexivity.
  - apply (memory_full_spec 100 0 example_state). reflexivity.
Defined.

End MemoryFullProofs.
(** ** Cons cells *)
Module ConsesProofs.
Import Lisp Conses.
Local Open Scope Z_scope.
(** *** Bits and addresses *)

Lemma land_one_shiftr w k :
  0 <= k -> negb (Z.land (Z.shiftr w k) 1 =? 0) = Z.testbit w k.
Proof.
  intros Hk. change 1 with (Z.ones 1). rewrite Z.land_ones by lia.
  change (2 ^ 1) with 2. rewrite <- Z.bit0_mod, Z.shiftr_spec by lia.
  rewrite Z.add_0_l. by destruct (Z.testbit w k).
Qed.

Lemma testbit_set w k j :
  0 <= k -> 0 <= j ->
  Z.testbit (Z.lor w (Z.shiftl 1 k)) j = Z.testbit w j || (j =? k).
Proof.
  intros Hk Hj. rewrite Z.lor_spec, Z.shiftl_spec by lia.
  destruct (Z.eqb_spec j k) as [->|Hne].
  - by rewrite Z.sub_diag.
  - f_equal. destruct (Z.ltb_spec j k).
    + rewrite Z.testbit_neg_r by lia. done.
    + change 1 with (Z.ones 1). rewrite Z.ones_spec_high by lia. done.
Qed.

Lemma testbit_unset w k j :
  0 <= k -> 0 <= j ->
  Z.testbit (Z.land w (Z.lnot (Z.shiftl 1 k))) j
  = Z.testbit w j && negb (j =? k).
Proof.
  intros Hk Hj. rewrite Z.land_spec, Z.lnot_spec, Z.shiftl_spec by lia.
  destruct (Z.eqb_spec j k) as [->|Hne].
  - by rewrite Z.sub_diag.
  - f_equal. destruct (Z.ltb_spec j k).
    + rewrite Z.testbit_neg_r by lia. done.
    + change 1 with (Z.ones 1). rewrite Z.ones_spec_high by lia. done.
Qed.

Lemma quot_rem_unique n m k :
  0 < k -> 0 <= n -> 0 <= m ->
  n ÷ k = m ÷ k -> Z.rem n k = Z.rem m k -> n = m.
Proof.
  intros Hk Hn Hm Hq Hr.
  rewrite (Z.quot_rem' n k), (Z.quot_rem' m k). congruence.
Qed.

Section platform.
Context (pf : platform).
Context (Hpf : platform_ok pf = true).

Local Abbreviation BPW := (BITS_PER_BITS_WORD pf).
Local Abbreviation NCONS := (BLOCK_NCONS pf).

Lemma platform_facts :
  0 < sizeof_Lisp_Cons pf /\ 0 < BPW /\ 0 < NCONS
  /\ NCONS * sizeof_Lisp_Cons pf <= 1024.
Proof.
  unfold platform_ok in Hpf.
  rewrite !andb_true_iff, !Z.ltb_lt, Z.leb_le in Hpf.
  change BLOCK_ALIGN with 1024 in Hpf. tauto.
Qed.

Lemma land_aligned b o :
  Z.land b (BLOCK_ALIGN - 1) = 0 -> 0 <= o < 1024 ->
  Z.land (b + o) (BLOCK_ALIGN - 1) = o
  /\ Z.land (b + o) (Z.lnot (BLOCK_ALIGN - 1)) = b.
Proof.
  change (BLOCK_ALIGN - 1) with (Z.ones 10). intros Hb Ho.
  rewrite Z.land_ones in Hb by lia. rewrite Z.land_ones by lia.
  rewrite <- Z.ldiff_land, Z.ldiff_ones_r by lia.
  rewrite Z.shiftr_div_pow2, Z.shiftl_mul_pow2 by lia.
  change (2 ^ 10) with 1024 in *.
  assert (Hd : b = 1024 * (b / 1024)).
  { pose proof (Z.div_mod b 1024). lia. }
  split.
  - symmetry. apply (Z.mod_unique (b + o) 1024 (b / 1024) o); lia.
  - rewrite <- (Z.div_unique (b + o) 1024 (b / 1024) o); lia.
Qed.

Lemma cons_addr_block b i :
  Z.land b (BLOCK_ALIGN - 1) = 0 -> 0 <= i < NCONS ->
  CONS_BLOCK (cons_addr pf b i) = b /\ CONS_INDEX pf (cons_addr pf b i) = i.
Proof.
  intros Hb Hi. destruct platform_facts as (Hs & _ & _ & Hn).
  unfold CONS_BLOCK, CONS_INDEX, cons_addr.
  assert (Ho : 0 <= i * sizeof_Lisp_Cons pf < 1024) by nia.
  destruct (land_aligned b _ Hb Ho) as [-> ->]. split; [done|].
  rewrite Z.quot_mul by lia. done.
Qed.

End platform.

Section platform.
Context (pf : platform).
Context (Hpf : platform_ok pf = true).

Local Abbreviation BPW := (BITS_PER_BITS_WORD pf).
Local Abbreviation NCONS := (BLOCK_NCONS pf).

(** *** Words of mark bits *)

Lemma set_markword_changed b i w st st' :
  set_markword b i w st = Some st' -> marks_changed b st st'.
Proof.
  unfold set_markword. destruct (blocks st !! b) as [blk|] eqn:Eb; [|done].
  simpl. destruct (gcmarkbits blk !! Z.to_nat i); [|done]. simpl.
  intros [= <-]. exists blk, (<[Z.to_nat i := w]> (gcmarkbits blk)).
  by rewrite length_insert.
Qed.

Lemma get_markword_Some b i st :
  block_shape pf (blocks st) b -> 0 <= i <= NCONS ÷ BPW ->
  exists w, get_markword b i st = Some w.
Proof.
  intros (_ & blk & Hb & _ & Hl) Hi. unfold get_markword. rewrite Hb. simpl.
  apply lookup_lt_is_Some. lia.
Qed.

Lemma set_markword_Some b i w st :
  get_markword b i st = Some w -> forall w',
  exists st', set_markword b i w' st = Some st'.
Proof.
  unfold get_markword, set_markword.
  destruct (blocks st !! b) as [blk|]; [|done]. simpl.
  intros -> w'. simpl. eauto.
Qed.

Lemma mark_bit_set_markword b i w st st' :
  set_markword b i w st = Some st' -> 0 <= i ->
  forall b' n, 0 <= n ->
    mark_bit pf st' b' n
    = if (b' =? b) && (n ÷ BPW =? i) then Z.testbit w (Z.rem n BPW)
      else mark_bit pf st b' n.
Proof.
  unfold set_markword. destruct (blocks st !! b) as [blk|] eqn:Eb; [|done].
  simpl. destruct (gcmarkbits blk !! Z.to_nat i) eqn:Ei; [|done]. simpl.
  intros [= <-] Hi b' n Hn. unfold mark_bit, get_markword. simpl.
  assert (Hq : 0 <= n ÷ BPW).
  { destruct (platform_facts pf Hpf) as (_ & ? & _). apply Z.quot_pos; lia. }
  destruct (Z.eqb_spec b' b) as [->|Hne]; simpl.
  - rewrite lookup_insert_eq, Eb. simpl.
    destruct (Z.eqb_spec (n ÷ BPW) i) as [->|Hne].
    + rewrite list_lookup_insert_eq; [done|]. by eapply lookup_lt_Some.
    + rewrite list_lookup_insert_ne; [done|]. lia.
  - by rewrite lookup_insert_ne.
Qed.

Lemma marks_changed_get_cons b st st' p :
  marks_changed b st st' -> get_cons pf p st' = get_cons pf p st.
Proof.
  intros (blk & ws & Hb & _ & ->). unfold get_cons. simpl.
  destruct (decide (CONS_BLOCK p = b)) as [->|Hne].
  - by rewrite lookup_insert_eq, Hb.
  - by rewrite lookup_insert_ne.
Qed.

Lemma marks_changed_shape b st st' b' :
  marks_changed b st st' ->
  block_shape pf (blocks st) b' -> block_shape pf (blocks st') b'.
Proof.
  intros (blk & ws & Hb & Hl & ->) (Ha & blk' & Hb' & Hc & Hm). split; [done|].
  simpl. destruct (decide (b' = b)) as [->|Hne].
  - rewrite lookup_insert_eq. eexists. split; [done|]. simpl.
    rewrite Hb in Hb'. injection Hb' as <-. split; congruence.
  - rewrite lookup_insert_ne by done. eauto.
Qed.

Lemma marks_changed_chain b st st' x bs :
  marks_changed b st st' ->
  chain_from (blocks st) x bs -> chain_from (blocks st') x bs.
Proof.
  intros (blk & ws & Hb & Hl & ->). revert x.
  induction bs as [|b' bs IH]; intros x; simpl; [done|].
  intros (-> & Hne & blk' & Hb' & Hc). split_and!; try done.
  destruct (decide (b' = b)) as [->|Hne'].
  - rewrite lookup_insert_eq. eexists. split; [done|]. simpl.
    rewrite Hb in Hb'. injection Hb' as <-. auto.
  - rewrite lookup_insert_ne by done. eauto.
Qed.

Lemma marks_changed_fields b st st' :
  marks_changed b st st' ->
  cons_block st' = cons_block st
  /\ cons_block_index st' = cons_block_index st
  /\ cons_free_list st' = cons_free_list st
  /\ mark_stk st' = mark_stk st
  /\ bytes_since_gc st' = bytes_since_gc st
  /\ cons_cells_consed st' = cons_cells_consed st
  /\ dom (blocks st') = dom (blocks st).
Proof.
  clear Hpf. intros (blk & ws & Hb & Hl & ->). simpl. split_and!; try done.
  rewrite dom_insert_L. apply elem_of_dom_2 in Hb. set_solver.
Qed.

(** *** Setting and clearing one mark bit *)

Lemma index_facts n :
  0 <= n < NCONS ->
  0 <= n ÷ BPW <= NCONS ÷ BPW /\ 0 <= Z.rem n BPW < BPW.
Proof.
  intros Hn. destruct (platform_facts pf Hpf) as (_ & Hb & _).
  split.
  - split; [apply Z.quot_pos; lia|]. apply Z.quot_le_mono; lia.
  - apply Z.rem_bound_pos; lia.
Qed.

Lemma same_word_bit n m :
  0 <= n -> 0 <= m ->
  (n ÷ BPW =? m ÷ BPW) && (Z.rem n BPW =? Z.rem m BPW) = (n =? m).
Proof.
  intros Hn Hm. destruct (platform_facts pf Hpf) as (_ & Hb & _).
  destruct (Z.eqb_spec n m) as [->|Hne].
  - by rewrite !Z.eqb_refl.
  - apply andb_false_iff.
    destruct (Z.eqb_spec (n ÷ BPW) (m ÷ BPW)) as [Hq|]; [|by left].
    destruct (Z.eqb_spec (Z.rem n BPW) (Z.rem m BPW)) as [Hr|]; [|by right].
    destruct Hne. by apply (quot_rem_unique n m BPW).
Qed.

Lemma GETMARKBIT_spec b n st :
  block_shape pf (blocks st) b -> 0 <= n < NCONS ->
  GETMARKBIT pf b n st = Some (mark_bit pf st b n).
Proof.
  intros Hs Hn. destruct (index_facts n Hn) as [Hq Hr].
  destruct (get_markword_Some b _ st Hs Hq) as [w Hw].
  unfold GETMARKBIT, mark_bit. rewrite Hw. simpl.
  by rewrite land_one_shiftr by lia.
Qed.

Lemma SETMARKBIT_spec b n st :
  block_shape pf (blocks st) b -> 0 <= n < NCONS ->
  exists st',
    SETMARKBIT pf b n st = Some st' /\ marks_changed b st st'
    /\ forall b' m, 0 <= m ->
         mark_bit pf st' b' m = mark_bit pf st b' m || ((b' =? b) && (m =? n)).
Proof.
  intros Hs Hn. destruct (index_facts n Hn) as [Hq Hr].
  destruct (get_markword_Some b _ st Hs Hq) as [w Hw].
  unfold SETMARKBIT. rewrite Hw. simpl.
  destruct (set_markword_Some _ _ _ _ Hw
              (Z.lor w (Z.shiftl 1 (Z.rem n BPW)))) as [st' Hst'].
  exists st'. split; [done|]. split; [by eapply set_markword_changed|].
  intros b' m Hm. rewrite (mark_bit_set_markword _ _ _ _ _ Hst') by lia.
  destruct (Z.eqb_spec b' b) as [->|]; simpl; [|by rewrite orb_false_r].
  destruct (Z.eqb_spec (m ÷ BPW) (n ÷ BPW)) as [Hqe|Hqne].
  - destruct (platform_facts pf Hpf) as (_ & Hb & _).
    rewrite testbit_set by (try apply Z.rem_bound_pos; lia).
    unfold mark_bit. rewrite Hqe, Hw. f_equal.
    rewrite <- (same_word_bit m n) by lia. rewrite Hqe, Z.eqb_refl. done.
  - rewrite <- (same_word_bit m n) by lia.
    destruct (Z.eqb_spec (m ÷ BPW) (n ÷ BPW)); [done|]. simpl.
    by rewrite orb_false_r.
Qed.

Lemma UNSETMARKBIT_spec b n st :
  block_shape pf (blocks st) b -> 0 <= n < NCONS ->
  exists st',
    UNSETMARKBIT pf b n st = Some st' /\ marks_changed b st st'
    /\ forall b' m, 0 <= m ->
         mark_bit pf st' b' m
         = mark_bit pf st b' m && negb ((b' =? b) && (m =? n)).
Proof.
  intros Hs Hn. destruct (index_facts n Hn) as [Hq Hr].
  destruct (get_markword_Some b _ st Hs Hq) as [w Hw].
  unfold UNSETMARKBIT. rewrite Hw. simpl.
  destruct (set_markword_Some _ _ _ _ Hw
              (Z.land w (Z.lnot (Z.shiftl 1 (Z.rem n BPW))))) as [st' Hst'].
  exists st'. split; [done|]. split; [by eapply set_markword_changed|].
  intros b' m Hm. rewrite (mark_bit_set_markword _ _ _ _ _ Hst') by lia.
  destruct (Z.eqb_spec b' b) as [->|]; simpl; [|by rewrite andb_true_r].
  destruct (Z.eqb_spec (m ÷ BPW) (n ÷ BPW)) as [Hqe|Hqne].
  - destruct (platform_facts pf Hpf) as (_ & Hb & _).
    rewrite testbit_unset by (try apply Z.rem_bound_pos; lia).
    unfold mark_bit. rewrite Hqe, Hw. f_equal.
    rewrite <- (same_word_bit m n) by lia. rewrite Hqe, Z.eqb_refl. done.
  - rewrite <- (same_word_bit m n) by lia.
    destruct (Z.eqb_spec (m ÷ BPW) (n ÷ BPW)); [done|]. simpl.
    by rewrite andb_true_r.
Qed.

End platform.

(** *** Counting mark bits *)

Lemma filter_length_flip {A} (f g : A -> bool) (l : list A) (x : A) :
  NoDup l -> x ∈ l -> f x = false -> g x = true ->
  (forall y, y ∈ l -> y <> x -> g y = f y) ->
  length (List.filter g l) = S (length (List.filter f l)).
Proof.
  intros Hnd Hx Hf Hg Hext.
  induction l as [|a l IH]; [by apply elem_of_nil in Hx|].
  apply NoDup_cons in Hnd as [Ha Hnd]. simpl.
  apply elem_of_cons in Hx as [<-|Hx].
  - rewrite Hf, Hg. simpl. f_equal. f_equal.
    apply List.filter_ext_in. intros y Hy%list_elem_of_In.
    apply Hext; [by right|]. intros ->. done.
  - rewrite (Hext a) by (first [by left | intros ->; done]).
    assert (IH' : length (List.filter g l) = S (length (List.filter f l))).
    { apply IH; try done. intros y Hy. apply Hext. by right. }
    destruct (f a); simpl; rewrite IH'; done.
Qed.

Section platform.
Context (pf : platform).
Context (Hpf : platform_ok pf = true).

Local Abbreviation BPW := (BITS_PER_BITS_WORD pf).
Local Abbreviation NCONS := (BLOCK_NCONS pf).

Lemma block_marks_ext st st' b l :
  (forall m, 0 <= m -> mark_bit pf st' b m = mark_bit pf st b m) ->
  block_marks pf st' b l = block_marks pf st b l.
Proof.
  intros H. unfold block_marks. f_equal. f_equal.
  apply List.filter_ext_in. intros m Hm%list_elem_of_In%elem_of_seqZ.
  apply H. lia.
Qed.

Lemma chain_marks_ext st st' bs : forall l,
  (forall b m, b ∈ bs -> 0 <= m -> mark_bit pf st' b m = mark_bit pf st b m) ->
  chain_marks pf st' l bs = chain_marks pf st l bs.
Proof.
  induction bs as [|b bs IH]; intros l H; simpl; [done|].
  rewrite IH by (intros; apply H; [by right|done]).
  rewrite (block_marks_ext st st') by (intros; apply H; [by left|done]).
  done.
Qed.

Lemma block_marks_set st st' b n l :
  (forall m, 0 <= m -> mark_bit pf st' b m = mark_bit pf st b m || (m =? n)) ->
  mark_bit pf st b n = false -> 0 <= n < l ->
  block_marks pf st' b l = block_marks pf st b l + 1.
Proof.
  intros H Hn Hl. unfold block_marks.
  rewrite (filter_length_flip (mark_bit pf st b) (mark_bit pf st' b) _ n).
  - lia.
  - apply NoDup_seqZ.
  - apply elem_of_seqZ. lia.
  - done.
  - rewrite H by lia. rewrite Z.eqb_refl. by rewrite orb_true_r.
  - intros y Hy%elem_of_seqZ Hne. rewrite H by lia.
    destruct (Z.eqb_spec y n); [done|]. by rewrite orb_false_r.
Qed.

Lemma chain_marks_set st st' b n bs : forall l,
  (forall b' m, 0 <= m ->
     mark_bit pf st' b' m = mark_bit pf st b' m || ((b' =? b) && (m =? n))) ->
  mark_bit pf st b n = false -> NoDup bs -> b ∈ bs -> 0 <= n < NCONS ->
  (head bs = Some b -> n < l) ->
  chain_marks pf st' l bs = chain_marks pf st l bs + 1.
Proof.
  induction bs as [|b0 bs IH]; intros l H Hn Hnd Hb Hlt Hl.
  { by apply elem_of_nil in Hb. }
  apply NoDup_cons in Hnd as [Hb0 Hnd]. simpl.
  destruct (decide (b0 = b)) as [->|Hne].
  - rewrite (block_marks_set st st' b n).
    + rewrite (chain_marks_ext st st'); [lia|].
      intros b' m Hb' Hm. rewrite H by done.
      destruct (Z.eqb_spec b' b) as [->|]; [done|]. by rewrite orb_false_r.
    + intros m Hm. rewrite H by done. by rewrite Z.eqb_refl.
    + done.
    + split; [lia|]. by apply Hl.
  - apply elem_of_cons in Hb as [->|Hb]; [done|].
    rewrite (block_marks_ext st st').
    + rewrite IH; try done; lia.
    + intros m Hm. rewrite H by done.
      destruct (Z.eqb_spec b0 b); [done|]. by rewrite orb_false_r.
Qed.

Lemma marks_changed_block_chain b st st' fuel : forall x,
  marks_changed b st st' -> block_chain fuel x st' = block_chain fuel x st.
Proof.
  induction fuel as [|fuel IH]; intros x Hc; simpl; [done|].
  destruct (x =? 0); [done|].
  destruct Hc as (blk & ws & Hb & Hl & ->). simpl.
  destruct (decide (x = b)) as [->|Hne].
  - rewrite lookup_insert_eq, Hb. simpl.
    rewrite (IH (next blk)); [done|]. by exists blk, ws.
  - rewrite lookup_insert_ne by done.
    destruct (blocks st !! x) as [blk'|]; [|done]. simpl.
    rewrite (IH (next blk')); [done|]. by exists blk, ws.
Qed.

Lemma block_chain_head fuel x st b bs :
  block_chain fuel x st = Some (b :: bs) -> b = x /\ x <> 0.
Proof.
  destruct fuel; simpl; [done|].
  destruct (Z.eqb_spec x 0); [done|].
  destruct (blocks st !! x); [|done]. simpl.
  destruct (block_chain fuel _ st); [|done]. simpl. by intros [= -> _].
Qed.

Lemma block_chain_chain_from fuel st : forall x bs,
  block_chain fuel x st = Some bs -> chain_from (blocks st) x bs.
Proof.
  induction fuel as [|fuel IH]; intros x bs; simpl; [done|].
  destruct (Z.eqb_spec x 0) as [->|Hx]; [by intros [= <-]|].
  destruct (blocks st !! x) as [blk|] eqn:Eb; [|done]. simpl.
  destruct (block_chain fuel (next blk) st) as [bs'|] eqn:Ec; [|done].
  simpl. intros [= <-]. simpl. split_and!; try done. eauto.
Qed.

(** *** Setting the mark of a cell *)

Lemma marked_from_refl st : marked_from pf st [] st.
Proof.
  split; try done.
  - intros b n _. simpl. by rewrite orb_false_r.
  - simpl. lia.
Qed.

Lemma block_chain_blocks fuel st st' : forall x,
  blocks st' = blocks st -> block_chain fuel x st' = block_chain fuel x st.
Proof.
  induction fuel as [|fuel IH]; intros x Hb; simpl; [done|].
  rewrite Hb. destruct (x =? 0); [done|].
  destruct (blocks st !! x) as [blk|]; [|done]. simpl. by rewrite IH.
Qed.

Lemma heap_blocks_eq st st' :
  (forall fuel x, block_chain fuel x st' = block_chain fuel x st) ->
  size (blocks st') = size (blocks st) -> cons_block st' = cons_block st ->
  heap_blocks st' = heap_blocks st.
Proof. intros H Hs Hc. unfold heap_blocks. by rewrite Hs, Hc, H. Qed.

Lemma marked_from_mark_stk st ps st' l :
  marked_from pf st ps st' -> marked_from pf st ps (with_mark_stk l st').
Proof.
  intros [H1 H2 H3 H4 H5 H6 H7 H8].
  split; [exact H1|exact H2| |exact H4|exact H5|exact H6|exact H7|].
  - intros fuel x. rewrite <- H3. by apply block_chain_blocks.
  - rewrite <- H8. unfold count_marks.
    rewrite (heap_blocks_eq (with_mark_stk l st') st'); try done.
    + by apply chain_marks_ext.
    + intros. by apply block_chain_blocks.
Qed.

Lemma nodupb_NoDup l : nodupb l = true -> NoDup l.
Proof.
  induction l as [|x l IH]; simpl; [constructor|].
  intros [Hx Hl]%andb_true_iff. constructor; [|auto].
  intros Hin. rewrite forallb_forall in Hx.
  apply list_elem_of_In in Hin. specialize (Hx _ Hin).
  by rewrite Z.eqb_refl in Hx.
Qed.

End platform.

Section platform.
Context (pf : platform) (PURE_P : Z -> bool).
Context (Hpf : platform_ok pf = true).

Local Abbreviation BPW := (BITS_PER_BITS_WORD pf).
Local Abbreviation NCONS := (BLOCK_NCONS pf).

(** *** What [wf] and [is_cycle] give *)

Lemma block_ok_elim st b :
  block_ok pf st b = true ->
  0 < b /\ block_shape pf (blocks st) b /\ forall n, mark_bit pf st b n = false.
Proof.
  unfold block_ok. rewrite !andb_true_iff, Z.ltb_lt, Z.eqb_eq.
  intros [[Hb Ha] Hblk]. destruct (blocks st !! b) as [blk|] eqn:Eb; [|done].
  rewrite !andb_true_iff, !Nat.eqb_eq in Hblk. destruct Hblk as [[Hc Hm] Hz].
  split; [done|]. split.
  - split; [done|]. exists blk. done.
  - intros n. unfold mark_bit, get_markword. rewrite Eb. simpl.
    destruct (gcmarkbits blk !! _) as [w|] eqn:Ew; [|done].
    rewrite forallb_forall in Hz.
    apply list_elem_of_lookup_2, list_elem_of_In, Hz, Z.eqb_eq in Ew.
    subst w. apply Z.testbit_0_l.
Qed.

Lemma wf_elim st :
  wf pf st = true ->
  block_chain (S (size (blocks st))) (cons_block st) st = Some (heap_blocks st)
  /\ NoDup (heap_blocks st)
  /\ (forall b, b ∈ heap_blocks st ->
        0 < b /\ block_shape pf (blocks st) b
        /\ forall n, mark_bit pf st b n = false)
  /\ 0 <= cons_block_index st <= NCONS
  /\ mark_stk st = [].
Proof.
  unfold wf, heap_blocks. rewrite !andb_true_iff, !Z.leb_le.
  destruct (block_chain _ _ st) as [bs|]; [|by intros [[[[=] _] _] _]].
  rewrite andb_true_iff.
  intros [[[[Hnd Hok] ?] ?] Hstk]. split_and!; try done.
  - by apply nodupb_NoDup.
  - intros b Hb. apply block_ok_elim. rewrite forallb_forall in Hok.
    apply Hok. by apply list_elem_of_In.
  - by destruct (mark_stk st).
Qed.

Lemma valid_cons_elim st p :
  valid_cons pf st p = true ->
  p = cons_addr pf (CONS_BLOCK p) (CONS_INDEX pf p)
  /\ CONS_BLOCK p ∈ heap_blocks st
  /\ 0 <= CONS_INDEX pf p < lim_of pf st (CONS_BLOCK p).
Proof.
  unfold valid_cons. rewrite !andb_true_iff, Z.eqb_eq, Z.leb_le, Z.ltb_lt.
  intros [[[He Hex] ?] ?]. split_and!; try done.
  apply existsb_exists in Hex as (b & Hb & ->%Z.eqb_eq).
  by apply list_elem_of_In.
Qed.

Lemma is_cycle_elim st cyc :
  is_cycle pf PURE_P st cyc = true ->
  NoDup cyc /\ (0 < length cyc)%nat
  /\ forall k, (k < length cyc)%nat ->
       exists p q a,
         cyc !! k = Some p /\ cyc !! ((k + 1) mod length cyc)%nat = Some q
         /\ valid_cons pf st p = true /\ PURE_P p = false
         /\ get_cons pf p st = Some {| car := a; u := Cdr (Lisp_Cons q) |}.
Proof.
  unfold is_cycle. rewrite !andb_true_iff. intros [[Hnd Hne] Hall].
  split; [by apply nodupb_NoDup|]. split; [destruct cyc; [done|simpl; lia]|].
  intros k Hk. rewrite forallb_forall in Hall.
  specialize (Hall k). rewrite in_seq in Hall.
  specialize (Hall ltac:(lia)).
  destruct (cyc !! k) as [p|]; [|done].
  destruct (cyc !! _) as [q|]; [|done].
  rewrite !andb_true_iff, negb_true_iff in Hall.
  destruct Hall as [[Hv Hp] Hc].
  destruct (get_cons pf p st) as [[a []]|] eqn:Eg; try done.
  destruct cdr; try done. apply Z.eqb_eq in Hc as ->.
  exists p, q, a. done.
Qed.

Lemma lim_of_le st b :
  0 <= cons_block_index st <= NCONS -> lim_of pf st b <= NCONS.
Proof. unfold lim_of. destruct (b =? cons_block st); lia. Qed.

Lemma at_cons_unique b n p :
  p = cons_addr pf (CONS_BLOCK p) (CONS_INDEX pf p) ->
  at_cons pf b n p = true -> p = cons_addr pf b n.
Proof.
  unfold at_cons. rewrite andb_true_iff, !Z.eqb_eq. intros Hp [<- <-]. done.
Qed.

Lemma marked_from_step st ps st1 p :
  wf pf st = true -> marked_from pf st ps st1 ->
  valid_cons pf st p = true -> p ∉ ps ->
  (forall p', p' ∈ ps -> valid_cons pf st p' = true) ->
  cons_marked_p pf p st1 = Some false
  /\ exists st2,
       set_cons_marked pf p st1 = Some st2
       /\ marked_from pf st (ps ++ [p]) st2
       /\ mark_stk st2 = mark_stk st1.
Proof.
  intros Hwf Hm Hv Hp Hps.
  destruct (wf_elim st Hwf) as (Hch & Hnd & Hbs & Hidx & _).
  destruct (valid_cons_elim st p Hv) as (Hpa & Hb & Hn).
  destruct (Hbs _ Hb) as (Hb0 & Hsh & Hnm).
  pose proof (lim_of_le st (CONS_BLOCK p) Hidx) as Hlim.
  assert (Hn' : 0 <= CONS_INDEX pf p < NCONS) by lia.
  assert (Hsh1 := mf_shape _ _ _ _ Hm _ Hsh).
  assert (Hfalse : mark_bit pf st1 (CONS_BLOCK p) (CONS_INDEX pf p) = false).
  { rewrite (mf_marks _ _ _ _ Hm) by lia. rewrite Hnm. simpl.
    apply not_true_is_false. intros (p' & Hp' & Hat)%existsb_exists.
    apply list_elem_of_In in Hp'.
    destruct (valid_cons_elim st p' (Hps _ Hp')) as (Hpa' & _).
    apply (at_cons_unique _ _ _ Hpa') in Hat. congruence. }
  split.
  { unfold cons_marked_p, XCONS_MARKED_P.
    rewrite (GETMARKBIT_spec pf Hpf) by done. by rewrite Hfalse. }
  destruct (SETMARKBIT_spec pf Hpf _ _ st1 Hsh1 Hn') as (st2 & Hset & Hmc & Hbits).
  exists st2. split; [done|].
  destruct (marks_changed_fields _ _ _ Hmc) as (F1 & F2 & F3 & F4 & F5 & F6 & F7).
  assert (Hsize : size (blocks st2) = size (blocks st1)).
  { by rewrite <- !size_dom, F7. }
  split; [|done]. split.
  - intros q. rewrite (marks_changed_get_cons pf _ _ _ q Hmc).
    apply (mf_cells _ _ _ _ Hm).
  - intros b Hs. eapply marks_changed_shape; [done|].
    by apply (mf_shape _ _ _ _ Hm).
  - intros fuel x. rewrite (marks_changed_block_chain _ _ _ _ _ Hmc).
    apply (mf_chain _ _ _ _ Hm).
  - rewrite Hsize. apply (mf_size _ _ _ _ Hm).
  - rewrite F1. apply (mf_block _ _ _ _ Hm).
  - rewrite F2. apply (mf_index _ _ _ _ Hm).
  - intros b n Hn0. rewrite Hbits by done.
    rewrite (mf_marks _ _ _ _ Hm) by done.
    rewrite existsb_app. simpl. rewrite orb_false_r, <- orb_assoc.
    f_equal. f_equal. unfold at_cons.
    by rewrite (Z.eqb_sym b), (Z.eqb_sym n).
  - rewrite length_app. simpl. rewrite Nat2Z.inj_add.
    rewrite Z.add_assoc, <- (mf_count _ _ _ _ Hm).
    unfold count_marks. rewrite F2.
    assert (Hhb1 : heap_blocks st1 = heap_blocks st).
    { apply heap_blocks_eq; apply Hm. }
    assert (Hhb2 : heap_blocks st2 = heap_blocks st1).
    { apply heap_blocks_eq; [|done|done].
      intros. by eapply marks_changed_block_chain. }
    rewrite Hhb2, Hhb1.
    apply (chain_marks_set pf st1 st2 (CONS_BLOCK p) (CONS_INDEX pf p));
      try done.
    intros Hhd. rewrite (mf_index _ _ _ _ Hm).
    destruct (heap_blocks st) as [|b0 bs] eqn:Ebs; [done|].
    injection Hhd as ->.
    destruct (block_chain_head _ _ _ _ _ Hch) as [Hc _].
    unfold lim_of in Hn. rewrite Hc, Z.eqb_refl in Hn. lia.
Qed.

Lemma marked_cons_marked_p st ps st1 p :
  wf pf st = true -> marked_from pf st ps st1 ->
  valid_cons pf st p = true -> p ∈ ps ->
  cons_marked_p pf p st1 = Some true.
Proof.
  intros Hwf Hm Hv Hp.
  destruct (wf_elim st Hwf) as (Hch & Hnd & Hbs & Hidx & _).
  destruct (valid_cons_elim st p Hv) as (Hpa & Hb & Hn).
  destruct (Hbs _ Hb) as (Hb0 & Hsh & Hnm).
  pose proof (lim_of_le st (CONS_BLOCK p) Hidx) as Hlim.
  unfold cons_marked_p, XCONS_MARKED_P.
  rewrite (GETMARKBIT_spec pf Hpf); [|by apply (mf_shape _ _ _ _ Hm)|lia].
  rewrite (mf_marks _ _ _ _ Hm) by lia. f_equal.
  apply orb_true_iff. right. apply existsb_exists. exists p.
  split; [by apply list_elem_of_In|]. unfold at_cons. by rewrite !Z.eqb_refl.
Qed.

End platform.

Section platform.
Context (pf : platform).
Context (Hpf : platform_ok pf = true).

Local Abbreviation BPW := (BITS_PER_BITS_WORD pf).
Local Abbreviation NCONS := (BLOCK_NCONS pf).

(** *** Sweeping the cells of a block *)

Lemma range_marks_nil st b lo : range_marks pf st b lo lo = 0.
Proof. unfold range_marks. by rewrite Z.sub_diag. Qed.

Lemma range_marks_app st b lo mid hi :
  lo <= mid <= hi ->
  range_marks pf st b lo hi
  = range_marks pf st b lo mid + range_marks pf st b mid hi.
Proof.
  intros H. unfold range_marks.
  replace (hi - lo) with ((mid - lo) + (hi - mid)) by lia.
  rewrite seqZ_app by lia. rewrite List.filter_app, length_app.
  replace (lo + (mid - lo)) with mid by lia. lia.
Qed.

Lemma range_marks_ext st st' b lo hi :
  (forall n, lo <= n < hi -> mark_bit pf st' b n = mark_bit pf st b n) ->
  range_marks pf st' b lo hi = range_marks pf st b lo hi.
Proof.
  intros H. unfold range_marks. f_equal. f_equal.
  apply List.filter_ext_in. intros n Hn%list_elem_of_In%elem_of_seqZ.
  apply H. lia.
Qed.

Lemma range_marks_bound st b lo hi :
  lo <= hi -> 0 <= range_marks pf st b lo hi <= hi - lo.
Proof.
  intros H. unfold range_marks. split; [lia|].
  pose proof (List.filter_length_le (mark_bit pf st b) (seqZ lo (hi - lo))) as Hl.
  rewrite length_seqZ in Hl. lia.
Qed.

Lemma range_marks_one st b n :
  range_marks pf st b n (n + 1) = if mark_bit pf st b n then 1 else 0.
Proof.
  unfold range_marks. replace (n + 1 - n) with 1 by lia.
  change (seqZ n 1) with [0 + n]. simpl. rewrite Z.add_0_l.
  by destruct (mark_bit pf st b n).
Qed.

Lemma swept_refl cblk lo a :
  block_shape pf (blocks a.2) cblk -> swept pf cblk lo lo a a.
Proof.
  intros Hs. split; try done.
  - intros. eauto. congruence.
  - intros n _ Hn. lia.
  - intros n Hn. destruct (Z.leb_spec lo n), (Z.ltb_spec n lo); try lia;
      simpl; by rewrite andb_true_r.
  - rewrite range_marks_nil. lia.
  - rewrite range_marks_nil. lia.
Qed.

Lemma swept_mark_other cblk lo hi a a' b n :
  swept pf cblk lo hi a a' -> b <> cblk ->
  mark_bit pf a'.2 b n = mark_bit pf a.2 b n.
Proof.
  intros Hs Hb. unfold mark_bit, get_markword.
  by rewrite (sw_other _ _ _ _ _ _ Hs b Hb).
Qed.

Lemma swept_trans cblk lo mid hi a a1 a2 :
  0 <= lo <= mid -> mid <= hi ->
  swept pf cblk lo mid a a1 -> swept pf cblk mid hi a1 a2 ->
  swept pf cblk lo hi a a2.
Proof.
  intros Hr Hr' H1 H2.
  assert (Hm1 : forall n, mid <= n < hi ->
            mark_bit pf a1.2 cblk n = mark_bit pf a.2 cblk n).
  { intros n Hn. rewrite (sw_marks _ _ _ _ _ _ H1) by lia.
    destruct (Z.leb_spec lo n), (Z.ltb_spec n mid); try lia;
      simpl; by rewrite andb_true_r. }
  assert (Hrm : range_marks pf a1.2 cblk mid hi = range_marks pf a.2 cblk mid hi).
  { by apply range_marks_ext. }
  split.
  - intros b Hb. rewrite (sw_other _ _ _ _ _ _ H2) by done.
    by apply (sw_other _ _ _ _ _ _ H1).
  - apply H2.
  - intros blk blk2 Hb Hb2.
    destruct (sw_shape _ _ _ _ _ _ H1) as (_ & blk1 & Hb1 & _).
    rewrite (sw_next _ _ _ _ _ _ H2 _ _ Hb1 Hb2).
    by apply (sw_next _ _ _ _ _ _ H1).
  - intros n Hn Hc.
    destruct (decide (n < mid \/ hi <= n \/ mark_bit pf a1.2 cblk n = true))
      as [Hc2|Hc2].
    + rewrite (sw_kept _ _ _ _ _ _ H2) by done.
      destruct (decide (n < lo \/ mid <= n \/ mark_bit pf a.2 cblk n = true))
        as [Hc1|Hc1]; [by apply (sw_kept _ _ _ _ _ _ H1)|].
      destruct Hc as [|[|Hc]]; [lia|lia|]. tauto.
    + assert (mid <= n < hi) as Hn2 by lia. rewrite Hm1 in Hc2 by done.
      destruct Hc as [|[|Hc]]; [lia|lia|]. tauto.
  - intros n Hn Hlh Hf. destruct (Z_lt_ge_dec n mid) as [Hlt|Hge].
    + destruct (sw_freed _ _ _ _ _ _ H1 n) as [c Hc]; [lia|lia|done|].
      exists c. rewrite (sw_kept _ _ _ _ _ _ H2); [done|lia|lia].
    + apply (sw_freed _ _ _ _ _ _ H2); [lia|lia|]. by rewrite Hm1 by lia.
  - intros n Hn. rewrite (sw_marks _ _ _ _ _ _ H2), (sw_marks _ _ _ _ _ _ H1) by done.
    rewrite <- andb_assoc. f_equal.
    destruct (Z.leb_spec lo n), (Z.ltb_spec n mid), (Z.leb_spec mid n),
      (Z.ltb_spec n hi); simpl; try done; lia.
  - rewrite (sw_used _ _ _ _ _ _ H2), (sw_used _ _ _ _ _ _ H1), Hrm.
    rewrite (range_marks_app _ _ lo mid hi) by lia. lia.
  - rewrite (sw_free _ _ _ _ _ _ H2), (sw_free _ _ _ _ _ _ H1), Hrm.
    rewrite (range_marks_app _ _ lo mid hi) by lia. lia.
  - rewrite (sw_lim _ _ _ _ _ _ H2). apply H1.
  - rewrite (sw_num_free _ _ _ _ _ _ H2). apply H1.
  - rewrite (sw_block _ _ _ _ _ _ H2). apply H1.
  - rewrite (sw_index _ _ _ _ _ _ H2). apply H1.
  - rewrite (sw_dom _ _ _ _ _ _ H2). apply H1.
Qed.

Lemma get_cons_addr b n st blk :
  Z.land b (BLOCK_ALIGN - 1) = 0 -> 0 <= n < NCONS ->
  blocks st !! b = Some blk ->
  get_cons pf (cons_addr pf b n) st = conses blk !! Z.to_nat n.
Proof.
  intros Ha Hn Hb. unfold get_cons.
  destruct (cons_addr_block pf Hpf b n Ha Hn) as [-> ->]. by rewrite Hb.
Qed.

Lemma mark_bit_blocks st st' b n :
  blocks st' !! b = blocks st !! b -> mark_bit pf st' b n = mark_bit pf st b n.
Proof. intros H. unfold mark_bit, get_markword. by rewrite H. Qed.

Lemma sweep_pos_swept cblk pos a :
  block_shape pf (blocks a.2) cblk -> 0 <= pos < NCONS ->
  exists a', sweep_pos pf cblk pos a = Some a'
             /\ swept pf cblk pos (pos + 1) a a'.
Proof.
  destruct a as [v st]. cbn [snd fst]. intros Hs Hpos.
  pose proof Hs as (Ha & blk & Hb & Hlc & Hlm).
  destruct (cons_addr_block pf Hpf cblk pos Ha Hpos) as [Hcb Hci].
  unfold sweep_pos, XCONS_MARKED_P, XUNMARK_CONS. rewrite Hcb, Hci.
  rewrite (GETMARKBIT_spec pf Hpf) by done. cbn [mbind option_bind].
  destruct (mark_bit pf st cblk pos) eqn:Em; cbn [negb].
  - destruct (UNSETMARKBIT_spec pf Hpf cblk pos st Hs Hpos)
      as (st' & -> & Hmc & Hbits).
    cbn [mbind option_bind]. eexists. split; [done|].
    destruct (marks_changed_fields _ _ _ Hmc) as (F1 & F2 & F3 & F4 & F5 & F6 & F7).
    pose proof Hmc as (blk0 & ws & Hb0 & Hws & Est).
    split; cbn [fst snd num_used this_free lim num_free]; try done.
    + intros b Hne. rewrite Est. simpl. by rewrite lookup_insert_ne.
    + by eapply marks_changed_shape.
    + intros blk1 blk2 Hb1. rewrite Est. simpl. rewrite lookup_insert_eq.
      intros [= <-]. simpl. congruence.
    + intros. by eapply marks_changed_get_cons.
    + intros n Hn Hr Hf. assert (n = pos) by lia. congruence.
    + intros n Hn. rewrite Hbits by done. rewrite Z.eqb_refl. simpl.
      f_equal. f_equal.
      destruct (Z.eqb_spec n pos), (Z.leb_spec pos n), (Z.ltb_spec n (pos + 1));
        simpl; try done; lia.
    + rewrite range_marks_one, Em. done.
    + rewrite range_marks_one, Em. lia.
  - unfold set_cons. rewrite Hcb, Hci, Hb. cbn [mbind option_bind].
    destruct (lookup_lt_is_Some_2 (conses blk) (Z.to_nat pos)) as [c0 Hc0]; [lia|].
    rewrite Hc0. cbn [mbind option_bind]. eexists. split; [done|].
    match goal with |- swept _ _ _ _ _ (_, ?s) => set (st' := s) end.
    assert (Hb' : blocks st' !! cblk
                  = Some {| conses := <[Z.to_nat pos :=
                                          {| car := dead_object pf;
                                             u := Chain (cons_free_list st) |}]>
                                        (conses blk);
                            gcmarkbits := gcmarkbits blk; next := next blk |}).
    { apply lookup_insert_eq. }
    assert (Ho : forall b, b <> cblk -> blocks st' !! b = blocks st !! b).
    { intros b Hne. simpl. by rewrite lookup_insert_ne. }
    assert (Hmb : forall n, mark_bit pf st' cblk n = mark_bit pf st cblk n).
    { intros n. unfold mark_bit, get_markword. by rewrite Hb', Hb. }
    split; cbn [fst snd num_used this_free lim num_free]; try done.
    + split; [done|]. eexists. split; [done|].
      simpl. by rewrite length_insert.
    + intros blk1 blk2 Hb1. rewrite Hb'. intros [= <-].
      simpl. congruence.
    + intros n Hn Hc.
      rewrite (get_cons_addr cblk n st' _ Ha Hn Hb').
      rewrite (get_cons_addr cblk n st _ Ha Hn Hb). simpl.
      apply list_lookup_insert_ne. destruct Hc as [|[|Hc]]; [lia|lia|].
      intros Heq. assert (n = pos) by lia. congruence.
    + intros n Hn Hr Hf. assert (n = pos) as -> by lia.
      rewrite (get_cons_addr cblk pos st' _ Ha Hn Hb').
      simpl. rewrite list_lookup_insert_eq by lia. eauto.
    + intros n Hn. rewrite Hmb.
      destruct (Z.leb_spec pos n), (Z.ltb_spec n (pos + 1)); simpl;
        rewrite ?andb_true_r; try done.
      assert (n = pos) as -> by lia. by rewrite Em.
    + rewrite range_marks_one, Em. lia.
    + rewrite range_marks_one, Em. lia.
    + simpl. rewrite dom_insert_L. apply elem_of_dom_2 in Hb. clear -Hb.
      set_solver.
Qed.

End platform.

Section platform.
Context (pf : platform).
Context (Hpf : platform_ok pf = true).

Local Abbreviation BPW := (BITS_PER_BITS_WORD pf).
Local Abbreviation NCONS := (BLOCK_NCONS pf).

Lemma sweep_pos_loop_swept cblk : forall n start a,
  block_shape pf (blocks a.2) cblk ->
  0 <= start -> start + Z.of_nat n <= NCONS ->
  exists a', sweep_pos_loop pf n cblk start a = Some a'
             /\ swept pf cblk start (start + Z.of_nat n) a a'.
Proof.
  induction n as [|n IH]; intros start a Hs H0 Hn.
  - exists a. split; [done|]. rewrite Z.add_0_r. by apply swept_refl.
  - destruct (sweep_pos_swept pf Hpf cblk start a Hs) as (a1 & E1 & S1); [lia|].
    destruct (IH (start + 1) a1) as (a2 & E2 & S2); [apply S1|lia|lia|].
    exists a2. cbn [sweep_pos_loop]. rewrite E1. cbn [mbind option_bind].
    split; [done|].
    replace (start + Z.of_nat (S n)) with (start + 1 + Z.of_nat n) by lia.
    eapply swept_trans; eauto; lia.
Qed.

Lemma quot_word n i :
  0 <= n -> 0 <= i -> (n ÷ BPW = i <-> i * BPW <= n < (i + 1) * BPW).
Proof.
  intros Hn Hi. destruct (platform_facts pf Hpf) as (_ & Hb & _).
  pose proof (Z.quot_rem' n BPW). pose proof (Z.rem_bound_pos n BPW Hn Hb).
  pose proof (Z.quot_pos n BPW Hn ltac:(lia)). split; [intros <-; lia|].
  intros Hr. nia.
Qed.

Lemma range_marks_all st b lo hi :
  lo <= hi ->
  (forall n, lo <= n < hi -> mark_bit pf st b n = true) ->
  range_marks pf st b lo hi = hi - lo.
Proof.
  intros Hle H. unfold range_marks.
  assert (Hf : List.filter (mark_bit pf st b) (seqZ lo (hi - lo))
               = seqZ lo (hi - lo)).
  { apply forallb_filter_id, forallb_forall.
    intros n Hn%list_elem_of_In%elem_of_seqZ. apply H. lia. }
  rewrite Hf, length_seqZ. lia.
Qed.

Lemma sweep_word_swept cblk i a :
  block_shape pf (blocks a.2) cblk ->
  0 <= i -> i * BPW < lim a.1 <= NCONS ->
  (forall n, lim a.1 <= n -> mark_bit pf a.2 cblk n = false) ->
  exists a', sweep_word pf cblk i a = Some a'
             /\ swept pf cblk (i * BPW) (Z.min (lim a.1) ((i + 1) * BPW)) a a'.
Proof.
  destruct a as [v st]. cbn [fst snd]. intros Hs Hi Hlim Hval.
  destruct (platform_facts pf Hpf) as (_ & Hb & _).
  assert (Hiq : 0 <= i <= NCONS ÷ BPW).
  { split; [done|]. rewrite <- (Z.quot_mul i BPW) by lia.
    apply Z.quot_le_mono; lia. }
  destruct (get_markword_Some pf cblk i st Hs Hiq) as [w Hw].
  unfold sweep_word. rewrite Hw. cbn [mbind option_bind].
  destruct (Z.eqb_spec w (BITS_WORD_MAX pf)) as [->|Hne].
  - assert (Hall : forall n, i * BPW <= n < (i + 1) * BPW ->
              mark_bit pf st cblk n = true).
    { intros n Hn. unfold mark_bit.
      rewrite (proj2 (quot_word n i ltac:(lia) Hi) Hn), Hw.
      apply Z.ones_spec_low. apply Z.rem_bound_pos; lia. }
    assert (Hfull : (i + 1) * BPW <= lim v).
    { destruct (Z_le_gt_dec ((i + 1) * BPW) (lim v)) as [|Hgt]; [done|].
      specialize (Hall (lim v) ltac:(lia)). rewrite Hval in Hall by lia. done. }
    rewrite Z.min_r by lia.
    destruct (set_markword_Some _ _ _ _ Hw 0) as [st' Hst'].
    rewrite Hst'. cbn [mbind option_bind]. eexists. split; [done|].
    pose proof (set_markword_changed _ _ _ _ _ Hst') as Hmc.
    destruct (marks_changed_fields _ _ _ Hmc) as (F1 & F2 & F3 & F4 & F5 & F6 & F7).
    pose proof Hmc as (blk0 & ws & Hb0 & Hws & Est).
    assert (Hrm : range_marks pf st cblk (i * BPW) ((i + 1) * BPW) = BPW).
    { rewrite range_marks_all; [lia|lia|done]. }
    split; cbn [fst snd num_used this_free lim num_free]; try done.
    + intros b Hne'. rewrite Est. simpl. by rewrite lookup_insert_ne.
    + by eapply marks_changed_shape.
    + intros blk1 blk2 Hb1. rewrite Est. simpl. rewrite lookup_insert_eq.
      intros [= <-]. simpl. congruence.
    + intros. by eapply marks_changed_get_cons.
    + intros n Hn Hr Hf. rewrite Hall in Hf by done. done.
    + intros n Hn. rewrite (mark_bit_set_markword pf Hpf _ _ _ _ _ Hst') by done.
      rewrite Z.eqb_refl. cbn [andb].
      destruct (Z.eqb_spec (n ÷ BPW) i) as [Hq|Hq].
      * apply quot_word in Hq; [|done|done]. rewrite Z.testbit_0_l.
        destruct (Z.leb_spec (i * BPW) n), (Z.ltb_spec n ((i + 1) * BPW));
          first [lia | simpl; by rewrite andb_false_r].
      * destruct (Z.leb_spec (i * BPW) n), (Z.ltb_spec n ((i + 1) * BPW));
          simpl; rewrite ?andb_true_r; try done.
        destruct Hq. apply quot_word; [done|done|lia].
    + by rewrite Hrm.
    + rewrite Hrm. lia.
  - set (stop := (if lim v - i * BPW >? BPW then BPW else lim v - i * BPW)).
    assert (Hstop : stop + i * BPW = Z.min (lim v) ((i + 1) * BPW)).
    { unfold stop. destruct (Z.gtb_spec (lim v - i * BPW) BPW); lia. }
    replace (stop + i * BPW - i * BPW) with stop by lia.
    destruct (sweep_pos_loop_swept cblk (Z.to_nat stop) (i * BPW) (v, st))
      as (a' & Ea & Sa); [done|lia|lia|].
    exists a'. split; [done|].
    rewrite Z2Nat.id in Sa by lia. rewrite <- Hstop.
    by replace (stop + i * BPW) with (i * BPW + stop) by lia.
Qed.

Lemma ilim_facts l :
  0 <= l ->
  let ilim := (l + BPW - 1) ÷ BPW in
  0 <= ilim /\ l <= ilim * BPW /\ (ilim - 1) * BPW < l \/ (l = 0 /\ ilim = 0).
Proof.
  intros Hl ilim. destruct (platform_facts pf Hpf) as (_ & Hb & _).
  pose proof (Z.quot_rem' (l + BPW - 1) BPW).
  pose proof (Z.rem_bound_pos (l + BPW - 1) BPW ltac:(lia) Hb).
  pose proof (Z.quot_pos (l + BPW - 1) BPW ltac:(lia) ltac:(lia)).
  fold ilim in H, H1. left. nia.
Qed.

Lemma sweep_word_loop_swept cblk : forall n i a,
  block_shape pf (blocks a.2) cblk ->
  0 <= i -> 0 <= lim a.1 <= NCONS ->
  i + Z.of_nat n = (lim a.1 + BPW - 1) ÷ BPW ->
  (forall m, lim a.1 <= m -> mark_bit pf a.2 cblk m = false) ->
  exists a', sweep_word_loop pf n cblk i a = Some a'
             /\ swept pf cblk (Z.min (lim a.1) (i * BPW)) (lim a.1) a a'.
Proof.
  destruct (platform_facts pf Hpf) as (_ & Hb & _).
  induction n as [|n IH]; intros i a Hs Hi Hlim Hn Hval.
  - exists a. split; [done|].
    destruct (ilim_facts (lim a.1) ltac:(lia)) as [(? & ? & ?)|[? ?]].
    + rewrite Z.min_l by nia. by apply swept_refl.
    + rewrite Z.min_l by nia. by apply swept_refl.
  - assert (Hlt : i * BPW < lim a.1).
    { destruct (ilim_facts (lim a.1) ltac:(lia)) as [(? & ? & ?)|[? ?]]; nia. }
    destruct (sweep_word_swept cblk i a Hs Hi) as (a1 & E1 & S1); [lia|done|].
    destruct (IH (i + 1) a1) as (a2 & E2 & S2).
    + apply S1.
    + lia.
    + rewrite (sw_lim _ _ _ _ _ _ S1). lia.
    + rewrite (sw_lim _ _ _ _ _ _ S1). lia.
    + intros m Hm. rewrite (sw_lim _ _ _ _ _ _ S1) in Hm.
      rewrite (sw_marks _ _ _ _ _ _ S1) by lia. by rewrite Hval.
    + exists a2. cbn [sweep_word_loop]. rewrite E1. cbn [mbind option_bind].
      split; [done|]. rewrite (sw_lim _ _ _ _ _ _ S1) in S2.
      rewrite Z.min_r by lia.
      eapply swept_trans with (mid := Z.min (lim a.1) ((i + 1) * BPW));
        eauto; lia.
Qed.

End platform.

Section platform.
Context (pf : platform).
Context (Hpf : platform_ok pf = true).

Local Abbreviation BPW := (BITS_PER_BITS_WORD pf).
Local Abbreviation NCONS := (BLOCK_NCONS pf).

(** *** Sweeping a block *)

Lemma range_marks_zero st b lo hi n :
  range_marks pf st b lo hi = 0 -> lo <= n < hi -> mark_bit pf st b n = false.
Proof.
  unfold range_marks. intros H Hn.
  destruct (mark_bit pf st b n) eqn:Em; [|done].
  assert (Hin : In n (List.filter (mark_bit pf st b) (seqZ lo (hi - lo)))).
  { apply filter_In. split; [|done]. apply list_elem_of_In, elem_of_seqZ. lia. }
  destruct (List.filter _ _); [done|]. simpl in H. lia.
Qed.

Lemma same_block_get_cons st st' b n :
  Z.land b (BLOCK_ALIGN - 1) = 0 -> 0 <= n < NCONS ->
  is_Some (blocks st !! b) -> same_block st st' b ->
  get_cons pf (cons_addr pf b n) st' = get_cons pf (cons_addr pf b n) st.
Proof.
  intros Ha Hn [blk Hb] Hs. destruct (Hs _ Hb) as (blk' & Hb' & Hc & _).
  rewrite (get_cons_addr pf Hpf b n st' _ Ha Hn Hb').
  rewrite (get_cons_addr pf Hpf b n st _ Ha Hn Hb). by rewrite Hc.
Qed.

Lemma same_block_mark_bit st st' b n :
  is_Some (blocks st !! b) -> same_block st st' b ->
  mark_bit pf st' b n = mark_bit pf st b n.
Proof.
  intros [blk Hb] Hs. destruct (Hs _ Hb) as (blk' & Hb' & _ & Hm).
  unfold mark_bit, get_markword. rewrite Hb, Hb'. simpl. by rewrite Hm.
Qed.

Lemma sweep_block_spec cprev cblk v st blk :
  block_shape pf (blocks st) cblk -> blocks st !! cblk = Some blk ->
  0 <= lim v <= NCONS ->
  (forall n, lim v <= n -> mark_bit pf st cblk n = false) ->
  (forall b, cprev = Some b -> b <> cblk /\ is_Some (blocks st !! b)) ->
  exists cprev' v' st',
    sweep_block pf cprev cblk (v, st) = Some (cprev', (v', st'))
    /\ lim v' = NCONS
    /\ num_used v' = num_used v + range_marks pf st cblk 0 (lim v)
    /\ (forall b, b <> cblk -> same_block st st' b)
    /\ (forall b, b <> cblk -> cprev <> Some b ->
          blocks st' !! b = blocks st !! b)
    /\ cprev_target cprev' st' = Some (next blk)
    /\ (cprev' = cprev \/ cprev' = Some cblk)
    /\ (forall n, 0 <= n < NCONS -> mark_bit pf st cblk n = true ->
          block_shape pf (blocks st') cblk
          /\ get_cons pf (cons_addr pf cblk n) st'
             = get_cons pf (cons_addr pf cblk n) st
          /\ forall m, 0 <= m -> mark_bit pf st' cblk m = false).
Proof.
  intros Hs Hb Hlim Hval Hprev.
  destruct (platform_facts pf Hpf) as (_ & _ & HN & _).
  unfold sweep_block.
  set (v0 := {| lim := lim v; num_free := num_free v; num_used := num_used v;
                this_free := 0 |}).
  destruct (sweep_word_loop_swept pf Hpf cblk
              (Z.to_nat ((lim v + BPW - 1) ÷ BPW)) 0 (v0, st))
    as ([v1 st1] & E1 & S1); try done.
  { simpl. destruct (ilim_facts pf Hpf (lim v)) as [(? & ? & ?)|[? ?]]; lia. }
  subst v0. cbn [fst snd lim] in *.
  rewrite E1. cbn [mbind option_bind this_free num_free lim num_used].
  rewrite Z.mul_0_l, Z.min_r in S1 by lia.
  pose proof (range_marks_bound pf st cblk 0 (lim v) ltac:(lia)) as Hrm.
  pose proof (sw_used _ _ _ _ _ _ S1) as Hused.
  pose proof (sw_free _ _ _ _ _ _ S1) as Hfree.
  pose proof (sw_shape _ _ _ _ _ _ S1) as (Ha & blk1 & Hb1 & Hlc1 & Hlm1).
  pose proof (sw_next _ _ _ _ _ _ S1 _ _ Hb Hb1) as Hnext.
  pose proof (sw_other _ _ _ _ _ _ S1) as Hother.
  pose proof (sw_marks _ _ _ _ _ _ S1) as Hmk.
  pose proof (sw_kept _ _ _ _ _ _ S1) as Hkept.
  pose proof (sw_freed _ _ _ _ _ _ S1) as Hfreed.
  cbn [fst snd num_used this_free] in *.
  assert (Hmarks1 : forall m, 0 <= m -> mark_bit pf st1 cblk m = false).
  { intros m Hm. rewrite Hmk by done.
    destruct (Z_lt_ge_dec m (lim v)).
    - destruct (Z.leb_spec 0 m), (Z.ltb_spec m (lim v));
        first [lia | simpl; by rewrite andb_false_r].
    - by rewrite Hval by lia. }
  assert (Hsame : forall b, b <> cblk -> same_block st st1 b).
  { intros b Hne blk0 Hb0. exists blk0.
    by rewrite (Hother b Hne). }
  destruct ((this_free v1 =? NCONS) && (num_free v1 >? NCONS)) eqn:Ec.
  - apply andb_true_iff in Ec as [Ef%Z.eqb_eq _].
    assert (lim v = NCONS /\ range_marks pf st cblk 0 (lim v) = 0) as [HlN Hz]
      by lia.
    rewrite Hb1. cbn [mbind option_bind].
    assert (Hc0 : exists c,
              conses blk1 !! Z.to_nat 0
              = Some {| car := dead_object pf; u := Chain c |}).
    { destruct (Hfreed 0) as [c Hc]; [lia|lia| |].
      - apply (range_marks_zero _ _ _ _ _ Hz). lia.
      - exists c.
        by rewrite (get_cons_addr pf Hpf cblk 0 st1 _ Ha ltac:(lia) Hb1) in Hc. }
    destruct Hc0 as [c Hc0].
    destruct cprev as [b|].
    + destruct (Hprev b eq_refl) as [Hne [pb Hpb]].
      rewrite (Hother b Hne). rewrite Hpb.
      cbn [mbind option_bind].
      set (st2 := with_blocks (<[b := _]> (blocks st1)) st1).
      assert (Hb2 : blocks st2 !! cblk = Some blk1).
      { unfold st2. simpl. by rewrite lookup_insert_ne. }
      rewrite (get_cons_addr pf Hpf cblk 0 st2 _ Ha ltac:(lia) Hb2), Hc0.
      cbn [mbind option_bind u]. eexists _, _, _. split; [done|].
      cbn [lim num_used blocks with_blocks with_cons_free_list].
      split; [done|]. split; [lia|]. split_and!.
      * intros b' Hne' blk0 Hb0. cbn [blocks with_blocks with_cons_free_list].
        rewrite lookup_delete_ne by done.
        unfold st2. simpl. destruct (decide (b' = b)) as [->|Hnb].
        -- rewrite lookup_insert_eq. eexists. split; [done|]. simpl.
           rewrite Hb0 in Hpb. by injection Hpb as ->.
        -- rewrite lookup_insert_ne by done.
           rewrite (Hother b' Hne'). eauto.
      * intros b' Hne' Hnb. cbn [blocks with_blocks with_cons_free_list].
        rewrite lookup_delete_ne by done.
        unfold st2. simpl. rewrite lookup_insert_ne by congruence.
        by apply Hother.
      * unfold cprev_target. simpl. rewrite lookup_delete_ne by done.
        rewrite lookup_insert_eq. simpl. by rewrite Hnext.
      * by left.
      * intros n Hn Hm. rewrite (range_marks_zero _ _ _ _ _ Hz) in Hm; [done|lia].
    + cbn [mbind option_bind].
      set (st2 := with_cons_block (next blk1) (cons_block_index st1) st1).
      assert (Hb2 : blocks st2 !! cblk = Some blk1) by (exact Hb1).
      rewrite (get_cons_addr pf Hpf cblk 0 st2 _ Ha ltac:(lia) Hb2), Hc0.
      cbn [mbind option_bind u]. eexists _, _, _. split; [done|].
      cbn [lim num_used blocks with_blocks with_cons_free_list].
      split; [done|]. split; [lia|]. split_and!.
      * intros b' Hne' blk0 Hb0. cbn [blocks with_blocks with_cons_free_list].
        rewrite lookup_delete_ne by done.
        unfold st2. simpl.
        rewrite (Hother b' Hne'). eauto.
      * intros b' Hne' Hnb. cbn [blocks with_blocks with_cons_free_list].
        rewrite lookup_delete_ne by done.
        by apply Hother.
      * unfold cprev_target. simpl. by rewrite Hnext.
      * by left.
      * intros n Hn Hm. rewrite (range_marks_zero _ _ _ _ _ Hz) in Hm; [done|lia].
  - eexists _, _, _. split; [done|]. cbn [lim num_used].
    split; [done|]. split; [lia|]. split_and!.
    + done.
    + intros b' Hne' _. by apply Hother.
    + unfold cprev_target. rewrite Hb1. simpl. by rewrite Hnext.
    + by right.
    + intros n Hn Hm. split; [apply S1|]. split; [|done].
      apply Hkept; auto.
Qed.

End platform.

Section platform.
Context (pf : platform).
Context (Hpf : platform_ok pf = true).

Local Abbreviation BPW := (BITS_PER_BITS_WORD pf).
Local Abbreviation NCONS := (BLOCK_NCONS pf).

(** *** Sweeping the chain of blocks *)

Lemma chain_from_ext (m m' : gmap Z cons_block_s) bs : forall x,
  (forall b, b ∈ bs -> m' !! b = m !! b) ->
  chain_from m x bs -> chain_from m' x bs.
Proof.
  induction bs as [|b bs IH]; intros x H; simpl; [done|].
  intros (-> & Hne & blk & Hb & Hc). split_and!; try done.
  exists blk. rewrite H by (by left). split; [done|].
  apply IH; [|done]. intros; apply H. by right.
Qed.

Lemma chain_valid_ext st st' bs : forall l,
  (forall b, b ∈ bs -> blocks st' !! b = blocks st !! b) ->
  chain_valid pf st l bs -> chain_valid pf st' l bs.
Proof.
  induction bs as [|b bs IH]; intros l H; simpl; [done|].
  intros [Hv Hc]. split.
  - intros n Hn. rewrite (mark_bit_blocks pf st st') by (apply H; by left).
    by apply Hv.
  - apply IH; [|done]. intros; apply H. by right.
Qed.

Lemma block_shape_ext (m m' : gmap Z cons_block_s) b :
  m' !! b = m !! b -> block_shape pf m b -> block_shape pf m' b.
Proof. intros H (Ha & blk & Hb & Hl). split; [done|]. exists blk. by rewrite H. Qed.

Lemma same_block_shape st st' b :
  same_block st st' b -> block_shape pf (blocks st) b ->
  block_shape pf (blocks st') b.
Proof.
  intros Hs (Ha & blk & Hb & Hc & Hm). split; [done|].
  destruct (Hs _ Hb) as (blk' & Hb' & Ec & Em). exists blk'.
  by rewrite Ec, Em.
Qed.

Lemma same_block_trans st st1 st2 b :
  same_block st st1 b -> same_block st1 st2 b -> same_block st st2 b.
Proof.
  intros H1 H2 blk Hb. destruct (H1 _ Hb) as (blk1 & Hb1 & Ec1 & Em1).
  destruct (H2 _ Hb1) as (blk2 & Hb2 & Ec2 & Em2). exists blk2.
  split; [done|]. split; congruence.
Qed.

Lemma block_marks_range st b l :
  block_marks pf st b l = range_marks pf st b 0 l.
Proof. unfold block_marks, range_marks. by rewrite Z.sub_0_r. Qed.

Lemma sweep_blocks_spec : forall bs fuel cprev v st x,
  (length bs < fuel)%nat ->
  cprev_target cprev st = Some x -> chain_from (blocks st) x bs -> NoDup bs ->
  (forall b, cprev = Some b -> b ∉ bs) ->
  (forall b, b ∈ bs -> block_shape pf (blocks st) b) ->
  0 <= lim v <= NCONS -> chain_valid pf st (lim v) bs ->
  exists v' st',
    sweep_blocks pf fuel cprev (v, st) = Some (v', st')
    /\ num_used v' = num_used v + chain_marks pf st (lim v) bs
    /\ (forall b, b ∉ bs -> same_block st st' b)
    /\ (forall b n, b ∈ bs -> 0 <= n < NCONS -> mark_bit pf st b n = true ->
          block_shape pf (blocks st') b
          /\ get_cons pf (cons_addr pf b n) st'
             = get_cons pf (cons_addr pf b n) st
          /\ mark_bit pf st' b n = false).
Proof.
  induction bs as [|b bs IH]; intros fuel cprev v st x Hf Ht Hc Hnd Hp Hsh Hl Hv.
  - destruct fuel as [|fuel]; [simpl in Hf; lia|]. simpl in Hc. subst x.
    exists v, st. cbn [sweep_blocks snd]. fold (cprev_target cprev st).
    rewrite Ht. cbn [mbind option_bind]. simpl. split; [done|].
    split; [lia|]. split.
    + intros b _ blk Hb. eauto.
    + intros b n Hb. by apply elem_of_nil in Hb.
  - destruct fuel as [|fuel]; [simpl in Hf; lia|]. simpl in Hf.
    destruct Hc as (-> & Hb0 & blk & Hb & Hc).
    apply NoDup_cons in Hnd as [Hbn Hnd]. destruct Hv as [Hvb Hv].
    destruct (sweep_block_spec pf Hpf cprev b v st blk)
      as (cprev' & v1 & st1 & E1 & Hlim1 & Hused1 & Hsame1 & Hother1 & Ht1
          & Hcp & Hkept1); try done.
    { apply Hsh. by left. }
    { intros b' Hcp'. split.
      - intros ->. apply (Hp b Hcp'). by left.
      - rewrite Hcp' in Ht. unfold cprev_target in Ht.
        destruct (blocks st !! b'); [eauto|done]. }
    assert (Hbs : forall b', b' ∈ bs -> blocks st1 !! b' = blocks st !! b').
    { intros b' Hb'. apply Hother1.
      - intros ->. done.
      - intros Hcp'. apply (Hp b' Hcp'). by right. }
    destruct (IH fuel cprev' v1 st1 (next blk))
      as (v' & st' & E' & Hused' & Hsame' & Hkept'); try done.
    + lia.
    + by apply (chain_from_ext (blocks st)).
    + intros b' Hcp'. destruct Hcp as [E|E]; rewrite E in Hcp'.
      * intros Hin. apply (Hp b' Hcp'). by right.
      * by injection Hcp' as <-.
    + intros b' Hb'. apply (block_shape_ext (blocks st)); [by apply Hbs|].
      apply Hsh. by right.
    + rewrite Hlim1. destruct (platform_facts pf Hpf) as (_ & _ & ? & _). lia.
    + rewrite Hlim1. by apply (chain_valid_ext st).
    + exists v', st'. cbn [sweep_blocks snd]. fold (cprev_target cprev st).
      rewrite Ht. cbn [mbind option_bind].
      destruct (Z.eqb_spec b 0) as [|_]; [done|]. rewrite E1. cbn [mbind option_bind].
      split; [done|]. split.
      { rewrite Hused', Hused1, Hlim1. cbn [chain_marks].
        rewrite block_marks_range.
        rewrite (chain_marks_ext pf st st1); [lia|].
        intros b' m Hb' _. apply mark_bit_blocks. by apply Hbs. }
      split.
      { intros b' Hb'. apply not_elem_of_cons in Hb' as [Hne Hb'].
        eapply same_block_trans; [by apply Hsame1|by apply Hsame']. }
      intros b' k Hb' Hn Hm. apply elem_of_cons in Hb' as [->|Hb'].
      * destruct (Hkept1 k Hn Hm) as (Hs1 & Hg1 & Hm1).
        pose proof (Hsame' b Hbn) as Hsb.
        destruct Hs1 as (Ha & blk1 & Hblk1 & Hlb1).
        split; [|split].
        -- eapply same_block_shape; [done|]. split; [done|]. eauto.
        -- rewrite <- Hg1. apply same_block_get_cons; eauto.
        -- rewrite (same_block_mark_bit pf st1 st') by eauto. apply Hm1. lia.
      * rewrite <- (mark_bit_blocks pf st st1 b' k (Hbs _ Hb')) in Hm.
        destruct (Hkept' b' k Hb' Hn Hm) as (Hs' & Hg' & Hm').
        split; [done|]. split; [|done]. rewrite Hg'.
        destruct (Hsh b') as (Ha & blk' & Hblk' & _); [by right|].
        rewrite (get_cons_addr pf Hpf b' k st _ Ha Hn Hblk').
        rewrite <- (Hbs _ Hb') in Hblk'.
        by rewrite (get_cons_addr pf Hpf b' k st1 _ Ha Hn Hblk').
Qed.

End platform.

Section platform.
Context (pf : platform) (PURE_P : Z -> bool).
Context (Hpf : platform_ok pf = true).

Local Abbreviation BPW := (BITS_PER_BITS_WORD pf).
Local Abbreviation NCONS := (BLOCK_NCONS pf).

(** *** [sweep_conses], and a collection *)

Lemma chain_length (m : gmap Z cons_block_s) bs :
  NoDup bs -> (forall b, b ∈ bs -> is_Some (m !! b)) ->
  (length bs <= size m)%nat.
Proof.
  intros Hnd H.
  assert (Hs : list_to_set bs ⊆ dom m).
  { intros b Hb%elem_of_list_to_set. by apply elem_of_dom, H. }
  apply subseteq_size in Hs. rewrite size_dom in Hs.
  by rewrite size_list_to_set in Hs.
Qed.

Lemma chain_marks_zero st bs : forall l,
  (forall b n, b ∈ bs -> mark_bit pf st b n = false) ->
  chain_marks pf st l bs = 0.
Proof.
  induction bs as [|b bs IH]; intros l H; simpl; [done|].
  rewrite IH by (intros; apply H; by right).
  unfold block_marks.
  assert (Hf : List.filter (mark_bit pf st b) (seqZ 0 l) = []).
  { induction (seqZ 0 l) as [|n ns IHn]; simpl; [done|].
    rewrite H by (by left). done. }
  by rewrite Hf.
Qed.

Lemma sweep_conses_spec st bs :
  chain_from (blocks st) (cons_block st) bs -> NoDup bs ->
  (forall b, b ∈ bs -> block_shape pf (blocks st) b) ->
  0 <= cons_block_index st <= NCONS ->
  chain_valid pf st (cons_block_index st) bs ->
  exists st',
    sweep_conses pf st = Some st'
    /\ total_conses st' = chain_marks pf st (cons_block_index st) bs
    /\ (forall b n, b ∈ bs -> 0 <= n < NCONS -> mark_bit pf st b n = true ->
          block_shape pf (blocks st') b
          /\ get_cons pf (cons_addr pf b n) st'
             = get_cons pf (cons_addr pf b n) st
          /\ mark_bit pf st' b n = false).
Proof.
  intros Hc Hnd Hsh Hidx Hv. unfold sweep_conses.
  set (v := {| lim := cons_block_index st; num_free := 0; num_used := 0;
               this_free := 0 |}).
  set (st0 := with_cons_free_list 0 st).
  destruct (sweep_blocks_spec pf Hpf bs (S (size (blocks st0))) None v st0
              (cons_block st))
    as (v' & st' & E & Hused & _ & Hkept); try done.
  - assert (length bs <= size (blocks st))%nat; [|simpl; lia].
    apply chain_length; [done|]. intros b Hb.
    destruct (Hsh b Hb) as (_ & blk & -> & _). eauto.
  - by apply (chain_valid_ext pf st).
  - rewrite E. cbn [mbind option_bind]. eexists. split; [done|].
    split.
    + simpl. rewrite Hused. simpl.
      by apply chain_marks_ext.
    + intros b n Hb Hn Hm. apply (Hkept b n Hb Hn Hm).
Qed.

Lemma chain_valid_intro st bs : forall l,
  0 <= l ->
  (forall b n, b ∈ bs -> 0 <= n -> mark_bit pf st b n = true -> n < NCONS) ->
  (forall b n, head bs = Some b -> 0 <= n -> mark_bit pf st b n = true -> n < l) ->
  chain_valid pf st l bs.
Proof.
  destruct (platform_facts pf Hpf) as (_ & _ & HN & _).
  induction bs as [|b bs IH]; intros l Hl HN' Hhd; simpl; [done|]. split.
  - intros n Hn. apply not_true_is_false. intros Hm.
    specialize (Hhd b n eq_refl ltac:(lia) Hm). lia.
  - apply IH; [lia| |].
    + intros; eapply HN'; eauto. by right.
    + intros b' n Hb' Hn Hm. apply (HN' b' n); try done.
      right. destruct bs; [done|]. injection Hb' as ->. by left.
Qed.

End platform.

Section platform.
Context (pf : platform).
Context (Hpf : platform_ok pf = true).

Local Abbreviation NCONS := (BLOCK_NCONS pf).

(** *** [Fcons] from the current block *)

Lemma consed_refl h : consed pf 0 h h.
Proof. unfold consed. split_and!; lia. Qed.

Lemma consed_trans n m h h1 h2 :
  consed pf n h h1 -> consed pf m h1 h2 -> consed pf (n + m) h h2.
Proof. unfold consed. intros (?&?&?&?) (?&?&?&?). split_and!; lia. Qed.

Lemma set_cons_addr b n c st blk :
  Z.land b (BLOCK_ALIGN - 1) = 0 -> 0 <= n < NCONS ->
  blocks st !! b = Some blk -> (Z.to_nat n < length (conses blk))%nat ->
  set_cons pf (cons_addr pf b n) c st
  = Some (with_blocks
            (<[b := {| conses := <[Z.to_nat n := c]> (conses blk);
                       gcmarkbits := gcmarkbits blk; next := next blk |}]>
               (blocks st)) st).
Proof.
  intros Ha Hn Hb Hl. unfold set_cons.
  destruct (cons_addr_block pf Hpf b n Ha Hn) as [-> ->]. rewrite Hb.
  cbn [mbind option_bind].
  destruct (lookup_lt_is_Some_2 _ _ Hl) as [c0 ->]. done.
Qed.

Lemma Fcons_spec a d new h :
  can_cons pf new h ->
  exists p h',
    Fcons pf a d new h = Some (Lisp_Cons p, h')
    /\ consed pf 1 h h' /\ can_cons pf new h'.
Proof.
  intros (Hfl & Hidx & Hsh & Hnew).
  destruct (platform_facts pf Hpf) as (Hsz & _ & HN & _).
  unfold Fcons. rewrite Hfl. cbn [Z.eqb negb].
  destruct (Z.eqb_spec (cons_block_index h) NCONS) as [E|E].
  - cbn [mbind option_bind cons_block cons_block_index with_cons_block
         with_blocks].
    erewrite set_cons_addr; [| done | lia | apply lookup_insert_eq |].
    2:{ simpl. rewrite length_replicate. lia. }
    cbn [mbind option_bind]. eexists _, _. split; [done|]. split.
    + unfold consed. simpl. split_and!; lia.
    + split; [done|]. split; [simpl; lia|]. split; [|done].
      intros _. split; [done|]. simpl. rewrite lookup_insert_eq.
      eexists. split; [done|]. simpl.
      by rewrite length_insert, !length_replicate.
  - destruct Hsh as (Ha & blk & Hb & Hlc & Hlm); [lia|].
    cbn [mbind option_bind cons_block cons_block_index with_cons_block].
    erewrite set_cons_addr; [| done | lia | exact Hb | lia].
    cbn [mbind option_bind]. eexists _, _. split; [done|]. split.
    + unfold consed. simpl. split_and!; lia.
    + split; [done|]. split; [simpl; lia|]. split; [|done].
      intros _. split; [done|]. simpl. rewrite lookup_insert_eq.
      eexists. split; [done|]. simpl. by rewrite length_insert.
Qed.

End platform.

(** *** Cells: writing, freeing, mark bits, the cells that are live *)
Section platform.
Context (pf : platform).

Local Abbreviation NCONS := (BLOCK_NCONS pf).

(** *** Writing a cell *)

(** Two pointers into different cells. *)
Local Abbreviation other_cell q p :=
  (CONS_BLOCK q <> CONS_BLOCK p
   \/ Z.to_nat (CONS_INDEX pf q) <> Z.to_nat (CONS_INDEX pf p)).

Lemma set_cons_spec p c st c0 :
  get_cons pf p st = Some c0 ->
  exists st',
    set_cons pf p c st = Some st'
    /\ get_cons pf p st' = Some c
    /\ (forall q, other_cell q p -> get_cons pf q st' = get_cons pf q st)
    /\ (forall b n, get_markword b n st' = get_markword b n st)
    /\ cons_block st' = cons_block st
    /\ cons_block_index st' = cons_block_index st
    /\ cons_free_list st' = cons_free_list st
    /\ bytes_since_gc st' = bytes_since_gc st
    /\ cons_cells_consed st' = cons_cells_consed st
    /\ mark_stk st' = mark_stk st.
Proof.
  unfold get_cons, set_cons.
  destruct (blocks st !! CONS_BLOCK p) as [blk|] eqn:Hb; [|done].
  cbn [mbind option_bind]. intros Hc. rewrite Hc. cbn [mbind option_bind].
  eexists. split; [reflexivity|]. cbn [blocks with_blocks].
  split_and!; try done.
  - rewrite lookup_insert_eq. cbn [mbind option_bind conses].
    apply list_lookup_insert_eq. by eapply lookup_lt_Some.
  - intros q Hq. destruct (decide (CONS_BLOCK q = CONS_BLOCK p)) as [E|E].
    + rewrite E, lookup_insert_eq, Hb. cbn [mbind option_bind conses].
      apply list_lookup_insert_ne. destruct Hq; congruence.
    + by rewrite lookup_insert_ne.
  - intros b n. unfold get_markword. cbn [blocks with_blocks].
    destruct (decide (b = CONS_BLOCK p)) as [->|E].
    + by rewrite lookup_insert_eq, Hb.
    + by rewrite lookup_insert_ne.
Qed.

Lemma set_cons_blocks p c st st' :
  set_cons pf p c st = Some st' ->
  forall b blk, blocks st !! b = Some blk ->
    exists blk',
      blocks st' !! b = Some blk' /\ next blk' = next blk
      /\ gcmarkbits blk' = gcmarkbits blk
      /\ length (conses blk') = length (conses blk).
Proof.
  unfold set_cons.
  destruct (blocks st !! CONS_BLOCK p) as [blk0|] eqn:Hb; [|done].
  cbn [mbind option_bind].
  destruct (conses blk0 !! _) as [c0|]; [|done].
  cbn [mbind option_bind]. intros [= <-] b blk Hblk.
  cbn [blocks with_blocks].
  destruct (decide (b = CONS_BLOCK p)) as [->|E].
  - rewrite lookup_insert_eq. eexists. split; [done|].
    rewrite Hb in Hblk. injection Hblk as <-. cbn.
    by rewrite length_insert.
  - rewrite lookup_insert_ne by done. eauto.
Qed.

Context (Hpf : platform_ok pf = true).

(** *** [Fcons] from the current block, in full *)

Lemma Fcons_next_cell a d new h :
  let full := cons_block_index h =? NCONS in
  let b := if full then new else cons_block h in
  let i := if full then 0 else cons_block_index h in
  can_cons pf new h ->
  (cons_block_index h = NCONS -> blocks h !! new = None) ->
  exists h',
    Fcons pf a d new h = Some (Lisp_Cons (cons_addr pf b i), h')
    /\ get_cons pf (cons_addr pf b i) h' = Some {| car := a; u := Cdr d |}
    /\ (forall q c, other_cell q (cons_addr pf b i) ->
          get_cons pf q h = Some c -> get_cons pf q h' = Some c)
    /\ cons_block h' = b /\ cons_block_index h' = i + 1
    /\ (cons_block_index h = NCONS ->
        exists blk, blocks h' !! new = Some blk /\ next blk = cons_block h)
    /\ bytes_since_gc h' = bytes_since_gc h + sizeof_Lisp_Cons pf
    /\ cons_cells_consed h' = cons_cells_consed h + 1.
Proof.
  intros full b i (Hfl & Hidx & Hsh & Hnew) Hfresh.
  destruct (platform_facts pf Hpf) as (Hsz & _ & HN & _).
  unfold Fcons. rewrite Hfl. cbn [Z.eqb negb]. fold full.
  destruct (Z.eqb_spec (cons_block_index h) NCONS) as [E|E];
    subst full b i; cbn iota.
  - set (st0 := with_cons_block new 0
                  (with_blocks
                     (<[new := fresh_block pf (cons_block h)]> (blocks h)) h)).
    cbn [mbind option_bind].
    change (cons_block st0) with new.
    change (cons_block_index st0) with 0.
    set (p := cons_addr pf new 0).
    destruct (cons_addr_block pf Hpf new 0 Hnew ltac:(lia)) as [Eb Ei].
    fold p in Eb, Ei.
    assert (Hc0 : get_cons pf p (with_cons_block new (0 + 1) st0)
                  = Some {| car := Lisp_Int 0; u := Cdr (Lisp_Int 0) |}).
    { unfold get_cons. rewrite Eb, Ei. cbn [blocks with_cons_block st0
        with_blocks]. rewrite lookup_insert_eq. cbn [mbind option_bind].
      unfold fresh_block. cbn [conses]. apply lookup_replicate_2. lia. }
    destruct (set_cons_spec p {| car := a; u := Cdr d |} _ _ Hc0)
      as (h2 & Hset2 & Hget2 & Hfr2 & _ & C1 & C2 & C3 & C4 & C5 & C6).
    rewrite Hset2. cbn [mbind option_bind].
    eexists. split; [reflexivity|].
    split_and!.
    + exact Hget2.
    + intros q c Hq Hc.
      change (get_cons pf q (with_consed _ _ h2)) with (get_cons pf q h2).
      rewrite (Hfr2 q Hq). rewrite <- Hc. unfold get_cons.
      cbn [blocks with_cons_block st0 with_blocks].
      rewrite lookup_insert_ne; [done|]. intros Eq.
      unfold get_cons in Hc. rewrite <- Eq, (Hfresh E) in Hc. done.
    + transitivity (cons_block h2); [reflexivity|]. by rewrite C1.
    + transitivity (cons_block_index h2); [reflexivity|]. by rewrite C2.
    + intros _.
      destruct (set_cons_blocks _ _ _ _ Hset2 new
                  (fresh_block pf (cons_block h)))
        as (blk' & Hb' & Hn' & _).
      { cbn [blocks with_cons_block st0 with_blocks].
        apply lookup_insert_eq. }
      exists blk'. split; [exact Hb' | exact Hn'].
    + cbn [bytes_since_gc with_consed]. rewrite C4. reflexivity.
    + cbn [cons_cells_consed with_consed]. rewrite C5. reflexivity.
  - destruct Hsh as (Ha & blk & Hb & Hlc & Hlm); [lia|].
    cbn [mbind option_bind].
    set (p := cons_addr pf (cons_block h) (cons_block_index h)).
    destruct (cons_addr_block pf Hpf (cons_block h) (cons_block_index h)
                Ha ltac:(lia)) as [Eb Ei].
    fold p in Eb, Ei.
    assert (Hlk : is_Some (conses blk !! Z.to_nat (cons_block_index h))).
    { apply lookup_lt_is_Some_2. lia. }
    destruct Hlk as [c0 Hc0'].
    assert (Hc0 : get_cons pf p
                    (with_cons_block (cons_block h) (cons_block_index h + 1) h)
                  = Some c0).
    { unfold get_cons. rewrite Eb, Ei. cbn [blocks with_cons_block].
      rewrite Hb. exact Hc0'. }
    destruct (set_cons_spec p {| car := a; u := Cdr d |} _ _ Hc0)
      as (h2 & Hset2 & Hget2 & Hfr2 & _ & C1 & C2 & C3 & C4 & C5 & C6).
    rewrite Hset2. cbn [mbind option_bind].
    eexists. split; [reflexivity|].
    split_and!.
    + exact Hget2.
    + intros q c Hq Hc.
      change (get_cons pf q (with_consed _ _ h2)) with (get_cons pf q h2).
      rewrite (Hfr2 q Hq). exact Hc.
    + transitivity (cons_block h2); [reflexivity|]. by rewrite C1.
    + transitivity (cons_block_index h2); [reflexivity|]. by rewrite C2.
    + intros; lia.
    + cbn [bytes_since_gc with_consed]. rewrite C4. reflexivity.
    + cbn [cons_cells_consed with_consed]. rewrite C5. reflexivity.
Qed.

End platform.

Section platform.
Context (pf : platform).
Context (Hpf : platform_ok pf = true).

Local Abbreviation NCONS := (BLOCK_NCONS pf).

(** *** [Fcons] from the free list, and from the current block after it *)

Lemma can_cons_ready new h : can_cons pf new h -> cons_ready pf new h.
Proof.
  intros (Hfl & Hidx & Hsh & Hnew). split; [|done].
  exists []. split; [constructor|done].
Qed.

Lemma CONS_INDEX_nonneg p : 0 <= CONS_INDEX pf p.
Proof.
  destruct (platform_facts pf Hpf) as (Hsz & _).
  unfold CONS_INDEX. apply Z.quot_pos; [|lia].
  apply Z.land_nonneg. right. done.
Qed.

Lemma free_chain_addr h fl : forall x,
  free_chain pf h x fl ->
  forall p, p ∈ fl -> p = cons_addr pf (CONS_BLOCK p) (CONS_INDEX pf p).
Proof.
  induction fl as [|y fl IH]; intros x Hfc p Hp.
  - by apply elem_of_nil in Hp.
  - destruct Hfc as (_ & _ & Hy & c & q & _ & _ & Hq).
    apply elem_of_cons in Hp as [->|Hp]; [done|]. by apply (IH q).
Qed.

Lemma free_chain_frame h h' fl : forall x,
  (forall p, p ∈ fl -> get_cons pf p h' = get_cons pf p h) ->
  free_chain pf h x fl -> free_chain pf h' x fl.
Proof.
  induction fl as [|y fl IH]; intros x Hsame Hfc; [done|].
  destruct Hfc as (Hx & Hy0 & Hy & c & q & Hg & Hu & Hq).
  split; [done|]. split; [done|]. split; [done|]. exists c, q.
  split; [rewrite Hsame; [done|by left]|]. split; [done|].
  apply IH; [|done]. intros p Hp. apply Hsame. by right.
Qed.

Lemma set_cons_fields p c st st' :
  set_cons pf p c st = Some st' -> exists m, st' = with_blocks m st.
Proof.
  unfold set_cons. destruct (blocks st !! CONS_BLOCK p) as [blk|]; [|done].
  cbn [mbind option_bind]. destruct (conses blk !! _); [|done].
  cbn [mbind option_bind]. intros [= <-]. eauto.
Qed.

Lemma set_cons_shape p c st st' b :
  set_cons pf p c st = Some st' ->
  block_shape pf (blocks st) b -> block_shape pf (blocks st') b.
Proof.
  intros Hset (Ha & blk & Hb & Hlc & Hlm). split; [done|].
  destruct (set_cons_blocks pf p c st st' Hset b blk Hb)
    as (blk' & Hb' & _ & Em & Ec).
  exists blk'. split; [done|]. by rewrite Ec, Em.
Qed.

Lemma Fcons_ready a d new h :
  cons_ready pf new h ->
  exists p h',
    Fcons pf a d new h = Some (Lisp_Cons p, h')
    /\ consed pf 1 h h' /\ cons_ready pf new h'.
Proof.
  intros ((fl & Hnd & Hfc) & Hidx & Hsh & Hnew).
  destruct fl as [|p fl].
  - destruct (Fcons_spec pf Hpf a d new h) as (p & h' & E & C & H');
      [done|].
    exists p, h'. split; [done|]. split; [done|]. by apply can_cons_ready.
  - pose proof (free_chain_addr h (p :: fl) _ Hfc) as Haddr.
    destruct Hfc as (Hx & Hp0 & Hpa & c & q & Hg & Hu & Hq).
    apply NoDup_cons in Hnd as [Hp Hnd].
    unfold Fcons. rewrite Hx.
    destruct (Z.eqb_spec p 0) as [|_]; [done|]. cbn [negb].
    rewrite Hg. cbn [mbind option_bind]. rewrite Hu.
    cbn [mbind option_bind].
    destruct (set_cons_spec pf p {| car := a; u := Cdr d |}
                (with_cons_free_list q h) c)
      as (st' & Hset & _ & Hother & _ & Hcb & Hci & Hfl & Hbs & Hcc & _);
      [done|].
    rewrite Hset. cbn [mbind option_bind].
    destruct (set_cons_fields _ _ _ _ Hset) as [m Em].
    eexists _, _. split; [done|]. split.
    + unfold consed. rewrite Em. cbn. split_and!; lia.
    + split; [|split; [|split]].
      * exists fl. split; [done|]. cbn [cons_free_list with_consed].
        rewrite Hfl. cbn [cons_free_list with_cons_free_list].
        apply (free_chain_frame h); [|done].
        intros x Hx'. change (get_cons pf x (with_consed _ _ st'))
          with (get_cons pf x st').
        rewrite Hother; [done|].
        destruct (decide (CONS_BLOCK x = CONS_BLOCK p)) as [Eb|]; [|by left].
        right. intros Ei.
        assert (CONS_INDEX pf x = CONS_INDEX pf p) as Ei'.
        { pose proof (CONS_INDEX_nonneg x). pose proof (CONS_INDEX_nonneg p).
          lia. }
        apply Hp. rewrite Hpa, <- Eb, <- Ei', <- (Haddr x); [done|].
        by right.
      * cbn [cons_block_index with_consed]. rewrite Hci. done.
      * cbn [cons_block_index cons_block blocks with_consed].
        rewrite Hci, Hcb. intros Hlt.
        eapply set_cons_shape; [exact Hset|]. by apply Hsh.
      * done.
Qed.

Lemma list3_ready a1 a2 a3 new h :
  cons_ready pf new h ->
  exists p h',
    list3 pf a1 a2 a3 new h = Some (Lisp_Cons p, h')
    /\ consed pf 3 h h' /\ cons_ready pf new h'.
Proof.
  intros H0. unfold list3.
  destruct (Fcons_ready a3 Qnil new h H0) as (p1 & h1 & -> & C1 & H1).
  cbn [mbind option_bind].
  destruct (Fcons_ready a2 (Lisp_Cons p1) new h1 H1)
    as (p2 & h2 & -> & C2 & H2).
  cbn [mbind option_bind].
  destruct (Fcons_ready a1 (Lisp_Cons p2) new h2 H2)
    as (p3 & h3 & -> & C3 & H3).
  exists p3, h3. split; [done|]. split; [|done].
  apply (consed_trans pf 2 1 h h2); [|done].
  by apply (consed_trans pf 1 1 h h1).
Qed.

Lemma list4_ready a1 a2 a3 a4 new h :
  cons_ready pf new h ->
  exists p h',
    list4 pf a1 a2 a3 a4 new h = Some (Lisp_Cons p, h')
    /\ consed pf 4 h h' /\ cons_ready pf new h'.
Proof.
  intros H0. unfold list4.
  destruct (Fcons_ready a4 Qnil new h H0) as (p0 & h0 & -> & C0 & H0').
  cbn [mbind option_bind].
  destruct (Fcons_ready a3 (Lisp_Cons p0) new h0 H0')
    as (p1 & h1 & -> & C1 & H1).
  cbn [mbind option_bind].
  destruct (Fcons_ready a2 (Lisp_Cons p1) new h1 H1)
    as (p2 & h2 & -> & C2 & H2).
  cbn [mbind option_bind].
  destruct (Fcons_ready a1 (Lisp_Cons p2) new h2 H2)
    as (p3 & h3 & -> & C3 & H3).
  exists p3, h3. split; [done|]. split; [|done].
  apply (consed_trans pf 3 1 h h2); [|done].
  apply (consed_trans pf 2 1 h h1); [|done].
  by apply (consed_trans pf 1 1 h h0).
Qed.

Lemma Flist_loop_ready rargs : forall val new h,
  cons_ready pf new h ->
  exists v h',
    Flist_loop pf rargs val new h = Some (v, h')
    /\ consed pf (Z.of_nat (length rargs)) h h' /\ cons_ready pf new h'
    /\ (rargs <> [] -> exists p, v = Lisp_Cons p).
Proof.
  induction rargs as [|a rargs IH]; intros val new h H0.
  - exists val, h. split; [done|]. split; [apply consed_refl|]. done.
  - cbn [Flist_loop].
    destruct (Fcons_ready a val new h H0) as (p1 & h1 & -> & C1 & H1).
    cbn [mbind option_bind].
    destruct (IH (Lisp_Cons p1) new h1 H1) as (v & h' & E & C & H' & Hv).
    exists v, h'. split; [done|]. split.
    + replace (Z.of_nat (length (a :: rargs)))
        with (1 + Z.of_nat (length rargs)) by (simpl length; lia).
      by apply (consed_trans pf _ _ h h1).
    + split; [done|]. intros _. destruct rargs as [|a' rargs'].
      * simpl in E. injection E as <- <-. eauto.
      * apply Hv. done.
Qed.

End platform.

Section platform.
Context (pf : platform).

Local Abbreviation NCONS := (BLOCK_NCONS pf).
Local Abbreviation other_cell q p :=
  (CONS_BLOCK q <> CONS_BLOCK p
   \/ Z.to_nat (CONS_INDEX pf q) <> Z.to_nat (CONS_INDEX pf p)).

(** X11.  A cell freed by [free_cons] is the cell that the next [Fcons]
    returns: it then holds the new car and cdr, the free list and
    [bytes_since_gc] are as before [free_cons], and no other cell has
    changed. *)
Theorem free_cons_then_Fcons p a d new h c0 :
  p <> 0 -> get_cons pf p h = Some c0 ->
  exists h1 h2,
    free_cons pf p h = Some h1
    /\ get_cons pf p h1
       = Some {| car := dead_object pf; u := Chain (cons_free_list h) |}
    /\ Fcons pf a d new h1 = Some (Lisp_Cons p, h2)
    /\ get_cons pf p h2 = Some {| car := a; u := Cdr d |}
    /\ cons_free_list h2 = cons_free_list h
    /\ bytes_since_gc h2 = bytes_since_gc h
    /\ cons_cells_consed h2 = cons_cells_consed h + 1
    /\ cons_block h2 = cons_block h
    /\ cons_block_index h2 = cons_block_index h
    /\ forall q, other_cell q p -> get_cons pf q h2 = get_cons pf q h.
Proof.
  intros Hp Hc.
  destruct (set_cons_spec pf p
              {| car := dead_object pf; u := Chain (cons_free_list h) |}
              h c0 Hc)
    as (h' & Hset & Hget & Hfr & _ & B1 & B2 & B3 & B4 & B5 & B6).
  set (h1 := with_consed (bytes_since_gc h' - sizeof_Lisp_Cons pf)
               (cons_cells_consed h') (with_cons_free_list p h')).
  assert (Hget1 : get_cons pf p h1
                  = Some {| car := dead_object pf;
                            u := Chain (cons_free_list h) |}) by exact Hget.
  destruct (set_cons_spec pf p {| car := a; u := Cdr d |}
              (with_cons_free_list (cons_free_list h) h1) _ Hget1)
    as (h2 & Hset2 & Hget2 & Hfr2 & _ & C1 & C2 & C3 & C4 & C5 & C6).
  exists h1, (with_consed (bytes_since_gc h2 + sizeof_Lisp_Cons pf)
                (cons_cells_consed h2 + 1) h2).
  split; [unfold free_cons; by rewrite Hset|].
  split; [exact Hget|].
  split.
  { unfold Fcons. replace (cons_free_list h1) with p by reflexivity.
    apply Z.eqb_neq in Hp as Hp'. rewrite Hp'. cbn [negb].
    rewrite Hget1. cbn [mbind option_bind u]. rewrite Hset2. done. }
  split_and!.
  - exact Hget2.
  - transitivity (cons_free_list h2); [reflexivity|]. by rewrite C3.
  - cbn [bytes_since_gc with_consed]. rewrite C4. unfold h1.
    cbn [bytes_since_gc with_consed with_cons_free_list]. rewrite B4. lia.
  - cbn [cons_cells_consed with_consed]. rewrite C5. unfold h1.
    cbn [cons_cells_consed with_consed with_cons_free_list]. rewrite B5. lia.
  - transitivity (cons_block h2); [reflexivity|]. rewrite C1. exact B1.
  - transitivity (cons_block_index h2); [reflexivity|]. rewrite C2. exact B2.
  - intros q Hq.
    change (get_cons pf q (with_consed _ _ h2)) with (get_cons pf q h2).
    rewrite (Hfr2 q Hq).
    change (get_cons pf q h1) with (get_cons pf q h').
    apply Hfr, Hq.
Qed.

Context (Hpf : platform_ok pf = true).

(** X12.  With an empty free list, [Fcons] takes the next cell of the
    current block, or the first cell of a new block when the current
    block is full; the new block is linked in front of the others.  The
    cell then holds the car and cdr, and every other cell is as it was. *)
Theorem Fcons_takes_next_cell a d new h :
  let full := cons_block_index h =? NCONS in
  let b := if full then new else cons_block h in
  let i := if full then 0 else cons_block_index h in
  can_cons pf new h ->
  (cons_block_index h = NCONS -> blocks h !! new = None) ->
  exists h',
    Fcons pf a d new h = Some (Lisp_Cons (cons_addr pf b i), h')
    /\ get_cons pf (cons_addr pf b i) h' = Some {| car := a; u := Cdr d |}
    /\ (forall q c, other_cell q (cons_addr pf b i) ->
          get_cons pf q h = Some c -> get_cons pf q h' = Some c)
    /\ cons_block h' = b /\ cons_block_index h' = i + 1
    /\ (cons_block_index h = NCONS ->
        exists blk, blocks h' !! new = Some blk /\ next blk = cons_block h)
    /\ bytes_since_gc h' = bytes_since_gc h + sizeof_Lisp_Cons pf
    /\ cons_cells_consed h' = cons_cells_consed h + 1.
Proof. apply Fcons_next_cell; exact Hpf. Qed.

(** X13.  The mark bits are one per cell: [XMARK_CONS] sets the bit
    that [XCONS_MARKED_P] reads for that cell and [XUNMARK_CONS] clears
    it; the bits of all other cells, in this block and in the others, and
    the contents of every cell stay as they were. *)
Theorem mark_bits_independent b n st :
  block_shape pf (blocks st) b -> 0 <= n < NCONS ->
  exists st1 st2,
    XMARK_CONS pf (cons_addr pf b n) st = Some st1
    /\ XCONS_MARKED_P pf (cons_addr pf b n) st1 = Some true
    /\ XUNMARK_CONS pf (cons_addr pf b n) st1 = Some st2
    /\ XCONS_MARKED_P pf (cons_addr pf b n) st2 = Some false
    /\ (forall q, get_cons pf q st1 = get_cons pf q st
                  /\ get_cons pf q st2 = get_cons pf q st)
    /\ forall b' m,
         block_shape pf (blocks st) b' -> 0 <= m < NCONS ->
         b' <> b \/ m <> n ->
         XCONS_MARKED_P pf (cons_addr pf b' m) st1
         = XCONS_MARKED_P pf (cons_addr pf b' m) st
         /\ XCONS_MARKED_P pf (cons_addr pf b' m) st2
            = XCONS_MARKED_P pf (cons_addr pf b' m) st.
Proof.
  intros Hsh Hn. pose proof Hsh as (Ha & _).
  destruct (cons_addr_block pf Hpf b n Ha Hn) as [Eb Ei].
  unfold XMARK_CONS, XUNMARK_CONS, XCONS_MARKED_P. rewrite Eb, Ei.
  destruct (SETMARKBIT_spec pf Hpf b n st Hsh Hn) as (st1 & E1 & Hc1 & Hb1).
  pose proof (marks_changed_shape pf _ _ _ _ Hc1 Hsh) as Hsh1.
  destruct (UNSETMARKBIT_spec pf Hpf b n st1 Hsh1 Hn)
    as (st2 & E2 & Hc2 & Hb2).
  pose proof (marks_changed_shape pf _ _ _ _ Hc2 Hsh1) as Hsh2.
  exists st1, st2. split; [exact E1|].
  split.
  { rewrite (GETMARKBIT_spec pf Hpf) by done. rewrite Hb1 by lia.
    by rewrite !Z.eqb_refl, orb_true_r. }
  split; [exact E2|].
  split.
  { rewrite (GETMARKBIT_spec pf Hpf) by done. rewrite Hb2 by lia.
    by rewrite !Z.eqb_refl, andb_false_r. }
  split.
  { intros q. rewrite (marks_changed_get_cons pf _ _ _ q Hc2).
    by rewrite (marks_changed_get_cons pf _ _ _ q Hc1). }
  intros b' m Hsh' Hm Hne. pose proof Hsh' as (Ha' & _).
  destruct (cons_addr_block pf Hpf b' m Ha' Hm) as [Eb' Ei'].
  rewrite Eb', Ei'.
  pose proof (marks_changed_shape pf _ _ _ _ Hc1 Hsh') as Hsh1'.
  pose proof (marks_changed_shape pf _ _ _ _ Hc2 Hsh1') as Hsh2'.
  rewrite !(GETMARKBIT_spec pf Hpf) by done.
  rewrite Hb2, Hb1 by lia.
  assert ((b' =? b) && (m =? n) = false) as ->.
  { apply andb_false_iff. destruct Hne; [left|right]; lia. }
  by rewrite orb_false_r, andb_true_r.
Qed.

Context (Lisp_Cons_tag : Z).

(** X14.  The cell that [Fcons] has just returned is live for the
    conservative scan: [live_cons_p] holds of its address,
    [live_cons_holding] maps a pointer to its cdr field back to the cell,
    and the next cell of the block, which has not been handed out, is
    held by nothing. *)
Theorem Fcons_cell_is_live a d new h :
  let full := cons_block_index h =? NCONS in
  let b := if full then new else cons_block h in
  let i := if full then 0 else cons_block_index h in
  can_cons pf new h ->
  (cons_block_index h = NCONS -> blocks h !! new = None) ->
  deadp pf a = false ->
  0 < word_size pf < sizeof_Lisp_Cons pf ->
  exists h',
    Fcons pf a d new h = Some (Lisp_Cons (cons_addr pf b i), h')
    /\ live_cons_p pf Lisp_Cons_tag b (cons_addr pf b i) h' = Some true
    /\ live_cons_holding pf Lisp_Cons_tag b
         (cons_addr pf b i + word_size pf) h'
       = Some (cons_addr pf b i)
    /\ live_cons_holding pf Lisp_Cons_tag b (cons_addr pf b (i + 1)) h'
       = Some 0.
Proof.
  intros full b i Hcan Hfresh Hdead Hws.
  destruct (Fcons_next_cell pf Hpf a d new h Hcan Hfresh)
    as (h' & E & Hget & _ & Hb & Hi & _).
  fold full in E, Hget, Hb, Hi. fold b in E, Hget, Hb, Hi.
  fold i in E, Hget, Hi.
  destruct (platform_facts pf Hpf) as (Hsz & _ & HN & _).
  assert (Hir : 0 <= i < NCONS).
  { destruct Hcan as (_ & Hidx & _). subst i full.
    destruct (Z.eqb_spec (cons_block_index h) NCONS); lia. }
  set (sz := sizeof_Lisp_Cons pf) in *.
  exists h'. split; [exact E|].
  assert (Hhold : forall o, 0 <= o < sz ->
            (o =? Lisp_Cons_tag) || (o =? 0) || (o =? word_size pf) = true ->
            live_cons_holding pf Lisp_Cons_tag b (cons_addr pf b i + o) h'
            = Some (cons_addr pf b i)).
  { intros o Ho Hoff. unfold live_cons_holding. cbv zeta. fold sz.
    replace (cons_addr pf b i + o - b) with (i * sz + o)
      by (unfold cons_addr; fold sz; lia).
    rewrite Hb, Z.eqb_refl, Hi. cbn [negb orb].
    assert (E1 : (i * sz + o) ÷ sz = i).
    { rewrite Z.quot_div_nonneg by lia. symmetry.
      apply (Z.div_unique _ _ _ o); lia. }
    assert (E2 : Z.rem (i * sz + o) sz = o).
    { rewrite Z.rem_mod_nonneg by lia. symmetry.
      apply (Z.mod_unique _ _ i); lia. }
    rewrite E1, E2.
    replace ((0 <=? i * sz + o) && (i * sz + o <? NCONS * sz) && (i <? i + 1))
      with true by (symmetry; rewrite !andb_true_iff; split_and!; nia).
    rewrite Hoff.
    replace (cons_addr pf b i + o - o) with (cons_addr pf b i) by lia.
    rewrite Hget. cbn [mbind option_bind car]. by rewrite Hdead. }
  split_and!.
  - unfold live_cons_p.
    replace (cons_addr pf b i) with (cons_addr pf b i + 0) at 1 by lia.
    rewrite (Hhold 0) by (rewrite ?orb_true_r; done || lia).
    cbn [mbind option_bind]. by rewrite Z.eqb_refl.
  - apply Hhold; [lia|]. by rewrite Z.eqb_refl, orb_true_r.
  - unfold live_cons_holding. cbv zeta. fold sz.
    replace (cons_addr pf b (i + 1) - b) with ((i + 1) * sz)
      by (unfold cons_addr; fold sz; lia).
    rewrite Hb, Z.eqb_refl, Hi. cbn [negb orb].
    rewrite Z.quot_mul by lia. rewrite Z.ltb_irrefl.
    by rewrite !andb_false_r.
Qed.

(** X15.  A cell freed by [free_cons] is not live for the conservative
    scan: [live_cons_p] is false of its address. *)
Theorem freed_cons_not_live b n h c0 :
  Z.land b (BLOCK_ALIGN - 1) = 0 -> 0 <= n < NCONS ->
  cons_addr pf b n <> 0 ->
  get_cons pf (cons_addr pf b n) h = Some c0 ->
  deadp pf (dead_object pf) = true ->
  exists h1,
    free_cons pf (cons_addr pf b n) h = Some h1
    /\ live_cons_p pf Lisp_Cons_tag b (cons_addr pf b n) h1 = Some false.
Proof.
  intros Ha Hn Hp Hc Hdead.
  destruct (platform_facts pf Hpf) as (Hsz & _ & HN & _).
  set (p := cons_addr pf b n) in *.
  destruct (set_cons_spec pf p
              {| car := dead_object pf; u := Chain (cons_free_list h) |}
              h c0 Hc)
    as (h' & Hset & Hget & _).
  unfold free_cons. rewrite Hset. cbn [mbind option_bind].
  eexists. split; [reflexivity|].
  set (sz := sizeof_Lisp_Cons pf) in *.
  unfold live_cons_p, live_cons_holding. cbv zeta. fold sz.
  replace (p - b) with (n * sz) by (unfold p, cons_addr; fold sz; lia).
  rewrite Z.rem_mul by lia. rewrite Z.eqb_refl, orb_true_r. cbn [orb].
  replace (p - 0) with p by lia.
  change (get_cons pf p (with_consed _ _ (with_cons_free_list p h')))
    with (get_cons pf p h').
  rewrite Hget. cbn [mbind option_bind car]. rewrite Hdead. cbn [negb].
  apply Z.eqb_neq in Hp.
  destruct (_ && _); cbn [mbind option_bind]; by rewrite Z.eqb_sym, Hp.
Qed.

End platform.

Section platform.
Context (pf : platform) (PURE_P : Z -> bool).
Context (mark_other : Lisp_Object -> state -> option state).
Context (Hpf : platform_ok pf = true).

Local Abbreviation BPW := (BITS_PER_BITS_WORD pf).
Local Abbreviation NCONS := (BLOCK_NCONS pf).

(** *** Marking a list that ends in nil *)

Lemma is_list_elim st l :
  is_list pf PURE_P st l = true ->
  NoDup l
  /\ forall k, (k < length l)%nat ->
       exists p i cdr_,
         l !! k = Some p
         /\ valid_cons pf st p = true /\ PURE_P p = false
         /\ get_cons pf p st = Some {| car := Lisp_Int i; u := Cdr cdr_ |}
         /\ match l !! S k with
            | Some q => cdr_ = Lisp_Cons q
            | None => NILP cdr_ = true
            end.
Proof.
  unfold is_list. rewrite !andb_true_iff. intros [Hnd Hall].
  split; [by apply nodupb_NoDup|].
  intros k Hk. rewrite forallb_forall in Hall.
  specialize (Hall k). rewrite in_seq in Hall.
  specialize (Hall ltac:(lia)).
  destruct (l !! k) as [p|]; [|done].
  rewrite !andb_true_iff, negb_true_iff in Hall.
  destruct Hall as [[Hv Hp] Hc].
  destruct (get_cons pf p st) as [[[] []]|] eqn:Eg; try done.
  exists p, n, cdr. split; [done|]. split; [done|]. split; [done|].
  split; [done|].
  destruct (l !! S k) as [q|].
  - destruct cdr; try done. by apply Z.eqb_eq in Hc as ->.
  - destruct cdr; try done.
Qed.

Lemma list_valid st l p :
  is_list pf PURE_P st l = true -> p ∈ l -> valid_cons pf st p = true.
Proof.
  intros (_ & Hc)%is_list_elim [k Hk]%list_elem_of_lookup_1.
  destruct (Hc k) as (p' & i & c & Hp' & Hv & _).
  { by eapply lookup_lt_Some. }
  congruence.
Qed.

Lemma mark_list_loop st l :
  wf pf st = true -> is_list pf PURE_P st l = true ->
  forall (j k : nat) st1 fuel,
    (k + j = length l)%nat -> (3 * j + 1 <= fuel)%nat ->
    marked_from pf st (take k l) st1 ->
    mark_stk st1 = match l !! k with
                   | Some p => [Lisp_Cons p]
                   | None => []
                   end ->
    exists st2,
      process_mark_stack_loop pf PURE_P mark_other fuel 0 None st1 = Some st2
      /\ marked_from pf st l st2 /\ mark_stk st2 = [].
Proof.
  intros Hwf Hlist.
  destruct (is_list_elim st l Hlist) as (Hnd & Hc).
  induction j as [|j IH]; intros k st1 fuel Hk Hfuel Hm Hstk.
  - assert (k = length l) by lia. subst k.
    rewrite firstn_all in Hm.
    rewrite lookup_ge_None_2 in Hstk by lia.
    destruct fuel as [|fuel]; [lia|].
    cbn [process_mark_stack_loop]. rewrite Hstk. cbn [length].
    simpl (_ >? _). cbn iota. eauto.
  - assert (Hklt : (k < length l)%nat) by lia.
    destruct (Hc k Hklt) as (p & i & cdr_ & Hp & Hv & Hpure & Hcell & Hnext).
    rewrite Hp in Hstk.
    destruct fuel as [|[|[|fuel]]]; try lia.
    cbn [process_mark_stack_loop]. rewrite Hstk. cbn [length]. simpl (_ >? _).
    cbn iota. rewrite Hpure.
    destruct (marked_from_step pf Hpf st (take k l) (with_mark_stk [] st1) p)
      as (Hmk & st2 & Hset & Hm2 & Hstk2); try done.
    { by apply marked_from_mark_stk. }
    { intros (i' & Hi' & Hlt)%elem_of_take.
      pose proof (NoDup_lookup _ _ _ _ Hnd Hi' Hp). lia. }
    { intros p' Hin. eapply list_valid; [done|].
      by eapply subseteq_take. }
    rewrite Hmk. cbn [mbind option_bind]. rewrite Hset. cbn [mbind option_bind].
    rewrite (mf_cells _ _ _ _ Hm2), Hcell. cbn [mbind option_bind u car].
    rewrite <- (take_S_r _ _ _ Hp) in Hm2.
    destruct (l !! S k) as [q|] eqn:Hq.
    + subst cdr_. cbn [NILP negb].
      apply (IH (S k)); [lia|lia| |].
      * by apply marked_from_mark_stk.
      * rewrite Hq. simpl. by rewrite Hstk2.
    + rewrite Hnext. cbn [negb].
      apply (IH (S k)); [lia|lia|done|].
      rewrite Hq. by rewrite Hstk2.
Qed.

Lemma mark_list st l c0 fuel :
  wf pf st = true -> is_list pf PURE_P st l = true ->
  head l = Some c0 -> (3 * length l + 1 <= fuel)%nat ->
  exists st1,
    mark_object pf PURE_P mark_other fuel (Lisp_Cons c0) st = Some st1
    /\ marked_from pf st l st1 /\ mark_stk st1 = [].
Proof.
  intros Hwf Hlist Hhd Hfuel.
  destruct (wf_elim pf st Hwf) as (_ & _ & _ & _ & Hstk).
  unfold mark_object, process_mark_stack. rewrite Hstk. simpl length.
  apply (mark_list_loop st l Hwf Hlist (length l) O); [lia|lia| |].
  - apply marked_from_mark_stk, marked_from_refl.
  - destruct l as [|p l']; [done|]. injection Hhd as ->.
    simpl. by rewrite Hstk.
Qed.

(** *** Sweeping after the cells [ps] are marked *)

Lemma sweep_after_marks st ps st1 :
  wf pf st = true -> marked_from pf st ps st1 ->
  (forall p, p ∈ ps -> valid_cons pf st p = true) ->
  exists st2,
    sweep_conses pf st1 = Some st2
    /\ total_conses st2 = Z.of_nat (length ps)
    /\ (forall p, p ∈ ps ->
          get_cons pf p st2 = get_cons pf p st
          /\ cons_marked_p pf p st2 = Some false).
Proof.
  intros Hwf Hm Hval.
  destruct (wf_elim pf st Hwf) as (Hch & Hnd & Hbs & Hidx & _).
  assert (Hhb : heap_blocks st1 = heap_blocks st).
  { apply heap_blocks_eq; apply Hm. }
  assert (Hmarked : forall b n, b ∈ heap_blocks st -> 0 <= n ->
            mark_bit pf st1 b n = true ->
            exists p, p ∈ ps /\ CONS_BLOCK p = b /\ CONS_INDEX pf p = n).
  { intros b n Hb Hn. rewrite (mf_marks _ _ _ _ Hm) by done.
    destruct (Hbs b Hb) as (_ & _ & ->). simpl.
    intros (p & Hp%list_elem_of_In & Hat)%existsb_exists.
    unfold at_cons in Hat.
    apply andb_true_iff in Hat as [?%Z.eqb_eq ?%Z.eqb_eq].
    eauto. }
  assert (Hvalid : forall p, p ∈ ps ->
            p = cons_addr pf (CONS_BLOCK p) (CONS_INDEX pf p)
            /\ CONS_BLOCK p ∈ heap_blocks st
            /\ 0 <= CONS_INDEX pf p < lim_of pf st (CONS_BLOCK p)).
  { intros p Hp. apply valid_cons_elim. by apply Hval. }
  destruct (sweep_conses_spec pf Hpf st1 (heap_blocks st))
    as (st2 & Esweep & Htotal & Hkept).
  - rewrite (mf_block _ _ _ _ Hm).
    apply block_chain_chain_from with (fuel := S (size (blocks st))).
    by rewrite (mf_chain _ _ _ _ Hm).
  - done.
  - intros b Hb. apply (mf_shape _ _ _ _ Hm). by apply Hbs.
  - by rewrite (mf_index _ _ _ _ Hm).
  - rewrite (mf_index _ _ _ _ Hm). apply (chain_valid_intro pf Hpf); [lia| |].
    + intros b n Hb Hn Hmk.
      destruct (Hmarked b n Hb Hn Hmk) as (p & Hp & <- & <-).
      destruct (Hvalid p Hp) as (_ & _ & Hlt).
      pose proof (lim_of_le pf st (CONS_BLOCK p) Hidx). lia.
    + intros b n Hb Hn Hmk.
      assert (Hin : b ∈ heap_blocks st).
      { destruct (heap_blocks st); [done|]. injection Hb as ->. by left. }
      destruct (Hmarked b n Hin Hn Hmk) as (p & Hp & <- & <-).
      destruct (Hvalid p Hp) as (_ & _ & Hlt).
      destruct (heap_blocks st) as [|b0 bs] eqn:Ebs; [done|].
      injection Hb as ->.
      destruct (block_chain_head _ _ _ _ _ Hch) as [Hc _].
      unfold lim_of in Hlt. rewrite Hc, Z.eqb_refl in Hlt. lia.
  - exists st2. split; [done|]. split.
    { rewrite Htotal. pose proof (mf_count _ _ _ _ Hm) as Hcount.
      unfold count_marks in Hcount. rewrite Hhb in Hcount. rewrite Hcount.
      rewrite chain_marks_zero; [lia|]. intros b n Hb. by apply Hbs. }
    intros p Hp. destruct (Hvalid p Hp) as (Hpa & Hb & Hn).
    pose proof (lim_of_le pf st (CONS_BLOCK p) Hidx) as Hle.
    assert (Hmk : mark_bit pf st1 (CONS_BLOCK p) (CONS_INDEX pf p) = true).
    { rewrite (mf_marks _ _ _ _ Hm) by lia. apply orb_true_iff. right.
      apply existsb_exists. exists p. split; [by apply list_elem_of_In|].
      unfold at_cons. by rewrite !Z.eqb_refl. }
    assert (Hn' : 0 <= CONS_INDEX pf p < NCONS) by lia.
    destruct (Hkept _ _ Hb Hn' Hmk) as (Hs2 & Hg2 & Hm2).
    rewrite <- Hpa in Hg2. split.
    + rewrite Hg2. apply (mf_cells _ _ _ _ Hm).
    + unfold cons_marked_p, XCONS_MARKED_P.
      rewrite (GETMARKBIT_spec pf Hpf); [by rewrite Hm2|done|lia].
Qed.

(** X16.  A list that ends in nil survives a collection: [mark_object]
    on its first cell ends with the mark stack empty and the cells of the
    list marked; [sweep_conses] then counts as many cells in use as the
    list has, and each cell of the list holds what it held, unmarked. *)
Theorem list_survives_collection st l c0 fuel :
  wf pf st = true -> is_list pf PURE_P st l = true ->
  head l = Some c0 -> (3 * length l + 1 <= fuel)%nat ->
  exists st1 st2,
    mark_object pf PURE_P mark_other fuel (Lisp_Cons c0) st = Some st1
    /\ mark_stk st1 = []
    /\ (forall p, p ∈ l -> cons_marked_p pf p st1 = Some true)
    /\ sweep_conses pf st1 = Some st2
    /\ total_conses st2 = Z.of_nat (length l)
    /\ (forall p, p ∈ l ->
          get_cons pf p st2 = get_cons pf p st
          /\ cons_marked_p pf p st2 = Some false).
Proof.
  intros Hwf Hlist Hhd Hfuel.
  destruct (mark_list st l c0 fuel Hwf Hlist Hhd Hfuel)
    as (st1 & Emark & Hm & Hstk).
  destruct (sweep_after_marks st l st1 Hwf Hm) as (st2 & Es & Ht & Hk).
  { intros p Hp. by eapply list_valid. }
  exists st1, st2. split_and!; try done.
  intros p Hp. eapply marked_cons_marked_p; eauto. by eapply list_valid.
Qed.

End platform.

Section platform.
Context (pf : platform) (PURE_P : Z -> bool).
Context (mark_other : Lisp_Object -> state -> option state).
Context (Hpf : platform_ok pf = true).
Context (leaf : Lisp_Object -> bool).

(** *** Marking a structure of cells *)

Lemma held_elim cells obj :
  held PURE_P leaf cells obj = true ->
  match obj with
  | Lisp_Int _ => True
  | Lisp_Cons q => PURE_P q = true \/ q ∈ cells
  | _ => leaf obj = true
  end.
Proof.
  destruct obj; simpl; try done.
  intros [H|H]%orb_true_iff; [by left|right].
  apply existsb_exists in H as (x & Hx%list_elem_of_In & ->%Z.eqb_eq). done.
Qed.

Lemma holds_cons_elim c q :
  holds_cons c q = true -> car c = Lisp_Cons q \/ u c = Cdr (Lisp_Cons q).
Proof.
  unfold holds_cons. intros [H|H]%orb_true_iff.
  - left. destruct (car c); try done. by apply Z.eqb_eq in H as ->.
  - right. destruct (u c) as [[]|]; try done. by apply Z.eqb_eq in H as ->.
Qed.

Lemma is_structure_elim st cells :
  is_structure pf PURE_P leaf st cells = true ->
  NoDup cells
  /\ forall k p, cells !! k = Some p ->
       valid_cons pf st p = true /\ PURE_P p = false
       /\ (exists a d,
             get_cons pf p st = Some {| car := a; u := Cdr d |}
             /\ held PURE_P leaf cells a = true
             /\ (NILP d = true \/ held PURE_P leaf cells d = true))
       /\ (k = O
           \/ exists j q c,
                (j < k)%nat /\ cells !! j = Some q
                /\ get_cons pf q st = Some c /\ holds_cons c p = true).
Proof.
  unfold is_structure. rewrite andb_true_iff. intros [Hnd Hall].
  split; [by apply nodupb_NoDup|]. intros k p Hk.
  rewrite forallb_forall in Hall. specialize (Hall k).
  rewrite in_seq in Hall. apply lookup_lt_Some in Hk as Hlt.
  specialize (Hall ltac:(lia)). rewrite Hk in Hall.
  rewrite !andb_true_iff, negb_true_iff in Hall.
  destruct Hall as [[[Hv Hp] Hc] Hpar].
  split; [done|]. split; [done|]. split.
  - destruct (get_cons pf p st) as [[a [d|]]|]; try done.
    apply andb_true_iff in Hc as [Ha Hd]. exists a, d.
    split; [done|]. split; [done|]. by apply orb_true_iff.
  - apply orb_true_iff in Hpar as [Hk0|Hpar].
    + left. by apply Nat.eqb_eq.
    + right. apply existsb_exists in Hpar as (j & Hj & Hpar).
      apply in_seq in Hj. destruct (cells !! j) as [q|] eqn:Eq; [|done].
      destruct (get_cons pf q st) as [c|] eqn:Ec; [|done].
      exists j, q, c. split; [lia|]. done.
Qed.

Section structure.
Context (Hleaf : forall obj s, leaf obj = true -> mark_other obj s = Some s).
Context (st : state) (cells : list Z).
Context (Hwf : wf pf st = true).
Context (Hst : is_structure pf PURE_P leaf st cells = true).

Local Abbreviation marking := (marking pf PURE_P leaf st cells).

Lemma structure_valid p : p ∈ cells -> valid_cons pf st p = true.
Proof.
  intros [k Hk]%list_elem_of_lookup_1.
  destruct (is_structure_elim st cells Hst) as [_ H].
  by destruct (H k p Hk).
Qed.

Lemma marking_drop ms obj pending :
  marking ms (obj :: pending) ->
  match obj with
  | Lisp_Cons q => PURE_P q = true \/ q ∈ ms
  | _ => True
  end ->
  marking ms pending.
Proof.
  intros [H1 H2 H3 H4 H5] Hobj. split; [done|done| | |].
  - intros o Ho. apply H3. by right.
  - intros q Hq. destruct (H4 q Hq) as [|Hin]; [by left|].
    apply elem_of_cons in Hin as [<- | ]; [|by right].
    destruct Hobj as [Hpure|]; [|by left].
    destruct (is_structure_elim st cells Hst) as [_ H].
    destruct (H O q) as (_ & Hp & _); [by destruct cells|]. congruence.
  - intros p c q Hp Hc Hq Hpure.
    destruct (H5 p c q Hp Hc Hq Hpure) as [|Hin]; [by left|].
    apply elem_of_cons in Hin as [<- | ]; [|by right].
    destruct Hobj as [|]; [congruence|by left].
Qed.

Lemma marking_step ms q a d pending :
  marking ms (Lisp_Cons q :: pending) ->
  q ∈ cells -> q ∉ ms ->
  get_cons pf q st = Some {| car := a; u := Cdr d |} ->
  marking (ms ++ [q])
    (a :: (if negb (NILP d) then d :: pending else pending)).
Proof.
  intros [H1 H2 H3 H4 H5] Hq Hnew Hc.
  destruct (is_structure_elim st cells Hst) as [_ H].
  apply list_elem_of_lookup_1 in Hq as Hk. destruct Hk as [k Hk].
  destruct (H k q Hk) as (_ & _ & (a' & d' & Hc' & Ha & Hd) & _).
  rewrite Hc in Hc'. injection Hc' as <- <-.
  assert (Hsub : forall o, o ∈ pending ->
            o ∈ a :: (if negb (NILP d) then d :: pending else pending)).
  { intros o Ho. right. destruct (negb (NILP d)); [by right|done]. }
  split.
  - apply NoDup_app. split; [done|]. split; [|apply NoDup_singleton].
    intros x Hx ->%list_elem_of_singleton. done.
  - intros p [Hp | ->%list_elem_of_singleton]%elem_of_app; [by apply H2|done].
  - intros o [-> | Ho]%elem_of_cons; [done|].
    destruct (NILP d) eqn:En; simpl in Ho.
    + apply H3. by right.
    + apply elem_of_cons in Ho as [-> | Ho]; [|apply H3; by right].
      by destruct Hd.
  - intros q0 Hq0. destruct (H4 q0 Hq0) as [|Hin].
    { left. apply elem_of_app. by left. }
    apply elem_of_cons in Hin as [[= ->] | Hin].
    + left. apply elem_of_app. right. by apply list_elem_of_singleton.
    + right. by apply Hsub.
  - intros p c q0 [Hp | ->%list_elem_of_singleton]%elem_of_app Hpc Hq0 Hpure.
    + destruct (H5 p c q0 Hp Hpc Hq0 Hpure) as [|Hin].
      { left. apply elem_of_app. by left. }
      apply elem_of_cons in Hin as [[= ->] | Hin].
      * left. apply elem_of_app. right. by apply list_elem_of_singleton.
      * right. by apply Hsub.
    + rewrite Hc in Hpc. injection Hpc as <-.
      apply holds_cons_elim in Hq0 as [Hcar|Hcdr].
      * simpl in Hcar. subst a. right. by left.
      * simpl in Hcdr. injection Hcdr as ->. right. right. simpl. by left.
Qed.

Lemma marking_length ms pending q :
  marking ms pending -> q ∈ cells -> q ∉ ms ->
  (length ms < length cells)%nat.
Proof.
  intros [H1 H2 _ _ _] Hq Hnew.
  assert (Hsub : q :: ms ⊆+ cells).
  { apply NoDup_submseteq; [by apply NoDup_cons|].
    intros x [-> | Hx]%elem_of_cons; [done|by apply H2]. }
  apply submseteq_length in Hsub. simpl in Hsub. lia.
Qed.

Lemma mark_structure_loop : forall fuel ms cur st1,
  marked_from pf st ms st1 ->
  marking ms (option_list cur ++ mark_stk st1) ->
  (3 * (length cells - length ms) + 2 * length (mark_stk st1)
   + length (option_list cur) + 1 <= fuel)%nat ->
  exists ms' st2,
    process_mark_stack_loop pf PURE_P mark_other fuel 0 cur st1 = Some st2
    /\ marked_from pf st ms' st2 /\ mark_stk st2 = []
    /\ marking ms' [].
Proof.
  induction fuel as [|fuel IH]; intros ms cur st1 Hm Hk Hfuel; [lia|].
  cbn [process_mark_stack_loop].
  destruct cur as [obj|]; simpl option_list in Hk, Hfuel;
    cbn [app length] in Hk, Hfuel.
  - pose proof (mk_held _ _ _ _ _ _ _ Hk obj ltac:(by left)) as Hheld.
    apply held_elim in Hheld.
    assert (Hleaf' : forall o, o = obj -> leaf o = true ->
              match o with Lisp_Cons _ | Lisp_Int _ => False | _ => True end ->
              exists ms' st2,
                (st' ← mark_other o st1;
                 process_mark_stack_loop pf PURE_P mark_other fuel 0 None st')
                = Some st2
                /\ marked_from pf st ms' st2 /\ mark_stk st2 = []
                /\ marking ms' []).
    { intros o -> Ho Hobj. rewrite (Hleaf _ _ Ho). cbn [mbind option_bind].
      apply (IH ms None st1); [done| |simpl; lia].
      apply (marking_drop ms obj); [done|]. by destruct obj. }
    destruct obj as [nm|n|s|v|q|d]; try (by apply Hleaf').
    + apply (IH ms None st1); [done| |simpl; lia].
      by apply (marking_drop ms (Lisp_Int n)).
    + destruct (PURE_P q) eqn:Hpure.
      { apply (IH ms None st1); [done| |simpl; lia].
        apply (marking_drop ms (Lisp_Cons q)); [done|by left]. }
      destruct Hheld as [|Hq]; [done|].
      pose proof (structure_valid q Hq) as Hv.
      destruct (decide (q ∈ ms)) as [Hin|Hnew].
      { rewrite (marked_cons_marked_p pf Hpf st ms st1 q); try done.
        cbn [mbind option_bind].
        apply (IH ms None st1); [done| |simpl; lia].
        apply (marking_drop ms (Lisp_Cons q)); [done|by right]. }
      destruct (marked_from_step pf Hpf st ms st1 q)
        as (Hmk & st2 & Hset & Hm2 & Hstk2); try done.
      { intros p' Hp'. apply structure_valid.
        by apply (mk_cells _ _ _ _ _ _ _ Hk). }
      rewrite Hmk. cbn [mbind option_bind]. rewrite Hset.
      cbn [mbind option_bind].
      destruct (is_structure_elim st cells Hst) as [_ H].
      apply list_elem_of_lookup_1 in Hq as Hi. destruct Hi as [i Hi].
      destruct (H i q Hi) as (_ & _ & (a & d & Hc & _) & _).
      rewrite (mf_cells _ _ _ _ Hm2), Hc. cbn [mbind option_bind u car].
      pose proof (marking_length ms _ q Hk Hq Hnew) as Hlen.
      pose proof (marking_step ms q a d _ Hk Hq Hnew Hc) as Hk2.
      destruct (negb (NILP d)) eqn:En.
      * apply (IH (ms ++ [q]) (Some a) (mark_stack_push d st2)).
        -- by apply marked_from_mark_stk.
        -- simpl. by rewrite Hstk2.
        -- rewrite length_app. simpl. rewrite Hstk2. lia.
      * apply (IH (ms ++ [q]) (Some a) st2); [done| |].
        -- simpl. by rewrite Hstk2.
        -- rewrite length_app. simpl. rewrite Hstk2. lia.
  - destruct (mark_stk st1) as [|obj stk] eqn:Estk.
    + simpl. exists ms, st1. done.
    + destruct (Z.gtb_spec (Z.of_nat (length (obj :: stk))) 0) as [_|Hle];
        [|simpl length in Hle; lia].
      apply (IH ms (Some obj) (with_mark_stk stk st1)).
      * by apply marked_from_mark_stk.
      * done.
      * simpl in *. lia.
Qed.

Lemma marking_closed ms :
  marking ms [] -> forall k p, cells !! k = Some p -> p ∈ ms.
Proof.
  intros [_ _ _ H4 H5].
  destruct (is_structure_elim st cells Hst) as [_ H].
  induction k as [k IH] using lt_wf_ind. intros p Hk.
  destruct (H k p Hk) as (_ & Hpure & _ & [->|(j & q & c & Hj & Hq & Hc & Hh)]).
  - destruct (H4 p) as [|Hin]; [by destruct cells|done|].
    by apply elem_of_nil in Hin.
  - destruct (H5 q c p (IH j Hj q Hq) Hc Hh Hpure) as [|Hin]; [done|].
    by apply elem_of_nil in Hin.
Qed.

Lemma mark_structure c0 fuel :
  head cells = Some c0 -> (3 * length cells + 3 <= fuel)%nat ->
  exists ms st1,
    mark_object pf PURE_P mark_other fuel (Lisp_Cons c0) st = Some st1
    /\ marked_from pf st ms st1 /\ mark_stk st1 = []
    /\ (forall p, p ∈ ms <-> p ∈ cells) /\ length ms = length cells.
Proof.
  intros Hhd Hfuel.
  destruct (wf_elim pf st Hwf) as (_ & _ & _ & _ & Hstk).
  destruct (is_structure_elim st cells Hst) as [Hnd _].
  unfold mark_object, process_mark_stack, mark_stack_push.
  rewrite Hstk. simpl length.
  destruct (mark_structure_loop fuel [] None
              (with_mark_stk [Lisp_Cons c0] st))
    as (ms & st1 & E & Hm & Hs & Hk).
  - apply marked_from_mark_stk, marked_from_refl.
  - split.
    + constructor.
    + intros p Hp. by apply elem_of_nil in Hp.
    + intros obj ->%list_elem_of_singleton. simpl.
      apply orb_true_iff. right. apply existsb_exists. exists c0.
      split; [|by apply Z.eqb_eq]. apply list_elem_of_In.
      destruct cells; [done|]. injection Hhd as ->. by left.
    + intros q Hq. right. simpl. rewrite Hhd in Hq. injection Hq as ->.
      by left.
    + intros p c q Hp. by apply elem_of_nil in Hp.
  - simpl. lia.
  - exists ms, st1. split; [done|]. split; [done|]. split; [done|].
    assert (Hiff : forall p, p ∈ ms <-> p ∈ cells).
    { intros p. split; [apply (mk_cells _ _ _ _ _ _ _ Hk)|].
      intros [k Hp]%list_elem_of_lookup_1. by apply (marking_closed ms Hk k). }
    split; [done|]. apply Permutation_length, NoDup_Permutation; try done.
    apply (mk_nodup _ _ _ _ _ _ _ Hk).
Qed.

End structure.

Lemma cycle_in_structure st cyc cells c0 :
  is_cycle pf PURE_P st cyc = true ->
  is_structure pf PURE_P leaf st cells = true ->
  head cyc = Some c0 -> head cells = Some c0 ->
  forall p, p ∈ cyc -> p ∈ cells.
Proof.
  intros Hcyc Hst Hc0 Hc0' p [k Hk]%list_elem_of_lookup_1.
  destruct (is_cycle_elim pf PURE_P st cyc Hcyc) as (_ & _ & Hc).
  destruct (is_structure_elim st cells Hst) as [_ H].
  revert p Hk. induction k as [|k IH]; intros p Hk.
  - destruct cyc as [|x cyc']; [done|]. simpl in Hk, Hc0.
    destruct cells as [|y cells']; [done|]. simpl in Hc0'.
    assert (p = y) as -> by congruence. by left.
  - apply lookup_lt_Some in Hk as Hlt.
    destruct (Hc k ltac:(lia)) as (p' & q & a & Hp' & Hq & _ & _ & Hcell).
    replace (k + 1)%nat with (S k) in Hq by lia.
    rewrite Nat.mod_small in Hq by done.
    rewrite Hk in Hq. injection Hq as <-.
    destruct (Hc (S k) Hlt) as (p0 & _ & _ & Hp0 & _ & _ & Hpure & _).
    rewrite Hk in Hp0. injection Hp0 as <-.
    apply IH, list_elem_of_lookup_1 in Hp' as [i Hi].
    destruct (H i p' Hi) as (_ & _ & (a' & d' & Hcell' & _ & Hd) & _).
    rewrite Hcell in Hcell'. injection Hcell' as <- <-.
    destruct Hd as [|Hd]; [done|].
    apply held_elim in Hd as [|]; [congruence|done].
Qed.


End platform.


Lemma circular_heap_shape : block_shape lp64 (blocks circular_heap) 4096.
Proof.
  split; [reflexivity|]. eexists.
  split; [vm_compute; reflexivity|]. split; vm_compute; reflexivity.
Qed.

Lemma circular_heap_can_cons : can_cons lp64 8192 circular_heap.
Proof.
  split; [reflexivity|]. split; [vm_compute; split; discriminate|].
  split; [intros _; apply circular_heap_shape | reflexivity].
Qed.

Lemma free_cons_then_Fcons_witness :
  exists h1 h2,
    free_cons lp64 4096 circular_heap = Some h1
    /\ Fcons lp64 (Lisp_Int 7) Qnil 8192 h1 = Some (Lisp_Cons 4096, h2)
    /\ get_cons lp64 4096 h2 = Some {| car := Lisp_Int 7; u := Cdr Qnil |}
    /\ cons_free_list h2 = cons_free_list circular_heap
    /\ bytes_since_gc h2 = bytes_since_gc circular_heap.
Proof.
  destruct (free_cons_then_Fcons lp64 4096 (Lisp_Int 7) Qnil 8192
              circular_heap {| car := Lisp_Int 9; u := Cdr Qnil |})
    as (h1 & h2 & H1 & _ & H2 & H3 & H4 & H5 & _).
  - lia.
  - vm_compute. reflexivity.
  - exists h1, h2. split_and!; assumption.
Defined.

Lemma Fcons_takes_next_cell_witness :
  exists h',
    Fcons lp64 (Lisp_Int 7) Qnil 8192 circular_heap
    = Some (Lisp_Cons 4176, h')
    /\ get_cons lp64 4176 h' = Some {| car := Lisp_Int 7; u := Cdr Qnil |}
    /\ cons_block_index h' = 6.
Proof.
  assert (Hpf : platform_ok lp64 = true) by (vm_compute; reflexivity).
  destruct (Fcons_takes_next_cell lp64 Hpf (Lisp_Int 7) Qnil 8192
              circular_heap circular_heap_can_cons)
    as (h' & H1 & H2 & _ & _ & H3 & _).
  - vm_compute. discriminate.
  - exists h'. split_and!; [exact H1 | exact H2 | exact H3].
Defined.

Lemma mark_bits_independent_witness :
  exists st1 st2,
    XMARK_CONS lp64 4128 circular_heap = Some st1
    /\ XCONS_MARKED_P lp64 4128 st1 = Some true
    /\ XUNMARK_CONS lp64 4128 st1 = Some st2
    /\ XCONS_MARKED_P lp64 4128 st2 = Some false
    /\ XCONS_MARKED_P lp64 4112 st1 = XCONS_MARKED_P lp64 4112 circular_heap.
Proof.
  assert (Hpf : platform_ok lp64 = true) by (vm_compute; reflexivity).
  destruct (mark_bits_independent lp64 Hpf 4096 2 circular_heap
              circular_heap_shape)
    as (st1 & st2 & H1 & H2 & H3 & H4 & _ & H5).
  - vm_compute. split; [discriminate | reflexivity].
  - exists st1, st2. split_and!; try assumption.
    apply (H5 4096 1 circular_heap_shape).
    + vm_compute. split; [discriminate | reflexivity].
    + right. lia.
Defined.

Lemma Fcons_cell_is_live_witness :
  exists h',
    Fcons lp64 (Lisp_Int 7) Qnil 8192 circular_heap
    = Some (Lisp_Cons 4176, h')
    /\ live_cons_p lp64 3 4096 4176 h' = Some true
    /\ live_cons_holding lp64 3 4096 4184 h' = Some 4176
    /\ live_cons_holding lp64 3 4096 4192 h' = Some 0.
Proof.
  assert (Hpf : platform_ok lp64 = true) by (vm_compute; reflexivity).
  apply (Fcons_cell_is_live lp64 Hpf 3 (Lisp_Int 7) Qnil 8192 circular_heap
           circular_heap_can_cons).
  - vm_compute. discriminate.
  - reflexivity.
  - vm_compute. split; reflexivity.
Defined.

Lemma freed_cons_not_live_witness :
  exists h1,
    free_cons lp64 4128 circular_heap = Some h1
    /\ live_cons_p lp64 3 4096 4128 h1 = Some false.
Proof.
  assert (Hpf : platform_ok lp64 = true) by (vm_compute; reflexivity).
  apply (freed_cons_not_live lp64 Hpf 3 4096 2 circular_heap
           {| car := Lisp_Int 2; u := Cdr (Lisp_Cons 4112) |}).
  - reflexivity.
  - vm_compute. split; [discriminate | reflexivity].
  - vm_compute. discriminate.
  - vm_compute. reflexivity.
  - reflexivity.
Defined.

Lemma list_survives_collection_witness :
  wf lp64 three_list_heap = true
  /\ is_list lp64 (fun _ => false) three_list_heap [4128; 4112; 4096] = true
  /\ exists st1 st2,
       mark_object lp64 (fun _ => false) (fun _ st => Some st) 10
         (Lisp_Cons 4128) three_list_heap
       = Some st1
       /\ mark_stk st1 = []
       /\ (forall p, p ∈ [4128; 4112; 4096] ->
             cons_marked_p lp64 p st1 = Some true)
       /\ sweep_conses lp64 st1 = Some st2
       /\ total_conses st2 = 3
       /\ (forall p, p ∈ [4128; 4112; 4096] ->
             get_cons lp64 p st2 = get_cons lp64 p three_list_heap
             /\ cons_marked_p lp64 p st2 = Some false).
Proof.
  assert (Hpf : platform_ok lp64 = true) by (vm_compute; reflexivity).
  split; [vm_compute; reflexivity|]. split; [vm_compute; reflexivity|].
  apply (list_survives_collection lp64 (fun _ => false)
           (fun _ st => Some st) Hpf three_list_heap
           [4128; 4112; 4096] 4128 10).
  - vm_compute; reflexivity.
  - vm_compute; reflexivity.
  - reflexivity.
  - simpl. lia.
Defined.

End ConsesProofs.
(** ** The collector's entry points and its thresholds *)
Module GcProofs.
Import Lisp Gc ConsesProofs.
Local Open Scope Z_scope.
(** *** Integers that a double holds exactly *)

Lemma digits2_pos_le m : 2 ^ (Z.pos (digits2_pos m) - 1) <= Z.pos m.
Proof.
  induction m as [m IH|m IH|]; cbn [digits2_pos]; [| |done].
  - rewrite Pos2Z.inj_succ.
    replace (Z.succ (Z.pos (digits2_pos m)) - 1)
      with (Z.succ (Z.pos (digits2_pos m) - 1)) by lia.
    rewrite Z.pow_succ_r by lia. lia.
  - rewrite Pos2Z.inj_succ.
    replace (Z.succ (Z.pos (digits2_pos m)) - 1)
      with (Z.succ (Z.pos (digits2_pos m) - 1)) by lia.
    rewrite Z.pow_succ_r by lia. lia.
Qed.

Lemma iter_xO_spec k : forall m,
  Z.pos (Pos.iter xO m k) = Z.pos m * 2 ^ Z.pos k
  /\ digits2_pos (Pos.iter xO m k) = (digits2_pos m + k)%positive.
Proof.
  induction k as [|k IH] using Pos.peano_ind; intros m.
  - cbn [Pos.iter]. split; [lia|]. cbn [digits2_pos]. lia.
  - rewrite Pos.iter_succ. destruct (IH m) as [E1 E2].
    cbn [digits2_pos]. rewrite E2. split; [|lia].
    rewrite Pos2Z.inj_xO, E1, Pos2Z.inj_succ, Z.pow_succ_r by lia. lia.
Qed.

Lemma binary_round_exact s m :
  Z.pos m < 2 ^ 53 ->
  exists mz k,
    binary_round 53 1024 s m 0 = S754_finite s mz (- k)
    /\ 0 <= k < 53 /\ Z.pos mz = Z.pos m * 2 ^ k.
Proof.
  intros Hm. pose proof (digits2_pos_le m) as Hd.
  assert (Hd53 : Z.pos (digits2_pos m) <= 53).
  { destruct (Z.le_gt_cases (Z.pos (digits2_pos m)) 53) as [|Hgt]; [done|].
    assert (2 ^ 53 <= 2 ^ (Z.pos (digits2_pos m) - 1))
      by (apply Z.pow_le_mono_r; lia).
    lia. }
  assert (Haux : forall mz k,
            Z.pos (digits2_pos mz) = 53 -> 0 <= k < 53 ->
            binary_round_aux 53 1024 s (Z.pos mz) (- k) loc_Exact
            = S754_finite s mz (- k)).
  { intros mz k Hmz Hk. unfold binary_round_aux, shr_fexp.
    cbn [Zdigits2 shr_record_of_loc]. rewrite Hmz.
    assert (E0 : fexp 53 1024 (53 + - k) - - k = 0).
    { unfold fexp, emin. lia. }
    rewrite E0. cbn [shr shr_m round_nearest_even loc_of_shr_record].
    cbn [Zdigits2 shr_record_of_loc]. rewrite Hmz, E0.
    cbn [shr shr_m].
    destruct (Z.leb_spec (- k) (1024 - 53)); [done|lia]. }
  unfold binary_round.
  assert (Ef : fexp 53 1024 (Z.pos (digits2_pos m) + 0)
               = Z.pos (digits2_pos m) - 53).
  { unfold fexp, emin. lia. }
  rewrite Ef. unfold shl_align. rewrite Z.sub_0_r.
  destruct (Z.pos (digits2_pos m) - 53) as [|p|p] eqn:Ek; [|lia|].
  - exists m, 0. rewrite <- (Z.opp_0) at 1.
    rewrite (Haux m 0) by lia. split; [done|]. split; [lia|lia].
  - destruct (iter_xO_spec p m) as [E1 E2].
    exists (Pos.iter xO m p), (Z.pos p).
    replace (Z.neg p) with (- Z.pos p) by done.
    split; [|split; [lia|done]].
    apply Haux; [|lia]. rewrite E2, Pos2Z.inj_add. lia.
Qed.

Lemma double_of_Z_exact n :
  - 2 ^ 53 < n < 2 ^ 53 -> intmax_of_double (double_of_Z n) = Some n.
Proof.
  intros Hn. unfold double_of_Z, binary_normalize.
  destruct n as [|m|m]; [done| |].
  - destruct (binary_round_exact false m) as (mz & k & -> & Hk & Hz); [lia|].
    unfold intmax_of_double. cbn [cond_Zopp].
    rewrite Z.shiftl_opp_r, Z.shiftr_div_pow2, Hz, Z.div_mul by lia.
    unfold INTMAX_MIN, INTMAX_MAX.
    destruct (Z.leb_spec (- 2 ^ 63) (Z.pos m)); [|lia].
    destruct (Z.leb_spec (Z.pos m) (2 ^ 63 - 1)); [done|lia].
  - destruct (binary_round_exact true m) as (mz & k & -> & Hk & Hz); [lia|].
    unfold intmax_of_double. cbn [cond_Zopp].
    rewrite Z.shiftl_opp_r, Z.shiftr_div_pow2, Hz, Z.div_mul by lia.
    unfold INTMAX_MIN, INTMAX_MAX.
    destruct (Z.leb_spec (- 2 ^ 63) (- Z.pos m)); [|lia].
    destruct (Z.leb_spec (- Z.pos m) (2 ^ 63 - 1)); [done|lia].
Qed.

Section platform.
Context (pf : platform).
Context (mark_and_sweep : gc_state -> option gc_state).
Context (finalizers_and_hook : gc_state -> option gc_state).

Local Abbreviation garbage_collect :=
  (garbage_collect pf mark_and_sweep finalizers_and_hook).
Local Abbreviation Fgarbage_collect :=
  (Fgarbage_collect pf mark_and_sweep finalizers_and_hook).
Local Abbreviation Fgarbage_collect_maybe :=
  (Fgarbage_collect_maybe pf mark_and_sweep finalizers_and_hook).
Local Abbreviation maybe_garbage_collect :=
  (maybe_garbage_collect pf mark_and_sweep finalizers_and_hook).

(** *** The guards *)

Lemma garbage_collect_guard st :
  gc_inhibited st = true \/ gc_in_progress st = true ->
  garbage_collect st = Some st.
Proof.
  intros H. unfold Gc.garbage_collect.
  destruct (gc_inhibited st), (gc_in_progress st); try done. by destruct H.
Qed.

Lemma gc_statistics_spec new st :
  Conses.platform_ok pf = true -> Conses.cons_ready pf new (heap st) ->
  exists p h,
    gc_statistics pf new st = Some (Lisp_Cons p, with_heap h st)
    /\ Conses.consed pf 42 (heap st) h /\ Conses.cons_ready pf new h.
Proof.
  intros Hpf H0. unfold gc_statistics. cbv zeta.
  repeat match goal with
  | H : Conses.cons_ready pf new ?h
    |- context [Conses.list4 pf ?a ?b ?c ?d new ?h] =>
      let p := fresh "p" in let h' := fresh "h" in
      let E := fresh "E" in let C := fresh "C" in let H' := fresh "H" in
      destruct (list4_ready pf Hpf a b c d new h H) as (p & h' & E & C & H');
      rewrite E; cbn [mbind option_bind]; clear E
  | H : Conses.cons_ready pf new ?h
    |- context [Conses.list3 pf ?a ?b ?c new ?h] =>
      let p := fresh "p" in let h' := fresh "h" in
      let E := fresh "E" in let C := fresh "C" in let H' := fresh "H" in
      destruct (list3_ready pf Hpf a b c new h H) as (p & h' & E & C & H');
      rewrite E; cbn [mbind option_bind]; clear E
  end.
  match goal with
  | H : Conses.cons_ready pf new ?h |- context [Conses.Flist pf ?l new ?h] =>
      destruct (Flist_loop_ready pf Hpf (rev l) Qnil new h H)
        as (vl & hl & El & Cl & Hl & Hv)
  end.
  unfold Conses.Flist. rewrite El. cbn [mbind option_bind].
  destruct Hv as [p' ->]; [done|]. exists p', hl. split; [done|].
  split; [|done].
  repeat match goal with
  | H1 : Conses.consed pf ?n ?a ?b, H2 : Conses.consed pf ?m ?b ?c |- _ =>
      pose proof (consed_trans pf n m a b c H1 H2); clear H1 H2
  end.
  simpl in *. done.
Qed.

(** C10, amended: while the collector is inhibited or a collection is in
    progress, [garbage_collect] returns at once and leaves the whole state
    as it was.  [Fgarbage_collect] returns nil, with the state as it was,
    when the collector is inhibited.  When only a collection is in
    progress, as in a finalizer, it does not collect either, but it still
    builds and returns the list of statistics: whatever the length of the
    free list of conses, the value is a cons, and building it conses 42
    cells, so the free list, the cons blocks and [bytes_since_gc]
    change. *)
Theorem collector_guards new st :
  (gc_inhibited st = true \/ gc_in_progress st = true ->
     garbage_collect st = Some st)
  /\ (gc_inhibited st = true -> Fgarbage_collect new st = Some (Qnil, st))
  /\ (gc_inhibited st = false -> gc_in_progress st = true ->
      Fgarbage_collect new st = gc_statistics pf new st
      /\ (Conses.platform_ok pf = true ->
          Conses.cons_ready pf new (heap st) ->
          exists p h,
            Fgarbage_collect new st = Some (Lisp_Cons p, with_heap h st)
            /\ Conses.consed pf 42 (heap st) h)).
Proof.
  split; [apply garbage_collect_guard|]. split.
  - intros Hi. unfold Gc.Fgarbage_collect. by rewrite Hi.
  - intros Hi Hp.
    assert (E : Fgarbage_collect new st = gc_statistics pf new st).
    { unfold Gc.Fgarbage_collect. rewrite Hi.
      rewrite garbage_collect_guard by (by right). done. }
    split; [done|]. intros Hpf Hc. rewrite E.
    destruct (gc_statistics_spec new st Hpf Hc) as (p & h & Es & C & _).
    eauto.
Qed.

(** *** The thresholds *)

Lemma quot_gt b t n :
  1 <= n -> 0 <= t -> (b >? t ÷ n) = (t <? b * n).
Proof.
  intros Hn Ht. rewrite Z.quot_div_nonneg by lia.
  pose proof (Z.div_mod t n ltac:(lia)) as Hd.
  pose proof (Z.mod_pos_bound t n ltac:(lia)) as Hm.
  destruct (Z.gtb_spec b (t / n)), (Z.ltb_spec t (b * n)); try done; nia.
Qed.

Lemma percentage_threshold_frame d st st' :
  heap st' = heap st -> gcstat st' = gcstat st ->
  percentage_threshold pf d st' = percentage_threshold pf d st.
Proof.
  intros Hh Hg. unfold percentage_threshold, total_bytes_of_live_objects.
  by rewrite Hh, Hg.
Qed.

(** What [garbage_collect] does when nothing stops it. *)
Lemma garbage_collect_runs st :
  gc_inhibited st = false -> gc_in_progress st = false ->
  garbage_collect st
  = st1 ← mark_and_sweep (with_gc_in_progress true st);
    st2 ← update_bytes_between_gc pf (with_bytes_since_gc 0 st1);
    st3 ← finalizers_and_hook st2;
    let st4 := make_float pf (with_gc_in_progress false st3) in
    Some (with_gcs_done (gcs_done st4 + 1) st4).
Proof. intros Hi Hp. unfold Gc.garbage_collect. by rewrite Hi, Hp. Qed.

Lemma update_bytes_between_gc_max st p :
  intmax_of_double (threshold1_double pf st) = Some p ->
  update_bytes_between_gc pf st
  = Some (with_bytes_between_gc (Z.max (gc_cons_threshold st) p) st).
Proof. intros Hp. unfold update_bytes_between_gc. by rewrite Hp. Qed.

(** C1, amended.  [watch_gc_cons_threshold] raises a configured threshold
    [T] to at least [GC_DEFAULT_THRESHOLD >> 3]; the effective threshold
    [bytes_between_gc] is the larger of that and of the percentage part.
    The percentage part is a double converted to an integer: the product
    of the percentage and of the bytes of the live objects or, when the
    percentage is not a float, the raised threshold itself, which the
    conversion to a double rounds, and leaves as it is below [2 ^ 53].
    Each watcher recomputes the effective threshold at once.  [Fgarbage_collect_maybe] with a factor [N] calls
    the collector and returns t exactly when [N] is at least one and the
    bytes consed since the last collection exceed the effective threshold
    divided by [N]; the call collects unless the collector is inhibited
    or a collection is in progress, and then the state stays as it is.
    The automatic trigger does what [Fgarbage_collect_maybe] does with the
    factor one, and after a watcher it compares with the threshold that
    the watcher has just recomputed. *)
Theorem effective_threshold st :
  (forall T p,
     INTMAX_MIN <= T <= INTMAX_MAX ->
     match Vgc_cons_percentage st with
     | Lisp_Float d => percentage_threshold pf d st
     | _ =>
         intmax_of_double
           (double_of_Z (Z.max T (Z.shiftr (GC_DEFAULT_THRESHOLD pf) 3)))
     end = Some p ->
     exists st',
       watch_gc_cons_threshold pf (Lisp_Int T) st = Some (Qnil, st')
       /\ gc_cons_threshold st'
          = Z.max T (Z.shiftr (GC_DEFAULT_THRESHOLD pf) 3)
       /\ bytes_between_gc st'
          = Z.max (Z.max T (Z.shiftr (GC_DEFAULT_THRESHOLD pf) 3)) p
       /\ maybe_garbage_collect st'
          = if Z.max (Z.max T (Z.shiftr (GC_DEFAULT_THRESHOLD pf) 3)) p
               <? bytes_since_gc st
            then garbage_collect st' else Some st')
  /\ (forall T,
        INTMAX_MIN <= T -> FLOATP (Vgc_cons_percentage st) = false ->
        - 2 ^ 53 < Z.max T (Z.shiftr (GC_DEFAULT_THRESHOLD pf) 3) < 2 ^ 53 ->
        exists st',
          watch_gc_cons_threshold pf (Lisp_Int T) st = Some (Qnil, st')
          /\ bytes_between_gc st'
             = Z.max T (Z.shiftr (GC_DEFAULT_THRESHOLD pf) 3))
  /\ (forall P p,
        percentage_threshold pf P st = Some p ->
        exists st',
          watch_gc_cons_percentage pf (Lisp_Float P) st = Some (Qnil, st')
          /\ Vgc_cons_percentage st' = Lisp_Float P
          /\ gc_cons_threshold st' = gc_cons_threshold st
          /\ bytes_between_gc st' = Z.max (gc_cons_threshold st) p
          /\ maybe_garbage_collect st'
             = if Z.max (gc_cons_threshold st) p <? bytes_since_gc st
               then garbage_collect st' else Some st')
  /\ (forall N,
        0 <= N <= MOST_POSITIVE_FIXNUM pf ->
        Fgarbage_collect_maybe (Lisp_Int N) st
        = if (1 <=? N) && (bytes_between_gc st ÷ N <? bytes_since_gc st)
          then
            if gc_inhibited st || gc_in_progress st
            then Some (Returns Qt st)
            else
              st1 ← mark_and_sweep (with_gc_in_progress true st);
              st2 ← update_bytes_between_gc pf (with_bytes_since_gc 0 st1);
              st3 ← finalizers_and_hook st2;
              let st4 := make_float pf (with_gc_in_progress false st3) in
              Some (Returns Qt (with_gcs_done (gcs_done st4 + 1) st4))
          else Some (Returns Qnil st))
  /\ (forall N,
        1 <= N -> 0 <= bytes_between_gc st ->
        (bytes_between_gc st ÷ N <? bytes_since_gc st)
        = (bytes_between_gc st <? bytes_since_gc st * N))
  /\ (1 <= MOST_POSITIVE_FIXNUM pf ->
      Fgarbage_collect_maybe (Lisp_Int 1) st
      = st' ← maybe_garbage_collect st;
        Some (Returns (if bytes_between_gc st <? bytes_since_gc st
                       then Qt else Qnil) st')).
Proof.
  split_and!.
  - intros T p HT Hp. unfold watch_gc_cons_threshold. cbn [INTEGERP].
    destruct HT as [H1%Z.leb_le H2%Z.leb_le]. rewrite H1, H2. cbn [andb].
    rewrite (update_bytes_between_gc_max _ p).
    + cbn [mbind option_bind]. eexists. split; [done|].
      split; [done|]. split; [done|].
      unfold Gc.maybe_garbage_collect. rewrite Z.gtb_ltb. done.
    + unfold threshold1_double.
      cbn [Vgc_cons_percentage with_gc_cons_threshold gc_cons_threshold].
      destruct (Vgc_cons_percentage st); done.
  - intros T HT Hf Hr. unfold watch_gc_cons_threshold. cbn [INTEGERP].
    replace ((INTMAX_MIN <=? T) && (T <=? INTMAX_MAX)) with true
      by (unfold INTMAX_MAX; lia).
    rewrite (update_bytes_between_gc_max _
               (Z.max T (Z.shiftr (GC_DEFAULT_THRESHOLD pf) 3))).
    + cbn [mbind option_bind]. eexists. split; [done|].
      cbn [bytes_between_gc with_bytes_between_gc gc_cons_threshold
           with_gc_cons_threshold]. lia.
    + unfold threshold1_double.
      cbn [Vgc_cons_percentage with_gc_cons_threshold gc_cons_threshold].
      destruct (Vgc_cons_percentage st); try done;
        by apply double_of_Z_exact.
  - intros P p Hp. unfold watch_gc_cons_percentage. cbn [FLOATP].
    rewrite (update_bytes_between_gc_max _ p).
    + cbn [mbind option_bind]. eexists. split; [done|]. split; [done|].
      split; [done|]. split; [done|].
      unfold Gc.maybe_garbage_collect. rewrite Z.gtb_ltb. done.
    + done.
  - intros N [H1%Z.leb_le H2%Z.leb_le].
    unfold Gc.Fgarbage_collect_maybe, FIXNATP. rewrite H1, H2. cbn [andb].
    rewrite Z.geb_leb, Z.gtb_ltb.
    destruct ((1 <=? N) && _); [|done].
    destruct (gc_inhibited st) eqn:Hi.
    { rewrite garbage_collect_guard by (by left). done. }
    destruct (gc_in_progress st) eqn:Hp.
    { rewrite garbage_collect_guard by (by right). done. }
    rewrite garbage_collect_runs by done. cbn [orb].
    destruct (mark_and_sweep _) as [st1|]; [|done]. cbn [mbind option_bind].
    destruct (update_bytes_between_gc pf _) as [st2|]; [|done].
    cbn [mbind option_bind].
    destruct (finalizers_and_hook st2) as [st3|]; done.
  - intros N HN Hb. rewrite <- Z.gtb_ltb. by apply quot_gt.
  - intros HM. unfold Gc.Fgarbage_collect_maybe, FIXNATP.
    destruct (Z.leb_spec 1 (MOST_POSITIVE_FIXNUM pf)) as [_|]; [|lia].
    cbn [Z.leb andb Z.geb Z.compare Pos.compare]. rewrite Z.quot_1_r.
    unfold Gc.maybe_garbage_collect. rewrite Z.gtb_ltb.
    destruct (_ <? _); [|done].
    by destruct (garbage_collect st).
Qed.

End platform.

(** C10, as stated, fails: only [gc_in_progress] is set;
    [Fgarbage_collect] returns a list, not nil, and 42 conses (672 bytes)
    have been allocated in a new block.  In the state of a finalizer, the
    free list holds two cells: it is empty afterwards, and 40 more cells
    of the block are taken. *)
Lemma Fgarbage_collect_in_progress_example :
  (gc_inhibited (example_state false true) = false
   /\ gc_in_progress (example_state false true) = true
   /\ bytes_since_gc (example_state false true) = 0
   /\ exists st',
        Fgarbage_collect lp64 Some Some 4096 (example_state false true)
        = Some (Lisp_Cons 4752, st')
        /\ bytes_since_gc st' = 672
        /\ Conses.cons_cells_consed (heap st') = 42
        /\ Conses.cons_block (heap st') = 4096
        /\ Conses.cons_block (heap (example_state false true)) = 0)
  /\ (gc_inhibited finalizer_state = false
      /\ gc_in_progress finalizer_state = true
      /\ bytes_since_gc finalizer_state = 0
      /\ Conses.cons_free_list (heap finalizer_state) = 4144
      /\ Conses.cons_block_index (heap finalizer_state) = 5
      /\ exists st',
           Fgarbage_collect lp64 Some Some 8192 finalizer_state
           = Some (Lisp_Cons 4800, st')
           /\ bytes_since_gc st' = 672
           /\ Conses.cons_free_list (heap st') = 0
           /\ Conses.cons_block_index (heap st') = 45).
Proof.
  split.
  - split; [done|]. split; [done|]. split; [done|].
    eexists. split; [vm_compute; reflexivity|]. by split_and!.
  - split; [done|]. split; [done|]. split; [done|].
    split; [vm_compute; reflexivity|]. split; [vm_compute; reflexivity|].
    eexists. split; [vm_compute; reflexivity|]. by split_and!.
Qed.

Lemma finalizer_state_ready :
  Conses.cons_ready lp64 8192 (heap finalizer_state).
Proof.
  split.
  - exists [4144; 4096]. split.
    + apply NoDup_cons. split; [|apply NoDup_singleton].
      intros H%list_elem_of_singleton. discriminate H.
    + split; [vm_compute; reflexivity|]. split; [done|].
      split; [vm_compute; reflexivity|]. eexists _, 4096.
      split; [vm_compute; reflexivity|]. split; [reflexivity|].
      split; [reflexivity|]. split; [done|].
      split; [vm_compute; reflexivity|]. eexists _, 0.
      split; [vm_compute; reflexivity|]. split; [reflexivity|].
      reflexivity.
  - split; [vm_compute; split; discriminate|]. split; [|reflexivity].
    intros _. split; [reflexivity|]. eexists.
    split; [vm_compute; reflexivity|]. split; reflexivity.
Qed.

Lemma collector_guards_witness :
  (garbage_collect lp64 Some Some (example_state true false)
   = Some (example_state true false)
   /\ Fgarbage_collect lp64 Some Some 4096 (example_state true false)
      = Some (Qnil, example_state true false))
  /\ exists p h,
       Fgarbage_collect lp64 Some Some 8192 finalizer_state
       = Some (Lisp_Cons p, with_heap h finalizer_state)
       /\ Conses.consed lp64 42 (heap finalizer_state) h.
Proof.
  split.
  - destruct (collector_guards lp64 Some Some 4096 (example_state true false))
      as (H1 & H2 & _).
    split; [apply H1; by left|by apply H2].
  - destruct (collector_guards lp64 Some Some 8192 finalizer_state)
      as (_ & _ & H3).
    destruct (H3 eq_refl eq_refl) as [_ H4]. apply H4.
    + vm_compute. reflexivity.
    + exact finalizer_state_ready.
Defined.

(** C1, as stated, fails: the threshold is set to 1000 and the percentage
    part is 1964; the effective threshold is 131072, not 1964.  And while
    the collector is inhibited, 2000000 bytes consed exceed the effective
    threshold of 1048576, [Fgarbage_collect_maybe] returns t, and nothing
    is collected: the marking and the sweep do not run. *)
Lemma threshold_floor_example :
  (exists st',
     watch_gc_cons_threshold lp64 (Lisp_Int 1000) (example_state false false)
     = Some (Qnil, st')
     /\ percentage_threshold lp64 one_tenth st' = Some 1964
     /\ bytes_between_gc st' = 131072
     /\ bytes_between_gc st' <> Z.max 1000 1964)
  /\ bytes_between_gc (with_bytes_since_gc 2000000 (example_state true false))
     = 1048576
  /\ bytes_since_gc (with_bytes_since_gc 2000000 (example_state true false))
     = 2000000
  /\ Fgarbage_collect_maybe lp64 (fun _ => None) Some (Lisp_Int 1)
       (with_bytes_since_gc 2000000 (example_state true false))
     = Some (Returns Qt
               (with_bytes_since_gc 2000000 (example_state true false))).
Proof.
  split.
  - eexists. split; [vm_compute; reflexivity|].
    split; [vm_compute; reflexivity|].
    split; [vm_compute; reflexivity|]. vm_compute. discriminate.
  - split; [vm_compute; reflexivity|]. split; [vm_compute; reflexivity|].
    vm_compute. reflexivity.
Qed.

(** With a percentage that is not a float, a threshold above [2 ^ 53] is
    rounded on its way through a double. *)
Lemma threshold_rounded_example :
  exists st',
    watch_gc_cons_threshold lp64 (Lisp_Int (2 ^ 53 + 3))
      (with_Vgc_cons_percentage Qnil (example_state false false))
    = Some (Qnil, st')
    /\ gc_cons_threshold st' = 2 ^ 53 + 3
    /\ bytes_between_gc st' = 2 ^ 53 + 4.
Proof.
  eexists. split; [vm_compute; reflexivity|]. split; reflexivity.
Qed.

Lemma effective_threshold_witness :
  (exists st',
     watch_gc_cons_threshold lp64 (Lisp_Int 2000000) (example_state false false)
     = Some (Qnil, st')
     /\ gc_cons_threshold st'
        = Z.max 2000000 (Z.shiftr (GC_DEFAULT_THRESHOLD lp64) 3)
     /\ bytes_between_gc st'
        = Z.max (Z.max 2000000 (Z.shiftr (GC_DEFAULT_THRESHOLD lp64) 3)) 1964
     /\ maybe_garbage_collect lp64 Some Some st'
        = if Z.max (Z.max 2000000 (Z.shiftr (GC_DEFAULT_THRESHOLD lp64) 3))
               1964
             <? bytes_since_gc (example_state false false)
          then garbage_collect lp64 Some Some st' else Some st')
  /\ (exists st',
        watch_gc_cons_percentage lp64 (Lisp_Float (double_of_Z 100))
          (example_state false false)
        = Some (Qnil, st')
        /\ Vgc_cons_percentage st' = Lisp_Float (double_of_Z 100)
        /\ gc_cons_threshold st' = gc_cons_threshold (example_state false false)
        /\ bytes_between_gc st'
           = Z.max (gc_cons_threshold (example_state false false)) 1964800
        /\ maybe_garbage_collect lp64 Some Some st'
           = if Z.max (gc_cons_threshold (example_state false false)) 1964800
                <? bytes_since_gc (example_state false false)
             then garbage_collect lp64 Some Some st' else Some st')
  /\ (bytes_between_gc (example_state false false) ÷ 4
      <? bytes_since_gc (example_state false false))
     = (bytes_between_gc (example_state false false)
        <? bytes_since_gc (example_state false false) * 4)
  /\ Fgarbage_collect_maybe lp64 Some Some (Lisp_Int 1)
       (example_state false false)
     = (st' ← maybe_garbage_collect lp64 Some Some
                (example_state false false);
        Some (Returns
                (if bytes_between_gc (example_state false false)
                    <? bytes_since_gc (example_state false false)
                 then Qt else Qnil) st'))
  /\ Fgarbage_collect_maybe lp64 Some Some (Lisp_Int 4)
       (example_state false false)
     = Some (Returns Qnil (example_state false false))
  /\ exists st',
       watch_gc_cons_threshold lp64 (Lisp_Int 2000000)
         (with_Vgc_cons_percentage Qnil (example_state false false))
       = Some (Qnil, st')
       /\ bytes_between_gc st'
          = Z.max 2000000 (Z.shiftr (GC_DEFAULT_THRESHOLD lp64) 3).
Proof.
  destruct (effective_threshold lp64 Some Some (example_state false false))
    as (H1 & _ & H2 & H3 & H4 & H5).
  destruct (effective_threshold lp64 Some Some
              (with_Vgc_cons_percentage Qnil (example_state false false)))
    as (_ & H6 & _).
  split; [|split; [|split; [|split; [|split]]]].
  - apply (H1 2000000 1964).
    + split; apply Z.leb_le; vm_compute; reflexivity.
    + vm_compute. reflexivity.
  - apply (H2 (double_of_Z 100) 1964800). vm_compute. reflexivity.
  - apply H4; [lia|]. vm_compute. discriminate.
  - apply H5. vm_compute. discriminate.
  - rewrite H3; [reflexivity|].
    split; apply Z.leb_le; vm_compute; reflexivity.
  - apply H6.
    + vm_compute. discriminate.
    + reflexivity.
    + vm_compute. split; reflexivity.
Defined.

(** *** After a collection; the watchers *)
Section platform.
Context (pf : platform).
Context (mark_and_sweep : gc_state -> option gc_state).
Context (finalizers_and_hook : gc_state -> option gc_state).

Local Abbreviation garbage_collect :=
  (garbage_collect pf mark_and_sweep finalizers_and_hook).
Local Abbreviation Fgarbage_collect_maybe :=
  (Fgarbage_collect_maybe pf mark_and_sweep finalizers_and_hook).

Lemma update_bytes_between_gc_spec st st' :
  update_bytes_between_gc pf st = Some st' ->
  gc_cons_threshold st <= bytes_between_gc st'
  /\ gc_cons_threshold st' = gc_cons_threshold st
  /\ Vgc_cons_percentage st' = Vgc_cons_percentage st
  /\ heap st' = heap st /\ gcstat st' = gcstat st
  /\ gc_inhibited st' = gc_inhibited st
  /\ gc_in_progress st' = gc_in_progress st
  /\ gcs_done st' = gcs_done st.
Proof.
  unfold update_bytes_between_gc. cbv zeta.
  destruct (intmax_of_double _) as [t1|]; [|done].
  cbn [mbind option_bind]. intros [= <-]. cbn. split_and!; try done. lia.
Qed.

(** X17.  What a collection that runs to its end leaves behind.
    [bytes_since_gc] is reset to zero and [bytes_between_gc] is
    recomputed, to at least [gc_cons_threshold], before the finalizers
    and the hook run; on return [bytes_since_gc] holds what these have
    left plus the size of the float that is made for [gc-elapsed],
    [gc_in_progress] is false again and [gcs_done] is one more.  When the
    finalizers and the hook leave the state as it is, [bytes_since_gc] is
    the size of one float on return, and [garbage-collect-maybe] right
    afterwards returns nil without collecting as long as the effective
    threshold divided by its factor is at least that size, and returns t
    otherwise. *)
Theorem garbage_collect_resets st st' :
  gc_inhibited st = false -> gc_in_progress st = false ->
  garbage_collect st = Some st' ->
  exists st1 st2 st3,
    mark_and_sweep (with_gc_in_progress true st) = Some st1
    /\ update_bytes_between_gc pf (with_bytes_since_gc 0 st1) = Some st2
    /\ bytes_since_gc st2 = 0
    /\ gc_cons_threshold st2 <= bytes_between_gc st2
    /\ finalizers_and_hook st2 = Some st3
    /\ bytes_since_gc st' = bytes_since_gc st3 + sizeof_Lisp_Float pf
    /\ gc_in_progress st' = false
    /\ gcs_done st' = gcs_done st3 + 1
    /\ gc_cons_threshold st' = gc_cons_threshold st3
    /\ bytes_between_gc st' = bytes_between_gc st3
    /\ (st3 = st2 ->
        bytes_since_gc st' = sizeof_Lisp_Float pf
        /\ gc_cons_threshold st' <= bytes_between_gc st'
        /\ forall N, 0 <= N <= MOST_POSITIVE_FIXNUM pf ->
             Fgarbage_collect_maybe (Lisp_Int N) st'
             = if (1 <=? N)
                  && (bytes_between_gc st' ÷ N <? sizeof_Lisp_Float pf)
               then st'' ← garbage_collect st'; Some (Returns Qt st'')
               else Some (Returns Qnil st')).
Proof.
  intros Hi Hp. rewrite garbage_collect_runs by done.
  destruct (mark_and_sweep _) as [st1|]; [|done]. cbn [mbind option_bind].
  destruct (update_bytes_between_gc pf _) as [st2|] eqn:Hu; [|done].
  cbn [mbind option_bind].
  destruct (finalizers_and_hook st2) as [st3|] eqn:Hf; [|done].
  cbn [mbind option_bind]. cbv zeta. intros [= <-].
  destruct (update_bytes_between_gc_spec _ _ Hu)
    as (H1 & H2 & H3 & H4 & H5 & H6 & H7 & H8).
  assert (Hb : bytes_since_gc st2 = 0).
  { unfold bytes_since_gc. rewrite H4. reflexivity. }
  exists st1, st2, st3. split; [done|]. split; [done|]. split; [done|].
  split; [lia|]. split; [done|].
  set (st' := with_gcs_done _ _).
  assert (Hs : bytes_since_gc st'
               = bytes_since_gc st3 + sizeof_Lisp_Float pf) by done.
  split; [done|]. split; [done|]. split; [done|]. split; [done|].
  split; [done|]. intros ->. rewrite Hb in Hs.
  split; [lia|]. split.
  { change (gc_cons_threshold st') with (gc_cons_threshold st2).
    change (bytes_between_gc st') with (bytes_between_gc st2). lia. }
  intros N HN. unfold Gc.Fgarbage_collect_maybe, FIXNATP.
  replace ((0 <=? N) && (N <=? MOST_POSITIVE_FIXNUM pf)) with true by lia.
  rewrite Hs. by rewrite Z.geb_leb, Z.gtb_ltb.
Qed.

(** X18.  The two watchers return nil.  A value of the wrong type, and
    an integer out of the range of [intmax_t], change nothing.  Otherwise
    the new value is stored, a threshold being raised to at least an
    eighth of the default threshold, and [bytes_between_gc] is recomputed
    to at least [gc_cons_threshold].  This is so whenever the conversion
    of the percentage part to an integer is defined: C leaves it
    undefined for a NaN, an infinity and a double out of the range of
    [intmax_t]. *)
Theorem watchers_keep_thresholds newval st :
  (INTEGERP newval = false ->
   watch_gc_cons_threshold pf newval st = Some (Qnil, st))
  /\ (FLOATP newval = false ->
      watch_gc_cons_percentage pf newval st = Some (Qnil, st))
  /\ (forall T,
        newval = Lisp_Int T -> ~ (INTMAX_MIN <= T <= INTMAX_MAX) ->
        watch_gc_cons_threshold pf newval st = Some (Qnil, st))
  /\ (forall T p,
        newval = Lisp_Int T -> INTMAX_MIN <= T <= INTMAX_MAX ->
        intmax_of_double
          (threshold1_double pf
             (with_gc_cons_threshold
                (Z.max T (Z.shiftr (GC_DEFAULT_THRESHOLD pf) 3)) st))
        = Some p ->
        exists st',
          watch_gc_cons_threshold pf newval st = Some (Qnil, st')
          /\ Z.shiftr (GC_DEFAULT_THRESHOLD pf) 3 <= gc_cons_threshold st'
          /\ T <= gc_cons_threshold st'
          /\ gc_cons_threshold st' <= bytes_between_gc st'
          /\ Vgc_cons_percentage st' = Vgc_cons_percentage st)
  /\ (forall d p,
        newval = Lisp_Float d ->
        intmax_of_double
          (threshold1_double pf (with_Vgc_cons_percentage newval st))
        = Some p ->
        exists st',
          watch_gc_cons_percentage pf newval st = Some (Qnil, st')
          /\ Vgc_cons_percentage st' = newval
          /\ gc_cons_threshold st' = gc_cons_threshold st
          /\ gc_cons_threshold st' <= bytes_between_gc st').
Proof.
  split_and!.
  - intros H. unfold watch_gc_cons_threshold. by rewrite H.
  - intros H. unfold watch_gc_cons_percentage. by rewrite H.
  - intros T -> HT. unfold watch_gc_cons_threshold. cbn [INTEGERP].
    replace ((INTMAX_MIN <=? T) && (T <=? INTMAX_MAX)) with false by lia.
    done.
  - intros T p -> HT Hp. unfold watch_gc_cons_threshold. cbn [INTEGERP].
    replace ((INTMAX_MIN <=? T) && (T <=? INTMAX_MAX)) with true by lia.
    rewrite (update_bytes_between_gc_max pf _ p Hp).
    cbn [mbind option_bind]. eexists. split; [done|].
    cbn [gc_cons_threshold bytes_between_gc with_bytes_between_gc
         with_gc_cons_threshold Vgc_cons_percentage].
    split_and!; try done; lia.
  - intros d p -> Hp. unfold watch_gc_cons_percentage. cbn [FLOATP].
    rewrite (update_bytes_between_gc_max pf _ p Hp).
    cbn [mbind option_bind]. eexists. split; [done|].
    cbn [gc_cons_threshold bytes_between_gc with_bytes_between_gc
         with_Vgc_cons_percentage Vgc_cons_percentage].
    split_and!; try done; lia.
Qed.

End platform.

Lemma garbage_collect_resets_witness :
  exists st',
    garbage_collect lp64 Some Some (example_state false false) = Some st'
    /\ bytes_since_gc st' = 8
    /\ gc_in_progress st' = false
    /\ gcs_done st' = 1
    /\ Fgarbage_collect_maybe lp64 Some Some (Lisp_Int 1) st'
       = Some (Returns Qnil st').
Proof.
  assert (H : exists st',
             garbage_collect lp64 Some Some (example_state false false)
             = Some st').
  { eexists. vm_compute. reflexivity. }
  destruct H as [st' H]. exists st'. split; [exact H|].
  destruct (garbage_collect_resets lp64 Some Some (example_state false false)
              st' eq_refl eq_refl H)
    as (st1 & st2 & st3 & E1 & E2 & _ & _ & E3 & Hb & Hp & Hd & _ & _ & Hr).
  injection E1 as <-. injection E3 as <-.
  destruct (Hr eq_refl) as (Hb' & _ & Hm).
  split; [exact Hb'|]. split; [exact Hp|]. split.
  { rewrite Hd. vm_compute in E2. injection E2 as <-. reflexivity. }
  rewrite Hm.
  - vm_compute in H. injection H as <-. vm_compute. reflexivity.
  - vm_compute. split; discriminate.
Defined.

Lemma watchers_keep_thresholds_witness :
  exists st',
    watch_gc_cons_threshold lp64 (Lisp_Int 1000) (example_state false false)
    = Some (Qnil, st')
    /\ Z.shiftr (GC_DEFAULT_THRESHOLD lp64) 3 <= gc_cons_threshold st'
    /\ 1000 <= gc_cons_threshold st'
    /\ gc_cons_threshold st' <= bytes_between_gc st'
    /\ Vgc_cons_percentage st'
       = Vgc_cons_percentage (example_state false false).
Proof.
  destruct (watchers_keep_thresholds lp64 (Lisp_Int 1000)
              (example_state false false))
    as (_ & _ & _ & H & _).
  apply (H 1000 1964).
  - reflexivity.
  - vm_compute. split; discriminate.
  - vm_compute. reflexivity.
Defined.

End GcProofs.
(** ** Vectors *)
Module VectorsProofs.
Import Lisp Vectors.
Local Open Scope Z_scope.
Section platform.
Context (pf : platform).
Context (Hok : vectors_ok pf = true).

Lemma vectors_facts :
  0 < word_size pf /\ 0 <= header_size pf
  /\ header_size pf = (header_size pf ÷ word_size pf) * word_size pf
  /\ 0 <= header_size pf ÷ word_size pf
  /\ LISP_VECTOR_MIN pf <= LARGE_VECTOR_THRESH pf.
Proof.
  unfold vectors_ok in Hok.
  rewrite !andb_true_iff, Z.ltb_lt, !Z.leb_le, Z.eqb_eq in Hok.
  destruct Hok as [[[Hw Hh] Hr] Hm]. split_and!; try done.
  - pose proof (Z.quot_rem' (header_size pf) (word_size pf)). lia.
  - apply Z.quot_pos; lia.
Qed.

(** *** Size classes *)

Lemma VINDEX_class_size index :
  VINDEX pf (class_size pf index) = index.
Proof.
  destruct vectors_facts as (Hw & _). unfold VINDEX, class_size.
  replace (index * word_size pf + LISP_VECTOR_MIN pf - LISP_VECTOR_MIN pf)
    with (index * word_size pf) by lia.
  apply Z.quot_mul. lia.
Qed.

Lemma nbytes_class len :
  header_size pf + len * word_size pf = class_size pf (len - 1).
Proof. unfold class_size, LISP_VECTOR_MIN. lia. Qed.

Lemma VINDEX_nbytes len :
  VINDEX pf (header_size pf + len * word_size pf) = len - 1.
Proof. by rewrite nbytes_class, VINDEX_class_size. Qed.

Lemma residual_class i len :
  let rest := class_size pf i - (header_size pf + len * word_size pf) in
  rest = class_size pf (i - len - header_size pf ÷ word_size pf)
  /\ VINDEX pf rest = i - len - header_size pf ÷ word_size pf.
Proof.
  intros rest. destruct vectors_facts as (Hw & Hh & Hq & Hq0 & _).
  assert (E : rest = class_size pf (i - len - header_size pf ÷ word_size pf)).
  { unfold rest, class_size, LISP_VECTOR_MIN.
    remember (header_size pf ÷ word_size pf) as h. nia. }
  split; [done|]. rewrite E. apply VINDEX_class_size.
Qed.

(** *** The scan of the free lists *)

Lemma scan_free_lists_hit st nbytes i p c (k : nat) :
  forall (n : nat) index,
  index + Z.of_nat k = i -> (k < n)%nat -> 0 <= index ->
  (forall j, index <= j < i -> passed_over pf st nbytes j = true) ->
  residual_ok pf i nbytes = true ->
  vector_free_lists st !! Z.to_nat i = Some p -> p <> 0 ->
  vmem st !! p = Some c ->
  scan_free_lists pf n index nbytes st
  = Some (Some (p, class_size pf i - nbytes,
                with_vector_free_lists
                  (<[Z.to_nat i := v_contents0 c]> (vector_free_lists st))
                  st)).
Proof.
  induction k as [|k IH]; intros n index Hi Hn H0 Hpass Hres Hp Hp0 Hc.
  - destruct n as [|n]; [lia|]. assert (index = i) as -> by lia.
    cbn [scan_free_lists]. fold (class_size pf i).
    unfold residual_ok in Hres. rewrite Hres, Hp. cbn [mbind option_bind].
    apply Z.eqb_neq in Hp0. rewrite Hp0. cbn [negb].
    unfold next_vector. rewrite Hc. reflexivity.
  - destruct n as [|n]; [lia|]. cbn [scan_free_lists].
    fold (class_size pf index).
    pose proof (Hpass index ltac:(lia)) as Hx. unfold passed_over in Hx.
    assert (Hnext : scan_free_lists pf n (index + 1) nbytes st
      = Some (Some (p, class_size pf i - nbytes,
                with_vector_free_lists
                  (<[Z.to_nat i := v_contents0 c]> (vector_free_lists st))
                  st))).
    { apply IH; try done; try lia. intros j Hj. apply Hpass. lia. }
    unfold residual_ok in Hx.
    destruct ((class_size pf index - nbytes =? 0)
              || (class_size pf index - nbytes >=? LISP_VECTOR_MIN pf));
      [|done].
    cbn [negb orb] in Hx.
    destruct (vector_free_lists st !! Z.to_nat index) as [q|]; [|done].
    cbn [mbind option_bind]. rewrite Hx. cbn [negb]. done.
Qed.

Lemma scan_free_lists_miss st nbytes (n : nat) :
  forall index, 0 <= index ->
  (forall j, index <= j < index + Z.of_nat n ->
             passed_over pf st nbytes j = true) ->
  scan_free_lists pf n index nbytes st = Some None.
Proof.
  induction n as [|n IH]; intros index H0 Hpass; [done|].
  cbn [scan_free_lists]. fold (class_size pf index).
  pose proof (Hpass index ltac:(lia)) as Hx. unfold passed_over in Hx.
  assert (Hnext : scan_free_lists pf n (index + 1) nbytes st = Some None).
  { apply IH; [lia|]. intros j Hj. apply Hpass. lia. }
  unfold residual_ok in Hx.
  destruct ((class_size pf index - nbytes =? 0)
            || (class_size pf index - nbytes >=? LISP_VECTOR_MIN pf));
    [|done].
  cbn [negb orb] in Hx.
  destruct (vector_free_lists st !! Z.to_nat index) as [q|]; [|done].
  cbn [mbind option_bind]. rewrite Hx. cbn [negb]. done.
Qed.

(** *** [allocate_vectorlike] *)

Lemma finish_vector_fields p len nbytes clear st :
  vector_free_lists (finish_vector p len nbytes clear st)
  = vector_free_lists st
  /\ vector_blocks (finish_vector p len nbytes clear st) = vector_blocks st
  /\ large_vectors (finish_vector p len nbytes clear st) = large_vectors st
  /\ bytes_since_gc (finish_vector p len nbytes clear st)
     = bytes_since_gc st + nbytes
  /\ vector_cells_consed (finish_vector p len nbytes clear st)
     = vector_cells_consed st + len
  /\ (exists c, vmem (finish_vector p len nbytes clear st) !! p = Some c
       /\ v_header c = header_size_is len)
  /\ (forall a, a <> p ->
       vmem (finish_vector p len nbytes clear st) !! a = vmem st !! a).
Proof.
  unfold finish_vector. cbn. split_and!; try done.
  - eexists. split; [apply lookup_insert_eq | done].
  - intros a Ha. by apply lookup_insert_ne.
Qed.

Lemma small_vector_path len q new st :
  0 < len <= VECTOR_ELTS_MAX pf ->
  header_size pf + len * word_size pf <= LARGE_VECTOR_THRESH pf ->
  allocate_vectorlike pf len q new st
  = (let nbytes := header_size pf + len * word_size pf in
     r ← scan_free_lists pf
           (Z.to_nat (VBLOCK_NFREE_LISTS pf - (len - 1))) (len - 1) nbytes st;
     match r with
     | Some (p, restbytes, st) =>
         st ← (if negb (restbytes =? 0)
               then add_vector_free_lists pf (ADVANCE p nbytes) restbytes st
               else Some st);
         Some (Returns p (finish_vector p len nbytes q st))
     | None =>
         if new =? 0 then Some (Memory_full (VBLOCK_ALIGN pf))
         else
           let st := with_vector_blocks (new :: vector_blocks st) st in
           let restbytes := VBLOCK_NBYTES pf - nbytes in
           st ← (if negb (restbytes =? 0)
                 then add_vector_free_lists pf (ADVANCE new nbytes)
                        restbytes st
                 else Some st);
           Some (Returns new (finish_vector new len nbytes q st))
     end).
Proof.
  intros Hlen Hsmall. unfold allocate_vectorlike.
  destruct (Z.eqb_spec len 0) as [|_]; [lia|].
  destruct (Z.gtb_spec len (VECTOR_ELTS_MAX pf)) as [|_]; [lia|].
  destruct (Z.gtb_spec (header_size pf + len * word_size pf)
              (LARGE_VECTOR_THRESH pf)) as [|_]; [lia|].
  rewrite VINDEX_nbytes. reflexivity.
Qed.

Lemma scan_free_lists_frame nbytes st (n : nat) :
  forall index p r st1,
  scan_free_lists pf n index nbytes st = Some (Some (p, r, st1)) ->
  exists l, st1 = with_vector_free_lists l st
            /\ length l = length (vector_free_lists st).
Proof.
  induction n as [|n IH]; intros index p r st1; [done|].
  cbn [scan_free_lists].
  destruct (_ || _); [|apply IH].
  destruct (vector_free_lists st !! Z.to_nat index) as [x|]; [|done].
  cbn [mbind option_bind]. destruct (negb (x =? 0)); [|apply IH].
  destruct (next_vector x st) as [nx|]; [|done].
  cbn [mbind option_bind]. intros [= <- <- <-].
  eexists. split; [reflexivity|]. by rewrite length_insert.
Qed.

Lemma add_vector_free_lists_frame v nbytes st st1 :
  add_vector_free_lists pf v nbytes st = Some st1 ->
  length (vector_free_lists st1) = length (vector_free_lists st)
  /\ vector_blocks st1 = vector_blocks st
  /\ large_vectors st1 = large_vectors st
  /\ zero_vector st1 = zero_vector st
  /\ bytes_since_gc st1 = bytes_since_gc st
  /\ vector_cells_consed st1 = vector_cells_consed st.
Proof.
  unfold add_vector_free_lists. destruct (0 <=? _); [|done].
  destruct (vector_free_lists st !! _) as [h|]; [|done].
  cbn [mbind option_bind]. intros [= <-]. cbn.
  by rewrite length_insert.
Qed.

Lemma small_vector_index len :
  0 < len ->
  header_size pf + len * word_size pf <= LARGE_VECTOR_THRESH pf ->
  0 <= len - 1 < VBLOCK_NFREE_LISTS pf.
Proof.
  intros Hlen. destruct vectors_facts as (Hw & Hh & Hq & Hq0 & Hmin).
  revert Hmin. unfold LARGE_VECTOR_THRESH, VBLOCK_NFREE_LISTS.
  rewrite Z.shiftr_div_pow2 by lia. change (2 ^ 1) with 2.
  set (B := VBLOCK_NBYTES pf). intros Hmin Hsmall.
  pose proof (Z.mul_div_le B 2 ltac:(lia)).
  split; [lia|].
  assert (len - 1 <= (B - LISP_VECTOR_MIN pf) ÷ word_size pf); [|lia].
  rewrite <- (Z.quot_mul (len - 1) (word_size pf)) at 1 by lia.
  apply Z.quot_le_mono; [lia|]. unfold LISP_VECTOR_MIN in *. nia.
Qed.

End platform.

Section platform.
Context (pf : platform).

(** *** The two ways of a vector that is not large *)

Lemma first_fit_taken len q new st i p c :
  let nbytes := header_size pf + len * word_size pf in
  let rest := class_size pf i - nbytes in
  let popped := <[Z.to_nat i := v_contents0 c]> (vector_free_lists st) in
  vectors_ok pf = true ->
  0 < len <= VECTOR_ELTS_MAX pf ->
  nbytes <= LARGE_VECTOR_THRESH pf ->
  length (vector_free_lists st) = Z.to_nat (VBLOCK_NFREE_LISTS pf) ->
  len - 1 <= i < VBLOCK_NFREE_LISTS pf ->
  (forall j, len - 1 <= j < i -> passed_over pf st nbytes j = true) ->
  residual_ok pf i nbytes = true ->
  vector_free_lists st !! Z.to_nat i = Some p -> p <> 0 ->
  vmem st !! p = Some c ->
  exists st',
    allocate_vectorlike pf len q new st = Some (Returns p st')
    /\ (exists c', vmem st' !! p = Some c'
                   /\ v_header c' = header_size_is len)
    /\ (rest = 0 -> vector_free_lists st' = popped)
    /\ (rest <> 0 ->
        exists head,
          vector_free_lists st !! Z.to_nat (VINDEX pf rest) = Some head
          /\ class_size pf (VINDEX pf rest) = rest
          /\ vector_free_lists st'
             = <[Z.to_nat (VINDEX pf rest) := p + nbytes]> popped
          /\ vmem st' !! (p + nbytes)
             = Some {| v_header :=
                         PVEC_FREE ((rest - header_size pf) ÷ word_size pf);
                       v_contents0 := head |})
    /\ vector_blocks st' = vector_blocks st
    /\ bytes_since_gc st' = bytes_since_gc st + nbytes
    /\ vector_cells_consed st' = vector_cells_consed st + len.
Proof.
  intros nbytes rest popped Hok Hlen Hsmall Hlists Hi Hpass Hres Hp Hp0 Hc.
  destruct (vectors_facts pf Hok) as (Hw & Hh & Hq & Hq0 & Hmin).
  rewrite small_vector_path by done. cbv zeta. fold nbytes.
  rewrite (scan_free_lists_hit pf st nbytes i p c (Z.to_nat (i - (len - 1))))
    by (try done; lia).
  cbn [mbind option_bind]. fold rest popped.
  destruct (Z.eqb_spec rest 0) as [H0|H0]; cbn [negb].
  - eexists. split; [reflexivity|].
    destruct (finish_vector_fields p len nbytes q
                (with_vector_free_lists popped st))
      as (F1 & F2 & F3 & F4 & F5 & F6 & F7).
    split_and!; try done.
  - destruct (residual_class pf Hok i len) as [E1 E2].
    fold nbytes in E1, E2. fold rest in E1, E2.
    assert (Hge : LISP_VECTOR_MIN pf <= rest).
    { unfold residual_ok in Hres. fold rest in Hres.
      apply orb_true_iff in Hres as [Hres|Hres]; lia. }
    set (h := header_size pf ÷ word_size pf) in *.
    assert (Hv : 0 <= i - len - h < i).
    { rewrite E1 in Hge. unfold class_size in Hge. nia. }
    unfold add_vector_free_lists. rewrite E2.
    destruct (Z.leb_spec 0 (i - len - h)) as [_|]; [|lia].
    cbn [vector_free_lists with_vector_free_lists].
    assert (Hlk : is_Some (vector_free_lists st !! Z.to_nat (i - len - h))).
    { apply lookup_lt_is_Some_2. lia. }
    destruct Hlk as [head Hhead].
    assert (Hlk' : popped !! Z.to_nat (i - len - h) = Some head).
    { unfold popped. rewrite list_lookup_insert_ne by lia. done. }
    rewrite Hlk'. cbn [mbind option_bind].
    eexists. split; [reflexivity|].
    match goal with |- context [finish_vector p len nbytes q ?s] =>
      destruct (finish_vector_fields p len nbytes q s)
        as (F1 & F2 & F3 & F4 & F5 & F6 & F7) end.
    split_and!; try done.
    intros _. exists head. rewrite ?E2. split_and!; try done.
    rewrite F7 by (unfold ADVANCE, nbytes; nia).
    cbn. unfold ADVANCE. apply lookup_insert_eq.
Qed.

Lemma new_block_taken len q new st :
  let nbytes := header_size pf + len * word_size pf in
  let rest := VBLOCK_NBYTES pf - nbytes in
  vectors_ok pf = true ->
  0 < len <= VECTOR_ELTS_MAX pf ->
  nbytes <= LARGE_VECTOR_THRESH pf ->
  length (vector_free_lists st) = Z.to_nat (VBLOCK_NFREE_LISTS pf) ->
  (forall j, len - 1 <= j < VBLOCK_NFREE_LISTS pf ->
             passed_over pf st nbytes j = true) ->
  new <> 0 ->
  exists st' head,
    allocate_vectorlike pf len q new st = Some (Returns new st')
    /\ vector_blocks st' = new :: vector_blocks st
    /\ (exists c', vmem st' !! new = Some c'
                   /\ v_header c' = header_size_is len)
    /\ vector_free_lists st !! Z.to_nat (VINDEX pf rest) = Some head
    /\ vector_free_lists st'
       = <[Z.to_nat (VINDEX pf rest) := new + nbytes]> (vector_free_lists st)
    /\ vmem st' !! (new + nbytes)
       = Some {| v_header :=
                   PVEC_FREE ((rest - header_size pf) ÷ word_size pf);
                 v_contents0 := head |}
    /\ bytes_since_gc st' = bytes_since_gc st + nbytes
    /\ vector_cells_consed st' = vector_cells_consed st + len.
Proof.
  intros nbytes rest Hok Hlen Hsmall Hlists Hpass Hnew.
  destruct (vectors_facts pf Hok) as (Hw & Hh & Hq & Hq0 & Hmin).
  rewrite small_vector_path by done. cbv zeta. fold nbytes.
  rewrite (scan_free_lists_miss pf st nbytes).
  2: lia.
  2: { intros j Hj. apply Hpass. lia. }
  cbn [mbind option_bind]. apply Z.eqb_neq in Hnew as Hnew'. rewrite Hnew'.
  fold rest.
  assert (Hrest : LISP_VECTOR_MIN pf + 2 * word_size pf <= rest).
  { revert Hsmall Hmin. unfold rest, LARGE_VECTOR_THRESH.
    rewrite Z.shiftr_div_pow2 by lia. change (2 ^ 1) with 2.
    pose proof (Z.mul_div_le (VBLOCK_NBYTES pf) 2). lia. }
  destruct (Z.eqb_spec rest 0) as [|_]; [unfold LISP_VECTOR_MIN in *; lia|].
  cbn [negb]. unfold add_vector_free_lists.
  assert (Hv : 0 <= VINDEX pf rest < VBLOCK_NFREE_LISTS pf).
  { unfold VINDEX, VBLOCK_NFREE_LISTS. split.
    - apply Z.quot_pos; lia.
    - assert ((rest - LISP_VECTOR_MIN pf) ÷ word_size pf
              <= (VBLOCK_NBYTES pf - LISP_VECTOR_MIN pf) ÷ word_size pf);
        [|lia].
      apply Z.quot_le_mono; [lia|]. unfold rest, nbytes. nia. }
  destruct (Z.leb_spec 0 (VINDEX pf rest)) as [_|]; [|lia].
  cbn [vector_free_lists with_vector_blocks].
  assert (Hlk : is_Some (vector_free_lists st !! Z.to_nat (VINDEX pf rest))).
  { apply lookup_lt_is_Some_2. lia. }
  destruct Hlk as [head Hhead]. rewrite Hhead. cbn [mbind option_bind].
  eexists. exists head. split; [reflexivity|].
  match goal with |- context [finish_vector new len nbytes q ?s] =>
    destruct (finish_vector_fields new len nbytes q s)
      as (F1 & F2 & F3 & F4 & F5 & F6 & F7) end.
  split_and!; try done.
  rewrite F7 by (unfold ADVANCE, nbytes; nia).
  cbn. unfold ADVANCE. apply lookup_insert_eq.
Qed.

(** *** The scan in the words of the spec *)

Lemma first_fit_spec_elim st nbytes (n : nat) : forall index,
  match first_fit_spec pf n index nbytes st with
  | Some i =>
      index <= i < index + Z.of_nat n
      /\ passed_over pf st nbytes i = false
      /\ forall j, index <= j < i -> passed_over pf st nbytes j = true
  | None =>
      forall j, index <= j < index + Z.of_nat n ->
                passed_over pf st nbytes j = true
  end.
Proof.
  induction n as [|n IH]; intros index; cbn [first_fit_spec]; [lia|].
  destruct (passed_over pf st nbytes index) eqn:E.
  - specialize (IH (index + 1)).
    destruct (first_fit_spec pf n (index + 1) nbytes st) as [i|].
    + destruct IH as (H1 & H2 & H3). split; [lia|]. split; [done|].
      intros j Hj. destruct (Z.eq_dec j index) as [->|]; [done|].
      apply H3. lia.
    + intros j Hj. destruct (Z.eq_dec j index) as [->|]; [done|].
      apply IH. lia.
  - split; [lia|]. split; [done|]. intros j Hj. lia.
Qed.

End platform.

(** *** The properties of [allocate_vectorlike] *)
Section platform.
Context (pf : platform).

(** X1.  First fit of [allocate_vectorlike]: for a vector that is not
    large, the free lists are scanned from the exact size class upwards;
    the head of the first list that is not empty and whose residual is
    nothing or at least a smallest vector is returned, and that list
    advances to the next vector.  A residual is put, as a free vector of
    that many words, at the head of the free list of its exact size; the
    counters grow by the bytes and the length. *)
Theorem allocate_vectorlike_first_fit len q new st i p c :
  let nbytes := header_size pf + len * word_size pf in
  let rest := class_size pf i - nbytes in
  let popped := <[Z.to_nat i := v_contents0 c]> (vector_free_lists st) in
  vectors_ok pf = true ->
  0 < len <= VECTOR_ELTS_MAX pf ->
  nbytes <= LARGE_VECTOR_THRESH pf ->
  length (vector_free_lists st) = Z.to_nat (VBLOCK_NFREE_LISTS pf) ->
  len - 1 <= i < VBLOCK_NFREE_LISTS pf ->
  (forall j, len - 1 <= j < i -> passed_over pf st nbytes j = true) ->
  residual_ok pf i nbytes = true ->
  vector_free_lists st !! Z.to_nat i = Some p -> p <> 0 ->
  vmem st !! p = Some c ->
  exists st',
    allocate_vectorlike pf len q new st = Some (Returns p st')
    /\ (exists c', vmem st' !! p = Some c'
                   /\ v_header c' = header_size_is len)
    /\ (rest = 0 -> vector_free_lists st' = popped)
    /\ (rest <> 0 ->
        exists head,
          vector_free_lists st !! Z.to_nat (VINDEX pf rest) = Some head
          /\ class_size pf (VINDEX pf rest) = rest
          /\ vector_free_lists st'
             = <[Z.to_nat (VINDEX pf rest) := p + nbytes]> popped
          /\ vmem st' !! (p + nbytes)
             = Some {| v_header :=
                         PVEC_FREE ((rest - header_size pf) ÷ word_size pf);
                       v_contents0 := head |})
    /\ vector_blocks st' = vector_blocks st
    /\ bytes_since_gc st' = bytes_since_gc st + nbytes
    /\ vector_cells_consed st' = vector_cells_consed st + len.
Proof. apply first_fit_taken. Qed.

(** X2.  When every free list from the exact size class upwards is
    passed over, [allocate_vectorlike] takes a new block: the vector is
    the start of the block, the block is put first in the chain of
    blocks, and the remainder of the block is put at the head of the
    free list of its size. *)
Theorem allocate_vectorlike_new_block len q new st :
  let nbytes := header_size pf + len * word_size pf in
  let rest := VBLOCK_NBYTES pf - nbytes in
  vectors_ok pf = true ->
  0 < len <= VECTOR_ELTS_MAX pf ->
  nbytes <= LARGE_VECTOR_THRESH pf ->
  length (vector_free_lists st) = Z.to_nat (VBLOCK_NFREE_LISTS pf) ->
  (forall j, len - 1 <= j < VBLOCK_NFREE_LISTS pf ->
             passed_over pf st nbytes j = true) ->
  new <> 0 ->
  exists st' head,
    allocate_vectorlike pf len q new st = Some (Returns new st')
    /\ vector_blocks st' = new :: vector_blocks st
    /\ (exists c', vmem st' !! new = Some c'
                   /\ v_header c' = header_size_is len)
    /\ vector_free_lists st !! Z.to_nat (VINDEX pf rest) = Some head
    /\ vector_free_lists st'
       = <[Z.to_nat (VINDEX pf rest) := new + nbytes]> (vector_free_lists st)
    /\ vmem st' !! (new + nbytes)
       = Some {| v_header :=
                   PVEC_FREE ((rest - header_size pf) ÷ word_size pf);
                 v_contents0 := head |}
    /\ bytes_since_gc st' = bytes_since_gc st + nbytes
    /\ vector_cells_consed st' = vector_cells_consed st + len.
Proof. apply new_block_taken. Qed.

(** X3.  What every call of [allocate_vectorlike] that returns has
    done: for length 0 it returns the zero vector and changes nothing;
    otherwise the vector returned holds the length in its header, the
    bytes are added to [bytes_since_gc] and the length to
    [vector_cells_consed], whichever path was taken, and the number of
    free lists is unchanged. *)
Theorem allocate_vectorlike_accounting len q new st p st' :
  allocate_vectorlike pf len q new st = Some (Returns p st') ->
  (len = 0 /\ p = zero_vector st /\ st' = st)
  \/ (len <> 0
      /\ (exists c, vmem st' !! p = Some c
                    /\ v_header c = header_size_is len)
      /\ bytes_since_gc st'
         = bytes_since_gc st + (header_size pf + len * word_size pf)
      /\ vector_cells_consed st' = vector_cells_consed st + len
      /\ length (vector_free_lists st') = length (vector_free_lists st)
      /\ zero_vector st' = zero_vector st).
Proof.
  unfold allocate_vectorlike.
  set (nbytes := header_size pf + len * word_size pf).
  destruct (Z.eqb_spec len 0) as [->|Hlen].
  { intros [= <- <-]. by left. }
  intros H. right. split; [done|]. revert H.
  destruct (len >? VECTOR_ELTS_MAX pf); [done|].
  destruct (nbytes >? LARGE_VECTOR_THRESH pf).
  { destruct (new =? 0); [done|]. intros [= <- <-].
    match goal with |- context [finish_vector ?a len nbytes q ?s] =>
      destruct (finish_vector_fields a len nbytes q s)
        as (F1 & F2 & F3 & F4 & F5 & F6 & F7) end.
    by split_and!. }
  destruct (scan_free_lists pf _ _ nbytes st) as [[[[v r] st1]|]|] eqn:Hscan;
    cbn [mbind option_bind]; [| |done].
  - apply scan_free_lists_frame in Hscan as (l & -> & Hl).
    destruct (negb (r =? 0)).
    + destruct (add_vector_free_lists pf _ r _) as [st2|] eqn:Hadd;
        cbn [mbind option_bind]; [|done].
      apply add_vector_free_lists_frame in Hadd
        as (A1 & A2 & A3 & A4 & A5 & A6).
      intros [= <- <-].
      destruct (finish_vector_fields v len nbytes q st2)
        as (F1 & F2 & F3 & F4 & F5 & F6 & F7).
      rewrite F1, F4, F5, A1, A5, A6. cbn. by split_and!.
    + cbn [mbind option_bind]. intros [= <- <-].
      match goal with |- context [finish_vector v len nbytes q ?s] =>
        destruct (finish_vector_fields v len nbytes q s)
          as (F1 & F2 & F3 & F4 & F5 & F6 & F7) end.
      rewrite F1, F4, F5. cbn. by split_and!.
  - destruct (new =? 0); [done|].
    destruct (negb (_ =? 0)).
    + destruct (add_vector_free_lists pf _ _ _) as [st2|] eqn:Hadd;
        cbn [mbind option_bind]; [|done].
      apply add_vector_free_lists_frame in Hadd
        as (A1 & A2 & A3 & A4 & A5 & A6).
      intros [= <- <-].
      destruct (finish_vector_fields new len nbytes q st2)
        as (F1 & F2 & F3 & F4 & F5 & F6 & F7).
      rewrite F1, F4, F5, A1, A5, A6. cbn. by split_and!.
    + cbn [mbind option_bind]. intros [= <- <-].
      match goal with |- context [finish_vector new len nbytes q ?s] =>
        destruct (finish_vector_fields new len nbytes q s)
          as (F1 & F2 & F3 & F4 & F5 & F6 & F7) end.
      rewrite F1, F4, F5. cbn. by split_and!.
Qed.

(** X4.  A vector put on the free lists by [add_vector_free_lists] is
    the one that the next [allocate_vectorlike] of that size returns,
    and the free lists are then as they were before. *)
Theorem free_then_allocate_same_vector len q new v st :
  let nbytes := header_size pf + len * word_size pf in
  vectors_ok pf = true ->
  0 < len <= VECTOR_ELTS_MAX pf ->
  nbytes <= LARGE_VECTOR_THRESH pf ->
  length (vector_free_lists st) = Z.to_nat (VBLOCK_NFREE_LISTS pf) ->
  v <> 0 ->
  exists st1 st2,
    add_vector_free_lists pf v nbytes st = Some st1
    /\ allocate_vectorlike pf len q new st1 = Some (Returns v st2)
    /\ vector_free_lists st2 = vector_free_lists st
    /\ vector_blocks st2 = vector_blocks st.
Proof.
  intros nbytes Hok Hlen Hsmall Hlists Hv.
  destruct (vectors_facts pf Hok) as (Hw & Hh & Hq & Hq0 & Hmin).
  pose proof (small_vector_index pf Hok len ltac:(lia) Hsmall) as Hidx.
  subst nbytes. unfold add_vector_free_lists.
  rewrite VINDEX_nbytes by done.
  destruct (Z.leb_spec 0 (len - 1)) as [_|]; [|lia].
  assert (Hlk : is_Some (vector_free_lists st !! Z.to_nat (len - 1))).
  { apply lookup_lt_is_Some_2. lia. }
  destruct Hlk as [head Hhead]. rewrite Hhead. cbn [mbind option_bind].
  eexists. eexists. split; [reflexivity|].
  rewrite small_vector_path by done. cbv zeta.
  erewrite (scan_free_lists_hit pf _ _ (len - 1) v
              {| v_header := PVEC_FREE _; v_contents0 := head |} 0); try done.
  - cbn [mbind option_bind]. unfold class_size, LISP_VECTOR_MIN.
    replace ((len - 1) * word_size pf + (header_size pf + word_size pf) -
             (header_size pf + len * word_size pf)) with 0 by lia.
    cbn [Z.eqb negb mbind option_bind]. split; [reflexivity|].
    match goal with |- context [finish_vector v len ?n q ?s] =>
      destruct (finish_vector_fields v len n q s)
        as (F1 & F2 & F3 & F4 & F5 & F6 & F7) end.
    rewrite F1, F2. cbn. split; [|done].
    rewrite list_insert_insert_eq. by apply list_insert_id.
  - lia.
  - lia.
  - lia.
  - intros j Hj. lia.
  - unfold residual_ok, class_size, LISP_VECTOR_MIN.
    apply orb_true_iff. left. lia.
  - cbn. apply list_lookup_insert_eq. lia.
  - cbn. apply lookup_insert_eq.
Qed.

(** C5, amended.  A request for no element returns the zero vector and
    takes nothing from the free lists.  For a request of at least one
    element that is not large, [allocate_vectorlike] does what the spec
    says.  The scan starts at the exact size class of the request,
    [VINDEX (nbytes)], and goes upwards; [first_fit_spec] is the first
    class that holds a free vector and whose residual, the size of the
    class less the bytes requested, is nothing or at least a smallest
    vector.  The head of the free list of that class is returned and the
    list advances to the next vector; a residual is put, as a free vector
    of that many words, at the head of the free list of its own size
    class.  When no class will do, a new block is taken, the vector is
    its start and the rest of the block is put on the free list of its
    size. *)
Theorem vector_first_fit len q new st :
  let nbytes := header_size pf + len * word_size pf in
  (len = 0 ->
   allocate_vectorlike pf len q new st = Some (Returns (zero_vector st) st))
  /\ (vectors_ok pf = true ->
      0 < len <= VECTOR_ELTS_MAX pf ->
      nbytes <= LARGE_VECTOR_THRESH pf ->
      length (vector_free_lists st) = Z.to_nat (VBLOCK_NFREE_LISTS pf) ->
      (forall (i : nat) p,
         vector_free_lists st !! i = Some p -> p <> 0 ->
         is_Some (vmem st !! p)) ->
      VINDEX pf nbytes = len - 1
      /\ match
           first_fit_spec pf (Z.to_nat (VBLOCK_NFREE_LISTS pf - VINDEX pf nbytes))
             (VINDEX pf nbytes) nbytes st
         with
         | Some i =>
             let rest := class_size pf i - nbytes in
             VINDEX pf nbytes <= i < VBLOCK_NFREE_LISTS pf
             /\ (rest = 0 \/ LISP_VECTOR_MIN pf <= rest)
             /\ (forall j, VINDEX pf nbytes <= j < i ->
                           passed_over pf st nbytes j = true)
             /\ exists p c st',
                  vector_free_lists st !! Z.to_nat i = Some p /\ p <> 0
                  /\ vmem st !! p = Some c
                  /\ allocate_vectorlike pf len q new st = Some (Returns p st')
                  /\ (exists c', vmem st' !! p = Some c'
                                 /\ v_header c' = header_size_is len)
                  /\ (rest = 0 ->
                      vector_free_lists st'
                      = <[Z.to_nat i := v_contents0 c]> (vector_free_lists st))
                  /\ (rest <> 0 ->
                      exists head,
                        vector_free_lists st !! Z.to_nat (VINDEX pf rest)
                        = Some head
                        /\ class_size pf (VINDEX pf rest) = rest
                        /\ vector_free_lists st'
                           = <[Z.to_nat (VINDEX pf rest) := p + nbytes]>
                               (<[Z.to_nat i := v_contents0 c]>
                                  (vector_free_lists st))
                        /\ vmem st' !! (p + nbytes)
                           = Some {| v_header :=
                                       PVEC_FREE
                                         ((rest - header_size pf) ÷ word_size pf);
                                     v_contents0 := head |})
                  /\ vector_blocks st' = vector_blocks st
         | None =>
             let rest := VBLOCK_NBYTES pf - nbytes in
             (forall j, VINDEX pf nbytes <= j < VBLOCK_NFREE_LISTS pf ->
                        passed_over pf st nbytes j = true)
             /\ (new <> 0 ->
                 exists st' head,
                   allocate_vectorlike pf len q new st = Some (Returns new st')
                   /\ vector_blocks st' = new :: vector_blocks st
                   /\ vector_free_lists st !! Z.to_nat (VINDEX pf rest)
                      = Some head
                   /\ vector_free_lists st'
                      = <[Z.to_nat (VINDEX pf rest) := new + nbytes]>
                          (vector_free_lists st)
                   /\ vmem st' !! (new + nbytes)
                      = Some {| v_header :=
                                  PVEC_FREE
                                    ((rest - header_size pf) ÷ word_size pf);
                                v_contents0 := head |})
         end).
Proof.
  intros nbytes. split.
  { intros ->. reflexivity. }
  intros Hok Hlen Hsmall Hlists Hmem.
  pose proof (VINDEX_nbytes pf Hok len) as Hv. fold nbytes in Hv.
  pose proof (small_vector_index pf Hok len ltac:(lia) Hsmall) as Hidx.
  split; [done|]. rewrite Hv.
  pose proof (first_fit_spec_elim pf st nbytes
                (Z.to_nat (VBLOCK_NFREE_LISTS pf - (len - 1))) (len - 1))
    as Hscan.
  destruct (first_fit_spec pf _ (len - 1) nbytes st) as [i|].
  - destruct Hscan as (Hi & Hacc & Hpass). cbv zeta.
    assert (Hi' : len - 1 <= i < VBLOCK_NFREE_LISTS pf) by lia.
    unfold passed_over in Hacc.
    apply orb_false_iff in Hacc as [Hres%negb_false_iff Hp].
    assert (Hlk : is_Some (vector_free_lists st !! Z.to_nat i)).
    { apply lookup_lt_is_Some_2. lia. }
    destruct Hlk as [p Hp']. rewrite Hp' in Hp. apply Z.eqb_neq in Hp.
    destruct (Hmem _ p Hp' Hp) as [c Hc].
    split; [done|]. split.
    { unfold residual_ok in Hres. fold nbytes in Hres.
      apply orb_true_iff in Hres as [Hres|Hres]; lia. }
    split; [done|].
    destruct (first_fit_taken pf len q new st i p c Hok Hlen Hsmall Hlists
                Hi' Hpass Hres Hp' Hp Hc)
      as (st' & E & A1 & A2 & A3 & A4 & _).
    exists p, c, st'. by split_and!.
  - cbv zeta. assert (Hall : forall j,
              len - 1 <= j < VBLOCK_NFREE_LISTS pf ->
              passed_over pf st nbytes j = true).
    { intros j Hj. apply Hscan. lia. }
    split; [done|]. intros Hnew.
    destruct (new_block_taken pf len q new st Hok Hlen Hsmall Hlists Hall
                Hnew)
      as (st' & head & E & A1 & _ & A3 & A4 & A5 & _).
    exists st', head. by split_and!.
Qed.

End platform.

Lemma allocate_vectorlike_first_fit_witness :
  exists st',
    allocate_vectorlike lp64 2 false 16384 example_state
    = Some (Returns 8448 st')
    /\ vector_free_lists st' !! 4%nat = Some 8704
    /\ vector_free_lists st' !! 1%nat = Some 8472
    /\ vmem st' !! 8472
       = Some {| v_header := PVEC_FREE 2; v_contents0 := 0 |}
    /\ bytes_since_gc st' = 24.
Proof.
  destruct (allocate_vectorlike_first_fit lp64 2 false 16384 example_state
              4 8448 {| v_header := PVEC_FREE 5; v_contents0 := 8704 |})
    as (st' & Hr & _ & _ & Hrest & _ & Hb & _).
  - reflexivity.
  - split; [lia | apply Z.leb_le; vm_compute; reflexivity].
  - apply Z.leb_le. vm_compute. reflexivity.
  - vm_compute. reflexivity.
  - split; [lia | apply Z.ltb_lt; vm_compute; reflexivity].
  - intros j Hj.
    assert (j = 1 \/ j = 2 \/ j = 3) as [->|[->| ->]] by lia;
      vm_compute; reflexivity.
  - vm_compute. reflexivity.
  - vm_compute. reflexivity.
  - lia.
  - vm_compute. reflexivity.
  - destruct Hrest as (head & Hh & _ & Hl & Hm).
    { vm_compute. discriminate. }
    exists st'. split; [exact Hr|]. rewrite Hl.
    assert (head = 0) as -> by (vm_compute in Hh; congruence).
    split_and!; [vm_compute; reflexivity | vm_compute; reflexivity
                | exact Hm | exact Hb].
Defined.

Lemma allocate_vectorlike_new_block_witness :
  exists st',
    allocate_vectorlike lp64 6 true 16384 example_state
    = Some (Returns 16384 st')
    /\ vector_blocks st' = [16384; 8192]
    /\ vector_free_lists st' !! 502%nat = Some 16440
    /\ bytes_since_gc st' = 56.
Proof.
  destruct (allocate_vectorlike_new_block lp64 6 true 16384 example_state)
    as (st' & head & Hr & Hb & _ & _ & Hl & _ & Hbytes & _).
  - reflexivity.
  - split; [lia | apply Z.leb_le; vm_compute; reflexivity].
  - apply Z.leb_le. vm_compute. reflexivity.
  - vm_compute. reflexivity.
  - intros j Hj. unfold passed_over. apply orb_true_iff. right.
    change (vector_free_lists example_state)
      with (<[2%nat := 8192]> (<[4%nat := 8448]>
              (replicate (Z.to_nat (VBLOCK_NFREE_LISTS lp64)) 0))).
    assert (VBLOCK_NFREE_LISTS lp64 = 510) as E by (vm_compute; reflexivity).
    rewrite E in Hj |- *.
    rewrite !list_lookup_insert_ne by lia.
    rewrite lookup_replicate_2 by lia. reflexivity.
  - lia.
  - exists st'. split; [exact Hr|]. rewrite Hl.
    split_and!; [exact Hb | vm_compute; reflexivity | exact Hbytes].
Defined.

Lemma allocate_vectorlike_accounting_witness :
  exists st',
    allocate_vectorlike lp64 3 false 16384 example_state
    = Some (Returns 8192 st')
    /\ bytes_since_gc st' = 32 /\ vector_cells_consed st' = 3.
Proof.
  exists (finish_vector 8192 3 32 false
            (with_vector_free_lists
               (<[2%nat := 0]> (vector_free_lists example_state))
               example_state)).
  assert (H : allocate_vectorlike lp64 3 false 16384 example_state
              = Some (Returns 8192
                        (finish_vector 8192 3 32 false
                           (with_vector_free_lists
                              (<[2%nat := 0]>
                                 (vector_free_lists example_state))
                              example_state)))) by reflexivity.
  split; [exact H|].
  destruct (allocate_vectorlike_accounting lp64 3 false 16384 example_state
              8192 _ H) as [[H0 _]|(_ & _ & Hb & Hc & _)].
  - discriminate H0.
  - split; [exact Hb | exact Hc].
Defined.

Lemma free_then_allocate_same_vector_witness :
  exists st1 st2,
    add_vector_free_lists lp64 9000 40 example_state = Some st1
    /\ allocate_vectorlike lp64 4 false 16384 st1 = Some (Returns 9000 st2)
    /\ vector_free_lists st2 = vector_free_lists example_state.
Proof.
  destruct (free_then_allocate_same_vector lp64 4 false 16384 9000
              example_state) as (st1 & st2 & H1 & H2 & H3 & _).
  - reflexivity.
  - split; [lia | apply Z.leb_le; vm_compute; reflexivity].
  - apply Z.leb_le. vm_compute. reflexivity.
  - vm_compute. reflexivity.
  - lia.
  - exists st1, st2. by split_and!.
Defined.

Lemma example_free_vectors (i : nat) p :
  vector_free_lists example_state !! i = Some p -> p <> 0 ->
  is_Some (vmem example_state !! p).
Proof.
  change (vector_free_lists example_state)
    with (<[2%nat := 8192]> (<[4%nat := 8448]>
            (replicate (Z.to_nat (VBLOCK_NFREE_LISTS lp64)) 0))).
  intros Hp Hp0.
  destruct (decide (i = 2%nat)) as [->|H2].
  { vm_compute in Hp. injection Hp as <-. vm_compute. eauto. }
  rewrite list_lookup_insert_ne in Hp by done.
  destruct (decide (i = 4%nat)) as [->|H4].
  { vm_compute in Hp. injection Hp as <-. vm_compute. eauto. }
  rewrite list_lookup_insert_ne in Hp by done.
  apply lookup_replicate in Hp as [-> _]. done.
Qed.

(** C5, as stated, fails: a request for no element is within the
    threshold, and the free list of the vectors of 32 bytes holds a
    vector whose residual would do, but the zero vector is returned and
    the free lists stay as they are. *)
Lemma zero_vector_example :
  header_size lp64 + 0 * word_size lp64 <= LARGE_VECTOR_THRESH lp64
  /\ vector_free_lists example_state !! 2%nat = Some 8192
  /\ class_size lp64 2 - (header_size lp64 + 0 * word_size lp64)
     >= LISP_VECTOR_MIN lp64
  /\ allocate_vectorlike lp64 0 false 16384 example_state
     = Some (Returns 64 example_state).
Proof.
  split; [vm_compute; discriminate|]. split; [vm_compute; reflexivity|].
  split; [vm_compute; discriminate|]. reflexivity.
Qed.

Lemma vector_first_fit_witness :
  first_fit_spec lp64 509 1 24 example_state = Some 4
  /\ exists st',
       allocate_vectorlike lp64 2 false 16384 example_state
       = Some (Returns 8448 st')
       /\ vector_free_lists st' !! 4%nat = Some 8704
       /\ vector_free_lists st' !! 1%nat = Some 8472
       /\ vmem st' !! 8472
          = Some {| v_header := PVEC_FREE 2; v_contents0 := 0 |}.
Proof.
  split; [vm_compute; reflexivity|].
  destruct (vector_first_fit lp64 2 false 16384 example_state) as [_ H].
  destruct H as [_ H].
  - reflexivity.
  - split; [lia | apply Z.leb_le; vm_compute; reflexivity].
  - apply Z.leb_le. vm_compute. reflexivity.
  - vm_compute. reflexivity.
  - exact example_free_vectors.
  - change (first_fit_spec lp64 _ _ _ example_state) with (Some 4) in H.
    destruct H as (_ & _ & _ & p & c & st' & Hp & _ & Hc & Hr & _ & _ & Hrest
                   & _).
    assert (p = 8448) as -> by (vm_compute in Hp; congruence).
    assert (c = {| v_header := PVEC_FREE 5; v_contents0 := 8704 |}) as ->
      by (vm_compute in Hc; congruence).
    destruct Hrest as (head & Hh & _ & Hl & Hm).
    { vm_compute. discriminate. }
    exists st'. split; [exact Hr|]. rewrite Hl.
    assert (head = 0) as -> by (vm_compute in Hh; congruence).
    split_and!; [vm_compute; reflexivity | vm_compute; reflexivity
                | exact Hm].
Defined.

End VectorsProofs.
(** ** Checked allocation *)
Module XallocProofs.
Import Lisp Xalloc.
Local Open Scope Z_scope.
Section platform.
Context (pf : platform) (sizeof_size_t : Z).
Context (lmalloc : Z -> bool -> Z) (lrealloc : Z -> Z -> Z).

Local Abbreviation PMAX := (PTRDIFF_MAX pf).
Local Abbreviation SMAX := (Vectors.SIZE_MAX pf).
Local Abbreviation MXFAST := (DEFAULT_MXFAST sizeof_size_t).

Lemma ptrdiff_wrap_id x :
  PTRDIFF_MIN pf <= x <= PMAX -> ptrdiff_wrap pf x = x.
Proof.
  unfold ptrdiff_wrap, PTRDIFF_MIN. intros H.
  rewrite Z.mod_small by lia. lia.
Qed.

Lemma add_wrapv_ok a b :
  PTRDIFF_MIN pf <= a + b <= PMAX -> INT_ADD_WRAPV pf a b = (false, a + b).
Proof.
  intros H. unfold INT_ADD_WRAPV. rewrite ptrdiff_wrap_id by done.
  f_equal. lia.
Qed.

Lemma add_wrapv_overflow a b :
  PMAX < a + b -> (INT_ADD_WRAPV pf a b).1 = true.
Proof. unfold INT_ADD_WRAPV. simpl. lia. Qed.

Lemma multiply_wrapv_ok a b :
  PTRDIFF_MIN pf <= a * b <= PMAX ->
  INT_MULTIPLY_WRAPV pf a b = (false, a * b).
Proof.
  intros H. unfold INT_MULTIPLY_WRAPV. rewrite ptrdiff_wrap_id by done.
  f_equal. lia.
Qed.

Lemma multiply_wrapv_overflow a b :
  PMAX < a * b -> (INT_MULTIPLY_WRAPV pf a b).1 = true.
Proof. unfold INT_MULTIPLY_WRAPV. simpl. lia. Qed.

Lemma xrealloc_returns block size val :
  xrealloc lmalloc lrealloc block size = Returns val ->
  val <> 0
  /\ val = if negb (block =? 0) then lrealloc block size
           else lmalloc size false.
Proof.
  unfold xrealloc. cbv zeta.
  destruct (_ =? 0) eqn:E; [done|]. intros [= <-].
  apply Z.eqb_neq in E. done.
Qed.

(** The count that [xpalloc] first aims at: half as much again, within
    [PTRDIFF_MAX] and [nitems_max]. *)
Lemma xpalloc_pre_elim n0 incr nmax isz :
  xpalloc_pre pf sizeof_size_t n0 incr nmax isz = true ->
  0 < isz <= PMAX /\ 0 < incr <= PMAX /\ 0 <= n0 <= PMAX
  /\ -1 <= nmax <= PMAX /\ 0 < SMAX
  /\ 0 <= MXFAST <= Z.min PMAX SMAX.
Proof. unfold xpalloc_pre. lia. Qed.

(** [xpalloc] without the overflow flags: [n3] is the count that the
    first part arrives at. *)
Lemma xpalloc_eq pa n0 incr nmax isz :
  xpalloc_pre pf sizeof_size_t n0 incr nmax isz = true ->
  xpalloc pf sizeof_size_t lmalloc lrealloc pa n0 incr nmax isz
  = (let n1 := Z.min (n0 + Z.shiftr n0 1) PMAX in
     let n2 := if (0 <=? nmax) && (nmax <? n1) then nmax else n1 in
     let adj :=
       if n2 * isz >? Z.min PMAX SMAX then Z.min PMAX SMAX
       else if n2 * isz <? MXFAST then MXFAST else 0 in
     let n3 := if adj =? 0 then n2 else adj ÷ isz in
     let nitems := if pa =? 0 then 0 else n0 in
     let n4 := if n3 - n0 <? incr then n0 + incr else n3 in
     if (n3 - n0 <? incr)
        && ((n0 + incr >? PMAX) || ((0 <=? nmax) && (nmax <? n0 + incr))
            || ((n0 + incr) * isz >? PMAX))
     then (Memory_full SMAX, nitems)
     else
       match xrealloc lmalloc lrealloc pa (n4 * isz) with
       | Returns val => (Returns val, n4)
       | Memory_full size => (Memory_full size, nitems)
       end).
Proof.
  intros (Hisz & Hincr & Hn0 & Hnmax & Hsmax & Hfast)%xpalloc_pre_elim.
  unfold xpalloc. cbv zeta.
  assert (Hsh : 0 <= Z.shiftr n0 1 <= n0).
  { rewrite Z.shiftr_div_pow2 by lia. change (2 ^ 1) with 2.
    split; [apply Z.div_pos; lia | apply Z.div_le_upper_bound; lia]. }
  set (s := n0 + Z.shiftr n0 1).
  destruct (INT_ADD_WRAPV pf n0 (Z.shiftr n0 1)) as [v1 w1] eqn:E1.
  assert (H1 : (if v1 then PMAX else w1) = Z.min s PMAX).
  { unfold INT_ADD_WRAPV in E1. fold s in E1. injection E1 as <- <-.
    destruct (Z_le_gt_dec s PMAX).
    - rewrite ptrdiff_wrap_id by (unfold PTRDIFF_MIN; lia).
      unfold PTRDIFF_MIN. destruct (_ || _) eqn:?; lia.
    - unfold PTRDIFF_MIN. destruct (_ || _) eqn:?; lia. }
  rewrite !H1. clear E1 H1 v1 w1. set (n1 := Z.min s PMAX).
  set (n2 := if (0 <=? nmax) && (nmax <? n1) then nmax else n1).
  assert (Hn2 : 0 <= n2 <= PMAX).
  { unfold n2, n1. destruct (_ && _) eqn:?; lia. }
  destruct (INT_MULTIPLY_WRAPV pf n2 isz) as [v2 w2] eqn:E2.
  set (adj := if n2 * isz >? Z.min PMAX SMAX then Z.min PMAX SMAX
              else if n2 * isz <? MXFAST then MXFAST else 0).
  assert (H2 : (if v2 || (SMAX <? w2) then Z.min PMAX SMAX
                else if w2 <? MXFAST then MXFAST else 0) = adj
               /\ (adj = 0 -> w2 = n2 * isz)).
  { unfold INT_MULTIPLY_WRAPV in E2. injection E2 as <- <-. unfold adj.
    assert (0 <= n2 * isz) by nia.
    destruct (Z_le_gt_dec (n2 * isz) PMAX).
    - rewrite ptrdiff_wrap_id by (unfold PTRDIFF_MIN; lia).
      unfold PTRDIFF_MIN.
      destruct (_ || _) eqn:?;
        destruct (n2 * isz >? Z.min PMAX SMAX) eqn:?;
        destruct (n2 * isz <? MXFAST) eqn:?; lia.
    - unfold PTRDIFF_MIN.
      destruct (_ || _) eqn:?;
        destruct (n2 * isz >? Z.min PMAX SMAX) eqn:?; lia. }
  destruct H2 as [H2 H2']. rewrite !H2.
  set (n3 := if adj =? 0 then n2 else adj ÷ isz).
  assert (H3 : (if negb (adj =? 0)
                then (adj ÷ isz, adj - Z.rem adj isz) else (n2, w2))
               = (n3, n3 * isz)).
  { unfold n3. destruct (Z.eqb_spec adj 0) as [E|E]; cbn [negb].
    - by rewrite H2'.
    - f_equal. pose proof (Z.quot_rem' adj isz). lia. }
  rewrite H3. clear H3 H2 H2' E2 v2 w2.
  destruct (Z.ltb_spec (n3 - n0) incr) as [Hlt|Hge]; cbn [andb].
  2: reflexivity.
  destruct (INT_ADD_WRAPV pf n0 incr) as [v3 w3] eqn:E3.
  unfold INT_ADD_WRAPV in E3. injection E3 as <- <-.
  destruct (Z_le_gt_dec (n0 + incr) PMAX) as [Hle|Hgt].
  2:{ replace ((n0 + incr <? PTRDIFF_MIN pf) || (n0 + incr >? PMAX))
        with true by (unfold PTRDIFF_MIN; lia).
      replace (n0 + incr >? PMAX) with true by lia. reflexivity. }
  rewrite ptrdiff_wrap_id by (unfold PTRDIFF_MIN; lia).
  replace ((n0 + incr <? PTRDIFF_MIN pf) || (n0 + incr >? PMAX))
    with false by (unfold PTRDIFF_MIN; lia).
  replace (n0 + incr >? PMAX) with false by lia. cbn [orb].
  destruct ((0 <=? nmax) && (nmax <? n0 + incr)); [reflexivity|].
  cbn [orb].
  destruct (INT_MULTIPLY_WRAPV pf (n0 + incr) isz) as [v4 w4] eqn:E4.
  unfold INT_MULTIPLY_WRAPV in E4. injection E4 as <- <-.
  assert (0 <= (n0 + incr) * isz) by nia.
  destruct (Z_le_gt_dec ((n0 + incr) * isz) PMAX) as [Hle4|Hgt4].
  - rewrite ptrdiff_wrap_id by (unfold PTRDIFF_MIN; lia).
    replace (_ || _) with false by (unfold PTRDIFF_MIN; lia).
    replace (_ >? PMAX) with false by lia. reflexivity.
  - replace (_ || _) with true by (unfold PTRDIFF_MIN; lia).
    replace (_ >? PMAX) with true by lia. reflexivity.
Qed.

End platform.

(** *** The properties of [xpalloc] and [xnmalloc] *)
Section platform.
Context (pf : platform) (sizeof_size_t : Z).
Context (lmalloc : Z -> bool -> Z) (lrealloc : Z -> Z -> Z).

Local Abbreviation PMAX := (PTRDIFF_MAX pf).
Local Abbreviation SMAX := (Vectors.SIZE_MAX pf).
Local Abbreviation MXFAST := (DEFAULT_MXFAST sizeof_size_t).

(** X7.  When [xpalloc] returns, the new count is at least the old count
    plus [nitems_incr_min], the allocator was asked for exactly the new
    count times the item size, which does not exceed [PTRDIFF_MAX], and
    the pointer is not null.  With a maximum, the new count is at most
    the maximum or the count that fills [DEFAULT_MXFAST] bytes. *)
Theorem xpalloc_grows pa n0 incr nmax isz val n :
  xpalloc_pre pf sizeof_size_t n0 incr nmax isz = true ->
  xpalloc pf sizeof_size_t lmalloc lrealloc pa n0 incr nmax isz
  = (Returns val, n) ->
  n0 + incr <= n
  /\ n * isz <= PMAX
  /\ (0 <= nmax -> n <= Z.max nmax (MXFAST ÷ isz))
  /\ val <> 0
  /\ val = (if negb (pa =? 0) then lrealloc pa (n * isz)
            else lmalloc (n * isz) false).
Proof.
  intros Hpre. rewrite (xpalloc_eq pf sizeof_size_t lmalloc lrealloc) by done.
  apply xpalloc_pre_elim in Hpre
    as (Hisz & Hincr & Hn0 & Hnmax & Hsmax & Hfast).
  cbv zeta.
  assert (Hsh : 0 <= Z.shiftr n0 1 <= n0).
  { rewrite Z.shiftr_div_pow2 by lia. change (2 ^ 1) with 2.
    split; [apply Z.div_pos; lia | apply Z.div_le_upper_bound; lia]. }
  set (n1 := Z.min (n0 + Z.shiftr n0 1) PMAX).
  set (n2 := if (0 <=? nmax) && (nmax <? n1) then nmax else n1).
  assert (Hn2 : 0 <= n2 <= PMAX /\ (0 <= nmax -> n2 <= nmax)).
  { unfold n2, n1. destruct (_ && _) eqn:?; lia. }
  set (adj := if n2 * isz >? Z.min PMAX SMAX then Z.min PMAX SMAX
              else if n2 * isz <? MXFAST then MXFAST else 0).
  set (n3 := if adj =? 0 then n2 else adj ÷ isz).
  assert (Hn3 : 0 <= n3 /\ n3 * isz <= PMAX
                /\ (0 <= nmax -> n3 <= Z.max nmax (MXFAST ÷ isz))).
  { unfold n3, adj.
    destruct (Z.gtb_spec (n2 * isz) (Z.min PMAX SMAX)) as [Hgt|Hle].
    - destruct (Z.eqb_spec (Z.min PMAX SMAX) 0); [lia|].
      pose proof (Z.quot_rem' (Z.min PMAX SMAX) isz) as Hq.
      pose proof (Z.rem_bound_pos (Z.min PMAX SMAX) isz ltac:(lia) ltac:(lia)).
      split; [apply Z.quot_pos; lia|]. split; [lia|]. intros Hm.
      assert (Z.min PMAX SMAX ÷ isz <= n2); [|lia].
      apply Z.quot_le_upper_bound; lia.
    - destruct (Z.ltb_spec (n2 * isz) MXFAST) as [Hlt|Hge].
      + destruct (Z.eqb_spec MXFAST 0); [nia|].
        pose proof (Z.quot_rem' MXFAST isz) as Hq.
        pose proof (Z.rem_bound_pos MXFAST isz ltac:(lia) ltac:(lia)).
        split; [apply Z.quot_pos; lia|]. split; lia.
      + cbn [Z.eqb]. split; [lia|]. split; lia. }
  destruct (Z.ltb_spec (n3 - n0) incr) as [Hlt|Hge]; cbn [andb].
  - destruct (Z.gtb_spec (n0 + incr) PMAX) as [|Hle]; cbn [orb]; [done|].
    destruct ((0 <=? nmax) && (nmax <? n0 + incr)) eqn:Hm; cbn [orb]; [done|].
    destruct (Z.gtb_spec ((n0 + incr) * isz) PMAX) as [|Hle']; [done|].
    destruct (xrealloc _ _ _ _) as [v|k] eqn:Hx; [|done].
    intros [= <- <-]. apply xrealloc_returns in Hx as [Hv0 Hv].
    split_and!; try done; lia.
  - destruct (xrealloc _ _ _ _) as [v|k] eqn:Hx; [|done].
    intros [= <- <-]. apply xrealloc_returns in Hx as [Hv0 Hv].
    split_and!; try done; lia.
Qed.

(** X8.  [xpalloc] does not end in [memory_full] when the array can
    grow by [nitems_incr_min]: the old count plus [nitems_incr_min] is
    within the maximum, if there is one, that count times the item size
    is within [PTRDIFF_MAX], and the allocator answers. *)
Theorem xpalloc_succeeds pa n0 incr nmax isz :
  xpalloc_pre pf sizeof_size_t n0 incr nmax isz = true ->
  (0 <= nmax -> n0 + incr <= nmax) ->
  (n0 + incr) * isz <= PMAX ->
  (forall size, lmalloc size false <> 0 /\ lrealloc pa size <> 0) ->
  exists val n,
    xpalloc pf sizeof_size_t lmalloc lrealloc pa n0 incr nmax isz
    = (Returns val, n).
Proof.
  intros Hpre Hmax Hfit Halloc.
  rewrite (xpalloc_eq pf sizeof_size_t lmalloc lrealloc) by done.
  apply xpalloc_pre_elim in Hpre
    as (Hisz & Hincr & Hn0 & Hnmax & Hsmax & Hfast).
  cbv zeta.
  assert (Hx : forall size, exists val,
             xrealloc lmalloc lrealloc pa size = Returns val).
  { intros size. unfold xrealloc. cbv zeta. destruct (Halloc size) as [H1 H2].
    destruct (negb (pa =? 0)).
    - apply Z.eqb_neq in H2. rewrite H2. eauto.
    - apply Z.eqb_neq in H1. rewrite H1. eauto. }
  match goal with |- context [(?a <? incr) && ?c] =>
    replace ((a <? incr) && c) with false end.
  - match goal with |- context [xrealloc _ _ pa ?sz] =>
      destruct (Hx sz) as [val ->] end. eauto.
  - symmetry. apply andb_false_iff. right.
    assert (n0 + incr <= PMAX) by nia.
    destruct (Z.leb_spec 0 nmax); cbn [andb]; lia.
Qed.

(** X9.  A small array grows to [DEFAULT_MXFAST] bytes whatever the
    maximum is: when half as much again as the old count is less than
    [DEFAULT_MXFAST] bytes, and [DEFAULT_MXFAST] bytes hold the old count
    plus [nitems_incr_min], the new count is
    [DEFAULT_MXFAST / item_size], also when [nitems_max] is less. *)
Theorem xpalloc_small_array pa n0 incr nmax isz val :
  xpalloc_pre pf sizeof_size_t n0 incr nmax isz = true ->
  (n0 + Z.shiftr n0 1) * isz < MXFAST ->
  n0 + incr <= MXFAST ÷ isz ->
  xrealloc lmalloc lrealloc pa (MXFAST ÷ isz * isz) = Returns val ->
  xpalloc pf sizeof_size_t lmalloc lrealloc pa n0 incr nmax isz
  = (Returns val, MXFAST ÷ isz).
Proof.
  intros Hpre Hsmall Hroom Hx.
  rewrite (xpalloc_eq pf sizeof_size_t lmalloc lrealloc) by done.
  apply xpalloc_pre_elim in Hpre
    as (Hisz & Hincr & Hn0 & Hnmax & Hsmax & Hfast).
  cbv zeta.
  assert (Hsh : 0 <= Z.shiftr n0 1 <= n0).
  { rewrite Z.shiftr_div_pow2 by lia. change (2 ^ 1) with 2.
    split; [apply Z.div_pos; lia | apply Z.div_le_upper_bound; lia]. }
  set (n1 := Z.min (n0 + Z.shiftr n0 1) PMAX).
  set (n2 := if (0 <=? nmax) && (nmax <? n1) then nmax else n1).
  assert (Hn2 : 0 <= n2 <= n0 + Z.shiftr n0 1).
  { unfold n2, n1. destruct (_ && _) eqn:?; lia. }
  assert (Hb : 0 <= n2 * isz < MXFAST) by nia.
  replace (n2 * isz >? Z.min PMAX SMAX) with false by lia.
  replace (n2 * isz <? MXFAST) with true by lia.
  replace (MXFAST =? 0) with false by lia.
  replace (MXFAST ÷ isz - n0 <? incr) with false by lia.
  cbn [andb]. by rewrite Hx.
Qed.

(** X10.  [xnmalloc] asks the allocator for the exact product of the
    count and the item size, and only when it is within [PTRDIFF_MAX]
    and [SIZE_MAX]; otherwise it ends in [memory_full (SIZE_MAX)] and the
    allocator is not asked. *)
Theorem xnmalloc_checks_product nitems isz :
  0 < PMAX -> 0 <= nitems -> 0 < isz ->
  xnmalloc pf lmalloc nitems isz
  = if nitems * isz >? Z.min PMAX SMAX then Memory_full SMAX
    else if lmalloc (nitems * isz) false =? 0
         then Memory_full (nitems * isz)
         else Returns (lmalloc (nitems * isz) false).
Proof.
  intros Hp Hn Hi. unfold xnmalloc, INT_MULTIPLY_WRAPV.
  assert (0 <= nitems * isz) by nia.
  destruct (Z_le_gt_dec (nitems * isz) PMAX).
  - rewrite ptrdiff_wrap_id by (unfold PTRDIFF_MIN; lia).
    unfold PTRDIFF_MIN.
    destruct (Z.gtb_spec (nitems * isz) (Z.min PMAX SMAX)).
    + replace (_ || _) with true by lia. done.
    + replace (_ || _) with false by lia. done.
  - unfold PTRDIFF_MIN.
    replace (nitems * isz >? Z.min PMAX SMAX) with true by lia.
    replace ((nitems * isz <? - PMAX - 1) || (nitems * isz >? PMAX))
      with true by lia.
    done.
Qed.

End platform.

Lemma xpalloc_grows_witness :
  xpalloc lp64 8 example_lmalloc example_lrealloc 8192 100 1 (-1) 16
  = (Returns 8192, 150)
  /\ 100 + 1 <= 150 /\ 150 * 16 <= PTRDIFF_MAX lp64.
Proof.
  assert (H : xpalloc lp64 8 example_lmalloc example_lrealloc
                8192 100 1 (-1) 16 = (Returns 8192, 150))
    by (vm_compute; reflexivity).
  split; [exact H|].
  destruct (xpalloc_grows lp64 8 example_lmalloc example_lrealloc
              8192 100 1 (-1) 16 8192 150) as (H1 & H2 & _).
  - vm_compute. reflexivity.
  - exact H.
  - split; [exact H1 | exact H2].
Defined.

Lemma xpalloc_succeeds_witness :
  exists val n,
    xpalloc lp64 8 example_lmalloc example_lrealloc 8192 100 7 120 16
    = (Returns val, n).
Proof.
  apply (xpalloc_succeeds lp64 8 example_lmalloc example_lrealloc
           8192 100 7 120 16).
  - vm_compute. reflexivity.
  - lia.
  - apply Z.leb_le. vm_compute. reflexivity.
  - intros size. unfold example_lmalloc, example_lrealloc. lia.
Defined.

Lemma xpalloc_small_array_witness :
  xpalloc lp64 8 example_lmalloc example_lrealloc 0 0 1 2 1
  = (Returns 4096, 128).
Proof.
  apply (xpalloc_small_array lp64 8 example_lmalloc example_lrealloc
           0 0 1 2 1 4096).
  - vm_compute. reflexivity.
  - vm_compute. reflexivity.
  - apply Z.leb_le. vm_compute. reflexivity.
  - vm_compute. reflexivity.
Defined.

Lemma xnmalloc_checks_product_witness :
  xnmalloc lp64 example_lmalloc 10 8 = Returns 4096
  /\ xnmalloc lp64 example_lmalloc (2 ^ 62) 8
     = Memory_full (Vectors.SIZE_MAX lp64).
Proof.
  split.
  - rewrite (xnmalloc_checks_product lp64 example_lmalloc 10 8);
      [vm_compute; reflexivity | vm_compute; reflexivity | lia | lia].
  - rewrite (xnmalloc_checks_product lp64 example_lmalloc (2 ^ 62) 8);
      [vm_compute; reflexivity | vm_compute; reflexivity | lia | lia].
Defined.

End XallocProofs.
(** ** Pure storage *)
Module PureProofs.
Import Lisp Pure.
Local Open Scope Z_scope.
Section platform.
Context (LISP_ALIGNMENT : Z) (ROUNDUP : Z -> Z -> Z).
Context (lmalloc : Z -> bool -> Z).

Lemma land_mask x k :
  0 <= k -> Z.land x (-1 - - 2 ^ k) = x mod 2 ^ k.
Proof.
  intros Hk. replace (-1 - - 2 ^ k) with (Z.ones k)
    by (rewrite Z.ones_equiv; lia).
  by apply Z.land_ones.
Qed.

Lemma pure_ok_elim st :
  pure_ok st = true ->
  0 <= purebeg st /\ 0 <= pure_bytes_used_lisp st
  /\ 0 <= pure_bytes_used_non_lisp st
  /\ pure_bytes_used_lisp st + pure_bytes_used_non_lisp st <= pure_size st.
Proof. unfold pure_ok. lia. Qed.

Lemma pure_alloc_gap fuel : forall size type st p st',
  ROUNDUP_ok ROUNDUP -> 0 < LISP_ALIGNMENT -> 0 <= size ->
  (type < 0 -> exists k, 0 <= k /\ - type = 2 ^ k) ->
  0 <= lmalloc small_amount true ->
  pure_ok st = true ->
  pure_alloc LISP_ALIGNMENT ROUNDUP lmalloc fuel size type st
  = Some (Returns p st') ->
  p mod alignment_of LISP_ALIGNMENT type = 0
  /\ pure_ok st' = true
  /\ purebeg st' <= p /\ p + size <= purebeg st' + pure_size st'
  /\ (p + size <= purebeg st' + pure_bytes_used_lisp st'
      \/ purebeg st' + pure_size st' - pure_bytes_used_non_lisp st' <= p)
  /\ ((purebeg st' = purebeg st /\ pure_size st' = pure_size st
       /\ gc_inhibited st' = gc_inhibited st
       /\ purebeg st + pure_bytes_used_lisp st <= p
       /\ p + size
          <= purebeg st + pure_size st - pure_bytes_used_non_lisp st
       /\ pure_bytes_used_lisp st <= pure_bytes_used_lisp st'
       /\ pure_bytes_used_non_lisp st <= pure_bytes_used_non_lisp st')
      \/ (gc_inhibited st' = true /\ pure_size st' = small_amount
          /\ purebeg st' = lmalloc small_amount true
          /\ purebeg st' <> 0)).
Proof.
  induction fuel as [|fuel IH]; intros size type st p st' HR HA Hsize Hpow Hm
    Hok Hrun; [done|].
  apply pure_ok_elim in Hok as Hst. destruct Hst as (Hb & Hl & Hn & Hfit).
  cbn [pure_alloc] in Hrun. unfold alignment_of.
  destruct (Z.geb_spec type 0) as [Ht|Ht].
  - unfold pointer_align in Hrun.
    destruct (HR (purebeg st + pure_bytes_used_lisp st) LISP_ALIGNMENT HA)
      as [Hr Hmod].
    set (r := ROUNDUP _ _) in *.
    destruct (Z.leb_spec (r - purebeg st + size + pure_bytes_used_non_lisp st)
                (pure_size st)) as [Hle|Hgt].
    + injection Hrun as <- <-. cbn.
      split; [done|]. split; [unfold pure_ok; cbn; lia|].
      split; [lia|]. split; [lia|]. split; [lia|]. left.
      split_and!; first [done | lia].
    + unfold Xalloc.xzalloc in Hrun. cbv zeta in Hrun.
      destruct (Z.eqb_spec (lmalloc small_amount true) 0) as [|Hp0]; [done|].
      apply IH in Hrun; try done.
      2:{ unfold pure_ok. cbn. unfold small_amount in *. lia. }
      destruct Hrun as (R1 & R2 & R3 & R4 & R5 & R6).
      unfold alignment_of in R1. destruct (Z.geb_spec type 0); [|lia].
      split; [done|]. split; [done|]. split; [done|]. split; [done|].
      split; [done|]. right. cbn in R6.
      destruct R6 as [(E1 & E2 & E3 & _)|R6]; [|done].
      rewrite E1, E2, E3. done.
  - destruct (Hpow ltac:(lia)) as (k & Hk & Ek).
    replace type with (- 2 ^ k) in Hrun |- * by lia.
    rewrite land_mask in Hrun by done.
    set (un := purebeg st + pure_size st
               - (pure_bytes_used_non_lisp st + size)) in *.
    assert (H2k : 0 < 2 ^ k) by (apply Z.pow_pos_nonneg; lia).
    pose proof (Z.mod_pos_bound un (2 ^ k) H2k) as Hd.
    replace (- - 2 ^ k) with (2 ^ k) by lia.
    destruct (Z.leb_spec (pure_bytes_used_lisp st
                          + (pure_bytes_used_non_lisp st + size
                             + un mod 2 ^ k)) (pure_size st)) as [Hle|Hgt].
    + injection Hrun as <- <-. cbn.
      split.
      { rewrite Zminus_mod_idemp_r. by rewrite Z.sub_diag. }
      split; [unfold pure_ok; cbn; lia|].
      split; [lia|]. split; [lia|]. split; [lia|]. left.
      split_and!; first [done | lia].
    + unfold Xalloc.xzalloc in Hrun. cbv zeta in Hrun.
      destruct (Z.eqb_spec (lmalloc small_amount true) 0) as [|Hp0]; [done|].
      apply IH in Hrun; try done.
      2:{ intros _. exists k. split; [done|lia]. }
      2:{ unfold pure_ok. cbn. unfold small_amount in *. lia. }
      destruct Hrun as (R1 & R2 & R3 & R4 & R5 & R6).
      unfold alignment_of in R1.
      destruct (Z.geb_spec (- 2 ^ k) 0); [lia|].
      replace (- - 2 ^ k) with (2 ^ k) in R1 by lia.
      split; [done|]. split; [done|]. split; [done|]. split; [done|].
      split; [done|]. right. cbn in R6.
      destruct R6 as [(E1 & E2 & E3 & _)|R6]; [|done].
      rewrite E1, E2, E3. done.
Qed.

(** A call that returns without reaching the label [again]. *)
Lemma pure_alloc_pass size type st p st' :
  ROUNDUP_ok ROUNDUP -> 0 < LISP_ALIGNMENT -> 0 <= size ->
  (type < 0 -> exists k, 0 <= k /\ - type = 2 ^ k) ->
  pure_ok st = true ->
  pure_alloc LISP_ALIGNMENT ROUNDUP lmalloc 1 size type st
  = Some (Returns p st') ->
  purebeg st' = purebeg st /\ pure_size st' = pure_size st
  /\ gc_inhibited st' = gc_inhibited st
  /\ purebeg st + pure_bytes_used_lisp st <= p
  /\ p + size <= purebeg st + pure_size st - pure_bytes_used_non_lisp st.
Proof.
  intros HR HA Hsize Hpow Hok Hrun.
  apply pure_ok_elim in Hok as (Hb & Hl & Hn & Hfit).
  cbn [pure_alloc] in Hrun.
  destruct (Z.geb_spec type 0) as [Ht|Ht].
  - unfold pointer_align in Hrun.
    destruct (HR (purebeg st + pure_bytes_used_lisp st) LISP_ALIGNMENT HA)
      as [Hr Hmod].
    set (r := ROUNDUP _ _) in *.
    destruct (Z.leb_spec (r - purebeg st + size + pure_bytes_used_non_lisp st)
                (pure_size st)) as [Hle|Hgt].
    + injection Hrun as <- <-. cbn. split_and!; first [done | lia].
    + by destruct (Xalloc.xzalloc lmalloc small_amount).
  - destruct (Hpow ltac:(lia)) as (k & Hk & Ek).
    replace type with (- 2 ^ k) in Hrun by lia.
    rewrite land_mask in Hrun by done.
    set (un := purebeg st + pure_size st
               - (pure_bytes_used_non_lisp st + size)) in *.
    assert (H2k : 0 < 2 ^ k) by (apply Z.pow_pos_nonneg; lia).
    pose proof (Z.mod_pos_bound un (2 ^ k) H2k) as Hd.
    destruct (Z.leb_spec (pure_bytes_used_lisp st
                          + (pure_bytes_used_non_lisp st + size
                             + un mod 2 ^ k)) (pure_size st)) as [Hle|Hgt].
    + injection Hrun as <- <-. cbn. split_and!; first [done | lia].
    + by destruct (Xalloc.xzalloc lmalloc small_amount).
Qed.

End platform.

(** *** The properties of [pure_alloc] *)
Section platform.
Context (LISP_ALIGNMENT : Z) (ROUNDUP : Z -> Z -> Z).
Context (lmalloc : Z -> bool -> Z).

(** X19.  What [pure_alloc] returns is aligned as asked and lies in the
    pure space; unless the pure space overflowed, it lies in the gap
    between the Lisp data at the beginning and the other data at the end,
    and afterwards it is part of one of the two.  After an overflow the
    pure space is a block of 10000 bytes from the heap and collection is
    inhibited. *)
Theorem pure_alloc_in_gap fuel size type st p st' :
  ROUNDUP_ok ROUNDUP -> 0 < LISP_ALIGNMENT -> 0 <= size ->
  (type < 0 -> exists k, 0 <= k /\ - type = 2 ^ k) ->
  0 <= lmalloc small_amount true ->
  pure_ok st = true ->
  pure_alloc LISP_ALIGNMENT ROUNDUP lmalloc fuel size type st
  = Some (Returns p st') ->
  p mod alignment_of LISP_ALIGNMENT type = 0
  /\ pure_ok st' = true
  /\ purebeg st' <= p /\ p + size <= purebeg st' + pure_size st'
  /\ (p + size <= purebeg st' + pure_bytes_used_lisp st'
      \/ purebeg st' + pure_size st' - pure_bytes_used_non_lisp st' <= p)
  /\ ((purebeg st' = purebeg st /\ pure_size st' = pure_size st
       /\ gc_inhibited st' = gc_inhibited st
       /\ purebeg st + pure_bytes_used_lisp st <= p
       /\ p + size
          <= purebeg st + pure_size st - pure_bytes_used_non_lisp st
       /\ pure_bytes_used_lisp st <= pure_bytes_used_lisp st'
       /\ pure_bytes_used_non_lisp st <= pure_bytes_used_non_lisp st')
      \/ (gc_inhibited st' = true /\ pure_size st' = small_amount
          /\ purebeg st' = lmalloc small_amount true
          /\ purebeg st' <> 0)).
Proof. apply pure_alloc_gap. Qed.

(** X20.  Two successive allocations from the pure space do not
    overlap when the second does not overflow the pure space that the
    first has left: when the second call returns on its first pass,
    without reaching the label [again], and likewise when it leaves
    [purebeg] as it is, the allocator returning a block elsewhere.  The
    first call may have overflowed, and collection may be inhibited or
    not. *)
Theorem pure_alloc_disjoint f1 f2 s1 t1 s2 t2 st p1 st1 p2 st2 :
  ROUNDUP_ok ROUNDUP -> 0 < LISP_ALIGNMENT -> 0 <= s1 -> 0 <= s2 ->
  (t1 < 0 -> exists k, 0 <= k /\ - t1 = 2 ^ k) ->
  (t2 < 0 -> exists k, 0 <= k /\ - t2 = 2 ^ k) ->
  0 <= lmalloc small_amount true ->
  pure_ok st = true ->
  pure_alloc LISP_ALIGNMENT ROUNDUP lmalloc f1 s1 t1 st
  = Some (Returns p1 st1) ->
  pure_alloc LISP_ALIGNMENT ROUNDUP lmalloc f2 s2 t2 st1
  = Some (Returns p2 st2) ->
  (pure_alloc LISP_ALIGNMENT ROUNDUP lmalloc 1 s2 t2 st1
   = Some (Returns p2 st2) ->
   (p1 + s1 <= p2 \/ p2 + s2 <= p1) /\ purebeg st2 = purebeg st1)
  /\ (purebeg st2 = purebeg st1 ->
      lmalloc small_amount true <> purebeg st1 ->
      p1 + s1 <= p2 \/ p2 + s2 <= p1).
Proof.
  intros HR HA H1 H2 Hp1 Hp2 Hm Hok E1 E2.
  destruct (pure_alloc_gap LISP_ALIGNMENT ROUNDUP lmalloc f1 s1 t1 st p1 st1
              HR HA H1 Hp1 Hm Hok E1) as (_ & Hok1 & _ & _ & Hin1 & _).
  split.
  - intros E.
    destruct (pure_alloc_pass LISP_ALIGNMENT ROUNDUP lmalloc s2 t2 st1 p2 st2
                HR HA H2 Hp2 Hok1 E) as (Hb & _ & _ & G1 & G2).
    split; [lia|done].
  - intros Hb Hfresh.
    destruct (pure_alloc_gap LISP_ALIGNMENT ROUNDUP lmalloc f2 s2 t2 st1 p2
                st2 HR HA H2 Hp2 Hm Hok1 E2) as (_ & _ & _ & _ & _ & Hgap).
    destruct Hgap as [(_ & _ & _ & G1 & G2 & _)|(_ & _ & Hl & _)]; [lia|].
    congruence.
Qed.

(** X21.  When the pure space overflows, [pure_alloc] goes on in a block
    from the heap and returns on the second pass: two passes are enough
    for a request of at most 10000 bytes less the Lisp alignment, with an
    alignment of at most the Lisp alignment, if the allocator answers. *)
Theorem pure_alloc_returns size type st :
  ROUNDUP_ok ROUNDUP -> 0 < LISP_ALIGNMENT -> 0 <= size ->
  (type < 0 -> exists k, 0 <= k /\ - type = 2 ^ k) ->
  size <= small_amount - LISP_ALIGNMENT ->
  alignment_of LISP_ALIGNMENT type <= LISP_ALIGNMENT ->
  0 < lmalloc small_amount true ->
  exists p st',
    pure_alloc LISP_ALIGNMENT ROUNDUP lmalloc 2 size type st
    = Some (Returns p st').
Proof.
  intros HR HA Hsize Hpow Hsmall Hal Hm.
  assert (Hpass : forall st0,
            pure_bytes_used_lisp st0 = 0 ->
            pure_bytes_used_non_lisp st0 = 0 ->
            pure_size st0 = small_amount ->
            exists p st',
              pure_alloc LISP_ALIGNMENT ROUNDUP lmalloc 1 size type st0
              = Some (Returns p st')).
  { intros st0 E1 E2 E3. cbn [pure_alloc]. unfold alignment_of in Hal.
    destruct (Z.geb_spec type 0) as [Ht|Ht].
    - unfold pointer_align.
      destruct (HR (purebeg st0 + pure_bytes_used_lisp st0) LISP_ALIGNMENT HA)
        as [Hr _].
      set (r := ROUNDUP _ _) in *.
      destruct (Z.leb_spec (r - purebeg st0 + size
                            + pure_bytes_used_non_lisp st0) (pure_size st0));
        [eauto|lia].
    - destruct (Hpow ltac:(lia)) as (k & Hk & Ek).
      replace type with (- 2 ^ k) by lia. rewrite land_mask by done.
      set (un := purebeg st0 + pure_size st0
                 - (pure_bytes_used_non_lisp st0 + size)).
      assert (H2k : 0 < 2 ^ k) by (apply Z.pow_pos_nonneg; lia).
      pose proof (Z.mod_pos_bound un (2 ^ k) H2k) as Hd.
      destruct (Z.leb_spec (pure_bytes_used_lisp st0
                            + (pure_bytes_used_non_lisp st0 + size
                               + un mod 2 ^ k)) (pure_size st0));
        [eauto|lia]. }
  change (pure_alloc LISP_ALIGNMENT ROUNDUP lmalloc 2 size type st)
    with (let '(result, lisp, non_lisp) :=
            if type >=? 0 then
              let result :=
                pointer_align ROUNDUP (purebeg st + pure_bytes_used_lisp st)
                  LISP_ALIGNMENT in
              (result, (result - purebeg st) + size,
               pure_bytes_used_non_lisp st)
            else
              let unaligned_non_lisp := pure_bytes_used_non_lisp st + size in
              let unaligned :=
                purebeg st + pure_size st - unaligned_non_lisp in
              let decr := Z.land unaligned (-1 - type) in
              (unaligned - decr, pure_bytes_used_lisp st,
               unaligned_non_lisp + decr) in
          let used := lisp + non_lisp in
          if used <=? pure_size st then
            Some (Returns result
                    {| purebeg := purebeg st; pure_size := pure_size st;
                       pure_bytes_used := used;
                       pure_bytes_used_before_overflow :=
                         pure_bytes_used_before_overflow st;
                       pure_bytes_used_lisp := lisp;
                       pure_bytes_used_non_lisp := non_lisp;
                       gc_inhibited := gc_inhibited st |})
          else
            match Xalloc.xzalloc lmalloc small_amount with
            | Xalloc.Memory_full n => Some (Memory_full n)
            | Xalloc.Returns p =>
                pure_alloc LISP_ALIGNMENT ROUNDUP lmalloc 1 size type
                  {| purebeg := p; pure_size := small_amount;
                     pure_bytes_used := 0;
                     pure_bytes_used_before_overflow :=
                       pure_bytes_used_before_overflow st + (used - size);
                     pure_bytes_used_lisp := 0;
                     pure_bytes_used_non_lisp := 0;
                     gc_inhibited := true |}
            end).
  destruct (if type >=? 0 then _ else _) as [[r l] n].
  cbv zeta. destruct (_ <=? _); [eauto|].
  unfold Xalloc.xzalloc. cbv zeta.
  destruct (Z.eqb_spec (lmalloc small_amount true) 0) as [|_]; [lia|].
  by apply Hpass.
Qed.

End platform.

Lemma example_ROUNDUP_ok : ROUNDUP_ok example_ROUNDUP.
Proof.
  intros x y Hy. unfold example_ROUNDUP.
  pose proof (Z.div_mod (x + y - 1) y ltac:(lia)) as Hd.
  pose proof (Z.mod_pos_bound (x + y - 1) y Hy) as Hm.
  split; [nia|]. apply Z.mod_mul. lia.
Qed.

Lemma pure_alloc_in_gap_witness :
  exists st',
    pure_alloc 8 example_ROUNDUP Xalloc.example_lmalloc 2 24 0 example_state
    = Some (Returns 4112 st')
    /\ 4112 mod 8 = 0
    /\ purebeg example_state + pure_bytes_used_lisp example_state <= 4112
    /\ 4112 + 24
       <= purebeg example_state + pure_size example_state
          - pure_bytes_used_non_lisp example_state.
Proof.
  eexists. split; [vm_compute; reflexivity|].
  edestruct (pure_alloc_in_gap 8 example_ROUNDUP Xalloc.example_lmalloc
               2 24 0 example_state 4112)
    as (H1 & _ & _ & _ & _ & [(_ & _ & _ & H2 & H3 & _)|(H4 & _)]).
  - exact example_ROUNDUP_ok.
  - lia.
  - lia.
  - intros H. lia.
  - vm_compute. discriminate.
  - reflexivity.
  - vm_compute. reflexivity.
  - split; [exact H1|]. split; [exact H2 | exact H3].
  - discriminate H4.
Defined.

Lemma pure_alloc_disjoint_witness :
  exists st1 st2,
    pure_alloc 8 example_ROUNDUP Xalloc.example_lmalloc 2 24 0
      example_state_inhibited
    = Some (Returns 4112 st1)
    /\ pure_alloc 8 example_ROUNDUP Xalloc.example_lmalloc 2 10 (-4) st1
       = Some (Returns 5080 st2)
    /\ (4112 + 24 <= 5080 \/ 5080 + 10 <= 4112)
    /\ purebeg st2 = purebeg st1.
Proof.
  assert (E1 : exists st1,
             pure_alloc 8 example_ROUNDUP Xalloc.example_lmalloc 2 24 0
               example_state_inhibited
             = Some (Returns 4112 st1)).
  { eexists. vm_compute. reflexivity. }
  destruct E1 as [st1 E1].
  assert (E2 : exists st2,
             pure_alloc 8 example_ROUNDUP Xalloc.example_lmalloc 1 10 (-4) st1
             = Some (Returns 5080 st2)
             /\ pure_alloc 8 example_ROUNDUP Xalloc.example_lmalloc 2 10 (-4)
                  st1
                = Some (Returns 5080 st2)).
  { vm_compute in E1. injection E1 as <-. eexists.
    split; vm_compute; reflexivity. }
  destruct E2 as (st2 & E2 & E2'). exists st1, st2.
  split; [exact E1|]. split; [exact E2'|].
  destruct (pure_alloc_disjoint 8 example_ROUNDUP Xalloc.example_lmalloc
              2 2 24 0 10 (-4) example_state_inhibited 4112 st1 5080 st2)
    as (H1 & _).
  - exact example_ROUNDUP_ok.
  - lia.
  - lia.
  - lia.
  - intros H. lia.
  - intros _. exists 2. split; [lia | reflexivity].
  - vm_compute. discriminate.
  - reflexivity.
  - exact E1.
  - exact E2'.
  - exact (H1 E2).
Defined.

Lemma pure_alloc_returns_witness :
  exists p st',
    pure_alloc 8 example_ROUNDUP Xalloc.example_lmalloc 2 2000 0 example_state
    = Some (Returns p st').
Proof.
  apply (pure_alloc_returns 8 example_ROUNDUP Xalloc.example_lmalloc
           2000 0 example_state).
  - exact example_ROUNDUP_ok.
  - lia.
  - lia.
  - intros H. lia.
  - vm_compute. discriminate.
  - vm_compute. discriminate.
  - reflexivity.
Defined.

End PureProofs.
(** ** Strings *)
Module StringsProofs.
Import Lisp ConsesProofs Strings.
Local Open Scope Z_scope.
(** *** The memory of bytes *)

Lemma write_opt_lookup a o (m : memory) x :
  write_opt a o m !! x = if decide (x = a) then o else m !! x.
Proof.
  unfold write_opt. destruct o; destruct (decide (x = a)) as [->|].
  - apply lookup_insert_eq.
  - by apply lookup_insert_ne.
  - apply lookup_delete_eq.
  - by apply lookup_delete_ne.
Qed.

Lemma write_list_notin l (m : memory) x :
  x ∉ l.*1 -> write_list l m !! x = m !! x.
Proof.
  induction l as [|[a o] l IH]; [done|]. cbn [write_list foldr fmap list_fmap].
  intros Hx. apply not_elem_of_cons in Hx as [Hne Hx].
  fold (write_list l m). rewrite write_opt_lookup. cbn [fst snd].
  destruct (decide (x = a)); [done|]. by apply IH.
Qed.

Lemma write_list_in l (m : memory) x o :
  NoDup l.*1 -> (x, o) ∈ l -> write_list l m !! x = o.
Proof.
  induction l as [|[a o'] l IH]; [by intros _ ?%elem_of_nil|].
  cbn [write_list foldr fmap list_fmap]. fold (write_list l m).
  intros Hnd Hin. apply NoDup_cons in Hnd as [Ha Hnd].
  rewrite write_opt_lookup. cbn [fst snd] in *.
  apply elem_of_cons in Hin as [[= -> ->]|Hin].
  - by rewrite decide_True.
  - rewrite decide_False; [by apply IH|].
    intros ->. apply Ha. apply list_elem_of_fmap. by exists (a, o).
Qed.

(** A list of writes to the bytes from [dst] on. *)
Lemma write_range_lookup (f : Z -> option memval) dst n (m : memory) x :
  write_list ((fun i => (dst + i, f i)) <$> seqZ 0 n) m !! x
  = if (dst <=? x) && (x <? dst + n) then f (x - dst) else m !! x.
Proof.
  destruct ((dst <=? x) && (x <? dst + n)) eqn:E.
  - apply write_list_in.
    + rewrite <- list_fmap_compose.
      apply NoDup_fmap_2; [|apply NoDup_seqZ]. intros i j. simpl. lia.
    + apply list_elem_of_fmap. exists (x - dst). split; [f_equal; lia|].
      apply elem_of_seqZ. lia.
  - apply write_list_notin. rewrite <- list_fmap_compose.
    intros (i & Hi & Hin)%list_elem_of_fmap. simpl in Hi.
    apply elem_of_seqZ in Hin. lia.
Qed.

Lemma memmove_lookup dst src n (m : memory) x :
  memmove dst src n m !! x
  = if (dst <=? x) && (x <? dst + n) then m !! (src + (x - dst)) else m !! x.
Proof. unfold memmove. apply (write_range_lookup (fun i => m !! (src + i))). Qed.

Lemma memclear_lookup dst n (m : memory) x :
  memclear dst n m !! x
  = if (dst <=? x) && (x <? dst + n) then Some (Byte 0) else m !! x.
Proof. unfold memclear. apply (write_range_lookup (fun _ => Some (Byte 0))). Qed.

Lemma forallb_ext_elem {A} (f g : A -> bool) (l : list A) :
  (forall x, x ∈ l -> f x = g x) -> forallb f l = forallb g l.
Proof.
  induction l as [|x l IH]; [done|]. intros H. simpl.
  rewrite (H x) by left. rewrite IH; [done|]. intros y Hy. apply H. by right.
Qed.

Section layout.
Context (ly : layout).

Local Abbreviation W := (sizeof_pointer ly).

Lemma store_word_lookup a v (m : memory) x :
  store_word ly a v m !! x
  = if (a <=? x) && (x <? a + W) then Some (Frag v (x - a)) else m !! x.
Proof.
  unfold store_word. apply (write_range_lookup (fun i => Some (Frag v i))).
Qed.

Lemma memval_eqb_eq x y : memval_eqb x y = true <-> x = y.
Proof.
  destruct x, y; simpl; rewrite ?andb_true_iff, ?Z.eqb_eq;
    split; try done; try (intros [= ->]; done); try (intros [-> ->]; done);
    try (by intros ->); try (by intros [= -> ->]).
Qed.

Lemma load_word_spec a (m : memory) v :
  0 < W ->
  load_word ly a m = Some v
  <-> forall i, 0 <= i < W -> m !! (a + i) = Some (Frag v i).
Proof.
  intros HW. unfold load_word. split.
  - destruct (m !! a) as [[b|v' i']|] eqn:Ea; try done.
    destruct (forallb _ _) eqn:Ef; [|done]. intros [= ->].
    rewrite forallb_forall in Ef. intros i Hi.
    specialize (Ef i). rewrite <- list_elem_of_In, elem_of_seqZ in Ef.
    specialize (Ef ltac:(lia)).
    destruct (m !! (a + i)) as [x|]; [|done].
    by apply memval_eqb_eq in Ef as ->.
  - intros H. pose proof (H 0 ltac:(lia)) as H0.
    rewrite Z.add_0_r in H0. rewrite H0.
    replace (forallb _ _) with true; [done|]. symmetry.
    apply forallb_forall. intros i Hi.
    rewrite <- list_elem_of_In, elem_of_seqZ in Hi.
    rewrite (H i) by lia. by apply memval_eqb_eq.
Qed.

(** A word is read from its bytes only. *)
Lemma load_word_ext a (m m' : memory) :
  0 < W ->
  (forall i, 0 <= i < W -> m' !! (a + i) = m !! (a + i)) ->
  load_word ly a m' = load_word ly a m.
Proof.
  intros HW H. unfold load_word.
  pose proof (H 0 ltac:(lia)) as H0. rewrite Z.add_0_r in H0. rewrite H0.
  destruct (m !! a) as [[b|v i]|]; try done.
  f_equal. assert (forallb
    (fun i0 => match m' !! (a + i0) with
               | Some x => memval_eqb x (Frag v i0) | None => false end)
    (seqZ 0 W)
    = forallb
    (fun i0 => match m !! (a + i0) with
               | Some x => memval_eqb x (Frag v i0) | None => false end)
    (seqZ 0 W)) as ->; [|done].
  apply forallb_ext_elem. intros j Hj.
  enough (m' !! (a + j) = m !! (a + j)) as -> by done.
  apply H. apply elem_of_seqZ in Hj. lia.
Qed.

Lemma load_store_word a v (m : memory) :
  0 < W -> load_word ly a (store_word ly a v m) = Some v.
Proof.
  intros HW. apply load_word_spec; [done|]. intros i Hi.
  rewrite store_word_lookup.
  replace ((a <=? a + i) && (a + i <? a + W)) with true by lia.
  do 2 f_equal. lia.
Qed.

End layout.

Lemma land_lnot_mask x k :
  0 <= k -> Z.land x (Z.lnot (2 ^ k - 1)) = 2 ^ k * (x / 2 ^ k).
Proof.
  intros Hk. rewrite <- Z.ldiff_land.
  replace (2 ^ k - 1) with (Z.ones k) by (rewrite Z.ones_equiv; lia).
  rewrite Z.ldiff_ones_r by done.
  rewrite Z.shiftl_mul_pow2, Z.shiftr_div_pow2 by done. lia.
Qed.

Section layout.
Context (ly : layout).
Context (Hly : layout_sizes_ok ly = true).

Local Abbreviation W := (sizeof_pointer ly).

Lemma layout_sizes_facts :
  0 < W /\ 0 < sdata_align ly
  /\ 2 ^ Z.log2 (sdata_align ly) = sdata_align ly
  /\ W <= SDATA_DATA_OFFSET ly
  /\ offsetof_nbytes ly + W <= sizeof_sdata ly
  /\ W <= offsetof_nbytes ly
  /\ 0 <= offsetof_sblock_data ly /\ 0 < SBLOCK_SIZE ly.
Proof. unfold layout_sizes_ok in Hly. lia. Qed.

Lemma sdata_size_bounds n :
  Z.max (SDATA_DATA_OFFSET ly + n + 1) (sizeof_sdata ly) <= sdata_size ly n
  /\ sdata_size ly n
     < Z.max (SDATA_DATA_OFFSET ly + n + 1) (sizeof_sdata ly) + sdata_align ly
  /\ sdata_size ly n mod sdata_align ly = 0.
Proof.
  destruct layout_sizes_facts as (HW & Ha & Hp & _).
  unfold sdata_size. cbv zeta.
  set (u := Z.max _ _). set (a := sdata_align ly) in *.
  rewrite <- Hp. rewrite land_lnot_mask by apply Z.log2_nonneg.
  rewrite Hp.
  pose proof (Z.div_mod (u + a - 1) a ltac:(lia)) as Hd.
  pose proof (Z.mod_pos_bound (u + a - 1) a Ha) as Hm.
  split; [nia|]. split; [nia|].
  rewrite Z.mul_comm. apply Z.mod_mul. lia.
Qed.

Lemma entry_size_facts e :
  0 <= e_nbytes e ->
  2 * W <= entry_size ly e
  /\ offsetof_nbytes ly + W <= entry_size ly e
  /\ SDATA_DATA_OFFSET ly + e_nbytes e + 1 <= entry_size ly e.
Proof.
  intros Hn. destruct layout_sizes_facts as (HW & Ha & Hp & Ho & Hs & Hn' & _).
  destruct (sdata_size_bounds (e_nbytes e)) as (H1 & _).
  unfold entry_size, GC_STRING_EXTRA. lia.
Qed.

End layout.

Section layout.
Context (ly : layout).

Local Abbreviation W := (sizeof_pointer ly).
Local Abbreviation OFF := (SDATA_DATA_OFFSET ly).
Local Abbreviation BOFF := (offsetof_sblock_data ly).
Local Abbreviation SB := (SBLOCK_SIZE ly).

(** *** One [sdata] in the loop of [compact_small_strings] *)

Lemma entry_ok_elim st d e :
  entry_ok ly st d e = true ->
  0 <= e_nbytes e <= LARGE_STRING_BYTES
  /\ load_word ly d (mem st) = Some (e_string e)
  /\ (e_string e = 0 ->
      load_word ly (d + offsetof_nbytes ly) (mem st) = Some (e_nbytes e))
  /\ (e_string e <> 0 ->
      exists str, strings st !! e_string e = Some str
                  /\ data str = d + OFF /\ STRING_BYTES str = e_nbytes e).
Proof.
  unfold entry_ok. rewrite !andb_true_iff. intros [[H1 H2] H3].
  split; [lia|].
  destruct (load_word ly d (mem st)) as [s|]; [|done].
  apply andb_true_iff in H3 as [->%Z.eqb_eq H3].
  split; [done|]. split.
  - intros E. rewrite E in H3. cbn [Z.eqb] in H3.
    destruct (load_word ly _ _) as [n|]; [|done].
    by apply Z.eqb_eq in H3 as ->.
  - intros E. apply Z.eqb_neq in E. rewrite E in H3.
    destruct (strings st !! e_string e) as [str|]; [|done].
    apply andb_true_iff in H3 as [Ha%Z.eqb_eq Hb%Z.eqb_eq]. eauto.
Qed.

Lemma same_bytes_load (m m0 : memory) d n :
  0 < W -> W <= n -> same_bytes m m0 d d n ->
  load_word ly d m = load_word ly d m0.
Proof.
  intros HW Hn H. apply load_word_ext; [done|]. intros i Hi. apply H. lia.
Qed.

Lemma same_bytes_load_at (m m0 : memory) d n o :
  0 < W -> 0 <= o -> o + W <= n -> same_bytes m m0 d d n ->
  load_word ly (d + o) m = load_word ly (d + o) m0.
Proof.
  intros HW Ho Hn H. apply load_word_ext; [done|]. intros i Hi.
  rewrite <- !Z.add_assoc. apply H. lia.
Qed.

Section step.
Context (st0 : state) (L : list (Z * list entry)).
Context (Hlo : laid_out ly st0 L).

Local Abbreviation bs := (fst <$> L).
Local Abbreviation P := (place_blocks ly O L).

Lemma region_disjoint (i j : nat) b1 b2 a1 n1 a2 n2 :
  bs !! i = Some b1 -> bs !! j = Some b2 -> i <> j ->
  b1 <= a1 -> a1 + n1 <= b1 + SB -> b2 <= a2 -> a2 + n2 <= b2 + SB ->
  a1 + n1 <= a2 \/ a2 + n2 <= a1.
Proof.
  intros H1 H2 Hij. destruct (lo_sep ly _ _ Hlo i j b1 b2 H1 H2 Hij); lia.
Qed.

(** Going on to the next block *)
Lemma compacting_switch ti Pp x Pu c st :
  P = Pp ++ x :: Pu ->
  compacting ly st0 bs ti Pp (x :: Pu) c st ->
  to c + p_size ly x > tb_end c ->
  exists hb tb',
    sblocks st !! tb c = Some hb /\ next hb = tb' /\ tb' <> 0
    /\ compacting ly st0 bs (S ti) Pp (x :: Pu)
         {| tb := tb'; tb_end := tb' + SB; to := tb' + BOFF |}
         (with_sblocks
            (<[tb c := {| next := next hb; next_free := to c |}]> (sblocks st))
            st)
    /\ tb' + BOFF + p_size ly x <= tb' + SB
    /\ (S ti <= p_bi x)%nat.
Proof.
  intros HP HI Hover.
  assert (Hx : x ∈ P) by (rewrite HP; set_solver).
  destruct (lo_placed ly _ _ Hlo x Hx) as (Hbi & Hd1 & Hd2 & Hok).
  destruct (cp_unproc ly _ _ _ _ _ _ _ HI x ltac:(left)) as (Hti & Hto & Hsame).
  pose proof (cp_tb ly _ _ _ _ _ _ _ HI) as Htb.
  pose proof (cp_tb_end ly _ _ _ _ _ _ _ HI) as Hte.
  pose proof (cp_to ly _ _ _ _ _ _ _ HI) as Hcto.
  assert (Hlt : (ti < p_bi x)%nat).
  { destruct (decide (p_bi x = ti)) as [E|E]; [|lia].
    specialize (Hto E). rewrite E, Htb in Hbi. injection Hbi as Hb. lia. }
  assert (Hnext : is_Some (bs !! S ti)).
  { apply lookup_lt_is_Some_2. apply lookup_lt_Some in Hbi. lia. }
  destruct Hnext as [tb' Htb'].
  assert (HLti : exists es, L !! ti = Some (tb c, es)).
  { rewrite list_lookup_fmap in Htb.
    destruct (L !! ti) as [[b0 es]|]; [|done]. simpl in Htb.
    injection Htb as ->. eauto. }
  destruct HLti as [es HLti].
  destruct (lo_hdr ly _ _ Hlo ti _ _ HLti) as (hb0 & Hhb0 & Hn0 & _).
  rewrite Htb' in Hn0. simpl in Hn0.
  assert (Hin : tb c ∈ bs) by (by eapply list_elem_of_lookup_2).
  destruct (cp_hdr_next ly _ _ _ _ _ _ _ HI _ _ Hin Hhb0) as (hb & Hhb & Hn).
  assert (Hpos : 0 < tb').
  { apply (lo_pos ly _ _ Hlo). by eapply list_elem_of_lookup_2. }
  exists hb, tb'. split; [done|]. split; [congruence|]. split; [lia|].
  split; [|lia].
  destruct (layout_sizes_facts ly (lo_sizes ly _ _ Hlo))
    as (HW & _ & _ & _ & _ & _ & Hboff & HSB).
  assert (Hne : forall (bi : nat) b, bs !! bi = Some b -> (S ti <= bi)%nat ->
            b <> tb c).
  { intros bi b Hb Hle ->.
    pose proof (NoDup_lookup _ _ _ _ (lo_nodup ly _ _ Hlo) Hb Htb). lia. }
  split; cbn [tb tb_end to sblocks with_sblocks mem strings
              oldest_sblock current_sblock large_sblocks bytes_since_gc].
  - done.
  - done.
  - assert (p_size ly x >= 0); [|lia].
    pose proof (entry_size_facts ly (lo_sizes ly _ _ Hlo) (p_entry x)).
    destruct (entry_ok_elim _ _ _ Hok) as (Hn' & _). unfold p_size. lia.
  - intros y Hy.
    destruct (cp_unproc ly _ _ _ _ _ _ _ HI y Hy) as (Hyi & Hyt & Hys).
    assert (Hyle : (p_bi x <= p_bi y)%nat).
    { apply elem_of_cons in Hy as [->|Hy]; [done|].
      by apply (lo_sorted ly _ _ Hlo Pp x Pu HP y Hy). }
    split; [lia|]. split; [|done].
    intros Ey.
    assert (Hyp : y ∈ P) by (rewrite HP; set_solver).
    destruct (lo_placed ly _ _ Hlo y Hyp) as (Hybi & Hyd1 & _).
    rewrite Ey, Htb' in Hybi. injection Hybi as Eb. lia.
  - intros x' Hx' Hlive.
    destruct (cp_proc ly _ _ _ _ _ _ _ HI x' Hx' Hlive)
      as (bi' & b' & d' & str0 & A1 & A2 & A3 & A4 & A5 & A6 & A7 & A8).
    exists bi', b', d', str0. split_and!; try done; lia.
  - intros bi b Hb Hle. rewrite lookup_insert_ne.
    + apply (cp_hdr_same ly _ _ _ _ _ _ _ HI bi); [done|lia].
    + intros E. by eapply Hne.
  - intros b hb1 Hb Hhb1.
    destruct (cp_hdr_next ly _ _ _ _ _ _ _ HI _ _ Hb Hhb1) as (hb' & Hhb' & Hn').
    destruct (decide (b = tb c)) as [->|E].
    + rewrite lookup_insert_eq. eexists. split; [done|]. simpl.
      rewrite Hhb in Hhb'. injection Hhb' as <-. done.
    + rewrite lookup_insert_ne by done. eauto.
  - intros b Hb. rewrite lookup_insert_ne.
    + by apply (cp_hdr_other ly _ _ _ _ _ _ _ HI).
    + intros <-. done.
  - apply (cp_strings ly _ _ _ _ _ _ _ HI).
  - apply (cp_mem ly _ _ _ _ _ _ _ HI).
  - apply (cp_fields ly _ _ _ _ _ _ _ HI).
Qed.

(** Passing a free [sdata] *)
Lemma compacting_skip ti Pp x Pu c st :
  P = Pp ++ x :: Pu ->
  compacting ly st0 bs ti Pp (x :: Pu) c st ->
  p_string x = 0 ->
  compacting ly st0 bs ti (Pp ++ [x]) Pu c st.
Proof.
  intros HP HI Hs. destruct HI as [I1 I2 I3 I4 I5 I6 I7 I8 I9 I10 I11].
  split; try done.
  - intros y Hy. apply I4. by right.
  - intros x' [Hx' | ->%list_elem_of_singleton]%elem_of_app Hlive;
      [by apply I5|done].
  - intros s Hs'. apply I9. intros x' Hx'. apply Hs'. set_solver.
Qed.

(** Copying the [sdata] of a string *)
Lemma compacting_move ti Pp x Pu c st :
  P = Pp ++ x :: Pu ->
  compacting ly st0 bs ti Pp (x :: Pu) c st ->
  p_string x <> 0 ->
  to c + p_size ly x <= tb_end c ->
  exists st',
    (if negb (p_addr x =? to c) then
       let m := memmove (to c) (p_addr x) (p_size ly x) (mem st) in
       s' ← load_word ly (to c) m;
       str ← strings st !! s';
       Some (with_strings
               (<[s' := {| size := size str; size_byte := size_byte str;
                           data := to c + OFF |}]> (strings st))
               (with_mem m st))
     else Some st) = Some st'
    /\ compacting ly st0 bs ti (Pp ++ [x]) Pu
         {| tb := tb c; tb_end := tb_end c; to := to c + p_size ly x |} st'.
Proof.
  intros HP HI Hlive Hfit.
  assert (Hx : x ∈ P) by (rewrite HP; set_solver).
  destruct (lo_placed ly _ _ Hlo x Hx) as (Hbi & Hd1 & Hd2 & Hok).
  destruct (entry_ok_elim _ _ _ Hok) as (Hn & Hload & _ & Hstr).
  destruct (Hstr Hlive) as (str0 & Hstr0 & Hdata & Hbytes).
  destruct (entry_size_facts ly (lo_sizes ly _ _ Hlo) (p_entry x) ltac:(lia))
    as (Hsz1 & Hsz2 & Hsz3).
  fold (p_size ly x) in Hsz1, Hsz2, Hsz3.
  destruct (layout_sizes_facts ly (lo_sizes ly _ _ Hlo))
    as (HW & _ & _ & HOFF & _ & _ & Hboff & HSB).
  pose proof HI as [I1 I2 I3 I4 I5 I6 I7 I8 I9 I10 I11].
  destruct (I4 x ltac:(left)) as (Hti & Hto & Hsame).
  set (d := p_addr x) in *. set (sz := p_size ly x) in *.
  set (s := p_string x) in *.
  assert (Hs_st : strings st !! s = Some str0).
  { rewrite I9; [done|]. intros x' Hx' Hl' E.
    apply (lo_live ly _ _ Hlo Pp x Pu HP Hlive x'); [set_solver|done]. }
  assert (Hsorted : forall y, y ∈ Pu -> p_bi y = ti ->
            p_bi x = ti /\ d + sz <= p_addr y).
  { intros y Hy Ey.
    destruct (lo_sorted ly _ _ Hlo Pp x Pu HP y Hy) as [Hle Hadd].
    destruct (I4 y ltac:(by right)) as (Hyi & _).
    assert (p_bi x = ti) by lia. split; [done|]. apply Hadd. lia. }
  destruct (Z.eqb_spec d (to c)) as [Eq|Hne]; cbn [negb].
  - (* nothing to copy *)
    eexists. split; [reflexivity|].
    split; cbn [tb tb_end to]; try done.
    + lia.
    + intros y Hy. destruct (I4 y ltac:(by right)) as (Hyi & Hyt & Hys).
      split; [done|]. split; [|done]. intros Ey.
      destruct (Hsorted y Hy Ey). lia.
    + intros x' [Hx' | ->%list_elem_of_singleton]%elem_of_app Hl'.
      * destruct (I5 x' Hx' Hl')
          as (bi' & b' & d' & str' & A1 & A2 & A3 & A4 & A5 & A6 & A7 & A8).
        exists bi', b', d', str'. split_and!; try done. intros E.
        specialize (A5 E). lia.
      * exists ti, (tb c), (to c), str0. split_and!; try done; try lia.
        -- fold s. rewrite Hs_st. destruct str0 as [a1 a2 a3].
           simpl in *. by rewrite Hdata, Eq.
        -- rewrite <- Eq. exact Hsame.
    + intros s' Hs'. apply I9. intros x' Hx'. apply Hs'. set_solver.
  - (* the copy *)
    cbv zeta. set (m := memmove (to c) d sz (mem st)).
    assert (Hm_in : forall i, 0 <= i < sz ->
              m !! (to c + i) = mem st !! (d + i)).
    { intros i Hi. unfold m. rewrite memmove_lookup.
      replace ((to c <=? to c + i) && (to c + i <? to c + sz)) with true by lia.
      f_equal. lia. }
    assert (Hm_out : forall a, a < to c \/ to c + sz <= a ->
              m !! a = mem st !! a).
    { intros a Ha. unfold m. rewrite memmove_lookup.
      by replace ((to c <=? a) && (a <? to c + sz)) with false by lia. }
    assert (Hld : load_word ly d (mem st) = Some s).
    { rewrite (same_bytes_load (mem st) (mem st0) d sz);
        [exact Hload | done | lia | done]. }
    assert (Hl : load_word ly (to c) m = Some s).
    { apply load_word_spec; [done|]. intros i Hi. rewrite Hm_in by lia.
      by apply (load_word_spec ly d (mem st) s HW). }
    rewrite Hl. cbn [mbind option_bind]. rewrite Hs_st. cbn [mbind option_bind].
    eexists. split; [reflexivity|].
    split; cbn [tb tb_end to sblocks with_sblocks mem strings with_strings
                with_mem oldest_sblock current_sblock large_sblocks
                bytes_since_gc]; try done.
    + lia.
    + intros y Hy. destruct (I4 y ltac:(by right)) as (Hyi & Hyt & Hys).
      split; [done|].
      assert (Hyp : y ∈ P) by (rewrite HP; set_solver).
      destruct (lo_placed ly _ _ Hlo y Hyp) as (Hybi & Hyd1 & Hyd2 & _).
      assert (Hdis : to c + sz <= p_addr y \/ p_addr y + p_size ly y <= to c).
      { destruct (decide (p_bi y = ti)) as [Ey|Ey].
        - destruct (Hsorted y Hy Ey) as [Ex Hle]. specialize (Hto Ex). lia.
        - eapply (region_disjoint ti (p_bi y) (tb c) (p_blk y)); try done; lia. }
      split.
      * intros Ey. destruct (Hsorted y Hy Ey) as [Ex Hle].
        specialize (Hto Ex). lia.
      * intros i Hi. rewrite Hm_out by lia. by apply Hys.
    + intros x' [Hx' | ->%list_elem_of_singleton]%elem_of_app Hl'.
      * destruct (I5 x' Hx' Hl')
          as (bi' & b' & d' & str' & A1 & A2 & A3 & A4 & A5 & A6 & A7 & A8).
        exists bi', b', d', str'. split_and!; try done.
        -- intros E. specialize (A5 E). lia.
        -- rewrite lookup_insert_ne; [done|]. intros E.
           apply (lo_live ly _ _ Hlo Pp x Pu HP Hlive x'); [set_solver|done].
        -- intros i Hi. rewrite Hm_out; [by apply A8|].
           assert (Hx'sz : 0 <= p_size ly x').
           { assert (Hx'P : x' ∈ P) by (rewrite HP; set_solver).
             destruct (lo_placed ly _ _ Hlo x' Hx'P) as (_ & _ & _ & Hok').
             destruct (entry_ok_elim _ _ _ Hok') as (Hn' & _).
             pose proof (entry_size_facts ly (lo_sizes ly _ _ Hlo)
                           (p_entry x') ltac:(lia)).
             unfold p_size. lia. }
           destruct (decide (bi' = ti)) as [E|E].
           ++ specialize (A5 E). lia.
           ++ destruct (region_disjoint bi' ti b' (tb c) d' (p_size ly x')
                          (to c) sz); try done; lia.
      * exists ti, (tb c), (to c), str0. split_and!; try done; try lia.
        -- fold s. by rewrite lookup_insert_eq.
        -- intros i Hi. rewrite Hm_in by done. by apply Hsame.
    + intros s' Hs'. rewrite lookup_insert_ne.
      * apply I9. intros x' Hx'. apply Hs'. set_solver.
      * intros E. apply (Hs' x); [set_solver|done|done].
    + intros a Ha. rewrite Hm_out; [by apply I10|].
      assert (Hin : tb c ∈ bs) by (by eapply list_elem_of_lookup_2).
      specialize (Ha _ Hin). lia.
Qed.

Lemma compact_sdata_step ti Pp x Pu c st :
  P = Pp ++ x :: Pu ->
  compacting ly st0 bs ti Pp (x :: Pu) c st ->
  exists ti' c' st',
    compact_sdata ly (p_addr x) c st
    = Some (p_addr x + p_size ly x, c', st')
    /\ compacting ly st0 bs ti' (Pp ++ [x]) Pu c' st'
    /\ (ti <= ti' <= Nat.max ti (p_bi x))%nat.
Proof.
  intros HP HI.
  assert (Hx : x ∈ P) by (rewrite HP; set_solver).
  destruct (lo_placed ly _ _ Hlo x Hx) as (Hbi & Hd1 & Hd2 & Hok).
  destruct (entry_ok_elim _ _ _ Hok) as (Hn & Hload & Hdead & Hstr).
  destruct (entry_size_facts ly (lo_sizes ly _ _ Hlo) (p_entry x) ltac:(lia))
    as (Hsz1 & Hsz2 & Hsz3).
  fold (p_size ly x) in Hsz1, Hsz2, Hsz3.
  destruct (layout_sizes_facts ly (lo_sizes ly _ _ Hlo))
    as (HW & _ & _ & HOFF & _ & Hoffn & Hboff & HSB).
  destruct (cp_unproc ly _ _ _ _ _ _ _ HI x ltac:(left)) as (Hti & Hto & Hsame).
  assert (Hld : load_word ly (p_addr x) (mem st) = Some (p_string x)).
  { rewrite (same_bytes_load (mem st) (mem st0) (p_addr x) (p_size ly x));
      [exact Hload | done | lia | done]. }
  unfold compact_sdata. rewrite Hld. cbn [mbind option_bind].
  destruct (Z.eqb_spec (p_string x) 0) as [E0|Hlive]; cbn [negb].
  - rewrite (same_bytes_load_at (mem st) (mem st0) (p_addr x) (p_size ly x));
      [|done|lia|lia|done].
    rewrite (Hdead E0). cbn [mbind option_bind].
    exists ti, c, st. split_and!; [|by apply compacting_skip|lia..].
    f_equal. f_equal. f_equal. unfold p_size, entry_size. lia.
  - destruct (Hstr Hlive) as (str0 & Hstr0 & Hdata & Hbytes).
    assert (Hs_st : strings st !! p_string x = Some str0).
    { rewrite (cp_strings ly _ _ _ _ _ _ _ HI); [done|]. intros x' Hx' Hl' E.
      apply (lo_live ly _ _ Hlo Pp x Pu HP Hlive x'); [set_solver|done]. }
    rewrite Hs_st. cbn [mbind option_bind]. rewrite Hbytes.
    change (sdata_size ly (e_nbytes (p_entry x)) + GC_STRING_EXTRA)
      with (p_size ly x).
    rewrite <- !(Z.add_assoc _ (sdata_size ly (e_nbytes (p_entry x)))
                  GC_STRING_EXTRA).
    change (sdata_size ly (e_nbytes (p_entry x)) + GC_STRING_EXTRA)
      with (p_size ly x).
    destruct (Z.gtb_spec (to c + p_size ly x) (tb_end c)) as [Hover|Hfit].
    + destruct (compacting_switch ti Pp x Pu c st HP HI ltac:(lia))
        as (hb & tb' & Hhb & Hnext & Hnz & HI' & Hfit' & Hlt).
      rewrite Hhb. cbn [mbind option_bind]. rewrite Hnext.
      apply Z.eqb_neq in Hnz as Hnz'. rewrite Hnz'.
      cbn [mbind option_bind tb tb_end to].
      rewrite <- Hnext in HI'.
      destruct (compacting_move (S ti) Pp x Pu _ _ HP HI' Hlive)
        as (st' & E & HI''); [cbn [to tb_end]; lia|].
      cbn [to tb tb_end strings mem with_sblocks] in E.
      rewrite Hnext in E.
      change (mem (with_sblocks ?a st)) with (mem st).
      change (strings (with_sblocks ?a st)) with (strings st).
      rewrite E. cbn [mbind option_bind]. rewrite Hnext in HI''.
      exists (S ti),
        {| tb := tb'; tb_end := tb' + SB; to := tb' + BOFF + p_size ly x |},
        st'.
      split_and!; [|exact HI''|lia..].
      assert (Eto : tb' + BOFF + sdata_size ly (e_nbytes (p_entry x))
                    + GC_STRING_EXTRA = tb' + BOFF + p_size ly x)
        by (unfold p_size, entry_size; lia).
      by rewrite Eto.
    + cbn [mbind option_bind].
      destruct (compacting_move ti Pp x Pu c st HP HI Hlive Hfit)
        as (st' & E & HI'').
      cbv zeta in E. rewrite E. cbn [mbind option_bind].
      exists ti. eexists _, _. split_and!; [reflexivity|exact HI''|lia..].
Qed.

End step.

End layout.

Section layout.
Context (ly : layout).

Local Abbreviation W := (sizeof_pointer ly).
Local Abbreviation OFF := (SDATA_DATA_OFFSET ly).
Local Abbreviation BOFF := (offsetof_sblock_data ly).
Local Abbreviation SB := (SBLOCK_SIZE ly).

(** *** The loops of [compact_small_strings] *)

Lemma place_blocks_app i L1 L2 :
  place_blocks ly i (L1 ++ L2)
  = place_blocks ly i L1 ++ place_blocks ly (i + length L1) L2.
Proof.
  revert i. induction L1 as [|[b es] L1 IH]; intros i; cbn.
  - by rewrite Nat.add_0_r.
  - rewrite IH, <- app_assoc. do 3 f_equal. lia.
Qed.

Section loops.
Context (st0 : state) (L : list (Z * list entry)).
Context (Hlo : laid_out ly st0 L).

Local Abbreviation bs := (fst <$> L).
Local Abbreviation P := (place_blocks ly O L).

(** The loop over the [sdata] of one block *)
Lemma compact_sblock_run es :
  forall (bi : nat) b d ti Pp Pu c st fuel,
    P = Pp ++ place_entries ly bi b d es ++ Pu ->
    compacting ly st0 bs ti Pp (place_entries ly bi b d es ++ Pu) c st ->
    (ti <= bi)%nat ->
    (length es < fuel)%nat ->
    d <= entries_end ly d es
    /\ exists ti' c' st',
         compact_sblock ly fuel (entries_end ly d es) d c st = Some (c', st')
         /\ compacting ly st0 bs ti' (Pp ++ place_entries ly bi b d es) Pu
              c' st'
         /\ (ti' <= bi)%nat.
Proof.
  induction es as [|e es IH]; intros bi b d ti Pp Pu c st fuel HP HI Hti Hfuel.
  - cbn in *. split; [lia|]. destruct fuel as [|fuel]; [lia|].
    cbn. rewrite Z.ltb_irrefl. exists ti, c, st. by rewrite app_nil_r.
  - cbn [place_entries entries_end app] in *.
    set (x := {| p_bi := bi; p_blk := b; p_addr := d; p_entry := e |}) in *.
    destruct (compact_sdata_step ly st0 L Hlo ti Pp x _ c st HP HI)
      as (ti1 & c1 & st1 & E & HI1 & Hti1).
    assert (Hx : x ∈ P) by (rewrite HP; set_solver).
    destruct (lo_placed ly _ _ Hlo x Hx) as (_ & _ & _ & Hok).
    destruct (entry_ok_elim ly _ _ _ Hok) as (Hn & _).
    destruct (entry_size_facts ly (lo_sizes ly _ _ Hlo) e ltac:(apply Hn))
      as (Hsz & _).
    destruct (layout_sizes_facts ly (lo_sizes ly _ _ Hlo)) as (HW & _).
    destruct fuel as [|fuel]; [cbn in Hfuel; lia|].
    destruct (IH bi b (d + entry_size ly e) ti1 (Pp ++ [x]) Pu c1 st1 fuel)
      as (Hend & ti' & c' & st' & Erun & HI' & Hti').
    + by rewrite <- app_assoc.
    + done.
    + cbn [p_bi x] in Hti1. lia.
    + cbn in Hfuel. lia.
    + split; [lia|]. exists ti', c', st'. cbn [compact_sblock].
      replace (d <? entries_end ly (d + entry_size ly e) es) with true by lia.
      change (p_addr x) with d in E. change (p_size ly x) with (entry_size ly e) in E.
      rewrite E. cbn [mbind option_bind]. rewrite <- app_assoc in HI'.
      done.
Qed.

(** One block of the loop over the blocks *)
Lemma compact_sblocks_step Lp b es Lu ti c st fuel :
  L = Lp ++ (b, es) :: Lu ->
  compacting ly st0 bs ti (place_blocks ly O Lp)
    (place_blocks ly (length Lp) ((b, es) :: Lu)) c st ->
  (ti <= length Lp)%nat ->
  (length es <= fuel)%nat ->
  exists ti1 c1 st1,
    compact_sblocks ly (S fuel) b c st
    = (if default 0 (bs !! S (length Lp)) =? 0 then Some (c1, st1)
       else compact_sblocks ly fuel (default 0 (bs !! S (length Lp))) c1 st1)
    /\ compacting ly st0 bs ti1 (place_blocks ly O (Lp ++ [(b, es)]))
         (place_blocks ly (S (length Lp)) Lu) c1 st1
    /\ (ti1 <= length Lp)%nat.
Proof.
  intros HL HI Hti Hfuel.
  assert (HLi : L !! length Lp = Some (b, es))
    by (rewrite HL; by apply list_lookup_middle).
  assert (Hbi : bs !! length Lp = Some b)
    by (by rewrite list_lookup_fmap, HLi).
  destruct (lo_hdr ly _ _ Hlo _ _ _ HLi) as (hb0 & Hhb0 & Hn0 & Hnf & _).
  pose proof (cp_hdr_same ly _ _ _ _ _ _ _ HI _ _ Hbi Hti) as Hhdr.
  rewrite Hhb0 in Hhdr.
  cbn [compact_sblocks]. rewrite Hhdr. cbn [mbind option_bind].
  rewrite Hnf. cbn [place_blocks] in HI.
  assert (HP : P = place_blocks ly O Lp
                   ++ place_entries ly (length Lp) b (b + BOFF) es
                   ++ place_blocks ly (S (length Lp)) Lu)
    by (rewrite HL at 1; by rewrite place_blocks_app).
  destruct (compact_sblock_run es (length Lp) b (b + BOFF) ti _ _ c st
              (S fuel) HP HI Hti ltac:(lia))
    as (_ & ti1 & c1 & st1 & E & HI1 & Hti1).
  rewrite E. cbn [mbind option_bind].
  assert (Hin : b ∈ bs) by (by eapply list_elem_of_lookup_2).
  destruct (cp_hdr_next ly _ _ _ _ _ _ _ HI1 _ _ Hin Hhb0) as (hb' & Hhb' & Hn').
  rewrite Hhb'. cbn [mbind option_bind]. rewrite Hn', Hn0.
  exists ti1, c1, st1. split; [done|]. split; [|done].
  rewrite place_blocks_app. cbn [place_blocks]. by rewrite app_nil_r.
Qed.

(** The loop over the blocks *)
Lemma compact_sblocks_run Lu :
  forall Lp b es ti c st fuel,
    L = Lp ++ (b, es) :: Lu ->
    compacting ly st0 bs ti (place_blocks ly O Lp)
      (place_blocks ly (length Lp) ((b, es) :: Lu)) c st ->
    (ti <= length Lp)%nat ->
    (forall es', es' ∈ es :: (snd <$> Lu) ->
                 (length Lu + length es' < fuel)%nat) ->
    exists ti' c' st',
      compact_sblocks ly fuel b c st = Some (c', st')
      /\ compacting ly st0 bs ti' P [] c' st'.
Proof.
  induction Lu as [|[b2 es2] Lu IH]; intros Lp b es ti c st fuel HL HI Hti Hfuel.
  - pose proof (Hfuel es ltac:(left)) as Hf.
    destruct fuel as [|fuel]; [lia|].
    destruct (compact_sblocks_step Lp b es [] ti c st fuel HL HI Hti
                ltac:(cbn in Hf; lia))
      as (ti1 & c1 & st1 & E & HI1 & Hti1).
    rewrite E. rewrite lookup_ge_None_2.
    2:{ rewrite length_fmap, HL, length_app. cbn. lia. }
    cbn. exists ti1, c1, st1. split; [done|].
    cbn [place_blocks] in HI1. by rewrite <- HL in HI1.
  - pose proof (Hfuel es ltac:(left)) as Hf.
    destruct fuel as [|fuel]; [lia|].
    destruct (compact_sblocks_step Lp b es _ ti c st fuel HL HI Hti
                ltac:(cbn in Hf; lia))
      as (ti1 & c1 & st1 & E & HI1 & Hti1).
    rewrite E.
    assert (Hb2 : bs !! S (length Lp) = Some b2).
    { rewrite list_lookup_fmap, HL.
      rewrite (lookup_app_r Lp) by lia.
      replace (S (length Lp) - length Lp)%nat with 1%nat by lia. done. }
    rewrite Hb2. cbn [default id].
    assert (0 < b2).
    { apply (lo_pos ly _ _ Hlo). by eapply list_elem_of_lookup_2. }
    replace (b2 =? 0) with false by lia.
    apply (IH (Lp ++ [(b, es)]) b2 es2 ti1 c1 st1 fuel).
    + by rewrite <- app_assoc.
    + rewrite length_app. cbn [length]. rewrite Nat.add_1_r. exact HI1.
    + rewrite length_app. cbn. lia.
    + intros es' Hes'.
      assert (Hes : es' ∈ es :: (snd <$> (b2, es2) :: Lu)).
      { right. exact Hes'. }
      specialize (Hfuel es' Hes). cbn in Hfuel. lia.
Qed.

End loops.

End layout.

Section layout.
Context (ly : layout).

Local Abbreviation W := (sizeof_pointer ly).
Local Abbreviation OFF := (SDATA_DATA_OFFSET ly).
Local Abbreviation BOFF := (offsetof_sblock_data ly).
Local Abbreviation SB := (SBLOCK_SIZE ly).

(** *** What [layout_ok] says *)

Lemma separated_elim bs :
  separated ly bs = true ->
  forall (i j : nat) b1 b2,
    bs !! i = Some b1 -> bs !! j = Some b2 -> i <> j ->
    b1 + SB <= b2 \/ b2 + SB <= b1.
Proof.
  induction bs as [|b bs IH]; [done|]. cbn [separated].
  intros [Hb Hbs]%andb_true_iff i j b1 b2 H1 H2 Hij.
  rewrite forallb_forall in Hb.
  destruct i as [|i], j as [|j]; cbn in H1, H2; try done.
  - injection H1 as <-.
    apply list_elem_of_lookup_2, list_elem_of_In, Hb in H2. lia.
  - injection H2 as <-.
    apply list_elem_of_lookup_2, list_elem_of_In, Hb in H1. lia.
  - apply (IH Hbs i j); [done|done|lia].
Qed.

Lemma place_blocks_elem L :
  forall (k : nat) x,
    x ∈ place_blocks ly k L ->
    exists (i : nat) b es,
      L !! i = Some (b, es)
      /\ x ∈ place_entries ly (k + i) b (b + BOFF) es.
Proof.
  induction L as [|[b es] L IH]; intros k x; cbn [place_blocks].
  - set_solver.
  - intros [Hx|Hx]%elem_of_app.
    + exists O, b, es. by rewrite Nat.add_0_r.
    + destruct (IH _ _ Hx) as (i & b' & es' & Hi & Hin).
      exists (S i), b', es'. split; [done|].
      by replace (k + S i)%nat with (S k + i)%nat by lia.
Qed.

Lemma place_blocks_entries L :
  forall k, p_entry <$> place_blocks ly k L = concat (snd <$> L).
Proof.
  assert (He : forall es bi b d, p_entry <$> place_entries ly bi b d es = es).
  { induction es as [|e es IH]; intros; cbn; [done|]. by rewrite IH. }
  induction L as [|[b es] L IH]; intros k; cbn; [done|].
  by rewrite fmap_app, He, IH.
Qed.

(** No string owns two entries *)
Lemma live_strings_distinct L A x B :
  NoDup (live_strings L) ->
  place_blocks ly O L = A ++ x :: B ->
  p_string x <> 0 ->
  forall y, y ∈ A ++ B -> p_string y <> p_string x.
Proof.
  intros Hnd HP Hlive y Hy E.
  assert (Hf : forall l z, z ∈ l -> p_string z <> 0 ->
            p_string z
            ∈ List.filter (fun s => negb (s =? 0)) (e_string <$> (p_entry <$> l))).
  { intros l z Hz Hnz. apply list_elem_of_In, filter_In. split.
    - apply list_elem_of_In, list_elem_of_fmap. exists (p_entry z).
      split; [done|]. apply list_elem_of_fmap. eauto.
    - apply negb_true_iff, Z.eqb_neq. done. }
  unfold live_strings in Hnd.
  rewrite <- (place_blocks_entries L O), HP in Hnd.
  rewrite !fmap_app, !fmap_cons, List.filter_app in Hnd.
  cbn [List.filter] in Hnd. fold (p_string x) in Hnd.
  replace (negb (p_string x =? 0)) with true in Hnd
    by (symmetry; apply negb_true_iff, Z.eqb_neq; done).
  apply NoDup_app in Hnd as (_ & Hd1 & Hd2).
  apply NoDup_cons in Hd2 as (Hd2 & _).
  apply elem_of_app in Hy as [Hy|Hy].
  - apply (Hd1 (p_string x)); [|left].
    rewrite <- E. apply Hf; [done|congruence].
  - apply Hd2. rewrite <- E. apply Hf; [done|congruence].
Qed.

Section state.
Context (st : state).

Lemma blocks_ok_elim L :
  forall x,
    blocks_ok ly st x L = true ->
    x = default 0 ((fst <$> L) !! O)
    /\ (forall b, b ∈ fst <$> L -> 0 < b)
    /\ forall (i : nat) b es,
         L !! i = Some (b, es) ->
         exists hb,
           sblocks st !! b = Some hb
           /\ next hb = default 0 ((fst <$> L) !! S i)
           /\ next_free hb = entries_end ly (b + BOFF) es
           /\ next_free hb <= b + SB
           /\ entries_ok ly st (b + BOFF) es = true.
Proof.
  induction L as [|[b es] L IH]; intros x; cbn [blocks_ok].
  - intros ->%Z.eqb_eq. split; [done|]. split; [set_solver|done].
  - rewrite !andb_true_iff. intros [[->%Z.eqb_eq Hpos] H].
    destruct (sblocks st !! b) as [hb|] eqn:Ehb; [|done].
    rewrite !andb_true_iff in H. destruct H as [[[H1 H2] H3] H4].
    destruct (IH _ H4) as (Hn & Hp & Hh).
    split; [done|]. split.
    + intros b' [->|Hb']%elem_of_cons; [cbn; lia|by apply Hp].
    + intros [|i] b' es' Hi; cbn in Hi.
      * injection Hi as <- <-. exists hb. cbn. split_and!; try done; lia.
      * destruct (Hh i b' es' Hi) as (hb' & A1 & A2 & A3 & A4 & A5).
        exists hb'. by split_and!.
Qed.

Context (Hly : layout_sizes_ok ly = true).

Lemma place_entries_elim es :
  forall (bi : nat) b d,
    entries_ok ly st d es = true ->
    d <= entries_end ly d es
    /\ forall x,
         x ∈ place_entries ly bi b d es ->
         p_bi x = bi /\ p_blk x = b /\ d <= p_addr x
         /\ p_addr x + p_size ly x <= entries_end ly d es
         /\ entry_ok ly st (p_addr x) (p_entry x) = true.
Proof.
  induction es as [|e es IH]; intros bi b d; cbn [entries_ok entries_end].
  - intros _. split; [lia|]. cbn. set_solver.
  - intros [He Hes]%andb_true_iff.
    destruct (IH bi b _ Hes) as (Hend & Hx).
    destruct (entry_ok_elim ly _ _ _ He) as (Hn & _).
    destruct (entry_size_facts ly Hly e ltac:(apply Hn)) as (Hsz & _).
    destruct (layout_sizes_facts ly Hly) as (HW & _).
    split; [lia|]. cbn [place_entries].
    intros x [->|Hin]%elem_of_cons.
    + cbn. unfold p_size. cbn. split_and!; try done; lia.
    + destruct (Hx x Hin) as (A1 & A2 & A3 & A4 & A5).
      split_and!; try done; lia.
Qed.

(** The entries come in the order of the blocks and of the addresses *)
Lemma place_entries_sorted es :
  forall (bi : nat) b d (i j : nat) x y,
    entries_ok ly st d es = true ->
    place_entries ly bi b d es !! i = Some x ->
    place_entries ly bi b d es !! j = Some y ->
    (i < j)%nat ->
    p_addr x + p_size ly x <= p_addr y.
Proof.
  induction es as [|e es IH]; intros bi b d i j x y; [done|].
  cbn [entries_ok place_entries]. intros [He Hes]%andb_true_iff Hi Hj Hij.
  destruct j as [|j]; [lia|]. cbn in Hj.
  destruct i as [|i]; cbn in Hi.
  - injection Hi as <-. unfold p_size. cbn.
    destruct (place_entries_elim es bi b _ Hes) as (_ & Hx).
    apply list_elem_of_lookup_2 in Hj. destruct (Hx y Hj). lia.
  - apply (IH bi b (d + entry_size ly e) i j); [done|done|done|lia].
Qed.

Lemma place_blocks_sorted L :
  forall x0 (k i j : nat) x y,
    blocks_ok ly st x0 L = true ->
    place_blocks ly k L !! i = Some x ->
    place_blocks ly k L !! j = Some y ->
    (i < j)%nat ->
    (k <= p_bi x <= p_bi y)%nat
    /\ (p_bi x = p_bi y -> p_addr x + p_size ly x <= p_addr y).
Proof.
  induction L as [|[b es] L IH]; intros x0 k i j x y; [done|].
  intros Hok. destruct (blocks_ok_elim _ _ Hok) as (_ & _ & Hh).
  destruct (Hh O b es eq_refl) as (hb & Ehb & _ & _ & _ & Hes).
  cbn [blocks_ok] in Hok. rewrite Ehb in Hok.
  rewrite !andb_true_iff in Hok. destruct Hok as (_ & _ & Hok).
  destruct (place_entries_elim es k b _ Hes) as (_ & Hx).
  cbn [place_blocks].
  intros [Hi|[Hi1 Hi2]]%lookup_app_Some [Hj|[Hj1 Hj2]]%lookup_app_Some Hij.
  - destruct (Hx x (list_elem_of_lookup_2 _ _ _ Hi)) as (A1 & _).
    destruct (Hx y (list_elem_of_lookup_2 _ _ _ Hj)) as (B1 & _).
    split; [lia|]. intros _. by eapply place_entries_sorted.
  - destruct (Hx x (list_elem_of_lookup_2 _ _ _ Hi)) as (A1 & _).
    destruct (place_blocks_elem _ _ _ (list_elem_of_lookup_2 _ _ _ Hj2))
      as (i' & b' & es' & Hi' & Hin).
    assert (Hes' : entries_ok ly st (b' + BOFF) es' = true).
    { destruct (Hh (S i') b' es' Hi') as (? & ? & ? & ? & ? & ?). done. }
    destruct (place_entries_elim es' (S k + i') b' _ Hes') as (_ & Hy).
    destruct (Hy y Hin) as (B1 & _). lia.
  - apply lookup_lt_Some in Hj. lia.
  - destruct (IH _ (S k) _ _ x y Hok Hi2 Hj2 ltac:(lia)) as (A1 & A2).
    split; [lia|done].
Qed.

End state.

Lemma layout_ok_laid_out st L :
  layout_ok ly st L = true -> laid_out ly st L.
Proof.
  unfold layout_ok. rewrite !andb_true_iff.
  intros [[[Hly Hb] Hsep] Hnd].
  destruct (blocks_ok_elim st L _ Hb) as (Hold & Hpos & Hh).
  pose proof (separated_elim _ Hsep) as Hs.
  destruct (layout_sizes_facts ly Hly) as (_ & _ & _ & _ & _ & _ & _ & HSB).
  split; try done.
  - apply NoDup_alt. intros i j b Hi Hj.
    destruct (decide (i = j)) as [|Hij]; [done|].
    destruct (Hs i j b b Hi Hj Hij); lia.
  - intros i b es Hi. destruct (Hh i b es Hi) as (hb & ? & ? & ? & ? & ?).
    exists hb. done.
  - intros x Hx.
    destruct (place_blocks_elem _ _ _ Hx) as (i & b & es & Hi & Hin).
    destruct (Hh i b es Hi) as (hb & A1 & A2 & A3 & A4 & A5).
    destruct (place_entries_elim st Hly es (0 + i) b _ A5) as (_ & Hp).
    destruct (Hp x Hin) as (B1 & B2 & B3 & B4 & B5).
    split_and!; try done; try lia.
    rewrite B1, B2, list_lookup_fmap. cbn. by rewrite Hi.
  - intros A x B HP y Hy.
    apply list_elem_of_lookup_1 in Hy as [k Hk].
    destruct (place_blocks_sorted st Hly L _ O (length A) (length A + S k) x y Hb)
      as (B1 & B2).
    + rewrite HP. by apply list_lookup_middle.
    + rewrite HP. rewrite lookup_app_r by lia.
      replace (length A + S k - length A)%nat with (S k) by lia. done.
    + lia.
    + split; [lia|done].
  - intros A x B HP Hlive. apply (live_strings_distinct L A x B); try done.
    by apply nodupb_NoDup.
Qed.

End layout.

Section layout.
Context (ly : layout).

Local Abbreviation W := (sizeof_pointer ly).
Local Abbreviation OFF := (SDATA_DATA_OFFSET ly).
Local Abbreviation BOFF := (offsetof_sblock_data ly).
Local Abbreviation SB := (SBLOCK_SIZE ly).

(** *** The end of [compact_small_strings] *)

Lemma live_strings_elem L s :
  s ∈ live_strings L ->
  s <> 0 /\ exists x, x ∈ place_blocks ly O L /\ p_string x = s.
Proof.
  unfold live_strings. rewrite <- (place_blocks_entries ly L O).
  intros [Hin Hnz]%list_elem_of_In%filter_In.
  split; [by apply negb_true_iff, Z.eqb_neq in Hnz|].
  apply list_elem_of_In, list_elem_of_fmap in Hin as (e & -> & He).
  apply list_elem_of_fmap in He as (x & -> & Hx). eauto.
Qed.

Lemma live_strings_intro L x :
  x ∈ place_blocks ly O L -> p_string x <> 0 -> p_string x ∈ live_strings L.
Proof.
  intros Hx Hnz. unfold live_strings.
  rewrite <- (place_blocks_entries ly L O).
  apply list_elem_of_In, filter_In. split.
  - apply list_elem_of_In, list_elem_of_fmap. exists (p_entry x).
    split; [done|]. apply list_elem_of_fmap. eauto.
  - by apply negb_true_iff, Z.eqb_neq.
Qed.

Lemma length_concat_elem {A} (LL : list (list A)) l :
  l ∈ LL -> (length l <= length (concat LL))%nat.
Proof.
  induction LL as [|l0 LL IH]; [set_solver|].
  cbn. rewrite length_app. intros [->|Hl]%elem_of_cons; [lia|].
  specialize (IH Hl). lia.
Qed.

(** At the start of the loops *)
Lemma compacting_start st b es Lu :
  laid_out ly st ((b, es) :: Lu) ->
  compacting ly st (fst <$> (b, es) :: Lu) O []
    (place_blocks ly O ((b, es) :: Lu))
    {| tb := b; tb_end := b + SB; to := b + BOFF |} st.
Proof.
  intros Hlo.
  destruct (lo_hdr ly _ _ Hlo O b es eq_refl) as (hb & Hhb & _ & Hnf & Hle).
  destruct (layout_sizes_facts ly (lo_sizes ly _ _ Hlo))
    as (HW & _ & _ & _ & _ & _ & Hboff & HSB).
  split; cbn [tb tb_end to]; try done.
  - assert (b + BOFF <= b + SB); [|lia].
    destruct es as [|e es]; [cbn in Hnf; lia|].
    destruct (lo_placed ly _ _ Hlo
                {| p_bi := O; p_blk := b; p_addr := b + BOFF; p_entry := e |})
      as (_ & _ & Hd & Hok); [cbn; left|].
    destruct (entry_ok_elim ly _ _ _ Hok) as (Hn & _).
    destruct (entry_size_facts ly (lo_sizes ly _ _ Hlo) e ltac:(apply Hn))
      as (Hsz & _).
    cbn in Hd. unfold p_size in Hd. cbn in Hd. lia.
  - intros y Hy. destruct (lo_placed ly _ _ Hlo y Hy) as (Hbi & Hd1 & _).
    split; [lia|]. split; [|done].
    intros E. rewrite E in Hbi. cbn in Hbi. injection Hbi as Eb. lia.
  - intros x Hx. set_solver.
  - intros b' hb' _ Hb'. eauto.
Qed.

Section tail.
Context (st0 : state) (L : list (Z * list entry)).
Context (Hlo : laid_out ly st0 L).

Local Abbreviation bs := (fst <$> L).
Local Abbreviation P := (place_blocks ly O L).

(** The blocks after [tb] are freed *)
Lemma free_sblocks_run n :
  forall (j : nat) st fuel,
    length bs = (j + n)%nat ->
    (forall (i : nat) b,
       bs !! i = Some b -> (j <= i)%nat -> sblocks st !! b = sblocks st0 !! b) ->
    (n < fuel)%nat ->
    exists st',
      free_sblocks fuel (default 0 (bs !! j)) st = Some st'
      /\ strings st' = strings st /\ mem st' = mem st
      /\ oldest_sblock st' = oldest_sblock st
      /\ current_sblock st' = current_sblock st
      /\ large_sblocks st' = large_sblocks st
      /\ bytes_since_gc st' = bytes_since_gc st
      /\ (forall b, (forall i : nat, bs !! i = Some b -> (i < j)%nat) ->
                    sblocks st' !! b = sblocks st !! b).
Proof.
  induction n as [|n IH]; intros j st fuel Hlen Hh Hfuel.
  - rewrite lookup_ge_None_2 by lia. destruct fuel as [|fuel]; [lia|].
    cbn. exists st. by split_and!.
  - destruct (lookup_lt_is_Some_2 bs j ltac:(lia)) as [b Hb].
    rewrite Hb. cbn [default id].
    assert (0 < b).
    { apply (lo_pos ly _ _ Hlo). by eapply list_elem_of_lookup_2. }
    destruct fuel as [|fuel]; [lia|]. cbn [free_sblocks].
    replace (b =? 0) with false by lia.
    assert (HLj : exists es, L !! j = Some (b, es)).
    { rewrite list_lookup_fmap in Hb.
      destruct (L !! j) as [[b0 es]|]; [|done]. cbn in Hb.
      injection Hb as ->. eauto. }
    destruct HLj as [es HLj].
    destruct (lo_hdr ly _ _ Hlo j _ _ HLj) as (hb & Hhb & Hn & _).
    rewrite (Hh j b Hb ltac:(lia)), Hhb. cbn [mbind option_bind].
    rewrite Hn.
    destruct (IH (S j) (with_sblocks (delete b (sblocks st)) st) fuel)
      as (st' & E & A1 & A2 & A3 & A4 & A5 & A6 & A7).
    + lia.
    + intros i b' Hb' Hi. cbn. rewrite lookup_delete_ne.
      * apply (Hh i); [done|lia].
      * intros <-.
        pose proof (NoDup_lookup _ _ _ _ (lo_nodup ly _ _ Hlo) Hb Hb'). lia.
    + lia.
    + exists st'. split; [done|]. split_and!; try done.
      intros b0 Hb0. rewrite A7.
      * cbn. apply lookup_delete_ne. intros <-. specialize (Hb0 j Hb). lia.
      * intros i Hi. specialize (Hb0 i Hi). lia.
Qed.

End tail.

(** *** [compact_small_strings] as a whole *)

Lemma compact_small_strings_run st L fuel :
  layout_ok ly st L = true ->
  (length L + length (concat (snd <$> L)) <= fuel)%nat ->
  exists st',
    compact_small_strings ly fuel st = Some st'
    /\ (forall x,
          x ∈ place_blocks ly O L -> p_string x <> 0 ->
          exists b d' str0,
            b ∈ fst <$> L /\ b + BOFF <= d' /\ d' + p_size ly x <= b + SB
            /\ strings st !! p_string x = Some str0
            /\ strings st' !! p_string x
               = Some {| size := size str0; size_byte := size_byte str0;
                         data := d' + OFF |}
            /\ same_bytes (mem st') (mem st) d' (p_addr x) (p_size ly x))
    /\ (forall s, s ∉ live_strings L -> strings st' !! s = strings st !! s)
    /\ (forall a, (forall b, b ∈ fst <$> L -> ~ (b <= a < b + SB)) ->
                  mem st' !! a = mem st !! a)
    /\ (forall b, b ∉ fst <$> L -> sblocks st' !! b = sblocks st !! b)
    /\ oldest_sblock st' = oldest_sblock st
    /\ large_sblocks st' = large_sblocks st
    /\ bytes_since_gc st' = bytes_since_gc st
    /\ (L = [] -> current_sblock st' = 0)
    /\ (L <> [] ->
        current_sblock st' ∈ fst <$> L
        /\ exists hb,
             sblocks st' !! current_sblock st' = Some hb /\ next hb = 0
             /\ current_sblock st' + BOFF <= next_free hb
                <= current_sblock st' + SB).
Proof.
  intros Hok Hfuel. pose proof (layout_ok_laid_out ly st L Hok) as Hlo.
  pose proof (lo_oldest ly _ _ Hlo) as Hold.
  unfold compact_small_strings.
  destruct L as [|[b es] Lu] eqn:EL.
  - cbn in Hold. rewrite Hold. cbn.
    exists (with_current_sblock 0 st). split_and!; try done.
    intros x Hx. set_solver.
  - rewrite <- EL in *. 
    assert (Hb0 : (fst <$> L) !! O = Some b) by (by rewrite EL).
    rewrite Hb0 in Hold. cbn in Hold. rewrite Hold.
    assert (Hpos : 0 < b).
    { apply (lo_pos ly _ _ Hlo). by eapply list_elem_of_lookup_2. }
    replace (negb (b =? 0)) with true by (symmetry; apply negb_true_iff; lia).
    cbv zeta.
    destruct (compact_sblocks_run ly st L Hlo Lu [] b es O
                {| tb := b; tb_end := b + SB; to := b + BOFF |} st fuel)
      as (ti & c & st1 & E & HI).
    + done.
    + cbn [place_blocks length]. rewrite EL in Hlo |- *.
      by apply compacting_start.
    + cbn. lia.
    + intros es' Hes'.
      assert (Hin : es' ∈ snd <$> L) by (by rewrite EL).
      apply length_concat_elem in Hin. rewrite EL in Hfuel at 1.
      cbn [length] in Hfuel. lia.
    + rewrite E. cbn [mbind option_bind].
      pose proof (cp_tb ly _ _ _ _ _ _ _ HI) as Htb.
      pose proof (cp_to ly _ _ _ _ _ _ _ HI) as Hto.
      assert (HLti : exists es', L !! ti = Some (tb c, es')).
      { rewrite list_lookup_fmap in Htb.
        destruct (L !! ti) as [[b0 es0]|]; [|done]. cbn in Htb.
        injection Htb as ->. eauto. }
      destruct HLti as [es' HLti].
      destruct (lo_hdr ly _ _ Hlo ti _ _ HLti) as (hb & Hhb & Hn & _).
      pose proof (cp_hdr_same ly _ _ _ _ _ _ _ HI _ _ Htb (le_n _)) as Hsame.
      rewrite Hhb in Hsame. rewrite Hsame. cbn [mbind option_bind].
      rewrite Hn.
      assert (Hlt : (S ti <= length (fst <$> L))%nat).
      { apply lookup_lt_Some in Htb. lia. }
      destruct (free_sblocks_run st L Hlo (length (fst <$> L) - S ti) (S ti)
                  st1 fuel)
        as (st2 & E2 & A1 & A2 & A3 & A4 & A5 & A6 & A7).
      * lia.
      * intros i b' Hb' Hi.
        apply (cp_hdr_same ly _ _ _ _ _ _ _ HI i); [done|lia].
      * rewrite length_fmap in *. lia.
      * rewrite E2. cbn [mbind option_bind].
        assert (Hkeep : sblocks st2 !! tb c = Some hb).
        { rewrite A7; [done|]. intros i Hi.
          pose proof (NoDup_lookup _ _ _ _ (lo_nodup ly _ _ Hlo) Htb Hi). lia. }
        rewrite Hkeep. cbn [mbind option_bind].
        eexists. split; [reflexivity|].
        cbn [strings mem sblocks oldest_sblock current_sblock large_sblocks
             bytes_since_gc with_current_sblock with_sblocks].
        destruct (cp_fields ly _ _ _ _ _ _ _ HI) as (F1 & F2 & F3 & F4).
        split_and!.
        -- intros x Hx Hlive.
           destruct (cp_proc ly _ _ _ _ _ _ _ HI x Hx Hlive)
             as (bi' & b' & d' & str0 & B1 & B2 & B3 & B4 & B5 & B6 & B7 & B8).
           exists b', d', str0. rewrite A1, A2. split_and!; try done.
           by eapply list_elem_of_lookup_2.
        -- intros s Hs. rewrite A1. apply (cp_strings ly _ _ _ _ _ _ _ HI).
           intros x Hx Hlive <-. apply Hs. by apply live_strings_intro.
        -- intros a Ha. rewrite A2. by apply (cp_mem ly _ _ _ _ _ _ _ HI).
        -- intros b' Hb'. rewrite lookup_insert_ne.
           ++ rewrite A7.
              ** by apply (cp_hdr_other ly _ _ _ _ _ _ _ HI).
              ** intros i Hi. exfalso. apply Hb'.
                 by eapply list_elem_of_lookup_2.
           ++ intros <-. apply Hb'. by eapply list_elem_of_lookup_2.
        -- congruence.
        -- congruence.
        -- congruence.
        -- rewrite EL. done.
        -- intros _. split; [by eapply list_elem_of_lookup_2|].
           rewrite lookup_insert_eq. eexists. split; [done|]. cbn. lia.
Qed.

End layout.

Section layout.
Context (ly : layout).

Local Abbreviation W := (sizeof_pointer ly).
Local Abbreviation OFF := (SDATA_DATA_OFFSET ly).
Local Abbreviation BOFF := (offsetof_sblock_data ly).
Local Abbreviation SB := (SBLOCK_SIZE ly).

(** *** The properties of [compact_small_strings] *)

(** X22.  [compact_small_strings] keeps the strings: when the small
    blocks are laid out as [L] says, the function returns, and a string
    that owns an [sdata] of these blocks has afterwards the same [size]
    and [size_byte], its data within one of these blocks, the same bytes
    up to and with the terminating one, and an [sdata] that points back
    to it. *)
Theorem compaction_keeps_strings st L fuel s :
  layout_ok ly st L = true ->
  (length L + length (concat (snd <$> L)) <= fuel)%nat ->
  s ∈ live_strings L ->
  exists st' str str',
    compact_small_strings ly fuel st = Some st'
    /\ strings st !! s = Some str /\ strings st' !! s = Some str'
    /\ size str' = size str /\ size_byte str' = size_byte str
    /\ (exists b, b ∈ fst <$> L /\ b + BOFF + OFF <= data str'
                  /\ data str' + STRING_BYTES str + 1 <= b + SB)
    /\ load_word ly (data str' - OFF) (mem st') = Some s
    /\ forall i, 0 <= i <= STRING_BYTES str ->
                 mem st' !! (data str' + i) = mem st !! (data str + i).
Proof.
  intros Hok Hfuel Hs.
  destruct (compact_small_strings_run ly st L fuel Hok Hfuel)
    as (st' & E & Hlive & _).
  pose proof (layout_ok_laid_out ly st L Hok) as Hlo.
  destruct (live_strings_elem ly L s Hs) as (Hnz & x & Hx & <-).
  destruct (Hlive x Hx Hnz) as (b & d' & str0 & A1 & A2 & A3 & A4 & A5 & A6).
  destruct (lo_placed ly _ _ Hlo x Hx) as (_ & _ & _ & Hxok).
  destruct (entry_ok_elim ly _ _ _ Hxok) as (Hn & Hload & _ & Hstr).
  destruct (Hstr Hnz) as (str1 & Hstr1 & Hdata & Hbytes).
  assert (str1 = str0) as -> by (unfold p_string in A4; congruence).
  destruct (entry_size_facts ly (lo_sizes ly _ _ Hlo) (p_entry x) ltac:(lia))
    as (Hsz1 & Hsz2 & Hsz3).
  fold (p_size ly x) in Hsz1, Hsz2, Hsz3.
  destruct (layout_sizes_facts ly (lo_sizes ly _ _ Hlo))
    as (HW & _ & _ & HOFF & _).
  exists st', str0. eexists. split; [done|]. split; [done|]. split; [exact A5|].
  cbn [size size_byte data]. split; [done|]. split; [done|]. split.
  - exists b. split; [done|]. lia.
  - split.
    + replace (d' + OFF - OFF) with d' by lia.
      apply (load_word_spec ly); [done|]. intros i Hi.
      rewrite A6 by lia. by apply (load_word_spec ly (p_addr x)).
    + intros i Hi. rewrite Hdata, <- !Z.add_assoc. apply A6. lia.
Qed.

(** X23.  What [compact_small_strings] leaves alone: the strings that
    own no [sdata] of the small blocks, the memory outside these blocks,
    the blocks of the large strings and their list, the oldest block and
    the count of the bytes allocated. *)
Theorem compaction_frame st L fuel st' :
  layout_ok ly st L = true ->
  (length L + length (concat (snd <$> L)) <= fuel)%nat ->
  compact_small_strings ly fuel st = Some st' ->
  (forall s, s ∉ live_strings L -> strings st' !! s = strings st !! s)
  /\ (forall a, (forall b, b ∈ fst <$> L -> ~ (b <= a < b + SB)) ->
                mem st' !! a = mem st !! a)
  /\ (forall b, b ∉ fst <$> L -> sblocks st' !! b = sblocks st !! b)
  /\ oldest_sblock st' = oldest_sblock st
  /\ large_sblocks st' = large_sblocks st
  /\ bytes_since_gc st' = bytes_since_gc st.
Proof.
  intros Hok Hfuel E.
  destruct (compact_small_strings_run ly st L fuel Hok Hfuel)
    as (st1 & E1 & _ & A1 & A2 & A3 & A4 & A5 & A6 & _).
  rewrite E in E1. injection E1 as <-. done.
Qed.

(** X24.  After [compact_small_strings] the current block is one of the
    small blocks and the last of their chain; without small blocks there
    is no current block. *)
Theorem compaction_current_block st L fuel st' :
  layout_ok ly st L = true ->
  (length L + length (concat (snd <$> L)) <= fuel)%nat ->
  compact_small_strings ly fuel st = Some st' ->
  (L = [] -> current_sblock st' = 0)
  /\ (L <> [] ->
      current_sblock st' ∈ fst <$> L
      /\ exists hb,
           sblocks st' !! current_sblock st' = Some hb /\ next hb = 0
           /\ current_sblock st' + BOFF <= next_free hb
              <= current_sblock st' + SB).
Proof.
  intros Hok Hfuel E.
  destruct (compact_small_strings_run ly st L fuel Hok Hfuel)
    as (st1 & E1 & _ & _ & _ & _ & _ & _ & _ & A1 & A2).
  rewrite E in E1. injection E1 as <-. done.
Qed.

(** X25.  [sdata_size] rounds up to the alignment of an [sdata]: the
    size is a multiple of the alignment, it holds the header, the bytes
    and the terminating byte, it is no less than an [sdata], and less
    than one alignment is added. *)
Theorem sdata_size_rounds_up n :
  layout_sizes_ok ly = true ->
  sdata_size ly n mod sdata_align ly = 0
  /\ OFF + n + 1 <= sdata_size ly n
  /\ sizeof_sdata ly <= sdata_size ly n
  /\ sdata_size ly n < Z.max (OFF + n + 1) (sizeof_sdata ly) + sdata_align ly.
Proof.
  intros Hly. destruct (sdata_size_bounds ly Hly n) as (H1 & H2 & H3).
  split; [done|]. lia.
Qed.

End layout.

Lemma compaction_keeps_strings_witness :
  exists st' str str',
    compact_small_strings lp64_layout 10 example_strings = Some st'
    /\ strings example_strings !! 1064 = Some str
    /\ strings st' !! 1064 = Some str'
    /\ size str' = size str /\ size_byte str' = size_byte str
    /\ (exists b, b ∈ fst <$> example_layout
                  /\ b + offsetof_sblock_data lp64_layout
                     + SDATA_DATA_OFFSET lp64_layout <= data str'
                  /\ data str' + STRING_BYTES str + 1
                     <= b + SBLOCK_SIZE lp64_layout)
    /\ load_word lp64_layout (data str' - SDATA_DATA_OFFSET lp64_layout)
         (mem st') = Some 1064
    /\ forall i, 0 <= i <= STRING_BYTES str ->
                 mem st' !! (data str' + i)
                 = mem example_strings !! (data str + i).
Proof.
  apply (compaction_keeps_strings lp64_layout example_strings example_layout
           10%nat 1064).
  - vm_compute. reflexivity.
  - cbn. lia.
  - apply list_elem_of_In. vm_compute. tauto.
Defined.

Lemma compaction_frame_witness :
  exists st',
    compact_small_strings lp64_layout 10 example_strings = Some st'
    /\ (forall s, s ∉ live_strings example_layout ->
                  strings st' !! s = strings example_strings !! s)
    /\ (forall a,
          (forall b, b ∈ fst <$> example_layout ->
                     ~ (b <= a < b + SBLOCK_SIZE lp64_layout)) ->
          mem st' !! a = mem example_strings !! a)
    /\ (forall b, b ∉ fst <$> example_layout ->
                  sblocks st' !! b = sblocks example_strings !! b)
    /\ oldest_sblock st' = oldest_sblock example_strings
    /\ large_sblocks st' = large_sblocks example_strings
    /\ bytes_since_gc st' = bytes_since_gc example_strings.
Proof.
  destruct (compact_small_strings lp64_layout 10 example_strings)
    as [st'|] eqn:E; [|vm_compute in E; discriminate E].
  exists st'. split; [reflexivity|].
  apply (compaction_frame lp64_layout example_strings example_layout
           10%nat st').
  - vm_compute. reflexivity.
  - cbn. lia.
  - exact E.
Defined.

Lemma compaction_current_block_witness :
  exists st',
    compact_small_strings lp64_layout 10 example_strings = Some st'
    /\ (example_layout = [] -> current_sblock st' = 0)
    /\ (example_layout <> [] ->
        current_sblock st' ∈ fst <$> example_layout
        /\ exists hb,
             sblocks st' !! current_sblock st' = Some hb /\ next hb = 0
             /\ current_sblock st' + offsetof_sblock_data lp64_layout
                <= next_free hb
                <= current_sblock st' + SBLOCK_SIZE lp64_layout).
Proof.
  destruct (compact_small_strings lp64_layout 10 example_strings)
    as [st'|] eqn:E; [|vm_compute in E; discriminate E].
  exists st'. split; [reflexivity|].
  apply (compaction_current_block lp64_layout example_strings example_layout
           10%nat st').
  - vm_compute. reflexivity.
  - cbn. lia.
  - exact E.
Defined.

Lemma sdata_size_rounds_up_witness :
  sdata_size lp64_layout 5 mod sdata_align lp64_layout = 0
  /\ SDATA_DATA_OFFSET lp64_layout + 5 + 1 <= sdata_size lp64_layout 5
  /\ sizeof_sdata lp64_layout <= sdata_size lp64_layout 5
  /\ sdata_size lp64_layout 5
     < Z.max (SDATA_DATA_OFFSET lp64_layout + 5 + 1)
         (sizeof_sdata lp64_layout) + sdata_align lp64_layout.
Proof.
  apply (sdata_size_rounds_up lp64_layout 5). vm_compute. reflexivity.
Defined.

Section layout.
Context (ly : layout).

Local Abbreviation W := (sizeof_pointer ly).
Local Abbreviation OFF := (SDATA_DATA_OFFSET ly).
Local Abbreviation BOFF := (offsetof_sblock_data ly).
Local Abbreviation SB := (SBLOCK_SIZE ly).

(** *** The three ways of [allocate_string_data] *)

Local Ltac st_simpl :=
  cbn [mbind option_bind negb strings sblocks mem oldest_sblock
       current_sblock large_sblocks bytes_since_gc with_strings with_sblocks
       with_mem with_oldest_sblock with_current_sblock with_large_sblocks
       with_bytes_since_gc next next_free].

(** A block of its own *)
Lemma allocate_string_data_own s nchars nbytes q_clear immovable new st :
  nbytes <= STRING_BYTES_MAX ly ->
  (nbytes >? LARGE_STRING_BYTES) || immovable = true ->
  new <> 0 ->
  is_Some (strings st !! s) ->
  allocate_string_data ly s nchars nbytes q_clear immovable new st
  = Some (Returns
      {| strings :=
           <[s := {| size := nchars; size_byte := nbytes;
                     data := new + BOFF + OFF |}]> (strings st);
         sblocks :=
           <[new := {| next := large_sblocks st;
                       next_free := new + BOFF + sdata_size ly nbytes |}]>
             (sblocks st);
         mem :=
           <[new + BOFF + OFF + nbytes := Byte 0]>
             (store_word ly (new + BOFF) s
                (if q_clear
                 then memclear new
                        (FLEXSIZEOF_sblock ly (sdata_size ly nbytes)) (mem st)
                 else mem st));
         oldest_sblock := oldest_sblock st;
         current_sblock := current_sblock st;
         large_sblocks := new;
         bytes_since_gc := bytes_since_gc st + sdata_size ly nbytes |}).
Proof.
  intros Hmax Hlarge Hnew [str Hs]. unfold allocate_string_data.
  replace (STRING_BYTES_MAX ly <? nbytes) with false by lia.
  cbv zeta. rewrite Hlarge. replace (new =? 0) with false by lia.
  cbn [mbind option_bind]. unfold GC_STRING_EXTRA. rewrite !Z.add_0_r.
  cbn [sblocks with_mem with_sblocks with_large_sblocks strings].
  rewrite lookup_insert_eq. cbn [mbind option_bind]. rewrite Hs.
  cbn [mbind option_bind]. rewrite insert_insert_eq. cbn. done.
Qed.

(** The current block has room *)
Lemma allocate_string_data_fits s nchars nbytes q_clear new st hb :
  nbytes <= STRING_BYTES_MAX ly ->
  nbytes <= LARGE_STRING_BYTES ->
  current_sblock st <> 0 ->
  sblocks st !! current_sblock st = Some hb ->
  next_free hb + sdata_size ly nbytes <= current_sblock st + SB ->
  is_Some (strings st !! s) ->
  allocate_string_data ly s nchars nbytes q_clear false new st
  = Some (Returns
      {| strings :=
           <[s := {| size := nchars; size_byte := nbytes;
                     data := next_free hb + OFF |}]> (strings st);
         sblocks :=
           <[current_sblock st :=
               {| next := next hb;
                  next_free := next_free hb + sdata_size ly nbytes |}]>
             (sblocks st);
         mem :=
           <[next_free hb + OFF + nbytes := Byte 0]>
             (store_word ly (next_free hb) s
                (if q_clear
                 then memclear (next_free hb + OFF) nbytes (mem st)
                 else mem st));
         oldest_sblock := oldest_sblock st;
         current_sblock := current_sblock st;
         large_sblocks := large_sblocks st;
         bytes_since_gc := bytes_since_gc st + sdata_size ly nbytes |}).
Proof.
  intros Hmax Hsmall Hcur Hhb Hfit [str Hs]. unfold allocate_string_data.
  replace (STRING_BYTES_MAX ly <? nbytes) with false by lia.
  cbv zeta. replace (nbytes >? LARGE_STRING_BYTES) with false by lia.
  cbn [orb]. replace (current_sblock st =? 0) with false by lia.
  rewrite Hhb. cbn [mbind option_bind]. unfold GC_STRING_EXTRA.
  replace (SB - 0 <? next_free hb - current_sblock st + sdata_size ly nbytes)
    with false by lia.
  cbn [negb mbind option_bind]. rewrite Hhb. cbn [mbind option_bind].
  cbn [sblocks with_mem with_sblocks strings]. rewrite Hhb.
  cbn [mbind option_bind]. rewrite Hs. cbn. by rewrite !Z.add_0_r.
Qed.

(** A new block, made the current one *)
Lemma allocate_string_data_new_block s nchars nbytes q_clear new st :
  nbytes <= STRING_BYTES_MAX ly ->
  nbytes <= LARGE_STRING_BYTES ->
  (current_sblock st <> 0 ->
   exists hc,
     sblocks st !! current_sblock st = Some hc
     /\ current_sblock st + SB < next_free hc + sdata_size ly nbytes) ->
  new <> 0 ->
  sblocks st !! new = None ->
  is_Some (strings st !! s) ->
  allocate_string_data ly s nchars nbytes q_clear false new st
  = Some (Returns
      {| strings :=
           <[s := {| size := nchars; size_byte := nbytes;
                     data := new + BOFF + OFF |}]> (strings st);
         sblocks :=
           <[new := {| next := 0;
                       next_free := new + BOFF + sdata_size ly nbytes |}]>
             (if current_sblock st =? 0 then sblocks st
              else
                match sblocks st !! current_sblock st with
                | Some hc =>
                    <[current_sblock st :=
                        {| next := new; next_free := next_free hc |}]>
                      (sblocks st)
                | None => sblocks st
                end);
         mem :=
           <[new + BOFF + OFF + nbytes := Byte 0]>
             (store_word ly (new + BOFF) s
                (if q_clear
                 then memclear (new + BOFF + OFF) nbytes (mem st)
                 else mem st));
         oldest_sblock :=
           if current_sblock st =? 0 then new else oldest_sblock st;
         current_sblock := new;
         large_sblocks := large_sblocks st;
         bytes_since_gc := bytes_since_gc st + sdata_size ly nbytes |}).
Proof.
  intros Hmax Hsmall Hfull Hnew Hfresh [str Hs]. unfold allocate_string_data.
  replace (STRING_BYTES_MAX ly <? nbytes) with false by lia.
  cbv zeta. replace (nbytes >? LARGE_STRING_BYTES) with false by lia.
  cbn [orb]. unfold GC_STRING_EXTRA.
  destruct (Z.eqb_spec (current_sblock st) 0) as [E0|Hcur].
  - st_simpl. replace (new =? 0) with false by lia. st_simpl.
    rewrite E0. cbn [Z.eqb]. st_simpl.
    rewrite lookup_insert_eq. st_simpl.
    rewrite lookup_insert_eq. st_simpl. rewrite Hs. st_simpl.
    rewrite insert_insert_eq. by rewrite !Z.add_0_r.
  - destruct (Hfull Hcur) as (hc & Hhc & Hover). rewrite Hhc. st_simpl.
    replace (SB - 0
             <? next_free hc - current_sblock st + sdata_size ly nbytes)
      with true by lia.
    st_simpl. replace (new =? 0) with false by lia. st_simpl.
    replace (current_sblock st =? 0) with false by lia. st_simpl.
    assert (Hne : new <> current_sblock st) by congruence.
    rewrite lookup_insert_ne by done. rewrite Hhc. st_simpl.
    rewrite lookup_insert_ne by done. rewrite lookup_insert_eq. st_simpl.
    rewrite lookup_insert_ne by done. rewrite lookup_insert_eq. st_simpl.
    rewrite Hs. st_simpl. rewrite !Z.add_0_r. do 3 f_equal.
    rewrite (insert_insert_ne _ (current_sblock st) new) by done.
    by rewrite insert_insert_eq.
Qed.

(** *** [pin_string] on a small string that is not pinned *)

Lemma pin_string_moves (PURE_P : Z -> bool) s new st str :
  strings st !! s = Some str ->
  STRING_BYTES str <= LARGE_STRING_BYTES ->
  PURE_P (data str) = false ->
  size_byte str <> -3 ->
  STRING_BYTES str <= STRING_BYTES_MAX ly ->
  new <> 0 ->
  pin_string ly PURE_P s new st
  = Some (Returns
      {| strings :=
           <[s := {| size := STRING_BYTES str; size_byte := -3;
                     data := new + BOFF + OFF |}]> (strings st);
         sblocks :=
           <[new := {| next := large_sblocks st;
                       next_free :=
                         new + BOFF + sdata_size ly (STRING_BYTES str) |}]>
             (sblocks st);
         mem :=
           store_word ly (data str - OFF + offsetof_nbytes ly)
             (STRING_BYTES str)
             (store_word ly (data str - OFF) 0
                (memmove (new + BOFF + OFF) (data str) (STRING_BYTES str)
                   (<[new + BOFF + OFF + STRING_BYTES str := Byte 0]>
                      (store_word ly (new + BOFF) s (mem st)))));
         oldest_sblock := oldest_sblock st;
         current_sblock := current_sblock st;
         large_sblocks := new;
         bytes_since_gc :=
           bytes_since_gc st + sdata_size ly (STRING_BYTES str) |}).
Proof.
  intros Hs Hsmall Hpure Hpin Hmax Hnew. unfold pin_string.
  rewrite Hs. st_simpl. cbv zeta.
  replace (STRING_BYTES str >? LARGE_STRING_BYTES) with false by lia.
  rewrite Hpure. replace (size_byte str =? -3) with false by lia.
  cbn [orb negb].
  rewrite (allocate_string_data_own s _ _ false true new st);
    [|done|by rewrite orb_true_r|done|by eexists].
  st_simpl. rewrite lookup_insert_eq. st_simpl. cbn [data].
  rewrite lookup_insert_eq. st_simpl. cbn [size data].
  by rewrite insert_insert_eq.
Qed.

End layout.

Section layout.
Context (ly : layout).
Context (Hly : layout_sizes_ok ly = true).

Local Abbreviation W := (sizeof_pointer ly).
Local Abbreviation OFF := (SDATA_DATA_OFFSET ly).
Local Abbreviation BOFF := (offsetof_sblock_data ly).
Local Abbreviation SB := (SBLOCK_SIZE ly).

(** The memory after [data->string = s] and [s->u.s.data[nbytes] = 0] *)
Lemma allocated_memory d s nbytes (m1 : memory) :
  0 <= nbytes ->
  let m := <[d + OFF + nbytes := Byte 0]> (store_word ly d s m1) in
  load_word ly d m = Some s
  /\ m !! (d + OFF + nbytes) = Some (Byte 0)
  /\ (forall i, 0 <= i < nbytes -> m !! (d + OFF + i) = m1 !! (d + OFF + i))
  /\ (forall a, ~ (d <= a < d + sdata_size ly nbytes) -> m !! a = m1 !! a).
Proof.
  intros Hn m. destruct (layout_sizes_facts ly Hly) as (HW & _ & _ & HOFF & _).
  destruct (sdata_size_bounds ly Hly nbytes) as (Hsz & _).
  subst m. split_and!.
  - apply load_word_spec; [done|]. intros i Hi.
    unfold memory. rewrite lookup_insert_ne by lia. rewrite store_word_lookup.
    replace ((d <=? d + i) && (d + i <? d + W)) with true by lia.
    do 2 f_equal. lia.
  - apply lookup_insert_eq.
  - intros i Hi. unfold memory. rewrite lookup_insert_ne by lia. rewrite store_word_lookup.
    by replace ((d <=? d + OFF + i) && (d + OFF + i <? d + W)) with false
      by lia.
  - intros a Ha. unfold memory. rewrite lookup_insert_ne by lia. rewrite store_word_lookup.
    by replace ((d <=? a) && (a <? d + W)) with false by lia.
Qed.

(** The same, after [memset (SDATA_DATA (data), 0, nbytes)] if asked *)
Lemma allocated_cleared d s nbytes (q_clear : bool) (m0 : memory) :
  0 <= nbytes ->
  let m :=
    <[d + OFF + nbytes := Byte 0]>
      (store_word ly d s
         (if q_clear then memclear (d + OFF) nbytes m0 else m0)) in
  load_word ly d m = Some s
  /\ m !! (d + OFF + nbytes) = Some (Byte 0)
  /\ (q_clear = true ->
      forall i, 0 <= i < nbytes -> m !! (d + OFF + i) = Some (Byte 0))
  /\ (forall a, ~ (d <= a < d + sdata_size ly nbytes) -> m !! a = m0 !! a).
Proof.
  intros Hn m.
  destruct (allocated_memory d s nbytes
              (if q_clear then memclear (d + OFF) nbytes m0 else m0) Hn)
    as (A1 & A2 & A3 & A4).
  destruct (layout_sizes_facts ly Hly) as (HW & _ & _ & HOFF & _).
  destruct (sdata_size_bounds ly Hly nbytes) as (Hsz & _).
  split_and!; try done.
  - intros -> i Hi. subst m. rewrite A3 by done. rewrite memclear_lookup.
    by replace ((d + OFF <=? d + OFF + i) && (d + OFF + i <? d + OFF + nbytes))
      with true by lia.
  - intros a Ha. subst m. rewrite A4 by done.
    destruct q_clear; [|done]. rewrite memclear_lookup.
    by replace ((d + OFF <=? a) && (a <? d + OFF + nbytes)) with false by lia.
Qed.

Lemma allocate_own_spec s nchars nbytes q_clear immovable new st :
  0 <= nbytes <= STRING_BYTES_MAX ly ->
  (nbytes >? LARGE_STRING_BYTES) || immovable = true ->
  new <> 0 ->
  is_Some (strings st !! s) ->
  BOFF + sdata_size ly nbytes <= FLEXSIZEOF_sblock ly (sdata_size ly nbytes) ->
  exists st',
    allocate_string_data ly s nchars nbytes q_clear immovable new st
    = Some (Returns st')
    /\ strings st' !! s
       = Some {| size := nchars; size_byte := nbytes;
                 data := new + BOFF + OFF |}
    /\ large_sblocks st' = new
    /\ sblocks st' !! new
       = Some {| next := large_sblocks st;
                 next_free := new + BOFF + sdata_size ly nbytes |}
    /\ current_sblock st' = current_sblock st
    /\ oldest_sblock st' = oldest_sblock st
    /\ (forall b, b <> new -> sblocks st' !! b = sblocks st !! b)
    /\ (forall s', s' <> s -> strings st' !! s' = strings st !! s')
    /\ load_word ly (new + BOFF) (mem st') = Some s
    /\ mem st' !! (new + BOFF + OFF + nbytes) = Some (Byte 0)
    /\ (q_clear = true ->
        forall i, 0 <= i < nbytes ->
                  mem st' !! (new + BOFF + OFF + i) = Some (Byte 0))
    /\ (forall a,
          ~ (new <= a
             < new + FLEXSIZEOF_sblock ly (sdata_size ly nbytes)) ->
          mem st' !! a = mem st !! a)
    /\ bytes_since_gc st' = bytes_since_gc st + sdata_size ly nbytes.
Proof.
  intros Hn Hlarge Hnew Hs Hflex.
  eexists. split.
  { apply allocate_string_data_own; [lia|done|done|done]. }
  destruct (layout_sizes_facts ly Hly)
    as (HW & _ & _ & HOFF & _ & _ & Hboff & _).
  destruct (sdata_size_bounds ly Hly nbytes) as (Hsz & _).
  cbn [strings sblocks mem oldest_sblock current_sblock large_sblocks
       bytes_since_gc].
  destruct (allocated_memory (new + BOFF) s nbytes
              (if q_clear
               then memclear new (FLEXSIZEOF_sblock ly (sdata_size ly nbytes))
                      (mem st)
               else mem st) ltac:(lia))
    as (A1 & A2 & A3 & A4).
  split_and!; try done.
  - apply lookup_insert_eq.
  - apply lookup_insert_eq.
  - intros b Hb. by apply lookup_insert_ne.
  - intros s' Hs'. by apply lookup_insert_ne.
  - intros -> i Hi. rewrite A3 by done. rewrite memclear_lookup.
    by replace ((new <=? new + BOFF + OFF + i)
                && (new + BOFF + OFF + i
                    <? new + FLEXSIZEOF_sblock ly (sdata_size ly nbytes)))
      with true by lia.
  - intros a Ha. rewrite A4 by lia.
    destruct q_clear; [|done]. rewrite memclear_lookup.
    by replace ((new <=? a)
                && (a <? new + FLEXSIZEOF_sblock ly (sdata_size ly nbytes)))
      with false by lia.
Qed.

Lemma allocate_fits_spec s nchars nbytes q_clear new st hb :
  0 <= nbytes <= STRING_BYTES_MAX ly ->
  nbytes <= LARGE_STRING_BYTES ->
  current_sblock st <> 0 ->
  sblocks st !! current_sblock st = Some hb ->
  next_free hb + sdata_size ly nbytes <= current_sblock st + SB ->
  is_Some (strings st !! s) ->
  exists st',
    allocate_string_data ly s nchars nbytes q_clear false new st
    = Some (Returns st')
    /\ strings st' !! s
       = Some {| size := nchars; size_byte := nbytes;
                 data := next_free hb + OFF |}
    /\ sblocks st' !! current_sblock st
       = Some {| next := next hb;
                 next_free := next_free hb + sdata_size ly nbytes |}
    /\ current_sblock st' = current_sblock st
    /\ oldest_sblock st' = oldest_sblock st
    /\ large_sblocks st' = large_sblocks st
    /\ (forall b, b <> current_sblock st -> sblocks st' !! b = sblocks st !! b)
    /\ (forall s', s' <> s -> strings st' !! s' = strings st !! s')
    /\ load_word ly (next_free hb) (mem st') = Some s
    /\ mem st' !! (next_free hb + OFF + nbytes) = Some (Byte 0)
    /\ (q_clear = true ->
        forall i, 0 <= i < nbytes ->
                  mem st' !! (next_free hb + OFF + i) = Some (Byte 0))
    /\ (forall a,
          ~ (next_free hb <= a < next_free hb + sdata_size ly nbytes) ->
          mem st' !! a = mem st !! a)
    /\ bytes_since_gc st' = bytes_since_gc st + sdata_size ly nbytes.
Proof.
  intros Hn Hsmall Hcur Hhb Hfit Hs.
  eexists. split.
  { apply (allocate_string_data_fits ly s nchars nbytes q_clear new st hb);
      [lia|done..]. }
  cbn [strings sblocks mem oldest_sblock current_sblock large_sblocks
       bytes_since_gc].
  destruct (allocated_cleared (next_free hb) s nbytes q_clear (mem st)
              ltac:(lia))
    as (A1 & A2 & A3 & A4).
  split_and!; try done.
  - apply lookup_insert_eq.
  - apply lookup_insert_eq.
  - intros b Hb. by apply lookup_insert_ne.
  - intros s' Hs'. by apply lookup_insert_ne.
Qed.

Lemma allocate_new_block_spec s nchars nbytes q_clear new st :
  0 <= nbytes <= STRING_BYTES_MAX ly ->
  nbytes <= LARGE_STRING_BYTES ->
  (current_sblock st <> 0 ->
   exists hc,
     sblocks st !! current_sblock st = Some hc
     /\ current_sblock st + SB < next_free hc + sdata_size ly nbytes) ->
  new <> 0 ->
  sblocks st !! new = None ->
  is_Some (strings st !! s) ->
  exists st',
    allocate_string_data ly s nchars nbytes q_clear false new st
    = Some (Returns st')
    /\ strings st' !! s
       = Some {| size := nchars; size_byte := nbytes;
                 data := new + BOFF + OFF |}
    /\ current_sblock st' = new
    /\ sblocks st' !! new
       = Some {| next := 0; next_free := new + BOFF + sdata_size ly nbytes |}
    /\ (current_sblock st = 0 -> oldest_sblock st' = new)
    /\ (current_sblock st <> 0 ->
        oldest_sblock st' = oldest_sblock st
        /\ exists hc,
             sblocks st !! current_sblock st = Some hc
             /\ sblocks st' !! current_sblock st
                = Some {| next := new; next_free := next_free hc |})
    /\ large_sblocks st' = large_sblocks st
    /\ (forall b, b <> new -> b <> current_sblock st ->
                  sblocks st' !! b = sblocks st !! b)
    /\ (forall s', s' <> s -> strings st' !! s' = strings st !! s')
    /\ load_word ly (new + BOFF) (mem st') = Some s
    /\ mem st' !! (new + BOFF + OFF + nbytes) = Some (Byte 0)
    /\ (q_clear = true ->
        forall i, 0 <= i < nbytes ->
                  mem st' !! (new + BOFF + OFF + i) = Some (Byte 0))
    /\ (forall a,
          ~ (new + BOFF <= a < new + BOFF + sdata_size ly nbytes) ->
          mem st' !! a = mem st !! a)
    /\ bytes_since_gc st' = bytes_since_gc st + sdata_size ly nbytes.
Proof.
  intros Hn Hsmall Hfull Hnew Hfresh Hs.
  eexists. split.
  { apply (allocate_string_data_new_block ly s nchars nbytes q_clear new st);
      [lia|done..]. }
  cbn [strings sblocks mem oldest_sblock current_sblock large_sblocks
       bytes_since_gc].
  destruct (allocated_cleared (new + BOFF) s nbytes q_clear (mem st)
              ltac:(lia))
    as (A1 & A2 & A3 & A4).
  split_and!; try done.
  - apply lookup_insert_eq.
  - apply lookup_insert_eq.
  - by intros ->.
  - intros Hcur. destruct (Hfull Hcur) as (hc & Hhc & _).
    replace (current_sblock st =? 0) with false by lia.
    split; [done|]. exists hc. split; [done|]. rewrite Hhc.
    rewrite lookup_insert_ne by congruence. apply lookup_insert_eq.
  - intros b Hb1 Hb2. rewrite lookup_insert_ne by done.
    destruct (current_sblock st =? 0); [done|].
    destruct (sblocks st !! current_sblock st); [|done].
    by apply lookup_insert_ne.
  - intros s' Hs'. by apply lookup_insert_ne.
Qed.

End layout.

Section layout.
Context (ly : layout).

Local Abbreviation W := (sizeof_pointer ly).
Local Abbreviation OFF := (SDATA_DATA_OFFSET ly).
Local Abbreviation BOFF := (offsetof_sblock_data ly).
Local Abbreviation SB := (SBLOCK_SIZE ly).

(** *** Building a layout *)

Lemma NoDup_nodupb l : NoDup l -> Conses.nodupb l = true.
Proof.
  induction 1 as [|x l Hx Hl IH]; [done|]. cbn. apply andb_true_iff.
  split; [|done]. apply forallb_forall. intros y Hy%list_elem_of_In.
  apply negb_true_iff, Z.eqb_neq. by intros <-.
Qed.

Lemma separated_intro bs :
  (forall (i j : nat) b1 b2,
     bs !! i = Some b1 -> bs !! j = Some b2 -> i <> j ->
     b1 + SB <= b2 \/ b2 + SB <= b1) ->
  separated ly bs = true.
Proof.
  induction bs as [|b bs IH]; [done|]. intros H. cbn [separated].
  apply andb_true_iff. split.
  - apply forallb_forall. intros b' Hb'%list_elem_of_In.
    apply list_elem_of_lookup_1 in Hb' as [j Hj].
    destruct (H O (S j) b b' eq_refl Hj ltac:(lia)); lia.
  - apply IH. intros i j b1 b2 Hi Hj Hij.
    apply (H (S i) (S j)); [done|done|lia].
Qed.

Lemma entries_end_app es1 :
  forall d es2,
    entries_end ly d (es1 ++ es2) = entries_end ly (entries_end ly d es1) es2.
Proof. induction es1 as [|e es1 IH]; intros d es2; cbn; [done|apply IH]. Qed.

Lemma entries_ok_app st es1 :
  forall d es2,
    entries_ok ly st d (es1 ++ es2)
    = entries_ok ly st d es1 && entries_ok ly st (entries_end ly d es1) es2.
Proof.
  induction es1 as [|e es1 IH]; intros d es2; cbn; [done|].
  by rewrite IH, andb_assoc.
Qed.

Lemma entry_ok_intro st d e :
  0 <= e_nbytes e <= LARGE_STRING_BYTES ->
  load_word ly d (mem st) = Some (e_string e) ->
  (e_string e = 0 ->
   load_word ly (d + offsetof_nbytes ly) (mem st) = Some (e_nbytes e)) ->
  (e_string e <> 0 ->
   exists str, strings st !! e_string e = Some str
               /\ data str = d + OFF /\ STRING_BYTES str = e_nbytes e) ->
  entry_ok ly st d e = true.
Proof.
  intros Hn Hl Hdead Hlive. unfold entry_ok. rewrite Hl, Z.eqb_refl.
  replace (0 <=? e_nbytes e) with true by lia.
  replace (e_nbytes e <=? LARGE_STRING_BYTES) with true by lia.
  cbn [andb]. destruct (Z.eqb_spec (e_string e) 0) as [E|E].
  - rewrite (Hdead E). apply Z.eqb_refl.
  - destruct (Hlive E) as (str & -> & -> & ->). by rewrite !Z.eqb_refl.
Qed.

Section frame.
Context (Hly : layout_sizes_ok ly = true).
Context (st st' : state).

(** An entry is as before when its bytes and its string are *)
Lemma entry_ok_frame d e :
  entry_ok ly st d e = true ->
  same_bytes (mem st') (mem st) d d (entry_size ly e) ->
  (e_string e <> 0 -> strings st' !! e_string e = strings st !! e_string e) ->
  entry_ok ly st' d e = true.
Proof.
  intros Hok Hm Hs.
  destruct (entry_ok_elim ly _ _ _ Hok) as (Hn & Hl & Hdead & Hlive).
  destruct (entry_size_facts ly Hly e ltac:(lia)) as (Hsz1 & Hsz2 & Hsz3).
  destruct (layout_sizes_facts ly Hly) as (HW & _ & _ & _ & _ & Hoffn & _).
  apply entry_ok_intro; [done| | |].
  - rewrite <- Hl. apply (same_bytes_load ly _ _ d (entry_size ly e));
      [done|lia|done].
  - intros E. rewrite <- (Hdead E).
    apply (same_bytes_load_at ly _ _ d (entry_size ly e)); [done|lia|lia|done].
  - intros E. rewrite (Hs E). by apply Hlive.
Qed.

Lemma entries_ok_frame es :
  forall (bi : nat) b d,
    entries_ok ly st d es = true ->
    (forall x, x ∈ place_entries ly bi b d es ->
               same_bytes (mem st') (mem st) (p_addr x) (p_addr x)
                 (p_size ly x)
               /\ (p_string x <> 0 ->
                   strings st' !! p_string x = strings st !! p_string x)) ->
    entries_ok ly st' d es = true.
Proof.
  induction es as [|e es IH]; intros bi b d; [done|].
  cbn [entries_ok place_entries]. intros [He Hes]%andb_true_iff H.
  apply andb_true_iff. split.
  - destruct (H {| p_bi := bi; p_blk := b; p_addr := d; p_entry := e |})
      as [H1 H2]; [left|]. by apply entry_ok_frame.
  - apply (IH bi b); [done|]. intros x Hx. apply H. by right.
Qed.

End frame.

Lemma blocks_ok_intro st L :
  forall x,
    x = default 0 ((fst <$> L) !! O) ->
    (forall b, b ∈ fst <$> L -> 0 < b) ->
    (forall (i : nat) b es,
       L !! i = Some (b, es) ->
       exists hb,
         sblocks st !! b = Some hb
         /\ next hb = default 0 ((fst <$> L) !! S i)
         /\ next_free hb = entries_end ly (b + BOFF) es
         /\ next_free hb <= b + SB
         /\ entries_ok ly st (b + BOFF) es = true) ->
    blocks_ok ly st x L = true.
Proof.
  induction L as [|[b es] L IH]; intros x Hx Hpos Hh; cbn [blocks_ok].
  - subst x. done.
  - cbn in Hx. subst x. rewrite Z.eqb_refl.
    assert (0 < b) by (apply Hpos; left).
    replace (0 <? b) with true by lia. cbn [andb].
    destruct (Hh O b es eq_refl) as (hb & -> & A2 & A3 & A4 & A5).
    rewrite A3, Z.eqb_refl. rewrite A3 in A4.
    replace (entries_end ly (b + BOFF) es <=? b + SB) with true by lia.
    rewrite A5. cbn [andb]. apply IH.
    + done.
    + intros b' Hb'. apply Hpos. by right.
    + intros i b' es' Hi. apply (Hh (S i) b' es' Hi).
Qed.

End layout.

Section layout.
Context (ly : layout).

Local Abbreviation W := (sizeof_pointer ly).
Local Abbreviation OFF := (SDATA_DATA_OFFSET ly).
Local Abbreviation BOFF := (offsetof_sblock_data ly).
Local Abbreviation SB := (SBLOCK_SIZE ly).

(** *** The layout after a change of the state *)

Lemma place_blocks_intro L :
  forall (k i : nat) b es x,
    L !! i = Some (b, es) ->
    x ∈ place_entries ly (k + i) b (b + BOFF) es ->
    x ∈ place_blocks ly k L.
Proof.
  induction L as [|[b0 es0] L IH]; intros k i b es x; [done|].
  cbn [place_blocks]. destruct i as [|i]; cbn.
  - intros [= -> ->]. rewrite Nat.add_0_r. set_solver.
  - intros Hi Hx. apply elem_of_app. right. apply (IH (S k) i b es); [done|].
    by replace (S k + i)%nat with (k + S i)%nat by lia.
Qed.

Lemma place_entries_entry es :
  forall (bi : nat) b d x,
    x ∈ place_entries ly bi b d es -> p_entry x ∈ es.
Proof.
  induction es as [|e es IH]; intros bi b d x; cbn; [set_solver|].
  intros [->|Hx]%elem_of_cons; [left|right]. by eapply IH.
Qed.

Lemma entries_ok_fmap st' (f : entry -> entry) :
  (forall e, e_nbytes (f e) = e_nbytes e) ->
  forall es (bi : nat) b d,
    (forall x, x ∈ place_entries ly bi b d es ->
               entry_ok ly st' (p_addr x) (f (p_entry x)) = true) ->
    entries_ok ly st' d (f <$> es) = true.
Proof.
  intros Hf. induction es as [|e es IH]; intros bi b d H; [done|].
  cbn [fmap list_fmap entries_ok]. apply andb_true_iff. split.
  - apply (H {| p_bi := bi; p_blk := b; p_addr := d; p_entry := e |}). left.
  - fold (fmap f es). replace (entry_size ly (f e)) with (entry_size ly e)
      by (unfold entry_size; by rewrite Hf).
    apply (IH bi b). intros x Hx. apply H. cbn [place_entries]. by right.
Qed.

Lemma live_strings_snoc L L' e :
  concat (snd <$> L') = concat (snd <$> L) ++ [e] ->
  e_string e <> 0 ->
  live_strings L' = live_strings L ++ [e_string e].
Proof.
  intros HL He. unfold live_strings. rewrite HL, fmap_app, List.filter_app.
  cbn. by replace (negb (e_string e =? 0)) with true
    by (symmetry; apply negb_true_iff; lia).
Qed.

(** The entries whose bytes and string are as before are in order *)
Lemma old_entries_kept st st' L s :
  layout_ok ly st L = true ->
  (forall x, x ∈ place_blocks ly O L -> p_string x <> s ->
             same_bytes (mem st') (mem st) (p_addr x) (p_addr x)
               (p_size ly x)) ->
  (forall s', s' <> s -> strings st' !! s' = strings st !! s') ->
  forall x,
    x ∈ place_blocks ly O L -> p_string x <> s ->
    entry_ok ly st' (p_addr x) (p_entry x) = true.
Proof.
  intros Hok Hm Hs x Hx Hne.
  pose proof (layout_ok_laid_out ly st L Hok) as Hlo.
  destruct (lo_placed ly _ _ Hlo x Hx) as (_ & _ & _ & Hxok).
  apply (entry_ok_frame ly (lo_sizes ly _ _ Hlo) st st'); [done| |].
  - by apply Hm.
  - intros _. by apply Hs.
Qed.

(** The entries of a block are in order after a write past them *)
Lemma block_entries_kept st st' L s lo hi :
  layout_ok ly st L = true ->
  (forall a, ~ (lo <= a < hi) -> mem st' !! a = mem st !! a) ->
  (forall s', s' <> s -> strings st' !! s' = strings st !! s') ->
  s ∉ live_strings L ->
  forall (i : nat) b es,
    L !! i = Some (b, es) ->
    entries_end ly (b + BOFF) es <= lo \/ hi <= b \/ b + SB <= lo ->
    entries_ok ly st' (b + BOFF) es = true.
Proof.
  intros Hok Hm Hs Hns i b es Hi Hreg.
  pose proof (layout_ok_laid_out ly st L Hok) as Hlo.
  pose proof (lo_sizes ly _ _ Hlo) as Hly.
  destruct (layout_sizes_facts ly Hly) as (_ & _ & _ & _ & _ & _ & Hboff & _).
  assert (Hb : blocks_ok ly st (oldest_sblock st) L = true).
  { unfold layout_ok in Hok. rewrite !andb_true_iff in Hok. tauto. }
  destruct (blocks_ok_elim ly st L _ Hb) as (_ & _ & Hh).
  destruct (Hh i b es Hi) as (hb & _ & _ & Hnf & Hle & Hes).
  destruct (place_entries_elim ly st Hly es i b _ Hes) as (_ & Hp).
  apply (entries_ok_frame ly Hly st st' es i b); [done|].
  intros x Hx. destruct (Hp x Hx) as (_ & _ & B3 & B4 & _). split.
  - intros j Hj. apply Hm. lia.
  - intros Hnz. apply Hs. intros <-. apply Hns.
    apply (live_strings_intro ly); [|done].
    by apply (place_blocks_intro L O i b es).
Qed.

Lemma layout_ok_elim st L :
  layout_ok ly st L = true ->
  layout_sizes_ok ly = true
  /\ blocks_ok ly st (oldest_sblock st) L = true
  /\ separated ly (fst <$> L) = true
  /\ NoDup (live_strings L).
Proof.
  unfold layout_ok. rewrite !andb_true_iff. intros [[[H1 H2] H3] H4].
  split_and!; try done. by apply nodupb_NoDup.
Qed.

Lemma layout_ok_intro st L :
  layout_sizes_ok ly = true ->
  blocks_ok ly st (oldest_sblock st) L = true ->
  separated ly (fst <$> L) = true ->
  NoDup (live_strings L) ->
  layout_ok ly st L = true.
Proof.
  intros H1 H2 H3 H4. unfold layout_ok. rewrite H1, H2, H3.
  by rewrite (NoDup_nodupb _ H4).
Qed.

Lemma live_strings_snoc_NoDup L L' e :
  concat (snd <$> L') = concat (snd <$> L) ++ [e] ->
  e_string e <> 0 -> e_string e ∉ live_strings L ->
  NoDup (live_strings L) -> NoDup (live_strings L').
Proof.
  intros HL He Hn Hnd. rewrite (live_strings_snoc L L' e HL He).
  apply NoDup_app. split; [done|]. split; [|apply NoDup_singleton].
  intros x Hx ->%list_elem_of_singleton. done.
Qed.

(** The new entry *)
Lemma new_entry_ok st' d s nchars nbytes :
  0 <= nbytes <= LARGE_STRING_BYTES -> s <> 0 ->
  load_word ly d (mem st') = Some s ->
  strings st' !! s
  = Some {| size := nchars; size_byte := nbytes; data := d + OFF |} ->
  entry_ok ly st' d {| e_string := s; e_nbytes := nbytes |} = true.
Proof.
  intros Hn Hs Hl Hstr. apply entry_ok_intro; cbn [e_string e_nbytes];
    [done|done|done|].
  intros _. eexists. split; [done|]. split; [done|].
  unfold STRING_BYTES. cbn. by replace (nbytes <? 0) with false by lia.
Qed.

End layout.

Section layout.
Context (ly : layout).

Local Abbreviation W := (sizeof_pointer ly).
Local Abbreviation OFF := (SDATA_DATA_OFFSET ly).
Local Abbreviation BOFF := (offsetof_sblock_data ly).
Local Abbreviation SB := (SBLOCK_SIZE ly).

(** *** [allocate_string_data] and the layout *)

Lemma last_block_snoc Lp b es : last_block (Lp ++ [(b, es)]) = b.
Proof.
  induction Lp as [|[b0 es0] Lp IH]; [done|]. cbn [app last_block].
  destruct (Lp ++ [(b, es)]) eqn:E; [destruct Lp; discriminate|]. exact IH.
Qed.

Lemma add_entry_snoc b e Lp b0 es :
  add_entry b e (Lp ++ [(b0, es)])
  = if b0 =? b then Lp ++ [(b0, es ++ [e])] else Lp ++ [(b0, es); (b, [e])].
Proof.
  induction Lp as [|[b1 es1] Lp IH]; [cbn; by destruct (b0 =? b)|].
  cbn [app add_entry].
  destruct (Lp ++ [(b0, es)]) eqn:E; [destruct Lp; discriminate|]. rewrite IH.
  by destruct (b0 =? b).
Qed.

(** The string goes to the end of the last block *)
Lemma layout_after_fit st Lp b es s nchars nbytes q_clear new :
  layout_ok ly st (Lp ++ [(b, es)]) = true ->
  current_sblock st = b ->
  entries_end ly (b + BOFF) es + sdata_size ly nbytes <= b + SB ->
  s <> 0 -> s ∉ live_strings (Lp ++ [(b, es)]) ->
  is_Some (strings st !! s) ->
  0 <= nbytes <= LARGE_STRING_BYTES -> nbytes <= STRING_BYTES_MAX ly ->
  exists st',
    allocate_string_data ly s nchars nbytes q_clear false new st
    = Some (Returns st')
    /\ current_sblock st' = b
    /\ layout_ok ly st'
         (Lp ++ [(b, es ++ [{| e_string := s; e_nbytes := nbytes |}])])
       = true.
Proof.
  intros Hok Hcur Hfit Hs Hns Hstr Hn Hmax.
  set (L := Lp ++ [(b, es)]) in *.
  set (e := {| e_string := s; e_nbytes := nbytes |}).
  set (L' := Lp ++ [(b, es ++ [e])]).
  pose proof (layout_ok_laid_out ly st L Hok) as Hlo.
  destruct (layout_ok_elim ly st L Hok) as (Hly & Hb & Hsep & Hnd).
  destruct (layout_sizes_facts ly Hly) as (_ & _ & _ & _ & _ & _ & Hboff & HSB).
  destruct (blocks_ok_elim ly st L _ Hb) as (Hold & Hpos & Hh).
  assert (HLn : L !! length Lp = Some (b, es)) by (by apply list_lookup_middle).
  destruct (Hh _ b es HLn) as (hb & Hhb & Hnext & Hnf & Hle & Hes).
  destruct (place_entries_elim ly st Hly es O b _ Hes) as (Hge & _).
  assert (Hbpos : 0 < b).
  { apply Hpos. apply list_elem_of_fmap. exists (b, es). split; [done|].
    by eapply list_elem_of_lookup_2. }
  destruct (allocate_fits_spec ly Hly s nchars nbytes q_clear new st hb)
    as (st' & E & A1 & A2 & A3 & A4 & A5 & A6 & A7 & A8 & A9 & A10 & A11 & A12);
    [lia|lia|lia|by rewrite Hcur|rewrite Hcur; lia|done|].
  rewrite Hcur in *.
  exists st'. split; [done|]. split; [done|].
  assert (Hfst : fst <$> L' = fst <$> L).
  { unfold L', L. by rewrite !fmap_app. }
  assert (Hcat : concat (snd <$> L') = concat (snd <$> L) ++ [e]).
  { unfold L', L. rewrite !fmap_app, !concat_app. cbn.
    by rewrite !app_nil_r, app_assoc. }
  apply layout_ok_intro; [done| |by rewrite Hfst|].
  2:{ by apply (live_strings_snoc_NoDup L L' e). }
  apply blocks_ok_intro.
  - by rewrite A4, Hfst.
  - by rewrite Hfst.
  - intros i b' es' Hi. rewrite Hfst.
    destruct (decide (i = length Lp)) as [->|Hne].
    + unfold L' in Hi. rewrite list_lookup_middle in Hi by done.
      injection Hi as <- <-. eexists. split; [exact A2|].
      cbn [next next_free]. split; [done|].
      rewrite entries_end_app. cbn [entries_end]. unfold entry_size.
      cbn [e_nbytes e]. unfold GC_STRING_EXTRA. rewrite Z.add_0_r, <- Hnf.
      split; [done|]. split; [lia|].
      rewrite entries_ok_app. apply andb_true_iff. split.
      * apply (block_entries_kept ly st st' L s (next_free hb)
                 (next_free hb + sdata_size ly nbytes) Hok A11 A7 Hns _ b es
                 HLn). lia.
      * cbn [entries_ok]. rewrite andb_true_r. rewrite <- Hnf.
        by apply (new_entry_ok ly st' (next_free hb) s nchars nbytes).
    + assert (Hlt : (i < length Lp)%nat).
      { apply lookup_lt_Some in Hi. unfold L' in Hi. rewrite length_app in Hi.
        cbn in Hi. lia. }
      assert (HLi : L !! i = Some (b', es')).
      { unfold L', L in *. rewrite lookup_app_l in Hi |- * by done. done. }
      destruct (Hh i b' es' HLi) as (hb' & B1 & B2 & B3 & B4 & B5).
      assert (Hbi : (fst <$> L) !! i = Some b')
        by (by rewrite list_lookup_fmap, HLi).
      assert (Hbn : (fst <$> L) !! length Lp = Some b)
        by (by rewrite list_lookup_fmap, HLn).
      destruct (lo_sep ly _ _ Hlo i (length Lp) b' b Hbi Hbn Hne) as [Hd|Hd].
      * exists hb'. rewrite A6 by lia. split_and!; try done.
        apply (block_entries_kept ly st st' L s (next_free hb)
                 (next_free hb + sdata_size ly nbytes) Hok A11 A7 Hns i b' es'
                 HLi). lia.
      * exists hb'. rewrite A6 by lia. split_and!; try done.
        apply (block_entries_kept ly st st' L s (next_free hb)
                 (next_free hb + sdata_size ly nbytes) Hok A11 A7 Hns i b' es'
                 HLi). lia.
Qed.

(** The blocks with a new one *)
Lemma separated_snoc bs new :
  separated ly bs = true ->
  (forall b, b ∈ bs -> b + SB <= new \/ new + SB <= b) ->
  separated ly (bs ++ [new]) = true.
Proof.
  intros Hsep Hnew. apply separated_intro. intros i j b1 b2 Hi Hj Hij.
  apply lookup_app_Some in Hi as [Hi|[Hi1 Hi2]];
    apply lookup_app_Some in Hj as [Hj|[Hj1 Hj2]].
  - by apply (separated_elim ly bs Hsep i j).
  - apply list_lookup_singleton_Some in Hj2 as [_ <-].
    apply Hnew. by eapply list_elem_of_lookup_2.
  - apply list_lookup_singleton_Some in Hi2 as [_ <-].
    destruct (Hnew b2); [by eapply list_elem_of_lookup_2|lia|lia].
  - apply list_lookup_singleton_Some in Hi2 as [Hi2 _].
    apply list_lookup_singleton_Some in Hj2 as [Hj2 _]. lia.
Qed.

(** The string goes to a new last block *)
Lemma layout_after_new_block st L s nchars nbytes q_clear new :
  layout_ok ly st L = true ->
  current_sblock st = last_block L ->
  (forall Lp b es,
     L = Lp ++ [(b, es)] ->
     b + SB < entries_end ly (b + BOFF) es + sdata_size ly nbytes) ->
  s <> 0 -> s ∉ live_strings L ->
  is_Some (strings st !! s) ->
  0 <= nbytes <= LARGE_STRING_BYTES -> nbytes <= STRING_BYTES_MAX ly ->
  BOFF + sdata_size ly nbytes <= SB ->
  0 < new -> sblocks st !! new = None ->
  (forall b, b ∈ fst <$> L -> b + SB <= new \/ new + SB <= b) ->
  exists st',
    allocate_string_data ly s nchars nbytes q_clear false new st
    = Some (Returns st')
    /\ current_sblock st' = new
    /\ layout_ok ly st'
         (L ++ [(new, [{| e_string := s; e_nbytes := nbytes |}])])
       = true.
Proof.
  intros Hok Hcur Hfull Hs Hns Hstr Hn Hmax Hroom Hnew Hfresh Hnsep.
  set (e := {| e_string := s; e_nbytes := nbytes |}).
  set (L' := L ++ [(new, [e])]).
  pose proof (layout_ok_laid_out ly st L Hok) as Hlo.
  destruct (layout_ok_elim ly st L Hok) as (Hly & Hb & Hsep & Hnd).
  destruct (layout_sizes_facts ly Hly) as (_ & _ & _ & _ & _ & _ & Hboff & HSB).
  destruct (blocks_ok_elim ly st L _ Hb) as (Hold & Hpos & Hh).
  assert (Hlast : forall Lp b es,
            L = Lp ++ [(b, es)] ->
            current_sblock st = b /\ 0 < b
            /\ L !! length Lp = Some (b, es)
            /\ exists hc, sblocks st !! b = Some hc /\ next hc = 0
                 /\ next_free hc = entries_end ly (b + BOFF) es).
  { intros Lp b es HL.
    assert (HLn : L !! length Lp = Some (b, es))
      by (rewrite HL; by apply list_lookup_middle).
    destruct (Hh _ b es HLn) as (hb & Hhb & Hnext & Hnf & _).
    split; [by rewrite Hcur, HL, last_block_snoc|]. split.
    - apply Hpos. apply list_elem_of_fmap. exists (b, es). split; [done|].
      by eapply list_elem_of_lookup_2.
    - split; [done|]. exists hb. split; [done|]. split; [|done].
      rewrite Hnext, lookup_ge_None_2; [done|].
      rewrite length_fmap, HL, length_app. cbn. lia. }
  destruct (allocate_new_block_spec ly Hly s nchars nbytes q_clear new st)
    as (st' & E & A1 & A2 & A3 & A4 & A5 & A6 & A7 & A8 & A9 & A10 & A11
        & A12 & A13); [lia|lia| |lia|done|done|].
  { intros Hc. destruct L as [|p L0 _] using rev_ind; [by rewrite Hcur in Hc|].
    destruct p as [b es].
    destruct (Hlast L0 b es eq_refl) as (Ec & _ & _ & hc & Hhc & _ & Hnf).
    exists hc. rewrite Ec. split; [done|]. rewrite Hnf.
    by apply (Hfull L0 b es). }
  exists st'. split; [done|]. split; [done|].
  assert (Hfst : fst <$> L' = (fst <$> L) ++ [new]).
  { unfold L'. by rewrite fmap_app. }
  assert (Hcat : concat (snd <$> L') = concat (snd <$> L) ++ [e]).
  { unfold L'. rewrite fmap_app, concat_app. cbn. by rewrite ?app_nil_r. }
  assert (Hnotin : new ∉ fst <$> L).
  { intros Hin. destruct (Hnsep new Hin); lia. }
  apply layout_ok_intro; [done| | |].
  2:{ rewrite Hfst. by apply separated_snoc. }
  2:{ by apply (live_strings_snoc_NoDup L L' e). }
  apply blocks_ok_intro.
  - rewrite Hfst. destruct L as [|p L0 _] using rev_ind.
    + cbn. apply A4. by rewrite Hcur.
    + destruct p as [b es].
      destruct (Hlast L0 b es eq_refl) as (Ec & Hbpos & _).
      destruct (A5 ltac:(lia)) as [-> _]. rewrite Hold.
      rewrite lookup_app_l; [done|].
      rewrite length_fmap, length_app. cbn. lia.
  - rewrite Hfst. intros b [Hb' | ->%list_elem_of_singleton]%elem_of_app;
      [by apply Hpos|done].
  - intros i b' es' Hi. rewrite Hfst. unfold L' in Hi.
    apply lookup_app_Some in Hi as [Hi|[Hi1 Hi2]].
    + destruct (Hh i b' es' Hi) as (hb' & B1 & B2 & B3 & B4 & B5).
      assert (Hin : b' ∈ fst <$> L).
      { apply list_elem_of_fmap. exists (b', es'). split; [done|].
        by eapply list_elem_of_lookup_2. }
      assert (Hne : b' <> new) by (by intros ->).
      assert (Hent : entries_ok ly st' (b' + BOFF) es' = true).
      { apply (block_entries_kept ly st st' L s (new + BOFF)
                 (new + BOFF + sdata_size ly nbytes) Hok A12 A8 Hns i b' es'
                 Hi). destruct (Hnsep b' Hin); lia. }
      apply lookup_lt_Some in Hi as Hlt.
      destruct (decide (S i = length L)) as [Hlasti|Hmid].
      * destruct L as [|p L0 _] using rev_ind; [done|]. destruct p as [b es].
        rewrite length_app in Hlasti. cbn in Hlasti.
        assert (i = length L0) as -> by lia.
        destruct (Hlast L0 b es eq_refl) as (Ec & Hbpos & HLn & _).
        rewrite HLn in Hi. injection Hi as <- <-.
        destruct (A5 ltac:(lia)) as (_ & hc & Hhc & Hhc').
        rewrite Ec in Hhc, Hhc'. rewrite B1 in Hhc. injection Hhc as <-.
        eexists. split; [exact Hhc'|]. cbn [next next_free].
        split_and!; try done.
        rewrite lookup_app_r by (rewrite length_fmap, length_app; cbn; lia).
        rewrite length_fmap, length_app. cbn.
        by replace (S (length L0) - (length L0 + 1))%nat with O by lia.
      * exists hb'. split_and!; try done.
        -- rewrite A7; [done|done|].
           destruct L as [|p L0 _] using rev_ind; [done|].
           destruct p as [b es].
           destruct (Hlast L0 b es eq_refl) as (Ec & Hbpos & HLn & _).
           rewrite Ec. intros ->.
           assert (Hbi : (fst <$> L0 ++ [(b, es)]) !! i = Some b)
             by (by rewrite list_lookup_fmap, Hi).
           assert (Hbn : (fst <$> L0 ++ [(b, es)]) !! length L0 = Some b)
             by (by rewrite list_lookup_fmap, HLn).
           pose proof (NoDup_lookup _ _ _ _ (lo_nodup ly _ _ Hlo) Hbi Hbn).
           rewrite length_app in Hmid. cbn in Hmid. lia.
        -- rewrite B2. rewrite lookup_app_l; [done|].
           rewrite length_fmap. lia.
    + apply list_lookup_singleton_Some in Hi2 as [Hi2 [= <- <-]].
      assert (i = length L) as -> by lia.
      eexists. split; [exact A3|]. cbn [next next_free entries_end].
      unfold entry_size. cbn [e_nbytes e]. unfold GC_STRING_EXTRA.
      rewrite Z.add_0_r. split_and!; try done; try lia.
      * rewrite lookup_ge_None_2; [done|].
        rewrite length_app, length_fmap. cbn. lia.
      * cbn [entries_ok]. rewrite andb_true_r.
        by apply (new_entry_ok ly st' (new + BOFF) s nchars nbytes).
Qed.

End layout.

Section layout.
Context (ly : layout).

Local Abbreviation W := (sizeof_pointer ly).
Local Abbreviation OFF := (SDATA_DATA_OFFSET ly).
Local Abbreviation BOFF := (offsetof_sblock_data ly).
Local Abbreviation SB := (SBLOCK_SIZE ly).

(** *** [pin_string] and the layout *)

(** The memory after [pin_string] has moved a string from the [sdata]
    at [dold] to the one at [d] *)
Lemma pinned_memory d s n dold szold (m0 : memory) :
  layout_sizes_ok ly = true ->
  0 <= n ->
  offsetof_nbytes ly + W <= szold -> OFF + n + 1 <= szold ->
  dold + szold <= d \/ d + sdata_size ly n <= dold ->
  let m :=
    store_word ly (dold + offsetof_nbytes ly) n
      (store_word ly dold 0
         (memmove (d + OFF) (dold + OFF) n
            (<[d + OFF + n := Byte 0]> (store_word ly d s m0)))) in
  load_word ly d m = Some s
  /\ (forall i, 0 <= i < n -> m !! (d + OFF + i) = m0 !! (dold + OFF + i))
  /\ m !! (d + OFF + n) = Some (Byte 0)
  /\ load_word ly dold m = Some 0
  /\ load_word ly (dold + offsetof_nbytes ly) m = Some n
  /\ (forall a,
        ~ (d <= a < d + sdata_size ly n) ->
        ~ (dold <= a < dold + offsetof_nbytes ly + W) ->
        m !! a = m0 !! a).
Proof.
  intros Hly Hn Hs1 Hs2 Hdis m.
  destruct (layout_sizes_facts ly Hly) as (HW & _ & _ & HOFF & _ & Hoffn & _).
  destruct (sdata_size_bounds ly Hly n) as (Hsz & _).
  destruct (allocated_memory ly Hly d s n m0 Hn) as (A1 & A2 & A3 & A4).
  set (m1 := <[d + OFF + n := Byte 0]> (store_word ly d s m0)) in *.
  assert (Hm : forall a,
            m !! a
            = if (dold + offsetof_nbytes ly <=? a)
                 && (a <? dold + offsetof_nbytes ly + W)
              then Some (Frag n (a - (dold + offsetof_nbytes ly)))
              else if (dold <=? a) && (a <? dold + W)
                   then Some (Frag 0 (a - dold))
                   else if (d + OFF <=? a) && (a <? d + OFF + n)
                        then m1 !! (dold + OFF + (a - (d + OFF)))
                        else m1 !! a).
  { intros a. subst m.
    by rewrite !store_word_lookup, memmove_lookup. }
  split_and!.
  - apply load_word_spec; [done|]. intros i Hi. rewrite Hm.
    replace ((dold + offsetof_nbytes ly <=? d + i)
             && (d + i <? dold + offsetof_nbytes ly + W)) with false by lia.
    replace ((dold <=? d + i) && (d + i <? dold + W)) with false by lia.
    replace ((d + OFF <=? d + i) && (d + i <? d + OFF + n)) with false by lia.
    by apply (load_word_spec ly d m1 s HW).
  - intros i Hi. rewrite Hm.
    replace ((dold + offsetof_nbytes ly <=? d + OFF + i)
             && (d + OFF + i <? dold + offsetof_nbytes ly + W))
      with false by lia.
    replace ((dold <=? d + OFF + i) && (d + OFF + i <? dold + W))
      with false by lia.
    replace ((d + OFF <=? d + OFF + i) && (d + OFF + i <? d + OFF + n))
      with true by lia.
    replace (d + OFF + i - (d + OFF)) with i by lia.
    apply A4. lia.
  - rewrite Hm.
    replace ((dold + offsetof_nbytes ly <=? d + OFF + n)
             && (d + OFF + n <? dold + offsetof_nbytes ly + W))
      with false by lia.
    replace ((dold <=? d + OFF + n) && (d + OFF + n <? dold + W))
      with false by lia.
    by replace ((d + OFF <=? d + OFF + n) && (d + OFF + n <? d + OFF + n))
      with false by lia.
  - apply load_word_spec; [done|]. intros i Hi. rewrite Hm.
    replace ((dold + offsetof_nbytes ly <=? dold + i)
             && (dold + i <? dold + offsetof_nbytes ly + W))
      with false by lia.
    replace ((dold <=? dold + i) && (dold + i <? dold + W)) with true by lia.
    do 2 f_equal. lia.
  - apply load_word_spec; [done|]. intros i Hi. rewrite Hm.
    replace ((dold + offsetof_nbytes ly <=? dold + offsetof_nbytes ly + i)
             && (dold + offsetof_nbytes ly + i
                 <? dold + offsetof_nbytes ly + W))
      with true by lia.
    do 2 f_equal. lia.
  - intros a Ha1 Ha2. rewrite Hm.
    replace ((dold + offsetof_nbytes ly <=? a)
             && (a <? dold + offsetof_nbytes ly + W)) with false by lia.
    replace ((dold <=? a) && (a <? dold + W)) with false by lia.
    replace ((d + OFF <=? a) && (a <? d + OFF + n)) with false by lia.
    by apply A4.
Qed.

(** The layout without the entry of a string *)
Lemma kill_entry_fst s L : fst <$> kill_entry s L = fst <$> L.
Proof.
  unfold kill_entry. rewrite <- list_fmap_compose.
  by apply list_fmap_ext.
Qed.

Lemma kill_entry_lookup s L (i : nat) b es1 :
  kill_entry s L !! i = Some (b, es1) ->
  exists es,
    L !! i = Some (b, es)
    /\ es1
       = (fun e => if e_string e =? s
                   then {| e_string := 0; e_nbytes := e_nbytes e |} else e)
           <$> es.
Proof.
  unfold kill_entry. rewrite list_lookup_fmap.
  destruct (L !! i) as [[b0 es]|]; [|done]. cbn. intros [= <- <-]. eauto.
Qed.

Lemma kill_entry_entries s L :
  concat (snd <$> kill_entry s L)
  = (fun e => if e_string e =? s
              then {| e_string := 0; e_nbytes := e_nbytes e |} else e)
      <$> concat (snd <$> L).
Proof.
  unfold kill_entry. induction L as [|[b es] L IH]; [done|].
  cbn. rewrite fmap_app. by f_equal.
Qed.

Lemma entries_end_kill s es :
  forall d,
    entries_end ly d
      ((fun e => if e_string e =? s
                 then {| e_string := 0; e_nbytes := e_nbytes e |} else e)
         <$> es)
    = entries_end ly d es.
Proof.
  induction es as [|e es IH]; intros d; [done|]. cbn. rewrite IH.
  do 2 f_equal. unfold entry_size. by destruct (e_string e =? s).
Qed.

Lemma live_strings_kill s L :
  s <> 0 ->
  live_strings (kill_entry s L)
  = List.filter (fun x => negb (x =? s)) (live_strings L).
Proof.
  intros Hs. unfold live_strings. rewrite kill_entry_entries.
  induction (concat (snd <$> L)) as [|e l IH]; [done|]. cbn.
  destruct (Z.eqb_spec (e_string e) s) as [E|E]; cbn [e_string].
  - cbn. rewrite IH. rewrite E. replace (negb (s =? 0)) with true
      by (symmetry; apply negb_true_iff; lia).
    cbn. by rewrite Z.eqb_refl.
  - destruct (Z.eqb_spec (e_string e) 0) as [E0|E0]; cbn; [done|].
    replace (e_string e =? s) with false by lia. cbn. by rewrite IH.
Qed.

Lemma live_strings_kill_NoDup s L :
  s <> 0 -> NoDup (live_strings L) ->
  NoDup (live_strings (kill_entry s L)) /\ s ∉ live_strings (kill_entry s L).
Proof.
  intros Hs Hnd. rewrite live_strings_kill by done. split.
  - apply NoDup_ListNoDup, List.NoDup_filter, NoDup_ListNoDup. done.
  - intros [_ H]%list_elem_of_In%filter_In. by rewrite Z.eqb_refl in H.
Qed.

Section entries.
Context (st : state) (L : list (Z * list entry)).
Context (Hlo : laid_out ly st L).

(** Two entries do not overlap *)
Lemma entries_disjoint x y :
  x ∈ place_blocks ly O L -> y ∈ place_blocks ly O L -> x <> y ->
  p_addr x + p_size ly x <= p_addr y \/ p_addr y + p_size ly y <= p_addr x.
Proof.
  assert (Hord : forall A x B y,
            place_blocks ly O L = A ++ x :: B -> y ∈ B ->
            p_addr x + p_size ly x <= p_addr y
            \/ p_addr y + p_size ly y <= p_addr x).
  { intros A x0 B y0 HP Hy.
    destruct (lo_sorted ly _ _ Hlo A x0 B HP y0 Hy) as [Hle Hadd].
    assert (Hx0 : x0 ∈ place_blocks ly O L) by (rewrite HP; set_solver).
    assert (Hy0 : y0 ∈ place_blocks ly O L) by (rewrite HP; set_solver).
    destruct (lo_placed ly _ _ Hlo x0 Hx0) as (X1 & X2 & X3 & _).
    destruct (lo_placed ly _ _ Hlo y0 Hy0) as (Y1 & Y2 & Y3 & _).
    destruct (layout_sizes_facts ly (lo_sizes ly _ _ Hlo))
      as (_ & _ & _ & _ & _ & _ & Hboff & _).
    destruct (decide (p_bi x0 = p_bi y0)) as [E|E]; [left; by apply Hadd|].
    destruct (lo_sep ly _ _ Hlo _ _ _ _ X1 Y1 E); lia. }
  intros Hx Hy Hne.
  apply list_elem_of_split in Hx as (A & B & HP).
  rewrite HP in Hy. apply elem_of_app in Hy as [Hy|Hy].
  - apply list_elem_of_split in Hy as (A1 & A2 & ->).
    rewrite <- app_assoc in HP. cbn in HP.
    destruct (Hord A1 y (A2 ++ x :: B) x HP); [set_solver|lia|lia].
  - apply elem_of_cons in Hy as [->|Hy]; [done|].
    by apply (Hord A x B y).
Qed.

End entries.

(** [pin_string] on a string of the small blocks *)
Lemma pin_string_spec (PURE_P : Z -> bool) st L s str new :
  layout_ok ly st L = true ->
  s ∈ live_strings L ->
  strings st !! s = Some str ->
  size_byte str <> -3 -> PURE_P (data str) = false ->
  STRING_BYTES str <= STRING_BYTES_MAX ly ->
  0 < new ->
  BOFF + sdata_size ly (STRING_BYTES str)
  <= FLEXSIZEOF_sblock ly (sdata_size ly (STRING_BYTES str)) ->
  (forall b, b ∈ fst <$> L ->
             b + SB <= new
             \/ new + FLEXSIZEOF_sblock ly (sdata_size ly (STRING_BYTES str))
                <= b) ->
  exists st1,
    pin_string ly PURE_P s new st = Some (Returns st1)
    /\ strings st1 !! s
       = Some {| size := STRING_BYTES str; size_byte := -3;
                 data := new + BOFF + OFF |}
    /\ large_sblocks st1 = new
    /\ (forall i, 0 <= i < STRING_BYTES str ->
                  mem st1 !! (new + BOFF + OFF + i) = mem st !! (data str + i))
    /\ mem st1 !! (new + BOFF + OFF + STRING_BYTES str) = Some (Byte 0)
    /\ layout_ok ly st1 (kill_entry s L) = true.
Proof.
  intros Hok Hs Hstr Hpin Hpure Hmax Hnew Hflex Hsep.
  pose proof (layout_ok_laid_out ly st L Hok) as Hlo.
  destruct (layout_ok_elim ly st L Hok) as (Hly & Hb & Hsepb & Hnd).
  destruct (layout_sizes_facts ly Hly)
    as (HW & _ & _ & HOFF & _ & Hoffn & Hboff & HSB).
  destruct (blocks_ok_elim ly st L _ Hb) as (Hold & Hpos & Hh).
  destruct (live_strings_elem ly L s Hs) as (Hnz & x & Hx & Hxs).
  destruct (lo_placed ly _ _ Hlo x Hx) as (Hbi & Hd1 & Hd2 & Hxok).
  destruct (entry_ok_elim ly _ _ _ Hxok) as (Hn & Hload & _ & Hlive).
  destruct Hlive as (str1 & Hstr1 & Hdata & Hbytes);
    [unfold p_string in Hxs; lia|].
  assert (str1 = str) as -> by (unfold p_string in Hxs; congruence).
  destruct (entry_size_facts ly Hly (p_entry x) ltac:(lia))
    as (Hsz1 & Hsz2 & Hsz3).
  fold (p_size ly x) in Hsz1, Hsz2, Hsz3.
  set (n := STRING_BYTES str) in *.
  destruct (sdata_size_bounds ly Hly n) as (Hsn & _).
  assert (Hxb : p_blk x ∈ fst <$> L) by (by eapply list_elem_of_lookup_2).
  destruct (pinned_memory (new + BOFF) s n (p_addr x) (p_size ly x) (mem st)
              Hly ltac:(lia) Hsz2 ltac:(lia))
    as (M1 & M2 & M3 & M4 & M5 & M6).
  { destruct (Hsep _ Hxb); lia. }
  eexists. split.
  { apply (pin_string_moves ly PURE_P s new st str); [done|lia|done|done|done|lia]. }
  cbn [strings sblocks mem oldest_sblock current_sblock large_sblocks].
  fold n. replace (data str - OFF) with (p_addr x) by lia. rewrite Hdata.
  split; [apply lookup_insert_eq|]. split; [done|].
  split; [exact M2|]. split; [exact M3|].
  assert (Hnotin : new ∉ fst <$> L).
  { intros Hin. destruct (Hsep new Hin); lia. }
  apply layout_ok_intro; [done| |by rewrite kill_entry_fst|].
  2:{ by apply live_strings_kill_NoDup. }
  cbn [oldest_sblock]. apply blocks_ok_intro.
  - by rewrite kill_entry_fst.
  - by rewrite kill_entry_fst.
  - intros i b' es1 Hi. rewrite kill_entry_fst.
    destruct (kill_entry_lookup s L i b' es1 Hi) as (es & HLi & ->).
    destruct (Hh i b' es HLi) as (hb' & B1 & B2 & B3 & B4 & B5).
    assert (Hin : b' ∈ fst <$> L).
    { apply list_elem_of_fmap. exists (b', es). split; [done|].
      by eapply list_elem_of_lookup_2. }
    exists hb'. cbn [sblocks]. rewrite lookup_insert_ne by (by intros ->).
    rewrite entries_end_kill. split_and!; try done.
    apply (entries_ok_fmap ly _
             (fun e => if e_string e =? s
                       then {| e_string := 0; e_nbytes := e_nbytes e |}
                       else e)) with (bi := i) (b := b').
    { intros e. by destruct (e_string e =? s). }
    intros y Hy.
    assert (HyP : y ∈ place_blocks ly O L)
      by (by apply (place_blocks_intro ly L O i b' es)).
    destruct (lo_placed ly _ _ Hlo y HyP) as (Y1 & Y2 & Y3 & Yok).
    cbv beta.
    destruct (Z.eqb_spec (e_string (p_entry y)) s) as [Ey|Ey].
    + assert (y = x) as ->.
      { apply list_elem_of_split in Hx as (A & B & HP).
        rewrite HP in HyP.
        apply elem_of_app in HyP as [HyA|[->|HyB]%elem_of_cons]; [|done|].
        - exfalso. apply (lo_live ly _ _ Hlo A x B HP ltac:(lia) y).
          + set_solver.
          + unfold p_string in *. lia.
        - exfalso. apply (lo_live ly _ _ Hlo A x B HP ltac:(lia) y).
          + set_solver.
          + unfold p_string in *. lia. }
      apply entry_ok_intro; cbn [e_string e_nbytes]; [done|done| |done].
      intros _. rewrite <- Hbytes. exact M5.
    + apply (entry_ok_frame ly Hly st); [done| |].
      * intros j Hj. cbn [mem]. fold (p_size ly y) in Hj. apply M6.
        -- assert (Hyb : p_blk y ∈ fst <$> L)
             by (by eapply list_elem_of_lookup_2).
           destruct (Hsep _ Hyb); lia.
        -- destruct (entries_disjoint st L Hlo y x HyP Hx) as [Hd|Hd];
             [intros ->; unfold p_string in Hxs; lia|lia|lia].
      * intros _. cbn [strings]. by apply lookup_insert_ne.
Qed.

End layout.

Section layout.
Context (ly : layout).

Local Abbreviation W := (sizeof_pointer ly).
Local Abbreviation OFF := (SDATA_DATA_OFFSET ly).
Local Abbreviation BOFF := (offsetof_sblock_data ly).
Local Abbreviation SB := (SBLOCK_SIZE ly).

(** *** A block of its own beside the small blocks *)

(** The small blocks are in order after writes outside them *)
Lemma layout_ok_frame st st' L s lo hi :
  layout_ok ly st L = true ->
  s ∉ live_strings L ->
  (forall a, ~ (lo <= a < hi) -> mem st' !! a = mem st !! a) ->
  (forall s', s' <> s -> strings st' !! s' = strings st !! s') ->
  (forall b, b ∈ fst <$> L -> sblocks st' !! b = sblocks st !! b) ->
  oldest_sblock st' = oldest_sblock st ->
  (forall b, b ∈ fst <$> L -> b + SB <= lo \/ hi <= b) ->
  layout_ok ly st' L = true.
Proof.
  intros Hok Hns Hm Hs Hb Ho Hsep.
  destruct (layout_ok_elim ly st L Hok) as (Hly & Hbl & Hsepb & Hnd).
  destruct (blocks_ok_elim ly st L _ Hbl) as (Hold & Hpos & Hh).
  apply layout_ok_intro; [done| |done|done].
  apply blocks_ok_intro; [by rewrite Ho|done|].
  intros i b es Hi.
  destruct (Hh i b es Hi) as (hb & B1 & B2 & B3 & B4 & B5).
  assert (Hin : b ∈ fst <$> L).
  { apply list_elem_of_fmap. exists (b, es). split; [done|].
    by eapply list_elem_of_lookup_2. }
  exists hb. rewrite (Hb b Hin). split_and!; try done.
  apply (block_entries_kept ly st st' L s lo hi Hok Hm Hs Hns i b es Hi).
  destruct (Hsep b Hin); [right; by right|right; by left].
Qed.

Lemma layout_after_own st L s nchars nbytes q_clear immovable new :
  layout_ok ly st L = true ->
  s ∉ live_strings L ->
  0 <= nbytes <= STRING_BYTES_MAX ly ->
  (nbytes >? LARGE_STRING_BYTES) || immovable = true ->
  0 < new ->
  is_Some (strings st !! s) ->
  BOFF + sdata_size ly nbytes <= FLEXSIZEOF_sblock ly (sdata_size ly nbytes) ->
  (forall b, b ∈ fst <$> L ->
             b + SB <= new
             \/ new + FLEXSIZEOF_sblock ly (sdata_size ly nbytes) <= b) ->
  exists st',
    allocate_string_data ly s nchars nbytes q_clear immovable new st
    = Some (Returns st')
    /\ layout_ok ly st' L = true.
Proof.
  intros Hok Hns Hn Hlarge Hnew Hs Hflex Hsep.
  destruct (layout_ok_elim ly st L Hok) as (Hly & _).
  destruct (layout_sizes_facts ly Hly)
    as (HW & _ & _ & HOFF & _ & _ & Hboff & HSB).
  destruct (sdata_size_bounds ly Hly nbytes) as (Hsz & _).
  destruct (allocate_own_spec ly Hly s nchars nbytes q_clear immovable new st)
    as (st' & E & A1 & A2 & A3 & A4 & A5 & A6 & A7 & A8 & A9 & A10 & A11
        & A12); [done|done|lia|done|done|].
  exists st'. split; [done|].
  apply (layout_ok_frame st st' L s new
           (new + FLEXSIZEOF_sblock ly (sdata_size ly nbytes)));
    try done.
  intros b Hb. apply A6. intros ->. destruct (Hsep new Hb); lia.
Qed.

End layout.

Section layout.
Context (ly : layout).

Local Abbreviation W := (sizeof_pointer ly).
Local Abbreviation OFF := (SDATA_DATA_OFFSET ly).
Local Abbreviation BOFF := (offsetof_sblock_data ly).
Local Abbreviation SB := (SBLOCK_SIZE ly).

(** *** The properties of [allocate_string_data] and [pin_string] *)

Section sizes.
Context (Hly : layout_sizes_ok ly = true).

(** X26.  A string of more than [LARGE_STRING_BYTES] bytes, or one that
    must not move, gets a block of its own: the block that the allocator
    answers holds the [sdata] of the string alone and becomes the head of
    [large_sblocks]; the small blocks, their chain and the current block
    are as before, and so are the other strings and the memory outside
    the new block. *)
Theorem large_string_gets_own_block s nchars nbytes q_clear immovable new st :
  0 <= nbytes <= STRING_BYTES_MAX ly ->
  (nbytes >? LARGE_STRING_BYTES) || immovable = true ->
  new <> 0 ->
  is_Some (strings st !! s) ->
  BOFF + sdata_size ly nbytes <= FLEXSIZEOF_sblock ly (sdata_size ly nbytes) ->
  exists st',
    allocate_string_data ly s nchars nbytes q_clear immovable new st
    = Some (Returns st')
    /\ strings st' !! s
       = Some {| size := nchars; size_byte := nbytes;
                 data := new + BOFF + OFF |}
    /\ large_sblocks st' = new
    /\ sblocks st' !! new
       = Some {| next := large_sblocks st;
                 next_free := new + BOFF + sdata_size ly nbytes |}
    /\ current_sblock st' = current_sblock st
    /\ oldest_sblock st' = oldest_sblock st
    /\ (forall b, b <> new -> sblocks st' !! b = sblocks st !! b)
    /\ (forall s', s' <> s -> strings st' !! s' = strings st !! s')
    /\ load_word ly (new + BOFF) (mem st') = Some s
    /\ mem st' !! (new + BOFF + OFF + nbytes) = Some (Byte 0)
    /\ (q_clear = true ->
        forall i, 0 <= i < nbytes ->
                  mem st' !! (new + BOFF + OFF + i) = Some (Byte 0))
    /\ (forall a,
          ~ (new <= a
             < new + FLEXSIZEOF_sblock ly (sdata_size ly nbytes)) ->
          mem st' !! a = mem st !! a)
    /\ bytes_since_gc st' = bytes_since_gc st + sdata_size ly nbytes.
Proof. apply (allocate_own_spec ly Hly). Qed.

(** X27.  A small string that fits in the current block is put at its
    [next_free], which goes on by the size of the [sdata]; no block is
    allocated, the current block stays the current one, and nothing
    outside the new [sdata] is written. *)
Theorem small_string_packed s nchars nbytes q_clear new st hb :
  0 <= nbytes <= STRING_BYTES_MAX ly ->
  nbytes <= LARGE_STRING_BYTES ->
  current_sblock st <> 0 ->
  sblocks st !! current_sblock st = Some hb ->
  next_free hb + sdata_size ly nbytes <= current_sblock st + SB ->
  is_Some (strings st !! s) ->
  exists st',
    allocate_string_data ly s nchars nbytes q_clear false new st
    = Some (Returns st')
    /\ strings st' !! s
       = Some {| size := nchars; size_byte := nbytes;
                 data := next_free hb + OFF |}
    /\ sblocks st' !! current_sblock st
       = Some {| next := next hb;
                 next_free := next_free hb + sdata_size ly nbytes |}
    /\ current_sblock st' = current_sblock st
    /\ oldest_sblock st' = oldest_sblock st
    /\ large_sblocks st' = large_sblocks st
    /\ (forall b, b <> current_sblock st -> sblocks st' !! b = sblocks st !! b)
    /\ (forall s', s' <> s -> strings st' !! s' = strings st !! s')
    /\ load_word ly (next_free hb) (mem st') = Some s
    /\ mem st' !! (next_free hb + OFF + nbytes) = Some (Byte 0)
    /\ (q_clear = true ->
        forall i, 0 <= i < nbytes ->
                  mem st' !! (next_free hb + OFF + i) = Some (Byte 0))
    /\ (forall a,
          ~ (next_free hb <= a < next_free hb + sdata_size ly nbytes) ->
          mem st' !! a = mem st !! a)
    /\ bytes_since_gc st' = bytes_since_gc st + sdata_size ly nbytes.
Proof. apply (allocate_fits_spec ly Hly). Qed.

(** X28.  A small string that does not fit in the current block, or that
    comes when there is no current block, goes to the beginning of a new
    block; the new block becomes the current one and the last of the
    chain, after the block that was current, or the oldest one if there
    was none. *)
Theorem small_string_new_block s nchars nbytes q_clear new st :
  0 <= nbytes <= STRING_BYTES_MAX ly ->
  nbytes <= LARGE_STRING_BYTES ->
  (current_sblock st <> 0 ->
   exists hc,
     sblocks st !! current_sblock st = Some hc
     /\ current_sblock st + SB < next_free hc + sdata_size ly nbytes) ->
  new <> 0 ->
  sblocks st !! new = None ->
  is_Some (strings st !! s) ->
  exists st',
    allocate_string_data ly s nchars nbytes q_clear false new st
    = Some (Returns st')
    /\ strings st' !! s
       = Some {| size := nchars; size_byte := nbytes;
                 data := new + BOFF + OFF |}
    /\ current_sblock st' = new
    /\ sblocks st' !! new
       = Some {| next := 0; next_free := new + BOFF + sdata_size ly nbytes |}
    /\ (current_sblock st = 0 -> oldest_sblock st' = new)
    /\ (current_sblock st <> 0 ->
        oldest_sblock st' = oldest_sblock st
        /\ exists hc,
             sblocks st !! current_sblock st = Some hc
             /\ sblocks st' !! current_sblock st
                = Some {| next := new; next_free := next_free hc |})
    /\ large_sblocks st' = large_sblocks st
    /\ (forall b, b <> new -> b <> current_sblock st ->
                  sblocks st' !! b = sblocks st !! b)
    /\ (forall s', s' <> s -> strings st' !! s' = strings st !! s')
    /\ load_word ly (new + BOFF) (mem st') = Some s
    /\ mem st' !! (new + BOFF + OFF + nbytes) = Some (Byte 0)
    /\ (q_clear = true ->
        forall i, 0 <= i < nbytes ->
                  mem st' !! (new + BOFF + OFF + i) = Some (Byte 0))
    /\ (forall a,
          ~ (new + BOFF <= a < new + BOFF + sdata_size ly nbytes) ->
          mem st' !! a = mem st !! a)
    /\ bytes_since_gc st' = bytes_since_gc st + sdata_size ly nbytes.
Proof. apply (allocate_new_block_spec ly Hly). Qed.

End sizes.

(** X29.  [allocate_string_data] keeps the small blocks in order: when
    the chain of the small blocks is laid out as [L] says and ends at the
    current block, a small string that owns no [sdata] yet gets an entry
    at the end of the current block or in a new block after it, and the
    chain is laid out as [L] with that entry; each [sdata] that was there
    is as before. *)
Theorem allocation_keeps_layout st L s nchars nbytes q_clear new :
  layout_ok ly st L = true ->
  current_sblock st = last_block L ->
  s <> 0 -> s ∉ live_strings L ->
  is_Some (strings st !! s) ->
  0 <= nbytes <= LARGE_STRING_BYTES -> nbytes <= STRING_BYTES_MAX ly ->
  BOFF + sdata_size ly nbytes <= SB ->
  0 < new -> sblocks st !! new = None ->
  (forall b, b ∈ fst <$> L -> b + SB <= new \/ new + SB <= b) ->
  exists st',
    allocate_string_data ly s nchars nbytes q_clear false new st
    = Some (Returns st')
    /\ current_sblock st'
       = last_block
           (add_entry (current_sblock st')
              {| e_string := s; e_nbytes := nbytes |} L)
    /\ layout_ok ly st'
         (add_entry (current_sblock st')
            {| e_string := s; e_nbytes := nbytes |} L)
       = true.
Proof.
  intros Hok Hcur Hs Hns Hstr Hn Hmax Hroom Hnew Hfresh Hsep.
  destruct L as [|[b es] Lp _] using rev_ind.
  - destruct (layout_after_new_block ly st [] s nchars nbytes q_clear new)
      as (st' & E & Ec & Hok'); try done.
    { intros Lp b es HL. by destruct Lp. }
    exists st'. split; [done|]. rewrite Ec. cbn. done.
  - rewrite last_block_snoc in Hcur.
    destruct (Z_le_gt_dec (entries_end ly (b + BOFF) es + sdata_size ly nbytes)
                (b + SB)) as [Hfit|Hfull].
    + destruct (layout_after_fit ly st Lp b es s nchars nbytes q_clear new)
        as (st' & E & Ec & Hok'); try done.
      exists st'. split; [done|]. rewrite Ec, add_entry_snoc, Z.eqb_refl.
      by rewrite last_block_snoc.
    + destruct (layout_after_new_block ly st (Lp ++ [(b, es)]) s nchars nbytes
                  q_clear new)
        as (st' & E & Ec & Hok'); try done.
      { by rewrite last_block_snoc. }
      { intros Lp' b' es' [_ [= <- <-]]%app_inj_tail. lia. }
      exists st'. split; [done|]. rewrite Ec, add_entry_snoc.
      assert (Hne : b <> new).
      { intros ->. destruct (Hsep new).
        - rewrite fmap_app. set_solver.
        - destruct (layout_ok_elim ly _ _ Hok) as (Hly' & _).
          destruct (layout_sizes_facts ly Hly') as (_ & _ & _ & _ & _ & _ & _ & HSB).
          lia.
        - destruct (layout_ok_elim ly _ _ Hok) as (Hly' & _).
          destruct (layout_sizes_facts ly Hly') as (_ & _ & _ & _ & _ & _ & _ & HSB).
          lia. }
      replace (b =? new) with false by lia.
      replace (Lp ++ [(b, es); (new, [{| e_string := s; e_nbytes := nbytes |}])])
        with ((Lp ++ [(b, es)])
              ++ [(new, [{| e_string := s; e_nbytes := nbytes |}])])
        by (by rewrite <- app_assoc).
      by rewrite last_block_snoc.
Qed.

(** X30.  [pin_string] takes a string out of the small blocks for good:
    a unibyte string that owns an [sdata] of the small blocks
    gets a block of its own at the head of [large_sblocks], with its
    bytes and a terminating byte, and [size_byte] is -3; its old [sdata]
    becomes free, the small blocks stay in order, and a compaction after
    that changes neither the string nor its bytes. *)
Theorem pinned_string_stays (PURE_P : Z -> bool) st L s str new fuel :
  layout_ok ly st L = true ->
  s ∈ live_strings L ->
  strings st !! s = Some str ->
  size_byte str = -1 -> PURE_P (data str) = false ->
  STRING_BYTES str <= STRING_BYTES_MAX ly ->
  0 < new ->
  BOFF + sdata_size ly (STRING_BYTES str)
  <= FLEXSIZEOF_sblock ly (sdata_size ly (STRING_BYTES str)) ->
  (forall b, b ∈ fst <$> L ->
             b + SB <= new
             \/ new + FLEXSIZEOF_sblock ly (sdata_size ly (STRING_BYTES str))
                <= b) ->
  (length L + length (concat (snd <$> L)) <= fuel)%nat ->
  exists st1 st2 str1,
    pin_string ly PURE_P s new st = Some (Returns st1)
    /\ strings st1 !! s = Some str1
    /\ size_byte str1 = -3 /\ size str1 = STRING_BYTES str
    /\ data str1 = new + BOFF + OFF
    /\ large_sblocks st1 = new
    /\ (forall i, 0 <= i < STRING_BYTES str ->
                  mem st1 !! (data str1 + i) = mem st !! (data str + i))
    /\ mem st1 !! (data str1 + STRING_BYTES str) = Some (Byte 0)
    /\ layout_ok ly st1 (kill_entry s L) = true
    /\ compact_small_strings ly fuel st1 = Some st2
    /\ strings st2 !! s = Some str1
    /\ (forall i, 0 <= i <= STRING_BYTES str ->
                  mem st2 !! (data str1 + i) = mem st1 !! (data str1 + i)).
Proof.
  intros Hok Hs Hstr Hpin Hpure Hmax Hnew Hflex Hsep Hfuel.
  destruct (pin_string_spec ly PURE_P st L s str new Hok Hs Hstr
              ltac:(lia) Hpure Hmax Hnew Hflex Hsep)
    as (st1 & E1 & A1 & A2 & A3 & A4 & Hok1).
  destruct (layout_ok_elim ly st L Hok) as (Hly & _ & _ & Hnd).
  destruct (layout_sizes_facts ly Hly)
    as (HW & _ & _ & HOFF & _ & _ & Hboff & HSB).
  destruct (live_strings_elem ly L s Hs) as (Hnz & x & Hx & Hxs).
  pose proof (layout_ok_laid_out ly st L Hok) as Hlo.
  destruct (lo_placed ly _ _ Hlo x Hx) as (_ & _ & _ & Hxok).
  destruct (entry_ok_elim ly _ _ _ Hxok) as (Hn & _ & _ & Hlive).
  destruct Hlive as (str0 & Hstr0 & _ & Hbytes);
    [unfold p_string in Hxs; lia|].
  assert (str0 = str) as -> by (unfold p_string in Hxs; congruence).
  destruct (sdata_size_bounds ly Hly (STRING_BYTES str)) as (Hsn & _).
  destruct (live_strings_kill_NoDup s L Hnz Hnd) as (_ & Hnot).
  destruct (compact_small_strings_run ly st1 (kill_entry s L) fuel Hok1)
    as (st2 & E2 & _ & B1 & B2 & _).
  { unfold kill_entry at 1. rewrite length_fmap, kill_entry_entries.
    by rewrite length_fmap. }
  exists st1, st2. eexists. split; [done|]. split; [exact A1|].
  cbn [size size_byte data].
  split_and!; try done.
  - rewrite B1 by done. exact A1.
  - intros i Hi. apply B2. rewrite kill_entry_fst. intros b Hb.
    destruct (Hsep b Hb); lia.
Qed.

End layout.

Lemma large_string_gets_own_block_witness :
  exists st',
    allocate_string_data lp64_layout 1000 2000 2000 false false 16384
      no_strings
    = Some (Returns st')
    /\ strings st' !! 1000
       = Some {| size := 2000; size_byte := 2000; data := 16384 + 16 + 8 |}
    /\ large_sblocks st' = 16384
    /\ sblocks st' !! 16384
       = Some {| next := large_sblocks no_strings;
                 next_free := 16384 + 16 + sdata_size lp64_layout 2000 |}
    /\ current_sblock st' = current_sblock no_strings
    /\ oldest_sblock st' = oldest_sblock no_strings.
Proof.
  destruct (large_string_gets_own_block lp64_layout eq_refl 1000 2000 2000
              false false 16384 no_strings)
    as (st' & E & A1 & A2 & A3 & A4 & A5 & _).
  - vm_compute. split; discriminate.
  - reflexivity.
  - discriminate.
  - eexists. reflexivity.
  - vm_compute. discriminate.
  - exists st'. split_and!; assumption.
Defined.

Lemma small_string_packed_witness :
  exists st',
    allocate_string_data lp64_layout 1032 5 5 false false 0
      example_one_string
    = Some (Returns st')
    /\ strings st' !! 1032
       = Some {| size := 5; size_byte := 5; data := 16416 + 8 |}
    /\ sblocks st' !! 16384
       = Some {| next := 0;
                 next_free := 16416 + sdata_size lp64_layout 5 |}
    /\ current_sblock st' = 16384.
Proof.
  destruct (small_string_packed lp64_layout eq_refl 1032 5 5 false 0
              example_one_string {| next := 0; next_free := 16416 |})
    as (st' & E & A1 & A2 & A3 & _).
  - vm_compute. split; discriminate.
  - vm_compute. discriminate.
  - vm_compute. discriminate.
  - vm_compute. reflexivity.
  - vm_compute. discriminate.
  - eexists. vm_compute. reflexivity.
  - exists st'. split_and!; assumption.
Defined.

Lemma small_string_new_block_witness :
  exists st',
    allocate_string_data lp64_layout 1000 3 3 false false 16384 no_strings
    = Some (Returns st')
    /\ strings st' !! 1000
       = Some {| size := 3; size_byte := 3; data := 16384 + 16 + 8 |}
    /\ current_sblock st' = 16384
    /\ sblocks st' !! 16384
       = Some {| next := 0;
                 next_free := 16384 + 16 + sdata_size lp64_layout 3 |}
    /\ oldest_sblock st' = 16384.
Proof.
  destruct (small_string_new_block lp64_layout eq_refl 1000 3 3 false 16384
              no_strings)
    as (st' & E & A1 & A2 & A3 & A4 & _).
  - vm_compute. split; discriminate.
  - vm_compute. discriminate.
  - intros H. exfalso. apply H. reflexivity.
  - discriminate.
  - reflexivity.
  - eexists. reflexivity.
  - exists st'. split_and!; try assumption. apply A4. reflexivity.
Defined.

Lemma allocation_keeps_layout_witness :
  exists st',
    allocate_string_data lp64_layout 1032 5 5 false false 32768
      example_one_string
    = Some (Returns st')
    /\ current_sblock st'
       = last_block
           (add_entry (current_sblock st')
              {| e_string := 1032; e_nbytes := 5 |}
              [(16384, [ {| e_string := 1000; e_nbytes := 3 |} ])])
    /\ layout_ok lp64_layout st'
         (add_entry (current_sblock st')
            {| e_string := 1032; e_nbytes := 5 |}
            [(16384, [ {| e_string := 1000; e_nbytes := 3 |} ])])
       = true.
Proof.
  apply (allocation_keeps_layout lp64_layout example_one_string
           [(16384, [ {| e_string := 1000; e_nbytes := 3 |} ])]
           1032 5 5 false 32768).
  - vm_compute. reflexivity.
  - vm_compute. reflexivity.
  - discriminate.
  - intros H%list_elem_of_In. vm_compute in H. destruct H as [H|[]].
    discriminate H.
  - eexists. vm_compute. reflexivity.
  - vm_compute. split; discriminate.
  - vm_compute. discriminate.
  - vm_compute. discriminate.
  - reflexivity.
  - vm_compute. reflexivity.
  - intros b Hb%list_elem_of_In. vm_compute in Hb. destruct Hb as [<-|[]].
    left. vm_compute. discriminate.
Defined.

Lemma pinned_string_stays_witness :
  exists st1 st2 str1,
    pin_string lp64_layout (fun _ => false) 1032 32768 example_unibyte
    = Some (Returns st1)
    /\ strings st1 !! 1032 = Some str1
    /\ size_byte str1 = -3 /\ size str1 = 5
    /\ data str1 = 32768 + 16 + 8
    /\ large_sblocks st1 = 32768
    /\ layout_ok lp64_layout st1 (kill_entry 1032 example_three_layout) = true
    /\ compact_small_strings lp64_layout 10 st1 = Some st2
    /\ strings st2 !! 1032 = Some str1
    /\ (forall i, 0 <= i <= 5 ->
                  mem st2 !! (data str1 + i) = mem st1 !! (data str1 + i)).
Proof.
  destruct (pinned_string_stays lp64_layout (fun _ => false) example_unibyte
              example_three_layout 1032
              {| size := 5; size_byte := -1; data := 16424 |} 32768 10%nat)
    as (st1 & st2 & str1 & E & A1 & A2 & A3 & A4 & A5 & A6 & A7 & A8 & A9
        & A10 & A11).
  - vm_compute. reflexivity.
  - apply list_elem_of_In. vm_compute. tauto.
  - vm_compute. reflexivity.
  - reflexivity.
  - reflexivity.
  - vm_compute. discriminate.
  - reflexivity.
  - vm_compute. discriminate.
  - intros b Hb%list_elem_of_In. vm_compute in Hb. destruct Hb as [<-|[]].
    left. vm_compute. discriminate.
  - vm_compute. lia.
  - exists st1, st2, str1. split_and!; assumption.
Defined.

End StringsProofs.
